(** * BBarolo: source finder objects, object growing and parameter guessing

    A shallow embedding of the parts of BBarolo that build detections
    (Map/object2D.cpp, the Object3D member functions, Map/objectgrower.cpp)
    and derive first-guess ring parameters from a detection
    (Utilities/paramguess.cpp), with the properties proved about them.

    Conventions.
    - The C++ integer types [long], [int], [size_t] are modelled as [Z];
      signed overflow is undefined behaviour in C++ and outside the model.
      The one narrowing conversion that changes what is stored, the
      [std::pair<int,...>] built in [Object3D::addPixel], is written out
      ([to_int]).
    - [std::vector<Scan>] is a [list Scan]; [std::map<long,Object2D>] is a
      list of (key, value) pairs kept in increasing key order, searched
      linearly exactly as the member functions do.
    - The template parameter [T] (float or double) of ParamGuess is modelled
      by the real numbers [R], without rounding; a NaN pixel of the velocity
      field is [None].  Where the guesser divides by a value that can be 0
      ([findInclination], [findRotationVelocity]) the result is a number,
      plus infinity or a NaN ([fpval]), and the angle that [findAxisLength]
      computes and compares with 90 is a parameter ([atan_deg]).  The loop
      [while (p<180)] of [findPositionAngle] runs on fuel and is shown to
      return.
    - The centroid of an object is a [float]: it is modelled in IEEE single
      precision, with the specification of floating-point numbers of the
      library ([SpecFloat]).
    - [growFromPixel] pushes onto the vector it is iterating over: the
      vector is modelled with its capacity, and a run that uses the iterator
      after a reallocation ends as [Undefined].
    - [ParamGuess::fitSimplex] is modelled over an arbitrary arithmetic (the
      class [Arith]), of which nothing is assumed; its loop runs on fuel and
      is shown to return whatever the arithmetic and the objective function
      are.  The conversions between [T] and [double] are left out.
    - A loop whose counter is an [int] or a [short] while its bounds are
      [long] ([calcParams], [getNumDistinctX], [Object3D::addScan],
      [getMaxAdjacentChannels], [updateDetectMap]) is written with the
      conversion ([to_int], [to_short]); what is proved of it is stated for
      the values the counter holds.
    - The invariants of the objects are stated for the objects the member
      functions build, [built2D] and [built3D]: those reached from the
      empty object by [addPixel] and [addOffsets]. *)

From Stdlib Require Import ZArith List Lia Bool QArith Qround Qabs Reals Lra Sorted.
From Stdlib Require SpecFloat.
From stdpp Require Import base list.
Import ListNotations.

(** ** Pixels, scans and two-dimensional objects (namespace PixelInfo) *)

Module PixelInfo.

Local Open Scope Z_scope.

(** [low, low+1, ..., low+n-1]: the values a loop
    [for (x = low; x <= high; x++)] runs through when [n = high-low+1]. *)
Fixpoint zseq (low : Z) (n : nat) : list Z :=
  match n with
  | O => []
  | S n' => low :: zseq (low + 1) n'
  end.

(** The values of [for (x = low; x <= high; x++)]. *)
Definition zrange (low high : Z) : list Z := zseq low (Z.to_nat (high - low + 1)).

(** Conversion of a [long] to a 32-bit [int]. *)
Definition to_int (z : Z) : Z := (z + 2147483648) mod 4294967296 - 2147483648.

(** A run of [itsXLen] pixels on row [itsY] starting at column [itsX]
    ([Scan newOne(y,x,1)] gives the argument order). *)
Record Scan : Type := mkScan { itsY : Z; itsX : Z; itsXLen : Z }.

(** Modelled from the spec: the Scan member functions live in Map/scan.hh
    and scan.cpp, which are not among the sources.  A scan is a horizontal
    run; its last column is [itsX + itsXLen - 1], written out like this in
    [Object2D::isClose]. *)
Definition getXmax (s : Scan) : Z := itsX s + itsXLen s - 1.

(** Modelled from the spec: Scan::isInScan, the test [Object2D::isInObject]
    writes inline. *)
Definition isInScan (s : Scan) (x y : Z) : bool :=
  (y =? itsY s) && (itsX s <=? x) && (x <=? getXmax s).

(** Modelled from the spec: Scan::growLeft, one more pixel on the left. *)
Definition growLeft (s : Scan) : Scan := mkScan (itsY s) (itsX s - 1) (itsXLen s + 1).

(** Modelled from the spec: Scan::growRight, one more pixel on the right. *)
Definition growRight (s : Scan) : Scan := mkScan (itsY s) (itsX s) (itsXLen s + 1).

(** Two scans of one row that overlap or abut. *)
Definition touches (s t : Scan) : bool :=
  (itsY s =? itsY t) && (itsX t <=? getXmax s + 1) && (itsX s <=? getXmax t + 1).

(** Modelled from the spec: Scan::addScan.  [Object2D::addPixel] documents
    it: scans of one row that touch are combined into one, and the call
    reports whether it did so.  [None] is the [false] return (the scan is
    left as it was). *)
Definition Scan_addScan (s t : Scan) : option Scan :=
  if touches s t
  then let x := Z.min (itsX s) (itsX t) in
       let xm := Z.max (getXmax s) (getXmax t) in
       Some (mkScan (itsY s) x (xm - x + 1))
  else None.

(** Modelled from the spec: Scan::addOffsets, a translation of the run. *)
Definition Scan_addOffsets (xoff yoff : Z) (s : Scan) : Scan :=
  mkScan (itsY s + yoff) (itsX s + xoff) (itsXLen s).

(** Modelled from the spec: minSep of Map/scan.hh, the separation of two
    scans "in pixels": the Euclidean distance between their nearest pixels.
    [minSepSq] is its square, an integer. *)
Definition minSepSq (s t : Scan) : Z :=
  let dy := itsY s - itsY t in
  if getXmax t <? itsX s then (itsX s - getXmax t) * (itsX s - getXmax t) + dy * dy
  else if getXmax s <? itsX t then (itsX t - getXmax s) * (itsX t - getXmax s) + dy * dy
  else dy * dy.

(** [minSep(s,t) < threshS], decided exactly: a non-negative distance is
    below [threshS] when [threshS] is positive and the squares compare. *)
Definition minSep_lt (s t : Scan) (threshS : Q) : bool :=
  negb (Qle_bool threshS 0%Q) &&
  negb (Qle_bool (threshS * threshS)%Q (inject_Z (minSepSq s t))).

(** The pixels of a scan and of a scan list, in the order
    [Object3D::getPixelSet] enumerates them. *)
Definition scan_pixels (s : Scan) : list (Z * Z) :=
  map (fun x => (x, itsY s)) (zrange (itsX s) (getXmax s)).

Definition pixels (l : list Scan) : list (Z * Z) := flat_map scan_pixels l.

(** *** Object2D *)

Module Object2D.

(** The cached fields of Object2D. *)
Record t : Type := mk {
  scanlist : list Scan;
  numPix : Z;
  xSum : Z;
  ySum : Z;
  xmin : Z;
  xmax : Z;
  ymin : Z;
  ymax : Z
}.

(** Modelled from the spec: the default constructor is declared in
    Map/object2D.hh; an object without pixels, with the start values the
    Object3D constructor gives its own fields. *)
Definition empty : t := mk [] 0 0 0 (-1) (-1) (-1) (-1).

(** First loop of [Object2D::addPixel]: the scans are visited in order until
    one of row [y] contains [x] or has [x] next to one of its ends; that one
    is grown.  The result is the list, [flagDone] and [flagChanged]. *)
Fixpoint addPixel_find (x y : Z) (l : list Scan) : list Scan * bool * bool :=
  match l with
  | [] => ([], false, false)
  | s :: r =>
      if (y =? itsY s) && isInScan s x y then (l, true, false)
      else if (y =? itsY s) && ((x =? itsX s - 1) || (x =? itsX s + itsXLen s))
      then ((if x =? itsX s - 1 then growLeft s else growRight s) :: r, true, true)
      else let '(r', d, c) := addPixel_find x y r in (s :: r', d, c)
  end.

(** Inner loop of the clean-up in [addPixel]: [scan1] is offered every later
    scan of row [y]; the first one it combines with is erased. *)
Fixpoint combine_into (y : Z) (s1 : Scan) (l : list Scan) : option (Scan * list Scan) :=
  match l with
  | [] => None
  | s2 :: r =>
      match (if itsY s2 =? y then Scan_addScan s1 s2 else None) with
      | Some s1' => Some (s1', r)
      | None =>
          match combine_into y s1 r with
          | Some (s1', r') => Some (s1', s2 :: r')
          | None => None
          end
      end
  end.

(** Outer loop of the clean-up: it stops at the first pair that combined. *)
Fixpoint combine_scans (y : Z) (l : list Scan) : list Scan :=
  match l with
  | [] => []
  | s1 :: r =>
      match (if itsY s1 =? y then combine_into y s1 r else None) with
      | Some (s1', r') => s1' :: r'
      | None => s1 :: combine_scans y r
      end
  end.

(** The update of the cached fields when the pixel is new. *)
Definition addPixel_params (o : t) (l : list Scan) (x y : Z) : t :=
  if numPix o =? 0
  then mk l 1 x y x x y y
  else mk l (numPix o + 1) (xSum o + x) (ySum o + y)
         (if x <? xmin o then x else xmin o)
         (if xmax o <? x then x else xmax o)
         (if y <? ymin o then y else ymin o)
         (if ymax o <? y then y else ymax o).

(** [Object2D::addPixel]. *)
Definition addPixel (o : t) (x y : Z) : t :=
  let '(l1, flagDone, flagChanged) := addPixel_find x y (scanlist o) in
  if negb flagDone then addPixel_params o (scanlist o ++ [mkScan y x 1]) x y
  else if flagChanged then addPixel_params o (combine_scans y l1) x y
  else o.

(** [Object2D::addScan]: the pixels of the scan, left to right. *)
Definition addScan (o : t) (s : Scan) : t :=
  fold_left (fun o' x => addPixel o' x (itsY s)) (zrange (itsX s) (getXmax s)) o.

(** [Object2D::isInObject]. *)
Definition isInObject (o : t) (x y : Z) : bool :=
  existsb (fun s => (y =? itsY s) && (itsX s <=? x) && (x <=? getXmax s)) (scanlist o).

(** The search [while(!inList && j<list.size())] followed by the
    conditional [push_back]. *)
Definition push_distinct (vals : list Z) (v : Z) : list Z :=
  if existsb (Z.eqb v) vals then vals else vals ++ [v].

(** [Object2D::getNumDistinctY]. *)
Definition getNumDistinctY (o : t) : Z :=
  match scanlist o with
  | [] => 0
  | [_] => 1
  | l => Z.of_nat (length (fold_left (fun ylist s => push_distinct ylist (itsY s)) l []))
  end.

(** [Object2D::getNumDistinctX]; the inner loop is
    [for(int x=scn->itsX; x<scn->getXmax(); x++)]. *)
Definition getNumDistinctX (o : t) : Z :=
  match scanlist o with
  | [] => 0
  | [_] => 1
  | l => Z.of_nat (length (fold_left
           (fun xlist s => fold_left push_distinct (zrange (to_int (itsX s)) (getXmax s - 1)) xlist)
           l []))
  end.

(** [Object2D::addOffsets]. *)
Definition addOffsets (o : t) (xoff yoff : Z) : t :=
  mk (map (Scan_addOffsets xoff yoff) (scanlist o))
    (numPix o)
    (xSum o + xoff * numPix o)
    (ySum o + yoff * numPix o)
    (xmin o + xoff) (xmax o + xoff)
    (ymin o + yoff) (ymax o + yoff).

(** [Object2D::isNear]: the bounding boxes, widened by [gap], meet. *)
Definition isNear (o other : t) (gap : Z) : bool :=
  let areNear :=
    if xmin o - gap <? xmin other then xmin other <=? xmax o + gap
    else xmin o - gap <=? xmax other in
  if areNear
  then if ymin o - gap <? ymin other
       then areNear && (ymin other <=? ymax o + gap)
       else areNear && (ymin o - gap <=? ymax other)
  else areNear.

(** The test [isClose] applies to one pair of scans whose rows are within
    [gap] of each other. *)
Definition closeTest (s1 s2 : Scan) (gap : Z) (threshS : Q) (flagAdj : bool) : bool :=
  if flagAdj
  then if itsX s2 <? itsX s1 - gap
       then itsX s1 - gap <=? itsX s2 + itsXLen s2 - 1
       else itsX s2 <=? itsX s1 + itsXLen s1 + gap - 1
  else minSep_lt s1 s2 threshS.

(** [Object2D::isClose]: both loops stop as soon as [close] is set. *)
Definition isClose (o other : t) (threshS : Q) (flagAdj : bool) : bool :=
  let gap := if flagAdj then 1 else Qceiling threshS in
  let ycommonMin := Z.max (ymin o - gap) (ymin other) - gap in
  let ycommonMax := Z.min (ymax o + gap) (ymax other) + gap in
  existsb (fun s1 =>
    (ycommonMin <=? itsY s1) && (itsY s1 <=? ycommonMax) &&
    existsb (fun s2 =>
      (ycommonMin <=? itsY s2) && (itsY s2 <=? ycommonMax) &&
      (Z.abs (itsY s1 - itsY s2) <=? gap) &&
      closeTest s1 s2 gap threshS flagAdj) (scanlist other)) (scanlist o).

(** [Object2D::canMerge]. *)
Definition canMerge (o other : t) (threshS : Q) (flagAdj : bool) : bool :=
  let gap := if flagAdj then 1 else Qceiling threshS in
  if isNear o other gap then isClose o other threshS flagAdj else false.

End Object2D.

(** *** Object3D *)

Module Object3D.

(** [std::map<long,Object2D>::insert]: the pair goes to its place in key
    order; a key that is present keeps its value. *)
Fixpoint map_insert (k : Z) (v : Object2D.t) (m : list (Z * Object2D.t)) : list (Z * Object2D.t) :=
  match m with
  | [] => [(k, v)]
  | (k', v') :: r =>
      if k <? k' then (k, v) :: m
      else if k =? k' then m
      else (k', v') :: map_insert k v r
  end.

(** The search [while(it!=chanlist.end() && it->first!=z) it++]. *)
Fixpoint find_chan (z : Z) (m : list (Z * Object2D.t)) : option Object2D.t :=
  match m with
  | [] => None
  | (k, v) :: r => if k =? z then Some v else find_chan z r
  end.

(** Assignment through the iterator the search stopped at. *)
Fixpoint set_chan (z : Z) (v : Object2D.t) (m : list (Z * Object2D.t)) : list (Z * Object2D.t) :=
  match m with
  | [] => []
  | (k, v') :: r => if k =? z then (k, v) :: r else (k, v') :: set_chan z v r
  end.

(** [chanlist.begin()->first] and [chanlist.rbegin()->first]. *)
Definition first_key (m : list (Z * Object2D.t)) : Z :=
  match m with
  | [] => 0
  | (k, _) :: _ => k
  end.

Definition last_key (m : list (Z * Object2D.t)) : Z := first_key (rev m).

(** The cached fields of Object3D. *)
Record t : Type := mk {
  chanlist : list (Z * Object2D.t);
  numVox : Z;
  xSum : Z;
  ySum : Z;
  zSum : Z;
  xmin : Z;
  xmax : Z;
  ymin : Z;
  ymax : Z;
  zmin : Z;
  zmax : Z
}.

(** [Object3D::Object3D()]. *)
Definition empty : t := mk [] 0 0 0 0 (-1) (-1) (-1) (-1) (-1) (-1).

(** [Object3D::isInObject]. *)
Definition isInObject (o : t) (x y z : Z) : bool :=
  match find_chan z (chanlist o) with
  | None => false
  | Some c => Object2D.isInObject c x y
  end.

(** [Object3D::addPixel]. *)
Definition addPixel (o : t) (x y z : Z) : t :=
  match find_chan z (chanlist o) with
  | None =>
      let obj := Object2D.addPixel Object2D.empty x y in
      let cl := map_insert (to_int z) obj (chanlist o) in
      if numVox o =? 0
      then mk cl 1 x y z x x y y z z
      else mk cl (numVox o + 1) (xSum o + x) (ySum o + y) (zSum o + z)
             (if x <? xmin o then x else xmin o)
             (if xmax o <? x then x else xmax o)
             (if y <? ymin o then y else ymin o)
             (if ymax o <? y then y else ymax o)
             (first_key cl) (last_key cl)
  | Some c =>
      let c' := Object2D.addPixel c x y in
      mk (set_chan z c' (chanlist o))
         (numVox o - Object2D.numPix c + Object2D.numPix c')
         (xSum o - Object2D.xSum c + Object2D.xSum c')
         (ySum o - Object2D.ySum c + Object2D.ySum c')
         (zSum o - z * Object2D.numPix c + z * Object2D.numPix c')
         (if x <? xmin o then x else xmin o)
         (if xmax o <? x then x else xmax o)
         (if y <? ymin o then y else ymin o)
         (if ymax o <? y then y else ymax o)
         (zmin o) (zmax o)
  end.

(** [Object3D::addOffsets]: the channels are re-inserted, shifted, into a
    new map, which replaces the old one. *)
Definition addOffsets (o : t) (xoff yoff zoff : Z) : t :=
  let newmap :=
    fold_left (fun nm kv => map_insert (fst kv + zoff) (Object2D.addOffsets (snd kv) xoff yoff) nm)
      (chanlist o) [] in
  if 0 <? numVox o
  then mk newmap (numVox o)
         (xSum o + xoff * numVox o) (ySum o + yoff * numVox o) (zSum o + zoff * numVox o)
         (xmin o + xoff) (xmax o + xoff)
         (ymin o + yoff) (ymax o + yoff)
         (zmin o + zoff) (zmax o + zoff)
  else mk newmap (numVox o) (xSum o) (ySum o) (zSum o)
         (xmin o) (xmax o) (ymin o) (ymax o) (zmin o) (zmax o).

(** The type [float], IEEE 754 single precision (24 bits of precision,
    exponents up to 128), with the conversion of an integer and the division
    as the specification of floating-point numbers of the library has
    them. *)
Definition float : Type := SpecFloat.spec_float.

Definition float_of_Z (n : Z) : float := SpecFloat.binary_normalize 24 128 n 0 false.

Definition float_div (a b : float) : float := SpecFloat.SFdiv 24 128 a b.

(** [Object3D::getXaverage], [getYaverage], [getZaverage]: the centroid,
    [xSum/float(numVox)], a division of two floats, and [0.] for an object
    without voxels.  (The sums are integers here, as everywhere in the
    model; the header that declares them is not among the sources.) *)
Definition getXaverage (o : t) : float :=
  if 0 <? numVox o then float_div (float_of_Z (xSum o)) (float_of_Z (numVox o))
  else SpecFloat.S754_zero false.

Definition getYaverage (o : t) : float :=
  if 0 <? numVox o then float_div (float_of_Z (ySum o)) (float_of_Z (numVox o))
  else SpecFloat.S754_zero false.

Definition getZaverage (o : t) : float :=
  if 0 <? numVox o then float_div (float_of_Z (zSum o)) (float_of_Z (numVox o))
  else SpecFloat.S754_zero false.

(** The number a float stands for, when it is one. *)
Definition float_value (f : float) : option Q :=
  match f with
  | SpecFloat.S754_zero _ => Some 0%Q
  | SpecFloat.S754_finite s m e =>
      Some ((if s then - inject_Z (Z.pos m) else inject_Z (Z.pos m)) * Qpower 2 e)%Q
  | _ => None
  end.

(** The voxels [Object3D::getPixelSet] enumerates: channel by channel, scan
    by scan, left to right. *)
Definition voxels (o : t) : list (Z * Z * Z) :=
  flat_map (fun kv => map (fun p => (fst p, snd p, fst kv)) (pixels (Object2D.scanlist (snd kv))))
    (chanlist o).

End Object3D.

End PixelInfo.

(** ** Properties of scans and objects *)

Module PixelInfoProps.

Import PixelInfo.
Local Open Scope Z_scope.

(** The number of distinct columns, and of distinct rows, an object covers:
    what [getNumDistinctX] and [getNumDistinctY] are named after. *)
Definition distinct_columns (o : Object2D.t) : Z :=
  Z.of_nat (length (nodup Z.eq_dec (map fst (pixels (Object2D.scanlist o))))).

Definition distinct_rows (o : Object2D.t) : Z :=
  Z.of_nat (length (nodup Z.eq_dec (map snd (pixels (Object2D.scanlist o))))).

(** Every scan is a non-empty run. *)
Definition wf_scan (s : Scan) : Prop := 1 <= itsXLen s.

(** One row of three pixels, and a block of two rows of two pixels. *)
Definition row3 : Object2D.t := Object2D.mk [mkScan 0 0 3] 3 3 0 0 2 0 0.

Definition block22 : Object2D.t := Object2D.mk [mkScan 0 0 2; mkScan 1 0 2] 4 2 2 0 1 0 1.

(** *** Ranges *)

Lemma elem_of_zseq x a n : x ∈ zseq a n <-> a <= x < a + Z.of_nat n.
Proof.
  revert a; induction n as [|n IH]; intros a; simpl.
  - rewrite elem_of_nil. lia.
  - rewrite elem_of_cons, IH. lia.
Qed.

Lemma elem_of_zrange x a b : x ∈ zrange a b <-> a <= x <= b.
Proof. unfold zrange. rewrite elem_of_zseq. lia. Qed.

Lemma NoDup_zseq a n : NoDup (zseq a n).
Proof.
  revert a; induction n as [|n IH]; intros a; simpl; constructor.
  - rewrite elem_of_zseq. lia.
  - apply IH.
Qed.

Lemma length_zseq a n : length (zseq a n) = n.
Proof. revert a; induction n; intros; simpl; auto. Qed.

Lemma zseq_map_add a n d : map (fun x => x + d) (zseq a n) = zseq (a + d) n.
Proof.
  revert a; induction n as [|n IH]; intros a; simpl; [reflexivity|].
  rewrite IH. f_equal. f_equal. lia.
Qed.

(** *** Counting distinct values *)

Lemma push_distinct_elem v vals w :
  w ∈ Object2D.push_distinct vals v <-> w ∈ vals \/ w = v.
Proof.
  unfold Object2D.push_distinct.
  destruct (existsb (Z.eqb v) vals) eqn:E.
  - split; [auto|]. intros [H| ->]; auto.
    apply existsb_exists in E as (u & Hu & Huv). apply Z.eqb_eq in Huv. subst.
    now apply list_elem_of_In.
  - rewrite elem_of_app, list_elem_of_singleton. tauto.
Qed.

Lemma push_distinct_NoDup v vals : NoDup vals -> NoDup (Object2D.push_distinct vals v).
Proof.
  unfold Object2D.push_distinct. intros H.
  destruct (existsb (Z.eqb v) vals) eqn:E; auto.
  apply NoDup_app. split; [auto|]. split; [|apply NoDup_singleton].
  intros w Hw Hv. apply list_elem_of_singleton in Hv. subst.
  assert (existsb (Z.eqb v) vals = true) as E'; [|congruence].
  apply existsb_exists. exists v. split; [now apply list_elem_of_In | apply Z.eqb_refl].
Qed.

Lemma fold_push_rows (l : list Scan) (acc : list Z) :
  NoDup acc ->
  NoDup (fold_left (fun ylist s => Object2D.push_distinct ylist (itsY s)) l acc) /\
  forall w, w ∈ fold_left (fun ylist s => Object2D.push_distinct ylist (itsY s)) l acc
            <-> w ∈ acc \/ w ∈ map itsY l.
Proof.
  revert acc; induction l as [|s l IH]; intros acc Hacc; simpl.
  - split; [auto|]. intros w. rewrite elem_of_nil. tauto.
  - destruct (IH _ (push_distinct_NoDup (itsY s) acc Hacc)) as [Hn He].
    split; [exact Hn|]. intros w. rewrite He, push_distinct_elem, elem_of_cons. tauto.
Qed.

Lemma rows_of_pixels (l : list Scan) w :
  Forall wf_scan l -> w ∈ map snd (pixels l) <-> w ∈ map itsY l.
Proof.
  induction 1 as [|s l Hs Hl IH]; simpl; [tauto|].
  unfold pixels in *. simpl. rewrite map_app, elem_of_app, IH, elem_of_cons.
  assert (w ∈ map snd (scan_pixels s) <-> w = itsY s) as ->; [|tauto].
  unfold scan_pixels. rewrite map_map. simpl. rewrite list_elem_of_fmap.
  split.
  - intros (x & -> & _). reflexivity.
  - intros ->. exists (itsX s). split; [reflexivity|].
    apply elem_of_zrange. unfold getXmax, wf_scan in *. lia.
Qed.

(** [getNumDistinctY] counts the rows of an object made of non-empty scans. *)
Lemma getNumDistinctY_counts_rows (o : Object2D.t) :
  Forall wf_scan (Object2D.scanlist o) -> Object2D.getNumDistinctY o = distinct_rows o.
Proof.
  intros Hwf. unfold distinct_rows.
  assert (Z.of_nat (length (fold_left (fun ylist s => Object2D.push_distinct ylist (itsY s))
                              (Object2D.scanlist o) []))
          = Z.of_nat (length (nodup Z.eq_dec (map snd (pixels (Object2D.scanlist o)))))) as Hgen.
  { f_equal. apply Permutation_length. apply NoDup_Permutation.
    - apply fold_push_rows. constructor.
    - apply NoDup_ListNoDup, NoDup_nodup.
    - intros w. destruct (fold_push_rows (Object2D.scanlist o) [] (NoDup_nil_2 (A:=Z))) as [_ ->].
      rewrite elem_of_nil, <- (rows_of_pixels _ w Hwf).
      rewrite (list_elem_of_In (nodup _ _) w), nodup_In, <- list_elem_of_In. tauto. }
  unfold Object2D.getNumDistinctY.
  destruct (Object2D.scanlist o) as [|s [|s' l]] eqn:El; [reflexivity| |exact Hgen].
  rewrite <- Hgen. reflexivity.
Qed.

(** C10 (the code departs from the documented behaviour).  [getNumDistinctX] is meant to
    count the distinct columns of an object, the last pixel of every scan
    included, as [getNumDistinctY] counts its rows.  A single scan of three
    pixels covers three columns and the function answers 1 (the shortcut for
    one scan); two scans over columns 0 and 1 cover two columns and the
    function answers 1 (the loop stops before the last pixel of each scan).
    [getNumDistinctY] gives the right number of rows on both objects. *)
Theorem getNumDistinctX_misses_columns :
  Object2D.getNumDistinctX row3 = 1 /\ distinct_columns row3 = 3 /\
  Object2D.getNumDistinctX block22 = 1 /\ distinct_columns block22 = 2 /\
  Object2D.getNumDistinctY row3 = distinct_rows row3 /\
  Object2D.getNumDistinctY block22 = distinct_rows block22.
Proof. repeat split; vm_compute; reflexivity. Qed.

(** *** Translation of objects *)

Lemma isInObject2D_addOffsets (o : Object2D.t) xoff yoff x y :
  Object2D.isInObject (Object2D.addOffsets o xoff yoff) (x + xoff) (y + yoff)
  = Object2D.isInObject o x y.
Proof.
  unfold Object2D.isInObject, Object2D.addOffsets. simpl.
  induction (Object2D.scanlist o) as [|s l IH]; simpl; [reflexivity|].
  rewrite IH. f_equal. unfold getXmax, Scan_addOffsets. simpl.
  apply eq_true_iff_eq. rewrite !andb_true_iff, !Z.eqb_eq, !Z.leb_le. lia.
Qed.

(** Keys in strictly increasing order: the order of a [std::map]. *)
Fixpoint sorted_keys (m : list (Z * Object2D.t)) : Prop :=
  match m with
  | [] => True
  | kv :: r => Forall (fun kv' => fst kv < fst kv') r /\ sorted_keys r
  end.

Lemma find_chan_below k m : Forall (fun kv' => k < fst kv') m -> Object3D.find_chan k m = None.
Proof.
  induction 1 as [|[k' v'] m Hk _ IH]; simpl in *; [reflexivity|].
  destruct (k' =? k) eqn:E; [lia|exact IH].
Qed.

Lemma map_insert_sorted k v m : sorted_keys m -> sorted_keys (Object3D.map_insert k v m).
Proof.
  induction m as [|[k' v'] m IH]; simpl; intros Hs.
  - split; [constructor|exact I].
  - destruct Hs as [Hall Hs].
    destruct (k <? k') eqn:E1; [|destruct (k =? k') eqn:E2]; simpl.
    + split; [|split; assumption]. constructor; [simpl; lia|].
      eapply Forall_impl; [exact Hall|]. simpl. intros; lia.
    + split; assumption.
    + split; [|apply IH; assumption].
      clear IH Hs. induction Hall as [|[k2 v2] m Hk Hall IH]; simpl.
      * constructor; [simpl; lia|constructor].
      * destruct (k <? k2) eqn:E3; [|destruct (k =? k2) eqn:E4].
        -- constructor; [simpl; lia|]. constructor; assumption.
        -- constructor; assumption.
        -- constructor; assumption.
Qed.

Lemma find_chan_map_insert k' k v m :
  sorted_keys m ->
  Object3D.find_chan k' (Object3D.map_insert k v m) =
  if k' =? k then match Object3D.find_chan k m with Some w => Some w | None => Some v end
  else Object3D.find_chan k' m.
Proof.
  induction m as [|[k0 v0] m IH]; simpl; intros Hs.
  - rewrite (Z.eqb_sym k k'). reflexivity.
  - destruct Hs as [Hall Hs]. simpl in Hall.
    destruct (Z.ltb_spec k k0) as [E1|E1]; [|destruct (Z.eqb_spec k k0) as [E2|E2]]; simpl.
    + rewrite (Z.eqb_sym k k'). destruct (Z.eqb_spec k' k) as [E3|E3].
      * destruct (Z.eqb_spec k0 k) as [E4|E4]; [lia|].
        rewrite find_chan_below; [reflexivity|].
        eapply Forall_impl; [exact Hall|]. simpl; intros; lia.
      * reflexivity.
    + subst k0. rewrite Z.eqb_refl.
      destruct (Z.eqb_spec k' k) as [E3|E3].
      * subst. rewrite Z.eqb_refl. reflexivity.
      * destruct (Z.eqb_spec k k') as [E4|E4]; [lia|reflexivity].
    + rewrite IH by assumption.
      destruct (Z.eqb_spec k0 k') as [E3|E3]; destruct (Z.eqb_spec k' k) as [E4|E4];
        destruct (Z.eqb_spec k0 k) as [E5|E5]; try reflexivity; try lia.
Qed.

Lemma fold_insert_sorted xoff yoff zoff l acc :
  sorted_keys acc ->
  sorted_keys (fold_left (fun nm kv => Object3D.map_insert (fst kv + zoff)
                                         (Object2D.addOffsets (snd kv) xoff yoff) nm) l acc).
Proof.
  revert acc; induction l as [|kv l IH]; simpl; intros acc Hs; [exact Hs|].
  apply IH, map_insert_sorted, Hs.
Qed.

Lemma find_chan_fold_insert xoff yoff zoff l acc k :
  sorted_keys acc ->
  Object3D.find_chan (k + zoff)
    (fold_left (fun nm kv => Object3D.map_insert (fst kv + zoff)
                               (Object2D.addOffsets (snd kv) xoff yoff) nm) l acc) =
  match Object3D.find_chan (k + zoff) acc with
  | Some w => Some w
  | None => option_map (fun c => Object2D.addOffsets c xoff yoff) (Object3D.find_chan k l)
  end.
Proof.
  revert acc; induction l as [|[k0 v0] l IH]; simpl; intros acc Hs.
  - destruct (Object3D.find_chan (k + zoff) acc); reflexivity.
  - rewrite IH by (apply map_insert_sorted, Hs).
    rewrite find_chan_map_insert by exact Hs.
    destruct (Z.eqb_spec (k + zoff) (k0 + zoff)) as [E|E];
      destruct (Z.eqb_spec k0 k) as [E'|E']; try lia.
    + replace (k0 + zoff) with (k + zoff) by lia.
      destruct (Object3D.find_chan (k + zoff) acc); reflexivity.
    + reflexivity.
Qed.

Lemma isInObject3D_addOffsets (o : Object3D.t) xoff yoff zoff x y z :
  Object3D.isInObject (Object3D.addOffsets o xoff yoff zoff) (x + xoff) (y + yoff) (z + zoff)
  = Object3D.isInObject o x y z.
Proof.
  unfold Object3D.isInObject.
  assert (Object3D.chanlist (Object3D.addOffsets o xoff yoff zoff) =
          fold_left (fun nm kv => Object3D.map_insert (fst kv + zoff)
                                    (Object2D.addOffsets (snd kv) xoff yoff) nm)
                    (Object3D.chanlist o) []) as ->.
  { unfold Object3D.addOffsets. destruct (0 <? Object3D.numVox o); reflexivity. }
  rewrite find_chan_fold_insert by exact I. simpl.
  destruct (Object3D.find_chan z (Object3D.chanlist o)) as [c|]; simpl; [|reflexivity].
  apply isInObject2D_addOffsets.
Qed.

Lemma average_shift (s n off : Z) :
  0 < n -> (inject_Z (s + off * n) / inject_Z n == inject_Z s / inject_Z n + inject_Z off)%Q.
Proof.
  intros Hn. rewrite inject_Z_plus, inject_Z_mult. field.
  intros H. apply (inject_Z_injective n 0) in H. lia.
Qed.

(** Two voxels of one row. *)
Definition two_voxels : Object3D.t :=
  Object3D.addPixel (Object3D.addPixel Object3D.empty 0 0 0) 1 0 0.

(** C9 (amended).  [Object3D::addOffsets] translates the object: the
    translated object contains (x+xoff, y+yoff, z+zoff) exactly when the
    object contained (x, y, z), and the voxel count is unchanged.  For an
    object with voxels the bounding box moves by the offset vector and each
    coordinate sum grows by the offset times the number of voxels, so that
    the quotient of sum and count moves by the offset vector.  An object
    without voxels keeps its cached fields as they were. *)
Theorem addOffsets_translates (o : Object3D.t) (xoff yoff zoff : Z) :
  let o' := Object3D.addOffsets o xoff yoff zoff in
  (forall x y z, Object3D.isInObject o' (x + xoff) (y + yoff) (z + zoff) = Object3D.isInObject o x y z) /\
  Object3D.numVox o' = Object3D.numVox o /\
  (0 < Object3D.numVox o ->
   Object3D.xmin o' = Object3D.xmin o + xoff /\ Object3D.xmax o' = Object3D.xmax o + xoff /\
   Object3D.ymin o' = Object3D.ymin o + yoff /\ Object3D.ymax o' = Object3D.ymax o + yoff /\
   Object3D.zmin o' = Object3D.zmin o + zoff /\ Object3D.zmax o' = Object3D.zmax o + zoff /\
   Object3D.xSum o' = Object3D.xSum o + xoff * Object3D.numVox o /\
   Object3D.ySum o' = Object3D.ySum o + yoff * Object3D.numVox o /\
   Object3D.zSum o' = Object3D.zSum o + zoff * Object3D.numVox o /\
   (inject_Z (Object3D.xSum o') / inject_Z (Object3D.numVox o')
    == inject_Z (Object3D.xSum o) / inject_Z (Object3D.numVox o) + inject_Z xoff)%Q /\
   (inject_Z (Object3D.ySum o') / inject_Z (Object3D.numVox o')
    == inject_Z (Object3D.ySum o) / inject_Z (Object3D.numVox o) + inject_Z yoff)%Q /\
   (inject_Z (Object3D.zSum o') / inject_Z (Object3D.numVox o')
    == inject_Z (Object3D.zSum o) / inject_Z (Object3D.numVox o) + inject_Z zoff)%Q) /\
  (Object3D.numVox o <= 0 ->
   Object3D.xmin o' = Object3D.xmin o /\ Object3D.xmax o' = Object3D.xmax o /\
   Object3D.ymin o' = Object3D.ymin o /\ Object3D.ymax o' = Object3D.ymax o /\
   Object3D.zmin o' = Object3D.zmin o /\ Object3D.zmax o' = Object3D.zmax o /\
   Object3D.xSum o' = Object3D.xSum o /\ Object3D.ySum o' = Object3D.ySum o /\
   Object3D.zSum o' = Object3D.zSum o).
Proof.
  intros o'. split; [intros x y z; apply isInObject3D_addOffsets|].
  subst o'. unfold Object3D.addOffsets.
  destruct (Z.ltb_spec 0 (Object3D.numVox o)) as [Hn|Hn]; simpl.
  - split; [reflexivity|]. split; [|intros; lia].
    intros _. repeat split; try reflexivity; apply average_shift; assumption.
  - split; [reflexivity|]. split; [intros; lia|]. intros _. repeat split; reflexivity.
Qed.

(** Three voxels in the columns 0, 1 and 1. *)
Definition corner_voxels : Object3D.t :=
  Object3D.addPixel (Object3D.addPixel (Object3D.addPixel Object3D.empty 0 0 0) 1 0 0) 1 1 0.

(** C9, as stated, fails: translating two voxels by one column adds 2 to
    the sum of the columns, not 1; the bounding box of the empty object
    does not move; and the centroid, a quotient of floats, does not move by
    the offset: for the three voxels in the columns 0, 1 and 1
    [getXaverage] is 11184811/2^24, the float next to 2/3, and after a
    translation by one column it is 13981013/2^23, the float next to 5/3,
    which is 16777215/2^24 more and not 1 more. *)
Lemma addOffsets_sums_shift_by_count :
  Object3D.xSum two_voxels = 1 /\
  Object3D.xSum (Object3D.addOffsets two_voxels 1 0 0) = 3 /\
  Object3D.xSum (Object3D.addOffsets two_voxels 1 0 0) <> Object3D.xSum two_voxels + 1 /\
  Object3D.xmin (Object3D.addOffsets Object3D.empty 1 1 1) <> Object3D.xmin Object3D.empty + 1 /\
  Object3D.getXaverage corner_voxels = SpecFloat.S754_finite false 11184811 (-24) /\
  Object3D.getXaverage (Object3D.addOffsets corner_voxels 1 0 0)
  = SpecFloat.S754_finite false 13981013 (-23) /\
  (exists a b,
     Object3D.float_value (Object3D.getXaverage corner_voxels) = Some a /\
     Object3D.float_value (Object3D.getXaverage (Object3D.addOffsets corner_voxels 1 0 0)) = Some b /\
     (b - a == 16777215 # 16777216)%Q /\ ~ (b == a + 1)%Q).
Proof.
  split; [reflexivity|]. split; [reflexivity|]. split; [vm_compute; congruence|].
  split; [vm_compute; congruence|]. split; [reflexivity|]. split; [reflexivity|].
  eexists _, _. split; [reflexivity|]. split; [reflexivity|].
  split; vm_compute; congruence.
Qed.

(** *** Merging two-dimensional objects *)

(** The bounding box of the object encloses its scans, which are non-empty. *)
Definition encloses (o : Object2D.t) : bool :=
  forallb (fun s => (1 <=? itsXLen s) && (Object2D.xmin o <=? itsX s) && (getXmax s <=? Object2D.xmax o)
                    && (Object2D.ymin o <=? itsY s) && (itsY s <=? Object2D.ymax o))
          (Object2D.scanlist o).

(** The gap [canMerge] works with. *)
Definition merge_gap (threshS : Q) (flagAdj : bool) : Z := if flagAdj then 1 else Qceiling threshS.

(** Rows and columns of the two scans are at most [gap] apart. *)
Definition within_gap (s1 s2 : Scan) (gap : Z) : Prop :=
  Z.abs (itsY s1 - itsY s2) <= gap /\ itsX s1 - gap <= getXmax s2 /\ itsX s2 - gap <= getXmax s1.

(** The separation of the scans is below [threshS]. *)
Definition sep_below (s1 s2 : Scan) (threshS : Q) : Prop :=
  (0 < threshS)%Q /\ (inject_Z (minSepSq s1 s2) < threshS * threshS)%Q.

(** What [canMerge] looks for in a pair of scans. *)
Definition mergeable (s1 s2 : Scan) (threshS : Q) (flagAdj : bool) : Prop :=
  if flagAdj then within_gap s1 s2 1 else sep_below s1 s2 threshS.

Lemma minSep_lt_iff s1 s2 threshS : minSep_lt s1 s2 threshS = true <-> sep_below s1 s2 threshS.
Proof.
  unfold minSep_lt, sep_below. rewrite andb_true_iff, !negb_true_iff.
  split; intros [H1 H2]; split.
  - destruct (Qlt_le_dec 0 threshS) as [Hlt|Hle]; [exact Hlt|].
    apply Qle_bool_iff in Hle. congruence.
  - destruct (Qlt_le_dec (inject_Z (minSepSq s1 s2)) (threshS * threshS)) as [Hlt|Hle]; [exact Hlt|].
    apply Qle_bool_iff in Hle. congruence.
  - destruct (Qle_bool threshS 0) eqn:E; [|reflexivity].
    apply Qle_bool_iff in E. exfalso. exact (Qlt_not_le _ _ H1 E).
  - destruct (Qle_bool (threshS * threshS) (inject_Z (minSepSq s1 s2))) eqn:E; [|reflexivity].
    apply Qle_bool_iff in E. exfalso. exact (Qlt_not_le _ _ H2 E).
Qed.

Lemma Zsq_lt_abs a c : 0 <= c -> a * a < c * c -> Z.abs a < c.
Proof. intros. nia. Qed.

Lemma minSep_lt_within s1 s2 threshS :
  wf_scan s1 -> wf_scan s2 ->
  minSep_lt s1 s2 threshS = true -> within_gap s1 s2 (Qceiling threshS).
Proof.
  unfold minSep_lt, within_gap, wf_scan. intros W1 W2 H.
  apply andb_true_iff in H as [Hpos Hlt].
  apply negb_true_iff in Hpos, Hlt.
  assert (0 < threshS)%Q as Hp.
  { apply Qnot_le_lt. intros Hle. apply Qle_bool_iff in Hle. congruence. }
  assert (inject_Z (minSepSq s1 s2) < threshS * threshS)%Q as Hs.
  { apply Qnot_le_lt. intros Hle. apply Qle_bool_iff in Hle. congruence. }
  pose proof (Qle_ceiling threshS) as Hc.
  set (c := Qceiling threshS) in *.
  assert (threshS * threshS <= inject_Z (c * c))%Q as Hcc.
  { rewrite inject_Z_mult. apply Qmult_le_compat_nonneg; split; auto using Qlt_le_weak. }
  assert (minSepSq s1 s2 < c * c) as Hz.
  { rewrite Zlt_Qlt. eapply Qlt_le_trans; eauto. }
  assert (0 <= c) as Hc0.
  { rewrite Zle_Qle. apply Qlt_le_weak. eapply Qlt_le_trans; eauto. }
  clear Hs Hcc Hc Hp Hpos Hlt. clearbody c.
  unfold minSepSq, getXmax in *.
  pose proof (Z.square_nonneg (itsY s1 - itsY s2)) as Hdy.
  pose proof (Z.square_nonneg (itsX s1 - (itsX s2 + itsXLen s2 - 1))) as Hdx1.
  pose proof (Z.square_nonneg (itsX s2 - (itsX s1 + itsXLen s1 - 1))) as Hdx2.
  destruct (Z.ltb_spec (itsX s2 + itsXLen s2 - 1) (itsX s1));
    [|destruct (Z.ltb_spec (itsX s1 + itsXLen s1 - 1) (itsX s2))].
  - split; [apply Z.lt_le_incl, Zsq_lt_abs; nia|]. split; [|lia].
    assert (Z.abs (itsX s1 - (itsX s2 + itsXLen s2 - 1)) < c) by (apply Zsq_lt_abs; lia). lia.
  - split; [apply Z.lt_le_incl, Zsq_lt_abs; nia|]. split; [lia|].
    assert (Z.abs (itsX s2 - (itsX s1 + itsXLen s1 - 1)) < c) by (apply Zsq_lt_abs; lia). lia.
  - split; [apply Z.lt_le_incl, Zsq_lt_abs; nia|]. lia.
Qed.

Lemma closeTest_adj s1 s2 threshS :
  wf_scan s1 -> wf_scan s2 ->
  Object2D.closeTest s1 s2 1 threshS true = true <->
  itsX s1 - 1 <= getXmax s2 /\ itsX s2 - 1 <= getXmax s1.
Proof.
  unfold Object2D.closeTest, wf_scan, getXmax. intros W1 W2.
  destruct (Z.ltb_spec (itsX s2) (itsX s1 - 1)); rewrite Z.leb_le; lia.
Qed.

Lemma isNear_of_pair o other gap s1 s2 :
  encloses o = true -> encloses other = true ->
  s1 ∈ Object2D.scanlist o -> s2 ∈ Object2D.scanlist other ->
  within_gap s1 s2 gap -> Object2D.isNear o other gap = true.
Proof.
  unfold encloses, within_gap. intros E1 E2 H1 H2 (Hy & Hx1 & Hx2).
  rewrite forallb_forall in E1, E2.
  apply list_elem_of_In in H1, H2.
  specialize (E1 _ H1). specialize (E2 _ H2).
  rewrite !andb_true_iff, !Z.leb_le in E1, E2.
  unfold Object2D.isNear.
  repeat match goal with
         | |- context [?a <? ?b] => destruct (Z.ltb_spec a b)
         | |- context [?a <=? ?b] => destruct (Z.leb_spec a b)
         end; simpl; try reflexivity; lia.
Qed.

Lemma isClose_iff o other threshS flagAdj :
  encloses o = true -> encloses other = true ->
  Object2D.isClose o other threshS flagAdj = true <->
  exists s1 s2, s1 ∈ Object2D.scanlist o /\ s2 ∈ Object2D.scanlist other /\
                mergeable s1 s2 threshS flagAdj.
Proof.
  intros E1 E2. unfold Object2D.isClose.
  set (gap := if flagAdj then 1 else Qceiling threshS).
  rewrite existsb_exists. split.
  - intros (s1 & H1 & H). rewrite !andb_true_iff, existsb_exists in H.
    destruct H as (_ & s2 & H2 & H). rewrite !andb_true_iff in H.
    destruct H as (((_ & _) & Hy) & Ht).
    exists s1, s2. rewrite !list_elem_of_In. repeat split; try assumption.
    unfold encloses in E1, E2. rewrite forallb_forall in E1, E2.
    specialize (E1 _ H1). specialize (E2 _ H2).
    rewrite !andb_true_iff, !Z.leb_le in E1, E2.
    unfold mergeable. subst gap. destruct flagAdj.
    + apply closeTest_adj in Ht; [|unfold wf_scan; lia..].
      unfold within_gap. apply Z.leb_le in Hy. lia.
    + apply minSep_lt_iff, Ht.
  - intros (s1 & s2 & H1 & H2 & Hm).
    assert (wf_scan s1 /\ wf_scan s2 /\
            (Object2D.ymin o <= itsY s1 <= Object2D.ymax o) /\
            (Object2D.ymin other <= itsY s2 <= Object2D.ymax other)) as (W1 & W2 & B1 & B2).
    { unfold encloses in E1, E2. rewrite forallb_forall in E1, E2.
      apply list_elem_of_In in H1, H2.
      specialize (E1 _ H1). specialize (E2 _ H2).
      rewrite !andb_true_iff, !Z.leb_le in E1, E2. unfold wf_scan. lia. }
    assert (within_gap s1 s2 gap) as Hw.
    { subst gap. unfold mergeable in Hm. destruct flagAdj; [exact Hm|].
      apply minSep_lt_within; try assumption. apply minSep_lt_iff, Hm. }
    exists s1. split; [now apply list_elem_of_In|].
    rewrite !andb_true_iff, existsb_exists, !Z.leb_le.
    destruct Hw as (Hy & Hx1 & Hx2).
    split; [lia|].
    exists s2. split; [now apply list_elem_of_In|].
    rewrite !andb_true_iff, !Z.leb_le.
    split; [lia|].
    unfold mergeable in Hm. subst gap. destruct flagAdj.
    + apply closeTest_adj; [assumption..|]. unfold within_gap in Hm. lia.
    + apply minSep_lt_iff, Hm.
Qed.

Lemma mergeable_within s1 s2 threshS flagAdj :
  wf_scan s1 -> wf_scan s2 ->
  mergeable s1 s2 threshS flagAdj -> within_gap s1 s2 (merge_gap threshS flagAdj).
Proof.
  unfold mergeable, merge_gap. intros W1 W2 H. destruct flagAdj; [exact H|].
  apply minSep_lt_within; try assumption. apply minSep_lt_iff, H.
Qed.

(** C6 (amended).  For two objects whose bounding boxes enclose their
    (non-empty) scans, [canMerge] answers true exactly when some scan of
    the one and some scan of the other are mergeable: with [flagAdj], rows
    and columns at most one pixel apart; without it, a separation strictly
    below [threshS].  In particular [canMerge] answers false when every
    pair of scans is more than the gap apart in rows or in columns. *)
Theorem canMerge_iff_mergeable_pair (o other : Object2D.t) (threshS : Q) (flagAdj : bool) :
  encloses o = true -> encloses other = true ->
  (Object2D.canMerge o other threshS flagAdj = true <->
   exists s1 s2, s1 ∈ Object2D.scanlist o /\ s2 ∈ Object2D.scanlist other /\
                 mergeable s1 s2 threshS flagAdj) /\
  ((forall s1 s2, s1 ∈ Object2D.scanlist o -> s2 ∈ Object2D.scanlist other ->
                  ~ within_gap s1 s2 (merge_gap threshS flagAdj)) ->
   Object2D.canMerge o other threshS flagAdj = false).
Proof.
  intros E1 E2.
  assert (Object2D.canMerge o other threshS flagAdj = true <->
          exists s1 s2, s1 ∈ Object2D.scanlist o /\ s2 ∈ Object2D.scanlist other /\
                        mergeable s1 s2 threshS flagAdj) as Hiff.
  { unfold Object2D.canMerge. split.
    - destruct (Object2D.isNear _ _ _); [|discriminate].
      apply isClose_iff; assumption.
    - intros (s1 & s2 & H1 & H2 & Hm).
      assert (wf_scan s1 /\ wf_scan s2) as [W1 W2].
      { unfold encloses in E1, E2. rewrite forallb_forall in E1, E2.
        pose proof (E1 _ (proj1 (list_elem_of_In _ _) H1)) as A1.
        pose proof (E2 _ (proj1 (list_elem_of_In _ _) H2)) as A2.
        rewrite !andb_true_iff, !Z.leb_le in A1, A2. unfold wf_scan. lia. }
      pose proof (isNear_of_pair o other _ s1 s2 E1 E2 H1 H2
                    (mergeable_within _ _ _ _ W1 W2 Hm)) as Hn.
      unfold merge_gap in Hn. rewrite Hn.
      apply isClose_iff; [assumption..|]. exists s1, s2. auto. }
  split; [exact Hiff|].
  intros Hfar. destruct (Object2D.canMerge o other threshS flagAdj) eqn:E; [|reflexivity].
  exfalso. destruct (proj1 Hiff eq_refl) as (s1 & s2 & H1 & H2 & Hm).
  apply (Hfar s1 s2 H1 H2). apply mergeable_within; try assumption.
  - unfold encloses in E1. rewrite forallb_forall in E1.
    pose proof (E1 _ (proj1 (list_elem_of_In _ _) H1)) as A1.
    rewrite !andb_true_iff, !Z.leb_le in A1. unfold wf_scan. lia.
  - unfold encloses in E2. rewrite forallb_forall in E2.
    pose proof (E2 _ (proj1 (list_elem_of_In _ _) H2)) as A2.
    rewrite !andb_true_iff, !Z.leb_le in A2. unfold wf_scan. lia.
Qed.

(** Single pixels at (0,0), (1,0) and (2,0). *)
Definition pixel00 : Object2D.t := Object2D.addPixel Object2D.empty 0 0.

Definition pixel10 : Object2D.t := Object2D.addPixel Object2D.empty 1 0.

Definition pixel20 : Object2D.t := Object2D.addPixel Object2D.empty 2 0.

(** C6, as stated, fails: with [threshS = 1] and [flagAdj] unset, the
    scans of two neighbouring pixels touch and are 1 pixel apart, yet
    [canMerge] answers false (the test is a strict [<]); with [flagAdj]
    set the same two objects merge. *)
Lemma canMerge_refuses_touching_scans :
  Object2D.scanlist pixel00 = [mkScan 0 0 1] /\ Object2D.scanlist pixel10 = [mkScan 0 1 1] /\
  touches (mkScan 0 0 1) (mkScan 0 1 1) = true /\
  minSepSq (mkScan 0 0 1) (mkScan 0 1 1) = 1 /\
  Object2D.canMerge pixel00 pixel10 1 false = false /\
  Object2D.canMerge pixel00 pixel10 1 true = true.
Proof. repeat split. Qed.

Lemma existsb_none {A} (f : A -> bool) l : (forall x, f x = false) -> existsb f l = false.
Proof. intros H. induction l as [|x l IH]; simpl; [reflexivity|]. now rewrite H, IH. Qed.

(** With [threshS = 0] and [flagAdj] unset no two objects merge, touching
    or not: no separation is below 0. *)
Lemma canMerge_zero_threshold (o other : Object2D.t) :
  Object2D.canMerge o other 0 false = false.
Proof.
  unfold Object2D.canMerge. destruct (Object2D.isNear _ _ _); [|reflexivity].
  unfold Object2D.isClose.
  apply existsb_none. intros s1. apply andb_false_intro2.
  apply existsb_none. intros s2. apply andb_false_intro2. reflexivity.
Qed.

(** The amended C6 on two pixels two columns apart, with [threshS = 5/2]. *)
Lemma canMerge_iff_mergeable_pair_witness :
  encloses pixel00 = true /\ encloses pixel20 = true /\
  (Object2D.canMerge pixel00 pixel20 (5 # 2) false = true <->
   exists s1 s2, s1 ∈ Object2D.scanlist pixel00 /\ s2 ∈ Object2D.scanlist pixel20 /\
                 mergeable s1 s2 (5 # 2) false).
Proof.
  split; [reflexivity|]. split; [reflexivity|].
  apply (canMerge_iff_mergeable_pair pixel00 pixel20 (5 # 2) false); reflexivity.
Defined.

(** *** Objects built pixel by pixel *)

(** The sum of the lengths of the scans. *)
Definition total_len (l : list Scan) : Z := fold_right (fun s acc => itsXLen s + acc) 0 l.

(** No two scans of the list touch: scans of one row are separated by at
    least one free column. *)
Fixpoint Sep (l : list Scan) : Prop :=
  match l with
  | [] => True
  | s :: r => Forall (fun t => touches s t = false) r /\ Sep r
  end.

(** The smallest scan that holds two scans of one row. *)
Definition hull (s t : Scan) : Scan :=
  mkScan (itsY s) (Z.min (itsX s) (itsX t))
         (Z.max (getXmax s) (getXmax t) - Z.min (itsX s) (itsX t) + 1).

Ltac scan_arith :=
  unfold touches, isInScan, hull, growLeft, growRight, wf_scan, getXmax in *; simpl in *;
  repeat match goal with
         | H : _ && _ = true |- _ => apply andb_true_iff in H; destruct H
         | H : _ && _ = false |- _ => apply andb_false_iff in H; destruct H
         | H : _ || _ = true |- _ => apply orb_true_iff in H; destruct H
         | H : _ || _ = false |- _ => apply orb_false_iff in H; destruct H
         | H : (_ =? _) = true |- _ => apply Z.eqb_eq in H
         | H : (_ =? _) = false |- _ => apply Z.eqb_neq in H
         | H : (_ <=? _) = true |- _ => apply Z.leb_le in H
         | H : (_ <=? _) = false |- _ => apply Z.leb_gt in H
         | H : (_ <? _) = true |- _ => apply Z.ltb_lt in H
         | H : (_ <? _) = false |- _ => apply Z.ltb_ge in H
         end.

Ltac solve_elem :=
  repeat rewrite ?elem_of_app, ?elem_of_cons in *; tauto.

Ltac bool_cases :=
  repeat match goal with
         | |- context [?a =? ?b] => destruct (Z.eqb_spec a b)
         | |- context [?a <=? ?b] => destruct (Z.leb_spec a b)
         | |- context [?a <? ?b] => destruct (Z.ltb_spec a b)
         end; simpl.

Lemma touches_sym s t : touches s t = touches t s.
Proof. unfold touches. bool_cases; try reflexivity; lia. Qed.

Lemma Scan_addScan_touches s t : touches s t = true -> Scan_addScan s t = Some (hull s t).
Proof. unfold Scan_addScan. intros ->. reflexivity. Qed.

Lemma Scan_addScan_apart s t : touches s t = false -> Scan_addScan s t = None.
Proof. unfold Scan_addScan. intros ->. reflexivity. Qed.

Lemma Sep_app l1 l2 :
  Sep (l1 ++ l2) <->
  Sep l1 /\ Sep l2 /\ Forall (fun s => Forall (fun t => touches s t = false) l2) l1.
Proof.
  induction l1 as [|s l1 IH]; simpl.
  - split; [intros H; repeat split; auto|tauto].
  - rewrite Forall_app, IH, Forall_cons. tauto.
Qed.

Lemma Sep_middle l1 p l2 :
  Sep (l1 ++ p :: l2) <-> Sep (l1 ++ l2) /\ Forall (fun t => touches p t = false) (l1 ++ l2).
Proof.
  rewrite !Sep_app. simpl. rewrite Forall_app.
  assert (Forall (fun s => Forall (fun t => touches s t = false) (p :: l2)) l1 <->
          Forall (fun t => touches p t = false) l1 /\
          Forall (fun s => Forall (fun t => touches s t = false) l2) l1) as ->.
  { induction l1 as [|s l1 IH]; simpl.
    - split; [intros; split; constructor|constructor].
    - rewrite !Forall_cons, IH, (touches_sym s p). tauto. }
  tauto.
Qed.

Lemma total_len_cons s l : total_len (s :: l) = itsXLen s + total_len l.
Proof. reflexivity. Qed.

Lemma total_len_app l1 l2 : total_len (l1 ++ l2) = total_len l1 + total_len l2.
Proof. induction l1 as [|s l1 IH]; simpl; [reflexivity|]. rewrite IH. lia. Qed.

(** The first loop of [addPixel], case by case. *)
Lemma addPixel_find_spec x y l :
  Forall wf_scan l -> Sep l ->
  match Object2D.addPixel_find x y l with
  | (l', true, false) => l' = l /\ existsb (fun s => isInScan s x y) l = true
  | (l', true, true) =>
      exists l1 s l2, l = l1 ++ s :: l2 /\ l' = l1 ++ hull s (mkScan y x 1) :: l2 /\
                      touches s (mkScan y x 1) = true /\
                      Forall (fun t => isInScan t x y = false) l
  | (l', false, c) => c = false /\ Forall (fun s => touches s (mkScan y x 1) = false) l
  end.
Proof.
  induction l as [|s l IH]; simpl; intros Hwf Hsep.
  - split; [reflexivity|constructor].
  - apply Forall_cons in Hwf as [Ws Wl]. destruct Hsep as [Hs Hsep].
    destruct ((y =? itsY s) && isInScan s x y) eqn:E1.
    { split; [reflexivity|]. apply andb_true_iff in E1 as [_ ->]. reflexivity. }
    destruct ((y =? itsY s) && ((x =? itsX s - 1) || (x =? itsX s + itsXLen s))) eqn:E2.
    { exists [], s, l. split; [reflexivity|]. split.
      - simpl. f_equal. unfold hull, growLeft, growRight, getXmax. simpl.
        scan_arith; subst; bool_cases; try lia; f_equal; lia.
      - split; [clear E1 Hs; scan_arith; bool_cases; try reflexivity; lia|].
        constructor.
        + clear E2 Hs. unfold isInScan in *. 
          destruct (y =? itsY s); simpl in *; [exact E1|reflexivity].
        + clear E1. rewrite Forall_forall in Hs |- *. intros t Ht. specialize (Hs t Ht).
          rewrite Forall_forall in Wl. specialize (Wl t Ht).
          destruct (isInScan t x y) eqn:E3; [|reflexivity]. exfalso.
          scan_arith; lia. }
    specialize (IH Wl Hsep).
    destruct (Object2D.addPixel_find x y l) as [[l' d] c].
    assert (touches s (mkScan y x 1) = false) as Hts.
    { clear IH Hs. scan_arith; bool_cases; try reflexivity; try lia. }
    assert (isInScan s x y = false) as His.
    { clear IH Hs E2. unfold isInScan in *. destruct (y =? itsY s); simpl in *; auto. }
    destruct d, c.
    + destruct IH as (l1 & s0 & l2 & -> & -> & Ht & Hall).
      exists (s :: l1), s0, l2. repeat split; auto.
    + destruct IH as [-> IH]. split; [reflexivity|]. rewrite His. exact IH.
    + destruct IH as [IH _]. discriminate.
    + destruct IH as [_ IH]. split; [reflexivity|]. constructor; assumption.
Qed.

Lemma combine_into_none y s1 r :
  Forall (fun t => touches s1 t = false) r -> Object2D.combine_into y s1 r = None.
Proof.
  induction 1 as [|t r Ht _ IH]; simpl; [reflexivity|].
  rewrite (Scan_addScan_apart _ _ Ht), IH. destruct (itsY t =? y); reflexivity.
Qed.

Lemma combine_into_found y s1 a u b :
  Forall (fun t => touches s1 t = false) a -> touches s1 u = true -> itsY u = y ->
  Object2D.combine_into y s1 (a ++ u :: b) = Some (hull s1 u, a ++ b).
Proof.
  intros Ha Hu Hy. induction Ha as [|t a Ht _ IH]; simpl.
  - rewrite (Scan_addScan_touches _ _ Hu), Hy, Z.eqb_refl. reflexivity.
  - rewrite (Scan_addScan_apart _ _ Ht), IH. destruct (itsY t =? y); reflexivity.
Qed.

Lemma combine_scans_Sep y l : Sep l -> Object2D.combine_scans y l = l.
Proof.
  induction l as [|s l IH]; simpl; [reflexivity|]. intros [Hs Hl].
  rewrite (combine_into_none y s l Hs), (IH Hl). destruct (itsY s =? y); reflexivity.
Qed.

Lemma combine_scans_prefix y A p R m R' :
  Forall (fun t => Forall (fun e => touches t e = false) (p :: R)) A -> Sep A ->
  itsY p = y -> Object2D.combine_into y p R = Some (m, R') ->
  Object2D.combine_scans y (A ++ p :: R) = A ++ m :: R'.
Proof.
  intros HA HS Hy Hc. induction A as [|t A IH]; simpl.
  - rewrite Hy, Z.eqb_refl, Hc. reflexivity.
  - apply Forall_cons in HA as [Ht HA]. destruct HS as [HtA HS].
    rewrite (combine_into_none y t (A ++ p :: R)) by (apply Forall_app; split; assumption).
    rewrite (IH HA HS). destruct (itsY t =? y); reflexivity.
Qed.

(** Arithmetic of growing a scan by a pixel and merging it with a neighbour. *)
Lemma grown_facts s x y :
  wf_scan s -> touches s (mkScan y x 1) = true -> isInScan s x y = false ->
  wf_scan (hull s (mkScan y x 1)) /\ itsY (hull s (mkScan y x 1)) = y /\
  itsXLen (hull s (mkScan y x 1)) = itsXLen s + 1.
Proof. intros. scan_arith; lia. Qed.

Lemma merged_facts s x y u :
  wf_scan s -> wf_scan u -> touches s (mkScan y x 1) = true -> isInScan s x y = false ->
  touches s u = false -> isInScan u x y = false ->
  touches (hull s (mkScan y x 1)) u = true ->
  itsY u = y /\
  wf_scan (hull (hull s (mkScan y x 1)) u) /\
  itsXLen (hull (hull s (mkScan y x 1)) u) = itsXLen s + 1 + itsXLen u /\
  hull u (hull s (mkScan y x 1)) = hull (hull s (mkScan y x 1)) u.
Proof. intros. scan_arith; repeat split; try lia; f_equal; lia. Qed.

Lemma touches_true_iff s t :
  touches s t = true <-> itsY s = itsY t /\ itsX t <= getXmax s + 1 /\ itsX s <= getXmax t + 1.
Proof. unfold touches. rewrite !andb_true_iff, Z.eqb_eq, !Z.leb_le. tauto. Qed.

Lemma touches_false_iff s t :
  touches s t = false <-> itsY s <> itsY t \/ getXmax s + 1 < itsX t \/ getXmax t + 1 < itsX s.
Proof.
  rewrite <- not_true_iff_false, touches_true_iff. lia.
Qed.

Lemma isInScan_true_iff s x y :
  isInScan s x y = true <-> y = itsY s /\ itsX s <= x <= getXmax s.
Proof. unfold isInScan. rewrite !andb_true_iff, Z.eqb_eq, !Z.leb_le. tauto. Qed.

Lemma isInScan_false_iff s x y :
  isInScan s x y = false <-> y <> itsY s \/ x < itsX s \/ getXmax s < x.
Proof. rewrite <- not_true_iff_false, isInScan_true_iff. lia. Qed.

Lemma grown_cases s x y :
  wf_scan s -> touches s (mkScan y x 1) = true -> isInScan s x y = false ->
  itsY s = y /\
  ((x = itsX s - 1 /\ hull s (mkScan y x 1) = mkScan y (itsX s - 1) (itsXLen s + 1)) \/
   (x = itsX s + itsXLen s /\ hull s (mkScan y x 1) = mkScan y (itsX s) (itsXLen s + 1))).
Proof.
  rewrite touches_true_iff, isInScan_false_iff. unfold hull, wf_scan, getXmax. simpl.
  intros W (Hy & H1 & H2) H3. split; [exact Hy|].
  assert (x = itsX s - 1 \/ x = itsX s + itsXLen s) as [E|E] by lia; [left|right];
    (split; [exact E|]); rewrite Hy; f_equal; lia.
Qed.

Lemma merged_apart s x y u v :
  wf_scan s -> wf_scan u -> wf_scan v ->
  touches s (mkScan y x 1) = true -> isInScan s x y = false ->
  touches s u = false -> touches s v = false ->
  isInScan u x y = false -> isInScan v x y = false ->
  touches (hull s (mkScan y x 1)) u = true -> touches u v = false ->
  touches (hull s (mkScan y x 1)) v = false /\
  touches (hull (hull s (mkScan y x 1)) u) v = false.
Proof.
  intros Ws Wu Wv Hsp Hns Hsu Hsv Hnu Hnv Htu Huv.
  destruct (grown_cases s x y Ws Hsp Hns) as (Hy & [[Ex Eh]|[Ex Eh]]);
    rewrite Eh in *; clear Eh Hsp Hns;
    rewrite ?touches_true_iff, ?touches_false_iff, ?isInScan_false_iff in *;
    unfold wf_scan, getXmax in *; simpl in *.
  - assert (itsY u = y /\ itsX u + itsXLen u - 1 = x - 1) as [Yu Eu] by lia.
    unfold hull, getXmax; simpl.
    rewrite Z.min_r, Z.max_l by lia. simpl. lia.
  - assert (itsY u = y /\ itsX u = x + 1) as [Yu Eu] by lia.
    unfold hull, getXmax; simpl.
    rewrite Z.min_l, Z.max_r by lia. simpl. lia.
Qed.

Lemma existsb_false_Forall {A} (f : A -> bool) l :
  existsb f l = false -> Forall (fun t => f t = false) l.
Proof.
  induction l as [|a l IH]; simpl; [constructor|].
  intros H. apply orb_false_iff in H as [Ha Hl]. constructor; auto.
Qed.

(** The clean-up after a scan was grown by a new pixel restores the
    separation of the scans, and the lengths add up to one more pixel. *)
Lemma combine_after_grow x y l1 s l2 :
  Forall wf_scan (l1 ++ s :: l2) -> Sep (l1 ++ s :: l2) ->
  touches s (mkScan y x 1) = true ->
  Forall (fun t => isInScan t x y = false) (l1 ++ s :: l2) ->
  Forall wf_scan (Object2D.combine_scans y (l1 ++ hull s (mkScan y x 1) :: l2)) /\
  Sep (Object2D.combine_scans y (l1 ++ hull s (mkScan y x 1) :: l2)) /\
  total_len (Object2D.combine_scans y (l1 ++ hull s (mkScan y x 1) :: l2))
  = total_len (l1 ++ s :: l2) + 1.
Proof.
  intros Hwf Hsep Hts Hnot.
  set (s' := hull s (mkScan y x 1)).
  apply Forall_app in Hwf as [W1 W2]. apply Forall_cons in W2 as [Ws W2].
  apply Forall_app in Hnot as [N1 N2]. apply Forall_cons in N2 as [Ns N2].
  apply Sep_middle in Hsep as [HsepM HsM].
  destruct (grown_facts s x y Ws Hts Ns) as (Ws' & Ys' & Ls'). fold s' in Ws', Ys', Ls'.
  assert (Forall wf_scan (l1 ++ l2)) as WM by (apply Forall_app; split; assumption).
  assert (Forall (fun t => isInScan t x y = false) (l1 ++ l2)) as NM
      by (apply Forall_app; split; assumption).
  destruct (existsb (touches s') (l1 ++ l2)) eqn:Eex.
  2:{ apply existsb_false_Forall in Eex.
      assert (Sep (l1 ++ s' :: l2)) as HS by (apply Sep_middle; split; assumption).
      rewrite (combine_scans_Sep y _ HS). split; [|split; [exact HS|]].
      - apply Forall_app. split; [assumption|]. constructor; assumption.
      - rewrite !total_len_app, !total_len_cons. lia. }
  apply existsb_exists in Eex as (u & Hu & Htu).
  (* facts about the one scan that now touches the grown scan *)
  assert (forall v, v ∈ l1 ++ l2 -> wf_scan v /\ touches s v = false /\ isInScan v x y = false)
    as Hfacts.
  { intros v Hv. rewrite Forall_forall in WM, HsM, NM. auto. }
  apply in_app_or in Hu as [Hu|Hu]; apply in_split in Hu as (a & b & ->).
  - (* the neighbour comes before the grown scan *)
    destruct (Hfacts u) as (Wu & Hsu & Nu); [solve_elem|].
    destruct (merged_facts s x y u Ws Wu Hts Ns Hsu Nu Htu) as (Yu & Wm & Lm & Hm).
    fold s' in Wm, Lm, Hm.
    replace ((a ++ u :: b) ++ s' :: l2) with (a ++ u :: (b ++ s' :: l2))
      by (rewrite <- app_assoc; reflexivity).
    replace ((a ++ u :: b) ++ l2) with (a ++ u :: (b ++ l2)) in *
      by (rewrite <- app_assoc; reflexivity).
    apply Sep_middle in HsepM as [HsepR HuR].
    assert (forall v, v ∈ a ++ b ++ l2 -> touches s' v = false /\ touches (hull s' u) v = false)
      as Hap.
    { intros v Hv. rewrite Forall_forall in HuR.
      destruct (Hfacts v) as (Wv & Hsv & Nv); [solve_elem|].
      apply (merged_apart s x y u v); auto. }
    assert (Object2D.combine_scans y (a ++ u :: b ++ s' :: l2) = a ++ hull s' u :: b ++ l2)
      as ->.
    { apply combine_scans_prefix.
      - rewrite Forall_forall. intros t Ht. constructor.
        + rewrite touches_sym. rewrite Forall_forall in HuR. apply HuR. solve_elem.
        + apply Sep_app in HsepR as (_ & _ & HR). rewrite Forall_forall in HR.
          specialize (HR t Ht). apply Forall_app in HR as [HRb HRl].
          apply Forall_app. split; [assumption|]. constructor; [|assumption].
          rewrite touches_sym. apply Hap. solve_elem.
      - apply Sep_app in HsepR. tauto.
      - exact Yu.
      - rewrite <- Hm. apply combine_into_found.
        + apply Forall_app in HuR as [_ HuR]. apply Forall_app in HuR as [HuR _]. exact HuR.
        + rewrite touches_sym. exact Htu.
        + exact Ys'. }
    split; [|split].
    + apply Forall_app in WM as [Wa Wb]. apply Forall_cons in Wb as [_ Wb].
      apply Forall_app. split; [assumption|]. constructor; assumption.
    + apply Sep_middle. split; [assumption|].
      rewrite Forall_forall. intros v Hv. apply Hap, Hv.
    + repeat rewrite ?total_len_app, ?total_len_cons. lia.
  - (* the neighbour comes after the grown scan *)
    destruct (Hfacts u) as (Wu & Hsu & Nu); [solve_elem|].
    destruct (merged_facts s x y u Ws Wu Hts Ns Hsu Nu Htu) as (Yu & Wm & Lm & Hm).
    fold s' in Wm, Lm, Hm.
    replace (l1 ++ a ++ u :: b) with ((l1 ++ a) ++ u :: b) in *
      by (rewrite <- app_assoc; reflexivity).
    apply Sep_middle in HsepM as [HsepR HuR].
    assert (forall v, v ∈ (l1 ++ a) ++ b -> touches s' v = false /\ touches (hull s' u) v = false)
      as Hap.
    { intros v Hv. rewrite Forall_forall in HuR.
      destruct (Hfacts v) as (Wv & Hsv & Nv); [solve_elem|].
      apply (merged_apart s x y u v); auto. }
    assert (Object2D.combine_scans y (l1 ++ s' :: a ++ u :: b) = l1 ++ hull s' u :: a ++ b)
      as ->.
    { apply combine_scans_prefix.
      - rewrite Forall_forall. intros t Ht. constructor.
        + rewrite touches_sym. apply Hap. solve_elem.
        + apply Forall_app. split.
          * rewrite <- app_assoc in HsepR. apply Sep_app in HsepR as (_ & _ & HR).
            rewrite Forall_forall in HR. specialize (HR t Ht).
            apply Forall_app in HR. tauto.
          * constructor.
            -- rewrite touches_sym. rewrite Forall_forall in HuR. apply HuR. solve_elem.
            -- rewrite <- app_assoc in HsepR. apply Sep_app in HsepR as (_ & _ & HR).
               rewrite Forall_forall in HR. specialize (HR t Ht).
               apply Forall_app in HR. tauto.
      - rewrite <- app_assoc in HsepR. apply Sep_app in HsepR. tauto.
      - exact Ys'.
      - apply combine_into_found; [|exact Htu|exact Yu].
        rewrite Forall_forall. intros v Hv. apply Hap. solve_elem. }
    split; [|split].
    + apply Forall_app in WM as [Wa Wb]. apply Forall_cons in Wb as [_ Wb].
      apply Forall_app in Wa as [Wl1 Wa].
      apply Forall_app. split; [assumption|]. constructor; [assumption|].
      apply Forall_app. split; assumption.
    + rewrite <- app_assoc in HsepR, Hap.
      apply Sep_middle. split; [assumption|].
      rewrite Forall_forall. intros v Hv. apply Hap, Hv.
    + repeat rewrite ?total_len_app, ?total_len_cons. lia.
Qed.

(** What holds of every object built by [addPixel]: its scans are
    non-empty and separated, and the pixel counter is the sum of their
    lengths. *)
Definition Inv2 (o : Object2D.t) : Prop :=
  Forall wf_scan (Object2D.scanlist o) /\ Sep (Object2D.scanlist o) /\
  Object2D.numPix o = total_len (Object2D.scanlist o).

(** Objects built from the empty one by adding pixels and translating. *)
Inductive built2D : Object2D.t -> Prop :=
| built2D_empty : built2D Object2D.empty
| built2D_addPixel o x y : built2D o -> built2D (Object2D.addPixel o x y)
| built2D_addOffsets o xoff yoff : built2D o -> built2D (Object2D.addOffsets o xoff yoff).

Lemma isInObject_existsb o x y :
  Object2D.isInObject o x y = existsb (fun s => isInScan s x y) (Object2D.scanlist o).
Proof. reflexivity. Qed.

Lemma isInScan_touches s x y : isInScan s x y = true -> touches s (mkScan y x 1) = true.
Proof. intros. scan_arith. bool_cases; try reflexivity; lia. Qed.

Lemma total_len_nonneg l : Forall wf_scan l -> 0 <= total_len l.
Proof. induction 1 as [|s l Hs _ IH]; simpl; unfold wf_scan in *; lia. Qed.

Lemma total_len_zero l : Forall wf_scan l -> total_len l = 0 -> l = [].
Proof.
  intros Hwf. destruct Hwf as [|s l Hs Hl]; [reflexivity|].
  pose proof (total_len_nonneg l Hl). simpl. unfold wf_scan in *. lia.
Qed.

Lemma addPixel_params_numPix o l x y :
  0 <= Object2D.numPix o ->
  Object2D.scanlist (Object2D.addPixel_params o l x y) = l /\
  Object2D.numPix (Object2D.addPixel_params o l x y) = Object2D.numPix o + 1.
Proof.
  unfold Object2D.addPixel_params. intros H.
  destruct (Z.eqb_spec (Object2D.numPix o) 0) as [E|E]; simpl; [rewrite E|]; auto.
Qed.

Lemma addPixel_Inv2 o x y : Inv2 o -> Inv2 (Object2D.addPixel o x y).
Proof.
  intros (Hwf & Hsep & Hn). unfold Object2D.addPixel.
  pose proof (addPixel_find_spec x y _ Hwf Hsep) as Hf.
  pose proof (total_len_nonneg _ Hwf) as Hpos.
  destruct (Object2D.addPixel_find x y (Object2D.scanlist o)) as [[l' d] c].
  destruct d; simpl; [destruct c|].
  - destruct Hf as (l1 & s & l2 & El & -> & Hts & Hnot).
    rewrite El in Hwf, Hsep, Hnot.
    destruct (combine_after_grow x y l1 s l2 Hwf Hsep Hts Hnot) as (W & S & T).
    destruct (addPixel_params_numPix o
                (Object2D.combine_scans y (l1 ++ hull s (mkScan y x 1) :: l2)) x y) as [E1 E2];
      [lia|].
    unfold Inv2. rewrite E1, E2, T, Hn, El. auto.
  - split; [|split]; assumption.
  - destruct Hf as [_ Hall].
    destruct (addPixel_params_numPix o (Object2D.scanlist o ++ [mkScan y x 1]) x y) as [E1 E2];
      [lia|].
    unfold Inv2. rewrite E1, E2, Hn, total_len_app. simpl. repeat split.
    + apply Forall_app. split; [assumption|]. constructor; [|constructor].
      unfold wf_scan. simpl. lia.
    + apply Sep_app. repeat split; [assumption|constructor|].
      eapply Forall_impl; [exact Hall|]. intros s Hs. constructor; [exact Hs|constructor].
Qed.

Lemma Sep_map_offsets xoff yoff l :
  Sep l -> Sep (map (Scan_addOffsets xoff yoff) l).
Proof.
  induction l as [|s l IH]; simpl; [auto|]. intros [Hs Hl]. split; [|auto].
  apply Forall_fmap. eapply Forall_impl; [exact Hs|]. intros t Ht. simpl.
  clear -Ht. unfold Scan_addOffsets. scan_arith; bool_cases; try reflexivity; lia.
Qed.

Lemma addOffsets_Inv2 o xoff yoff : Inv2 o -> Inv2 (Object2D.addOffsets o xoff yoff).
Proof.
  intros (Hwf & Hsep & Hn). unfold Inv2, Object2D.addOffsets. simpl. repeat split.
  - apply Forall_fmap. eapply Forall_impl; [exact Hwf|]. intros s Hs. exact Hs.
  - apply Sep_map_offsets, Hsep.
  - rewrite Hn. clear. induction (Object2D.scanlist o) as [|s l IH]; simpl; [reflexivity|].
    rewrite IH. reflexivity.
Qed.

Lemma built2D_Inv2 o : built2D o -> Inv2 o.
Proof.
  induction 1 as [|o x y _ IH|o xoff yoff _ IH].
  - repeat split; constructor.
  - apply addPixel_Inv2, IH.
  - apply addOffsets_Inv2, IH.
Qed.

(** Adding a pixel the object holds changes nothing. *)
Lemma addPixel_contained o x y :
  Inv2 o -> Object2D.isInObject o x y = true -> Object2D.addPixel o x y = o.
Proof.
  intros (Hwf & Hsep & Hn) Hin. rewrite isInObject_existsb in Hin.
  unfold Object2D.addPixel.
  pose proof (addPixel_find_spec x y _ Hwf Hsep) as Hf.
  destruct (Object2D.addPixel_find x y (Object2D.scanlist o)) as [[l' d] c].
  apply existsb_exists in Hin as (s & Hs & Hsin).
  destruct d; simpl; [destruct c|].
  - destruct Hf as (l1 & s0 & l2 & El & _ & _ & Hnot). exfalso.
    rewrite List.Forall_forall in Hnot. specialize (Hnot s Hs). congruence.
  - reflexivity.
  - destruct Hf as [_ Hall]. exfalso.
    rewrite List.Forall_forall in Hall. specialize (Hall s Hs).
    apply isInScan_touches in Hsin. congruence.
Qed.

(** The pixels of separated scans are pairwise distinct, and as many as the
    lengths add up to. *)
Lemma elem_of_scan_pixels s x y : (x, y) ∈ scan_pixels s <-> isInScan s x y = true.
Proof.
  unfold scan_pixels, isInScan. rewrite list_elem_of_fmap. split.
  - intros (x' & E & Hx). inversion E; subst. apply elem_of_zrange in Hx.
    bool_cases; try reflexivity; lia.
  - intros H. exists x. scan_arith. split; [congruence|]. apply elem_of_zrange. lia.
Qed.

Lemma NoDup_scan_pixels s : NoDup (scan_pixels s).
Proof.
  unfold scan_pixels, zrange. apply NoDup_fmap_2; [|apply NoDup_zseq].
  intros a b E. inversion E. reflexivity.
Qed.

Lemma length_scan_pixels s : wf_scan s -> Z.of_nat (length (scan_pixels s)) = itsXLen s.
Proof.
  unfold scan_pixels, zrange, wf_scan, getXmax. intros H.
  rewrite length_map, length_zseq. lia.
Qed.

Lemma elem_of_pixels l x y : (x, y) ∈ pixels l <-> existsb (fun s => isInScan s x y) l = true.
Proof.
  unfold pixels. induction l as [|s l IH]; simpl.
  - rewrite elem_of_nil. split; [tauto|discriminate].
  - rewrite elem_of_app, IH, elem_of_scan_pixels, orb_true_iff. tauto.
Qed.

Lemma NoDup_pixels l : Forall wf_scan l -> Sep l -> NoDup (pixels l).
Proof.
  unfold pixels. induction l as [|s l IH]; simpl; intros Hwf Hsep; [constructor|].
  apply Forall_cons in Hwf as [Ws Wl]. destruct Hsep as [Hs Hl].
  apply NoDup_app. split; [apply NoDup_scan_pixels|]. split; [|apply IH; assumption].
  intros [x y] H1 H2. apply elem_of_scan_pixels in H1.
  apply (elem_of_pixels l x y) in H2. apply existsb_exists in H2 as (t & Ht & Hin).
  rewrite List.Forall_forall in Hs. specialize (Hs t Ht).
  clear -H1 Hin Hs. scan_arith; lia.
Qed.

Lemma length_pixels l : Forall wf_scan l -> Z.of_nat (length (pixels l)) = total_len l.
Proof.
  unfold pixels. induction 1 as [|s l Hs _ IH]; simpl; [reflexivity|].
  rewrite length_app, Nat2Z.inj_add, IH, length_scan_pixels by assumption. reflexivity.
Qed.

(** *** Three-dimensional objects built voxel by voxel *)

(** Channel numbers an [int] holds. *)
Definition int_range (z : Z) : Prop := -2147483648 <= z < 2147483648.

Lemma to_int_id z : int_range z -> to_int z = z.
Proof. unfold int_range, to_int. intros H. rewrite Z.mod_small; lia. Qed.

(** The sum of the pixel counters of the channels. *)
Definition total_vox (cl : list (Z * Object2D.t)) : Z :=
  fold_right (fun kv acc => Object2D.numPix (snd kv) + acc) 0 cl.

(** The scan lies in the box. *)
Definition in_box (x0 x1 y0 y1 : Z) (s : Scan) : Prop :=
  x0 <= itsX s /\ getXmax s <= x1 /\ y0 <= itsY s <= y1.

Definition inbox (o : Object3D.t) : Scan -> Prop :=
  in_box (Object3D.xmin o) (Object3D.xmax o) (Object3D.ymin o) (Object3D.ymax o).

(** What holds of every object built by [Object3D::addPixel]. *)
Definition chan_ok (P : Scan -> Prop) (kv : Z * Object2D.t) : Prop :=
  Inv2 (snd kv) /\ 1 <= Object2D.numPix (snd kv) /\ Forall P (Object2D.scanlist (snd kv)).

Definition Inv3 (o : Object3D.t) : Prop :=
  NoDup (map fst (Object3D.chanlist o)) /\
  Forall (chan_ok (inbox o)) (Object3D.chanlist o) /\
  Object3D.numVox o = total_vox (Object3D.chanlist o).

(** Objects built from the empty one by adding voxels, in channels an
    [int] holds, and translating. *)
Inductive built3D : Object3D.t -> Prop :=
| built3D_empty : built3D Object3D.empty
| built3D_addPixel o x y z : int_range z -> built3D o -> built3D (Object3D.addPixel o x y z)
| built3D_addOffsets o xoff yoff zoff :
    built3D o -> built3D (Object3D.addOffsets o xoff yoff zoff).

Lemma find_chan_None z m : Object3D.find_chan z m = None <-> z ∉ map fst m.
Proof.
  induction m as [|[k v] m IH]; simpl.
  - rewrite elem_of_nil. tauto.
  - rewrite not_elem_of_cons, <- IH. simpl.
    destruct (Z.eqb_spec k z) as [E|E].
    + split; [discriminate|]. intros [H _]. congruence.
    + split; [intros H; split; [congruence|exact H]|tauto].
Qed.

Lemma map_insert_perm z v m :
  Object3D.find_chan z m = None -> Object3D.map_insert z v m ≡ₚ (z, v) :: m.
Proof.
  induction m as [|[k' v'] m IH]; simpl; intros Hf; [reflexivity|].
  destruct (Z.eqb_spec k' z) as [E|E]; [discriminate|].
  destruct (Z.ltb_spec z k'); [reflexivity|].
  destruct (Z.eqb_spec z k'); [congruence|].
  rewrite (IH Hf). apply Permutation_swap.
Qed.

Lemma total_vox_perm m1 m2 : m1 ≡ₚ m2 -> total_vox m1 = total_vox m2.
Proof. induction 1; simpl; lia. Qed.

Lemma find_chan_Some_split z c m :
  Object3D.find_chan z m = Some c ->
  exists m1 m2, m = m1 ++ (z, c) :: m2 /\
                forall c', Object3D.set_chan z c' m = m1 ++ (z, c') :: m2.
Proof.
  induction m as [|[k v] m IH]; simpl; [discriminate|].
  destruct (Z.eqb_spec k z) as [E|E].
  - intros [= ->]. subst. exists [], m. split; reflexivity.
  - intros Hf. destruct (IH Hf) as (m1 & m2 & -> & Hset).
    exists ((k, v) :: m1), m2. split; [reflexivity|].
    intros c'. simpl. rewrite Hset. reflexivity.
Qed.

Lemma total_vox_app m1 m2 : total_vox (m1 ++ m2) = total_vox m1 + total_vox m2.
Proof. induction m1 as [|kv m1 IH]; simpl; [reflexivity|]. rewrite IH. lia. Qed.

Lemma total_vox_zero P m : Forall (chan_ok P) m -> total_vox m = 0 -> m = [].
Proof.
  intros H. destruct H as [|kv m (_ & H1 & _) Hm]; [reflexivity|]. simpl.
  assert (0 <= total_vox m); [|lia].
  clear -Hm. induction Hm as [|kv m (_ & H1 & _) _ IH]; simpl; lia.
Qed.

Lemma in_box_mono x0 x1 y0 y1 x0' x1' y0' y1' s :
  x0' <= x0 -> x1 <= x1' -> y0' <= y0 -> y1 <= y1' ->
  in_box x0 x1 y0 y1 s -> in_box x0' x1' y0' y1' s.
Proof. unfold in_box. lia. Qed.

(** The scans [addPixel] leaves lie in every box that held the scans and
    holds the pixel. *)
Lemma combine_into_in_box x0 x1 y0 y1 y s1 r s1' r' :
  in_box x0 x1 y0 y1 s1 -> Forall (in_box x0 x1 y0 y1) r ->
  Object2D.combine_into y s1 r = Some (s1', r') ->
  in_box x0 x1 y0 y1 s1' /\ Forall (in_box x0 x1 y0 y1) r'.
Proof.
  intros H1 Hr. revert s1' r'. induction Hr as [|s2 r H2 Hr IH]; simpl; [discriminate|].
  intros s1' r'.
  destruct (if itsY s2 =? y then Scan_addScan s1 s2 else None) as [m|] eqn:E.
  - intros [= <- <-]. split; [|assumption].
    destruct (itsY s2 =? y); [|discriminate]. unfold Scan_addScan in E.
    destruct (touches s1 s2); [|discriminate]. injection E as <-.
    unfold in_box, getXmax in *. simpl. lia.
  - destruct (Object2D.combine_into y s1 r) as [[m r0]|]; [|discriminate].
    intros [= <- <-]. destruct (IH _ _ eq_refl) as [Hm Hr0]. split; [assumption|].
    constructor; assumption.
Qed.

Lemma combine_scans_in_box x0 x1 y0 y1 y l :
  Forall (in_box x0 x1 y0 y1) l -> Forall (in_box x0 x1 y0 y1) (Object2D.combine_scans y l).
Proof.
  induction 1 as [|s1 r H1 Hr IH]; simpl; [constructor|].
  destruct (if itsY s1 =? y then Object2D.combine_into y s1 r else None) as [[m r']|] eqn:E.
  - destruct (itsY s1 =? y); [|discriminate].
    destruct (combine_into_in_box _ _ _ _ _ _ _ _ _ H1 Hr E). constructor; assumption.
  - constructor; assumption.
Qed.

Lemma addPixel_find_in_box x0 x1 y0 y1 x y l :
  x0 <= x <= x1 -> Forall (in_box x0 x1 y0 y1) l ->
  Forall (in_box x0 x1 y0 y1) (fst (fst (Object2D.addPixel_find x y l))).
Proof.
  intros Hx. induction 1 as [|s r Hs Hr IH]; simpl; [constructor|].
  destruct ((y =? itsY s) && isInScan s x y); simpl; [constructor; assumption|].
  destruct ((y =? itsY s) && ((x =? itsX s - 1) || (x =? itsX s + itsXLen s))) eqn:E; simpl.
  - constructor; [|assumption]. clear IH. unfold in_box, growLeft, growRight, getXmax in *.
    apply andb_true_iff in E as [_ E]. apply orb_true_iff in E.
    assert (x = itsX s - 1 \/ x = itsX s + itsXLen s) as E'
        by (destruct E as [E|E]; apply Z.eqb_eq in E; auto).
    clear E. destruct (Z.eqb_spec x (itsX s - 1)); simpl; lia.
  - destruct (Object2D.addPixel_find x y r) as [[l' d] c]. simpl in *.
    constructor; assumption.
Qed.

Lemma addPixel_in_box x0 x1 y0 y1 o x y :
  x0 <= x <= x1 -> y0 <= y <= y1 ->
  Forall (in_box x0 x1 y0 y1) (Object2D.scanlist o) ->
  Forall (in_box x0 x1 y0 y1) (Object2D.scanlist (Object2D.addPixel o x y)).
Proof.
  intros Hx Hy Hall. unfold Object2D.addPixel.
  pose proof (addPixel_find_in_box x0 x1 y0 y1 x y _ Hx Hall) as Hf.
  destruct (Object2D.addPixel_find x y (Object2D.scanlist o)) as [[l' d] c]. simpl in Hf.
  assert (forall l, Object2D.scanlist (Object2D.addPixel_params o l x y) = l) as Hsl.
  { intros l. unfold Object2D.addPixel_params. destruct (_ =? _); reflexivity. }
  destruct d; simpl; [destruct c|]; rewrite ?Hsl.
  - apply combine_scans_in_box, Hf.
  - exact Hall.
  - apply Forall_app. split; [exact Hall|]. constructor; [|constructor].
    unfold in_box, getXmax. simpl. lia.
Qed.

Lemma addPixel_numPix_mono o x y :
  Inv2 o -> Object2D.numPix o <= Object2D.numPix (Object2D.addPixel o x y).
Proof.
  intros (Hwf & _ & Hn). pose proof (total_len_nonneg _ Hwf).
  unfold Object2D.addPixel.
  destruct (Object2D.addPixel_find x y (Object2D.scanlist o)) as [[l' d] c].
  destruct d; simpl; [destruct c|]; try lia;
    match goal with |- context [Object2D.addPixel_params o ?l x y] =>
      destruct (addPixel_params_numPix o l x y) as [_ ->]; lia end.
Qed.

Lemma chan_ok_mono (P Q : Scan -> Prop) kv :
  (forall s, P s -> Q s) -> chan_ok P kv -> chan_ok Q kv.
Proof.
  intros HPQ (H1 & H2 & H3). split; [exact H1|]. split; [exact H2|].
  eapply Forall_impl; [exact H3|exact HPQ].
Qed.

Lemma addPixel_empty x y :
  Object2D.addPixel Object2D.empty x y = Object2D.mk [mkScan y x 1] 1 x y x x y y.
Proof. reflexivity. Qed.

Lemma addPixel_Inv3 o x y z : int_range z -> Inv3 o -> Inv3 (Object3D.addPixel o x y z).
Proof.
  intros Hz (Hnd & Hall & Hn). unfold Object3D.addPixel.
  destruct (Object3D.find_chan z (Object3D.chanlist o)) as [c|] eqn:Ef.
  - (* a channel the object has *)
    destruct (find_chan_Some_split _ _ _ Ef) as (m1 & m2 & Em & Hset).
    rewrite Hset. unfold Inv3. simpl. rewrite Em in Hnd, Hall, Hn.
    split; [|split].
    + rewrite map_app in *. exact Hnd.
    + apply Forall_app in Hall as [Hm1 Hm2]. apply Forall_cons in Hm2 as [Hc Hm2].
      assert (forall s, inbox o s ->
                in_box (if x <? Object3D.xmin o then x else Object3D.xmin o)
                       (if Object3D.xmax o <? x then x else Object3D.xmax o)
                       (if y <? Object3D.ymin o then y else Object3D.ymin o)
                       (if Object3D.ymax o <? y then y else Object3D.ymax o) s) as Hmono.
      { intros s. apply in_box_mono; bool_cases; lia. }
      apply Forall_app. split; [|constructor].
      * eapply Forall_impl; [exact Hm1|]. intros kv. apply chan_ok_mono, Hmono.
      * destruct Hc as (Hi & Hp & Hb). simpl in *. split; [|split].
        -- apply addPixel_Inv2, Hi.
        -- pose proof (addPixel_numPix_mono c x y Hi). simpl. lia.
        -- apply addPixel_in_box; [bool_cases; lia..|].
           eapply Forall_impl; [exact Hb|exact Hmono].
      * eapply Forall_impl; [exact Hm2|]. intros kv. apply chan_ok_mono, Hmono.
    + rewrite Hn, !total_vox_app. simpl. lia.
  - (* a new channel *)
    rewrite (to_int_id z Hz), addPixel_empty.
    set (obj := Object2D.mk [mkScan y x 1] 1 x y x x y y).
    pose proof (map_insert_perm z obj _ Ef) as Hperm.
    assert (Inv2 obj) as Hobj.
    { repeat split; simpl; repeat constructor. unfold wf_scan. simpl. lia. }
    destruct (Z.eqb_spec (Object3D.numVox o) 0) as [E0|E0]; unfold Inv3; simpl.
    + assert (Object3D.chanlist o = []) as Enil
          by (apply (total_vox_zero _ _ Hall); lia).
      rewrite Enil in *. simpl. split; [|split].
      * repeat constructor. apply not_elem_of_nil.
      * constructor; [|constructor]. split; [exact Hobj|]. split; [simpl; lia|].
        constructor; [|constructor]. unfold inbox, in_box, getXmax. simpl. lia.
      * reflexivity.
    + split; [|split].
      * rewrite Hperm. simpl. constructor; [|assumption]. apply find_chan_None, Ef.
      * unfold inbox at 1. simpl. rewrite Hperm.
        assert (forall s, inbox o s ->
                  in_box (if x <? Object3D.xmin o then x else Object3D.xmin o)
                         (if Object3D.xmax o <? x then x else Object3D.xmax o)
                         (if y <? Object3D.ymin o then y else Object3D.ymin o)
                         (if Object3D.ymax o <? y then y else Object3D.ymax o) s) as Hmono.
        { intros s. apply in_box_mono; bool_cases; lia. }
        constructor.
        -- split; [exact Hobj|]. split; [simpl; lia|].
           constructor; [|constructor]. unfold inbox, in_box, getXmax. simpl. bool_cases; lia.
        -- eapply Forall_impl; [exact Hall|]. intros kv. apply chan_ok_mono, Hmono.
      * rewrite (total_vox_perm _ _ Hperm). simpl. lia.
Qed.


(** Adding a voxel the object holds changes nothing. *)
Lemma addPixel3D_contained o x y z :
  Inv3 o -> Object3D.isInObject o x y z = true -> Object3D.addPixel o x y z = o.
Proof.
  intros (Hnd & Hall & Hn) Hin. unfold Object3D.isInObject, Object3D.addPixel in *.
  destruct (Object3D.find_chan z (Object3D.chanlist o)) as [c|] eqn:Ef; [|discriminate].
  destruct (find_chan_Some_split _ _ _ Ef) as (m1 & m2 & Em & Hset).
  rewrite Em in Hall. apply Forall_app in Hall as [_ Hall].
  apply Forall_cons in Hall as [(Hi & _ & Hb) _]. simpl in *.
  rewrite (addPixel_contained c x y Hi Hin), Hset, <- Em.
  rewrite isInObject_existsb in Hin. apply existsb_exists in Hin as (s & Hs & Hsin).
  rewrite List.Forall_forall in Hb. specialize (Hb s Hs).
  assert (Object3D.xmin o <= x <= Object3D.xmax o /\ Object3D.ymin o <= y <= Object3D.ymax o)
    as [Hx Hy].
  { clear -Hb Hsin. unfold inbox, in_box in Hb. scan_arith. lia. }
  destruct o; simpl in *.
  repeat match goal with
         | |- context [?a <? ?b] => destruct (Z.ltb_spec a b); [lia|]
         end.
  f_equal; lia.
Qed.

(** The voxels of a built object are pairwise distinct, and the voxel
    counter is their number. *)
Lemma NoDup_voxels o : Inv3 o -> NoDup (Object3D.voxels o).
Proof.
  intros (Hnd & Hall & _). unfold Object3D.voxels.
  induction (Object3D.chanlist o) as [|[k c] cl IH]; simpl in *; [constructor|].
  apply NoDup_cons in Hnd as [Hk Hnd]. apply Forall_cons in Hall as [Hc Hall].
  apply NoDup_app. split; [|split; [|apply IH; assumption]].
  - destruct Hc as ((Hwf & Hsep & _) & _). simpl in *.
    apply NoDup_fmap_2; [|apply NoDup_pixels; assumption].
    intros [a b] [a' b'] E. simpl in E. congruence.
  - intros [[a b] d] H1 H2.
    apply list_elem_of_fmap in H1 as (p & E & _). simpl in E. injection E as -> -> ->.
    apply Hk. apply list_elem_of_In, in_flat_map in H2 as ([k' c'] & Hin & H2).
    apply list_elem_of_In, list_elem_of_fmap in H2 as (p' & E & _). simpl in E.
    injection E as _ _ ->. apply list_elem_of_fmap. exists (k', c').
    split; [reflexivity|apply list_elem_of_In, Hin].
Qed.

Lemma length_voxels o : Inv3 o -> Object3D.numVox o = Z.of_nat (length (Object3D.voxels o)).
Proof.
  intros (_ & Hall & ->). unfold Object3D.voxels.
  induction Hall as [|[k c] cl Hc _ IH]; simpl; [reflexivity|].
  rewrite length_app, length_map, Nat2Z.inj_add, <- IH.
  destruct Hc as ((Hwf & _ & Hn) & _). simpl in *.
  rewrite length_pixels, Hn by assumption. reflexivity.
Qed.

(** One channel of the translated object. *)
Definition shift_chan (xoff yoff zoff : Z) (kv : Z * Object2D.t) : Z * Object2D.t :=
  (fst kv + zoff, Object2D.addOffsets (snd kv) xoff yoff).

Lemma fold_insert_perm xoff yoff zoff l acc :
  NoDup (map fst l) ->
  (forall k, k ∈ map fst l -> k + zoff ∉ map fst acc) ->
  fold_left (fun nm kv => Object3D.map_insert (fst kv + zoff)
                            (Object2D.addOffsets (snd kv) xoff yoff) nm) l acc
  ≡ₚ map (shift_chan xoff yoff zoff) l ++ acc.
Proof.
  revert acc. induction l as [|[k v] l IH]; simpl; intros acc Hnd Hdisj; [reflexivity|].
  apply NoDup_cons in Hnd as [Hk Hnd].
  assert (Object3D.map_insert (k + zoff) (Object2D.addOffsets v xoff yoff) acc
          ≡ₚ (k + zoff, Object2D.addOffsets v xoff yoff) :: acc) as Hins.
  { apply map_insert_perm, find_chan_None, Hdisj. left. }
  rewrite IH; [|assumption|].
  - rewrite Hins. unfold shift_chan at 2. simpl. symmetry. apply Permutation_middle.
  - intros k' Hk'. rewrite Hins. simpl. apply not_elem_of_cons. split.
    + intros E. apply Hk. replace k with k' by lia. exact Hk'.
    + apply Hdisj. right. exact Hk'.
Qed.

Lemma addOffsets_Inv3 o xoff yoff zoff : Inv3 o -> Inv3 (Object3D.addOffsets o xoff yoff zoff).
Proof.
  intros (Hnd & Hall & Hn).
  pose proof (fold_insert_perm xoff yoff zoff (Object3D.chanlist o) [] Hnd
                (fun k _ => not_elem_of_nil _)) as Hperm.
  rewrite app_nil_r in Hperm.
  assert (total_vox (map (shift_chan xoff yoff zoff) (Object3D.chanlist o))
          = total_vox (Object3D.chanlist o)) as Htv.
  { clear. induction (Object3D.chanlist o) as [|kv l IH]; simpl; [reflexivity|].
    rewrite IH. reflexivity. }
  assert (NoDup (map fst (map (shift_chan xoff yoff zoff) (Object3D.chanlist o)))) as Hnd'.
  { rewrite map_map. simpl. rewrite <- (map_map fst (fun k => k + zoff)).
    apply NoDup_fmap_2; [|exact Hnd]. intros a b. lia. }
  unfold Object3D.addOffsets.
  destruct (Z.ltb_spec 0 (Object3D.numVox o)) as [Hpos|Hpos]; unfold Inv3; simpl.
  - split; [rewrite Hperm; exact Hnd'|]. split.
    + unfold inbox at 1. simpl. rewrite Hperm. apply Forall_fmap.
      eapply Forall_impl; [exact Hall|].
      intros [k c] (Hi & Hp & Hb). simpl in *. split; [|split]; simpl.
      * apply addOffsets_Inv2, Hi.
      * exact Hp.
      * apply Forall_fmap. eapply Forall_impl; [exact Hb|].
        intros s. unfold inbox, in_box, Scan_addOffsets, getXmax. simpl. lia.
    + rewrite (total_vox_perm _ _ Hperm), Htv. exact Hn.
  - assert (Object3D.chanlist o = []) as Enil.
    { apply (total_vox_zero _ _ Hall).
      assert (0 <= total_vox (Object3D.chanlist o)); [|lia].
      clear -Hall. induction Hall as [|kv m (_ & H1 & _) _ IH]; simpl; lia. }
    rewrite Enil in *. simpl. split; [constructor|]. split; [constructor|exact Hn].
Qed.

Lemma built3D_Inv3 o : built3D o -> Inv3 o.
Proof.
  induction 1 as [|o x y z Hz _ IH|o xoff yoff zoff _ IH].
  - repeat split; constructor.
  - apply addPixel_Inv3; assumption.
  - apply addOffsets_Inv3, IH.
Qed.

(** Three pixels of one row, added out of order. *)
Definition three_pixels : Object2D.t :=
  Object2D.addPixel (Object2D.addPixel (Object2D.addPixel Object2D.empty 0 0) 2 0) 1 0.

(** C8.  For every object built from the empty one by [addPixel] (and
    translations), adding a pixel or voxel the object already holds leaves
    the object as it was, so the count, the sums xSum/ySum/zSum and the
    bounding box are unchanged; the pixels and voxels the object
    enumerates are pairwise distinct, and the cached count is their
    number. *)
Theorem addPixel_held_is_noop (o2 : Object2D.t) (o3 : Object3D.t) (x y z : Z) :
  built2D o2 -> built3D o3 ->
  (Object2D.isInObject o2 x y = true -> Object2D.addPixel o2 x y = o2) /\
  (Object3D.isInObject o3 x y z = true -> Object3D.addPixel o3 x y z = o3) /\
  NoDup (pixels (Object2D.scanlist o2)) /\
  Object2D.numPix o2 = Z.of_nat (length (pixels (Object2D.scanlist o2))) /\
  NoDup (Object3D.voxels o3) /\
  Object3D.numVox o3 = Z.of_nat (length (Object3D.voxels o3)).
Proof.
  intros H2 H3. apply built2D_Inv2 in H2. apply built3D_Inv3 in H3.
  split; [apply addPixel_contained, H2|].
  split; [apply addPixel3D_contained, H3|].
  destruct H2 as (Hwf & Hsep & Hn).
  split; [apply NoDup_pixels; assumption|].
  split; [rewrite length_pixels by assumption; exact Hn|].
  split; [apply NoDup_voxels, H3|apply length_voxels, H3].
Qed.

(** C8 on three pixels of a row and on two voxels of a channel. *)
Lemma addPixel_held_is_noop_witness :
  built2D three_pixels /\ built3D two_voxels /\
  Object2D.isInObject three_pixels 1 0 = true /\
  Object3D.isInObject two_voxels 1 0 0 = true /\
  Object2D.addPixel three_pixels 1 0 = three_pixels /\
  Object3D.addPixel two_voxels 1 0 0 = two_voxels /\
  Object2D.numPix three_pixels = Z.of_nat (length (pixels (Object2D.scanlist three_pixels))) /\
  Object3D.numVox two_voxels = Z.of_nat (length (Object3D.voxels two_voxels)).
Proof.
  assert (built2D three_pixels) as B2 by (repeat constructor).
  assert (built3D two_voxels) as B3 by (repeat constructor; unfold int_range; lia).
  destruct (addPixel_held_is_noop three_pixels two_voxels 1 0 0 B2 B3)
    as (N2 & N3 & _ & C2 & _ & C3).
  split; [exact B2|]. split; [exact B3|].
  split; [reflexivity|]. split; [reflexivity|].
  split; [apply N2; reflexivity|]. split; [apply N3; reflexivity|].
  split; [exact C2|exact C3].
Defined.

(** The objects [addPixel] builds satisfy what the characterisation of
    [canMerge] asks of its arguments. *)
Lemma encloses_iff o :
  encloses o = true <->
  Forall wf_scan (Object2D.scanlist o) /\
  Forall (in_box (Object2D.xmin o) (Object2D.xmax o) (Object2D.ymin o) (Object2D.ymax o))
         (Object2D.scanlist o).
Proof.
  unfold encloses. rewrite forallb_forall, <- Forall_and, List.Forall_forall.
  split; intros H s Hs; specialize (H s Hs); unfold wf_scan, in_box in *;
    rewrite !andb_true_iff, !Z.leb_le in *; lia.
Qed.

Lemma built2D_encloses o : built2D o -> encloses o = true.
Proof.
  intros Hb. apply encloses_iff. split; [apply built2D_Inv2, Hb|].
  induction Hb as [|o x y Hb IH|o xoff yoff Hb IH].
  - constructor.
  - destruct (built2D_Inv2 o Hb) as (Hwf & _ & Hn).
    assert (forall l, Object2D.addPixel_params o l x y =
              Object2D.mk l (Object2D.numPix (Object2D.addPixel_params o l x y))
                (Object2D.xSum (Object2D.addPixel_params o l x y))
                (Object2D.ySum (Object2D.addPixel_params o l x y))
                (if Object2D.numPix o =? 0 then x else if x <? Object2D.xmin o then x else Object2D.xmin o)
                (if Object2D.numPix o =? 0 then x else if Object2D.xmax o <? x then x else Object2D.xmax o)
                (if Object2D.numPix o =? 0 then y else if y <? Object2D.ymin o then y else Object2D.ymin o)
                (if Object2D.numPix o =? 0 then y else if Object2D.ymax o <? y then y else Object2D.ymax o))
      as Hpar.
    { intros l. unfold Object2D.addPixel_params. destruct (_ =? 0); reflexivity. }
    assert (Forall (in_box
              (if Object2D.numPix o =? 0 then x else if x <? Object2D.xmin o then x else Object2D.xmin o)
              (if Object2D.numPix o =? 0 then x else if Object2D.xmax o <? x then x else Object2D.xmax o)
              (if Object2D.numPix o =? 0 then y else if y <? Object2D.ymin o then y else Object2D.ymin o)
              (if Object2D.numPix o =? 0 then y else if Object2D.ymax o <? y then y else Object2D.ymax o))
              (Object2D.scanlist (Object2D.addPixel o x y))) as Hbox.
    { apply addPixel_in_box; [bool_cases; lia..|].
      destruct (Z.eqb_spec (Object2D.numPix o) 0) as [E|E].
      - rewrite (total_len_zero _ Hwf) by lia. constructor.
      - eapply Forall_impl; [exact IH|]. intros s. apply in_box_mono; bool_cases; lia. }
    revert Hbox. unfold Object2D.addPixel.
    destruct (Object2D.addPixel_find x y (Object2D.scanlist o)) as [[l' d] c].
    destruct d; simpl; [destruct c|]; try rewrite Hpar; simpl; auto.
  - simpl. apply Forall_fmap. eapply Forall_impl; [exact IH|].
    intros s. unfold in_box, Scan_addOffsets, getXmax. simpl. lia.
Qed.

End PixelInfoProps.

(** ** Growing objects to the secondary threshold (ObjectGrower) *)

Module ObjectGrower.

Import PixelInfo.
Local Open Scope Z_scope.

(** Modelled from the spec: the enumeration STATE is declared in
    Map/objectgrower.hh, which is not among the sources; each voxel has one
    of the three states AVAILABLE, DETECTED, BLANK. *)
Inductive STATE : Type := AVAILABLE | DETECTED | BLANK.

Section Grower.

(** The pixel type of the cube, and the test of the growth statistics,
    [itsGrowthStats.isDetection], which is defined with the Stats class
    (Arrays/stats.hh, not among the sources). *)
Variable T : Type.
Variable isDetection : T -> bool.

(** The flux a [Voxel(x,y,z)] is constructed with. *)
Variable noFlux : T.

Record Voxel : Type := mkVoxel { getX : Z; getY : Z; getZ : Z; getF : T }.

(** The members of ObjectGrower the growing functions use. *)
Record t : Type := mk {
  itsFlagArray : list STATE;
  itsArrayDim : Z * Z * Z;
  itsSpatialThresh : Z;
  itsVelocityThresh : Z;
  itsFluxArray : list T
}.

Definition dimX (g : t) : Z := fst (fst (itsArrayDim g)).
Definition dimY (g : t) : Z := snd (fst (itsArrayDim g)).
Definition dimZ (g : t) : Z := snd (itsArrayDim g).

(** [pos = x + y*itsArrayDim[0] + z*spatsize]. *)
Definition position (g : t) (x y z : Z) : nat :=
  Z.to_nat (x + y * dimX g + z * (dimX g * dimY g)).

(** The voxels the three nested loops around (xpt, ypt, zpt) visit, in the
    order of the loops. *)
Definition surrounding (g : t) (xpt ypt zpt : Z) : list (Z * Z * Z) :=
  let xmin := Z.max (xpt - itsSpatialThresh g) 0 in
  let xmax := Z.min (xpt + itsSpatialThresh g) (dimX g - 1) in
  let ymin := Z.max (ypt - itsSpatialThresh g) 0 in
  let ymax := Z.min (ypt + itsSpatialThresh g) (dimY g - 1) in
  let zmin := Z.max (zpt - itsVelocityThresh g) 0 in
  let zmax := Z.min (zpt + itsVelocityThresh g) (dimZ g - 1) in
  flat_map (fun x => flat_map (fun y => map (fun z => (x, y, z)) (zrange zmin zmax))
                              (zrange ymin ymax))
           (zrange xmin xmax).

(** The body of the innermost loop: an AVAILABLE voxel other than the
    centre whose flux passes the growth threshold becomes DETECTED and is
    pushed on the list.  [mkV] builds the pushed voxel from its position
    and flux. *)
Definition visit (g : t) (mkV : Z -> Z -> Z -> T -> Voxel) (xpt ypt zpt : Z)
    (st : list STATE * list Voxel) (c : Z * Z * Z) : list STATE * list Voxel :=
  let '(x, y, z) := c in
  let pos := position g x y z in
  if (negb (x =? xpt) || negb (y =? ypt) || negb (z =? zpt))
  then match fst st !! pos, itsFluxArray g !! pos with
       | Some AVAILABLE, Some f =>
           if isDetection f
           then (<[pos := DETECTED]> (fst st), snd st ++ [mkV x y z f])
           else st
       | _, _ => st
       end
  else st.

(** The three loops around one voxel: the flags after them, and the voxels
    pushed. *)
Definition visit_all (g : t) (mkV : Z -> Z -> Z -> T -> Voxel) (flags : list STATE)
    (xpt ypt zpt : Z) : list STATE * list Voxel :=
  fold_left (visit g mkV xpt ypt zpt) (surrounding g xpt ypt zpt) (flags, []).

(** The loop of [grow] over the growing [voxlist]: [pending] is the part of
    the list from index [i] on, [pushed] the voxels pushed so far. *)
Fixpoint grow_loop (fuel : nat) (g : t) (flags : list STATE) (pending pushed : list Voxel)
  : option (list STATE * list Voxel) :=
  match pending with
  | [] => Some (flags, pushed)
  | v :: rest =>
      match fuel with
      | O => None
      | S fuel' =>
          let '(flags', new) :=
            visit_all g (fun x y z _ => mkVoxel x y z noFlux) flags (getX v) (getY v) (getZ v) in
          grow_loop fuel' g flags' (rest ++ new) (pushed ++ new)
      end
  end.

(** The number of voxels a growth can still take. *)
Fixpoint available (flags : list STATE) : nat :=
  match flags with
  | [] => O
  | AVAILABLE :: r => S (available r)
  | _ :: r => available r
  end.

(** [ObjectGrower::grow]: the voxels of the object are the start of the
    list; the pushed voxels are then added to the object.  The result is
    the grower with its new flags, the object, and the voxels added. *)
Definition grow (g : t) (theObject : Object3D.t)
  : option (t * Object3D.t * list Voxel) :=
  let voxlist := map (fun p => mkVoxel (fst (fst p)) (snd (fst p)) (snd p) noFlux)
                     (Object3D.voxels theObject) in
  match grow_loop (length voxlist + available (itsFlagArray g)) g (itsFlagArray g) voxlist [] with
  | Some (flags', pushed) =>
      Some (mk flags' (itsArrayDim g) (itsSpatialThresh g) (itsVelocityThresh g) (itsFluxArray g),
            fold_left (fun o v => Object3D.addPixel o (getX v) (getY v) (getZ v)) pushed theObject,
            pushed)
  | None => None
  end.

(** How a call of [growFromPixel] ends.  It returns its vector; or a
    [push_back] inside its loop over [newVoxels] reallocates that vector,
    which invalidates the iterator [v] of the loop, and the next use of [v]
    has no defined behaviour; [OutOfFuel] is for a run the model cuts
    short. *)
Inductive Outcome : Type :=
| Returned (newVoxels : list Voxel)
| Undefined
| OutOfFuel.

(** [std::vector]: the elements and the capacity.  The capacity an empty
    vector starts with and the capacity a full vector takes when it grows
    are left to the implementation of the library: they are parameters. *)
Variable capacity0 : nat.
Variable regrow : nat -> nat.

(** [push_back]: on a full vector the elements are moved to new storage.
    The flag tells whether they were. *)
Definition push_back (vec : list Voxel * nat) (v : Voxel) : (list Voxel * nat) * bool :=
  if (length (fst vec) <? snd vec)%nat
  then ((fst vec ++ [v], snd vec), false)
  else ((fst vec ++ [v], Nat.max (regrow (snd vec)) (S (length (fst vec)))), true).

(** The loop over [morevox] that pushes its elements onto [newVoxels], and
    whether one of the calls of [push_back] moved the elements. *)
Definition push_all (vec : list Voxel * nat) (vs : list Voxel) : (list Voxel * nat) * bool :=
  fold_left (fun st v => (fst (push_back (fst st) v), snd st || snd (push_back (fst st) v)))
            vs (vec, false).

(** The loop of [growFromPixel] over [newVoxels] with the iterator [v],
    here the index [i]: the function is called ([rec]) on [*v] and what it
    returns is pushed onto [newVoxels] itself.  When that has moved the
    elements, [v++] and [v<newVoxels.end()] work on an invalid iterator. *)
Fixpoint expand (rec : list STATE -> Voxel -> list STATE * Outcome) (n : nat)
    (flags : list STATE) (vec : list Voxel * nat) (i : nat) : list STATE * Outcome :=
  match fst vec !! i with
  | None => (flags, Returned (fst vec))
  | Some v =>
      match n with
      | O => (flags, OutOfFuel)
      | S n' =>
          match rec flags v with
          | (flags', Returned morevox) =>
              if snd (push_all vec morevox) then (flags', Undefined)
              else expand rec n' flags' (fst (push_all vec morevox)) (S i)
          | (flags', Undefined) => (flags', Undefined)
          | (flags', OutOfFuel) => (flags', OutOfFuel)
          end
      end
  end.

(** [ObjectGrower::growFromPixel]: the loops around the voxel, which push
    onto the empty [newVoxels], then the loop over [newVoxels].  The result
    is the flag array as the call leaves it and how the call ends.  [fuel]
    bounds the depth of the recursion and the length of the loop. *)
Fixpoint growFromPixel (fuel : nat) (g : t) (flags : list STATE) (vox : Voxel)
  : list STATE * Outcome :=
  match fuel with
  | O => (flags, OutOfFuel)
  | S fuel' =>
      let '(flags1, found) :=
        visit_all g mkVoxel flags (getX vox) (getY vox) (getZ vox) in
      expand (growFromPixel fuel' g) fuel' flags1 (fst (push_all ([], capacity0) found)) 0
  end.

End Grower.

Arguments mkVoxel {T} _ _ _ _.
Arguments getX {T} _.
Arguments getY {T} _.
Arguments getZ {T} _.
Arguments getF {T} _.
Arguments mk {T} _ _ _ _ _.
Arguments itsFlagArray {T} _.
Arguments itsArrayDim {T} _.
Arguments itsSpatialThresh {T} _.
Arguments itsVelocityThresh {T} _.
Arguments itsFluxArray {T} _.
Arguments dimX {T} _.
Arguments dimY {T} _.
Arguments dimZ {T} _.
Arguments position {T} _ _ _ _.
Arguments surrounding {T} _ _ _ _.
Arguments visit {T} _ _ _ _ _ _ _ _.
Arguments visit_all {T} _ _ _ _ _ _ _.
Arguments grow_loop {T} _ _ _ _ _ _ _.
Arguments grow {T} _ _ _ _.
Arguments Returned {T} _.
Arguments Undefined {T}.
Arguments OutOfFuel {T}.
Arguments push_back {T} _ _ _.
Arguments push_all {T} _ _ _.
Arguments expand {T} _ _ _ _ _ _.
Arguments growFromPixel {T} _ _ _ _ _ _ _.

End ObjectGrower.

(** ** Properties of the object grower *)

Module ObjectGrowerProps.

Import PixelInfo ObjectGrower.
Local Open Scope Z_scope.

Section GrowerProps.

Variable T : Type.
Variable isDetection : T -> bool.
Variable noFlux : T.

Implicit Types (g : t T) (v : Voxel T).

(** The place of a voxel in the arrays. *)
Definition pos g v : nat := position g (getX v) (getY v) (getZ v).

(** [flags] comes from [flags0] by the growth that added the voxels [added]:
    these are distinct voxels, all AVAILABLE in [flags0] with a flux that
    passes the growth test; they are DETECTED in [flags], and every other
    voxel has the state it had. *)
Definition Grown g (flags0 flags : list STATE) (added : list (Voxel T)) : Prop :=
  length flags = length flags0 /\
  NoDup (map (pos g) added) /\
  (forall v, v ∈ added ->
     flags0 !! pos g v = Some AVAILABLE /\
     exists f, itsFluxArray g !! pos g v = Some f /\ isDetection f = true) /\
  (forall p, p ∈ map (pos g) added -> flags !! p = Some DETECTED) /\
  (forall p, p ∉ map (pos g) added -> flags !! p = flags0 !! p) /\
  (available flags + length added = available flags0)%nat.

Lemma Grown_refl g flags : Grown g flags flags [].
Proof.
  split; [reflexivity|]. split; [constructor|]. split; [|split; [|split]].
  - intros v Hv. apply elem_of_nil in Hv. tauto.
  - intros p Hp. apply elem_of_nil in Hp. tauto.
  - reflexivity.
  - simpl. lia.
Qed.

Lemma available_insert flags p :
  flags !! p = Some AVAILABLE ->
  (available (<[p := DETECTED]> flags) + 1 = available flags)%nat.
Proof.
  revert p. induction flags as [|s flags IH]; intros [|p]; simpl; try discriminate.
  - intros [= ->]. lia.
  - intros H. specialize (IH p H). destruct s; simpl; lia.
Qed.

Lemma Grown_trans g f0 f1 f2 a1 a2 :
  Grown g f0 f1 a1 -> Grown g f1 f2 a2 -> Grown g f0 f2 (a1 ++ a2).
Proof.
  intros (L1 & N1 & A1 & D1 & U1 & C1) (L2 & N2 & A2 & D2 & U2 & C2).
  assert (forall v, v ∈ a2 -> pos g v ∉ map (pos g) a1) as Hdisj.
  { intros v Hv Hin. destruct (A2 v Hv) as [Hav _]. rewrite (D1 _ Hin) in Hav. discriminate. }
  split; [congruence|]. split; [|split; [|split; [|split]]].
  - rewrite map_app. apply NoDup_app. split; [exact N1|]. split; [|exact N2].
    intros p H1 H2. apply list_elem_of_fmap in H2 as (v & -> & Hv). exact (Hdisj v Hv H1).
  - intros v Hv. apply elem_of_app in Hv as [Hv|Hv]; [exact (A1 v Hv)|].
    destruct (A2 v Hv) as [Hav Hf]. split; [|exact Hf].
    rewrite <- (U1 _ (Hdisj v Hv)). exact Hav.
  - intros p Hp. rewrite map_app in Hp.
    destruct (decide (p ∈ map (pos g) a2)) as [H2|H2]; [exact (D2 _ H2)|].
    rewrite (U2 _ H2). apply D1. apply elem_of_app in Hp. tauto.
  - intros p Hp. rewrite map_app in Hp. rewrite not_elem_of_app in Hp. destruct Hp as [H1 H2].
    rewrite (U2 _ H2). exact (U1 _ H1).
  - rewrite length_app. lia.
Qed.

Lemma Grown_flip g flags v f :
  flags !! pos g v = Some AVAILABLE -> itsFluxArray g !! pos g v = Some f ->
  isDetection f = true -> Grown g flags (<[pos g v := DETECTED]> flags) [v].
Proof.
  intros Hav Hf Hd. split; [apply length_insert|]. split; [|split; [|split; [|split]]].
  - simpl. apply NoDup_singleton.
  - intros w Hw. apply list_elem_of_singleton in Hw. subst. split; [exact Hav|]. eauto.
  - intros p Hp. simpl in Hp. apply list_elem_of_singleton in Hp. subst.
    apply list_lookup_insert_eq. eapply lookup_lt_Some; eauto.
  - intros p Hp. simpl in Hp. apply not_elem_of_cons in Hp as [Hp _].
    apply list_lookup_insert_ne. congruence.
  - simpl. apply available_insert, Hav.
Qed.

(** [mkV] builds a voxel at the position it is given. *)
Definition at_position (mkV : Z -> Z -> Z -> T -> Voxel T) : Prop :=
  forall x y z f, getX (mkV x y z f) = x /\ getY (mkV x y z f) = y /\ getZ (mkV x y z f) = z.

Lemma visit_Grown g mkV xpt ypt zpt f0 st c :
  at_position mkV -> Grown g f0 (fst st) (snd st) ->
  Grown g f0 (fst (visit isDetection g mkV xpt ypt zpt st c))
             (snd (visit isDetection g mkV xpt ypt zpt st c)).
Proof.
  intros Hmk HG. unfold visit. destruct c as [[x y] z].
  destruct (negb (x =? xpt) || negb (y =? ypt) || negb (z =? zpt)); [|exact HG].
  destruct (fst st !! position g x y z) as [[| |]|] eqn:E1; try exact HG.
  destruct (itsFluxArray g !! position g x y z) as [f|] eqn:E2; [|exact HG].
  destruct (isDetection f) eqn:E3; [|exact HG]. simpl.
  apply (Grown_trans g f0 (fst st)); [exact HG|].
  assert (pos g (mkV x y z f) = position g x y z) as Ep.
  { unfold pos. destruct (Hmk x y z f) as (-> & -> & ->). reflexivity. }
  rewrite <- Ep in *. apply (Grown_flip g (fst st) (mkV x y z f) f); assumption.
Qed.

Lemma visit_all_Grown g mkV flags xpt ypt zpt :
  at_position mkV ->
  Grown g flags (fst (visit_all isDetection g mkV flags xpt ypt zpt))
                (snd (visit_all isDetection g mkV flags xpt ypt zpt)).
Proof.
  intros Hmk. unfold visit_all.
  assert (Grown g flags (fst (flags, @nil (Voxel T))) (snd (flags, @nil (Voxel T)))) as H0
      by apply Grown_refl.
  revert H0. generalize (flags, @nil (Voxel T)).
  induction (surrounding g xpt ypt zpt) as [|c l IH]; simpl; intros st H0; [exact H0|].
  apply IH, visit_Grown; assumption.
Qed.

Lemma at_position_mkVoxel : at_position mkVoxel.
Proof. intros x y z f. auto. Qed.

Lemma at_position_noFlux : at_position (fun x y z _ => mkVoxel x y z noFlux).
Proof. intros x y z f. auto. Qed.

Lemma grow_loop_Grown g fuel f0 flags pending pushed flags' pushed' :
  Grown g f0 flags pushed ->
  grow_loop isDetection noFlux fuel g flags pending pushed = Some (flags', pushed') ->
  Grown g f0 flags' pushed'.
Proof.
  revert flags pending pushed. induction fuel as [|fuel IH]; intros flags pending pushed HG;
    destruct pending as [|v rest]; simpl; try discriminate.
  - intros [= <- <-]. exact HG.
  - intros [= <- <-]. exact HG.
  - pose proof (visit_all_Grown g _ flags (getX v) (getY v) (getZ v) at_position_noFlux) as HV.
    destruct (visit_all isDetection g _ flags (getX v) (getY v) (getZ v)) as [fl new].
    apply IH. exact (Grown_trans g f0 flags fl pushed new HG HV).
Qed.

Lemma grow_loop_terminates g fuel flags pending pushed :
  (length pending + available flags <= fuel)%nat ->
  exists r, grow_loop isDetection noFlux fuel g flags pending pushed = Some r.
Proof.
  revert flags pending pushed. induction fuel as [|fuel IH]; intros flags pending pushed Hf;
    destruct pending as [|v rest]; simpl in *; eauto; [lia|].
  pose proof (visit_all_Grown g _ flags (getX v) (getY v) (getZ v) at_position_noFlux) as HV.
  destruct (visit_all isDetection g _ flags (getX v) (getY v) (getZ v)) as [fl new].
  destruct HV as (_ & _ & _ & _ & _ & HC). simpl in HC.
  apply IH. rewrite length_app. lia.
Qed.

(** *** The vector of [growFromPixel] *)

Variable capacity0 : nat.
Variable regrow : nat -> nat.

Lemma push_all_fold (vs : list (Voxel T)) : forall st : list (Voxel T) * nat * bool,
  fst (fst (fold_left (fun st v => (fst (push_back regrow (fst st) v),
                                    snd st || snd (push_back regrow (fst st) v)))
                      vs st))
  = fst (fst st) ++ vs.
Proof.
  induction vs as [|v vs IH]; intros st; simpl.
  - rewrite app_nil_r. reflexivity.
  - rewrite IH. cbn [fst]. unfold push_back.
    destruct (length (fst (fst st)) <? snd (fst st))%nat; cbn [fst];
      rewrite <- app_assoc; reflexivity.
Qed.

(** Pushing appends, whether the elements are moved or not. *)
Lemma push_all_elements (vec : list (Voxel T) * nat) vs :
  fst (fst (push_all regrow vec vs)) = fst vec ++ vs.
Proof. unfold push_all. rewrite push_all_fold. reflexivity. Qed.

(** What holds of the flags when a call ends, however it ends: they come
    from the flags at the call by a growth, which is the growth by the
    voxels returned when the call returns. *)
Definition ends_well g (flags0 : list STATE) (r : list STATE * Outcome T) : Prop :=
  match snd r with
  | Returned out => Grown g flags0 (fst r) out
  | _ => exists added, Grown g flags0 (fst r) added
  end.

Lemma ends_well_grown g flags0 r : ends_well g flags0 r -> exists added, Grown g flags0 (fst r) added.
Proof. unfold ends_well. destruct (snd r); eauto. Qed.

Lemma expand_ends_well g rec n : forall f0 fl vec i,
  (forall fl v, ends_well g fl (rec fl v)) ->
  Grown g f0 fl (fst vec) ->
  ends_well g f0 (expand regrow rec n fl vec i).
Proof.
  induction n as [|n IH]; intros f0 fl vec i Hrec HG; cbn [expand];
    destruct (fst vec !! i) as [v|]; try exact HG.
  - exists (fst vec). exact HG.
  - pose proof (Hrec fl v) as Hr. unfold ends_well in Hr.
    destruct (rec fl v) as [fl1 [more| |]]; cbn [fst snd] in Hr.
    + pose proof (Grown_trans g f0 fl fl1 _ _ HG Hr) as HG'.
      destruct (snd (push_all regrow vec more)).
      * exists (fst vec ++ more). exact HG'.
      * apply IH; [exact Hrec|]. rewrite push_all_elements. exact HG'.
    + destruct Hr as [a Ha]. exists (fst vec ++ a). exact (Grown_trans g f0 fl fl1 _ _ HG Ha).
    + destruct Hr as [a Ha]. exists (fst vec ++ a). exact (Grown_trans g f0 fl fl1 _ _ HG Ha).
Qed.

Lemma growFromPixel_ends_well g fuel : forall flags vox,
  ends_well g flags (growFromPixel isDetection capacity0 regrow fuel g flags vox).
Proof.
  induction fuel as [|fuel IH]; intros flags vox; cbn [growFromPixel].
  - exists []. apply Grown_refl.
  - pose proof (visit_all_Grown g _ flags (getX vox) (getY vox) (getZ vox) at_position_mkVoxel)
      as HV.
    destruct (visit_all isDetection g mkVoxel flags (getX vox) (getY vox) (getZ vox)) as [fl found].
    cbn [fst snd] in HV.
    apply expand_ends_well; [exact IH|]. rewrite push_all_elements. exact HV.
Qed.

Lemma expand_terminates g rec bound n : forall fl vec i,
  (forall fl v, ends_well g fl (rec fl v)) ->
  (forall fl v, (available fl < bound)%nat -> snd (rec fl v) <> OutOfFuel) ->
  ((i < length (fst vec))%nat -> (available fl < bound)%nat) ->
  (length (fst vec) - i + available fl <= n)%nat ->
  snd (expand regrow rec n fl vec i) <> OutOfFuel.
Proof.
  induction n as [|n IH]; intros fl vec i Hrec Hterm Hb Hn; cbn [expand];
    destruct (fst vec !! i) as [v|] eqn:Ev; try discriminate.
  - apply lookup_lt_Some in Ev. lia.
  - apply lookup_lt_Some in Ev.
    pose proof (Hrec fl v) as Hr. pose proof (Hterm fl v (Hb Ev)) as Ht.
    unfold ends_well in Hr.
    destruct (rec fl v) as [fl1 [more| |]]; cbn [fst snd] in Hr, Ht |- *;
      [|discriminate|congruence].
    destruct (snd (push_all regrow vec more)) eqn:Em; [discriminate|].
    destruct Hr as (_ & _ & _ & _ & _ & HC).
    apply IH; try assumption.
    + intros _. specialize (Hb Ev). lia.
    + rewrite push_all_elements, length_app. lia.
Qed.

(** With more fuel than there are AVAILABLE voxels the model is not cut
    short. *)
Lemma growFromPixel_terminates g fuel : forall flags vox,
  (available flags < fuel)%nat ->
  snd (growFromPixel isDetection capacity0 regrow fuel g flags vox) <> OutOfFuel.
Proof.
  induction fuel as [|fuel IH]; intros flags vox Hf; [lia|]. cbn [growFromPixel].
  pose proof (visit_all_Grown g _ flags (getX vox) (getY vox) (getZ vox) at_position_mkVoxel)
    as HV.
  destruct (visit_all isDetection g mkVoxel flags (getX vox) (getY vox) (getZ vox)) as [fl found].
  destruct HV as (_ & _ & _ & _ & _ & HC). cbn [fst snd] in HC.
  apply (expand_terminates g _ fuel).
  - intros fl0 v. apply growFromPixel_ends_well.
  - intros fl0 v. apply IH.
  - rewrite push_all_elements. cbn [fst app]. intros Hlen. lia.
  - rewrite push_all_elements. cbn [fst app]. lia.
Qed.

(** What the growth does to the flags, and which voxels it adds: the only
    change of a state is from AVAILABLE to DETECTED, at a voxel whose flux
    passes the growth test; DETECTED and BLANK voxels keep their state; the
    voxels added are pairwise distinct voxels that were AVAILABLE and are
    now DETECTED, and every voxel whose state changed is among them. *)
Definition growth_spec g (flags flags' : list STATE) (added : list (Voxel T)) : Prop :=
  length flags' = length flags /\
  (forall p, flags' !! p = flags !! p \/
             (flags !! p = Some AVAILABLE /\ flags' !! p = Some DETECTED /\
              exists f, itsFluxArray g !! p = Some f /\ isDetection f = true)) /\
  (forall p, flags !! p = Some DETECTED \/ flags !! p = Some BLANK -> flags' !! p = flags !! p) /\
  NoDup (map (pos g) added) /\
  (forall v, v ∈ added -> flags !! pos g v = Some AVAILABLE /\ flags' !! pos g v = Some DETECTED) /\
  (forall p, flags' !! p <> flags !! p -> p ∈ map (pos g) added).

Lemma Grown_growth_spec g flags flags' added :
  Grown g flags flags' added -> growth_spec g flags flags' added.
Proof.
  intros (L & N & A & D & U & _).
  assert (forall p, flags' !! p = flags !! p \/
             (flags !! p = Some AVAILABLE /\ flags' !! p = Some DETECTED /\
              exists f, itsFluxArray g !! p = Some f /\ isDetection f = true)) as Htr.
  { intros p. destruct (decide (p ∈ map (pos g) added)) as [Hin|Hin]; [|left; exact (U _ Hin)].
    right. pose proof (D _ Hin) as Hd.
    apply list_elem_of_fmap in Hin as (v & -> & Hv). destruct (A v Hv) as [Hav Hf]. auto. }
  split; [exact L|]. split; [exact Htr|]. split; [|split; [exact N|split]].
  - intros p Hp. destruct (Htr p) as [E|(E & _)]; [exact E|].
    rewrite E in Hp. destruct Hp; discriminate.
  - intros v Hv. split; [apply (A v Hv)|]. apply D, list_elem_of_fmap. eauto.
  - intros p Hp. destruct (decide (p ∈ map (pos g) added)) as [Hin|Hin]; [exact Hin|].
    exfalso. exact (Hp (U _ Hin)).
Qed.

(** [grow] returns, and it does to the flags what the growth is to do. *)
Lemma grow_growth_spec (g : t T) (theObject : Object3D.t) :
  exists g' obj' added,
    grow isDetection noFlux g theObject = Some (g', obj', added) /\
    growth_spec g (itsFlagArray g) (itsFlagArray g') added.
Proof.
  unfold grow.
  destruct (grow_loop_terminates g
              (length (map (fun p => mkVoxel (fst (fst p)) (snd (fst p)) (snd p) noFlux)
                           (Object3D.voxels theObject)) + available (itsFlagArray g))
              (itsFlagArray g)
              (map (fun p => mkVoxel (fst (fst p)) (snd (fst p)) (snd p) noFlux)
                   (Object3D.voxels theObject)) [])
    as [[flags' pushed] E]; [lia|].
  rewrite E. eexists _, _, _. split; [reflexivity|]. simpl.
  apply Grown_growth_spec. eapply grow_loop_Grown; [apply Grown_refl|exact E].
Qed.

(** A call of [growFromPixel] ends, by a return or at the invalid iterator,
    and up to there it does to the flags what the growth is to do. *)
Lemma growFromPixel_growth_spec (g : t T) (flags : list STATE) (vox : Voxel T) (fuel : nat) :
  (available flags < fuel)%nat ->
  snd (growFromPixel isDetection capacity0 regrow fuel g flags vox) <> OutOfFuel /\
  match snd (growFromPixel isDetection capacity0 regrow fuel g flags vox) with
  | Returned newVoxels =>
      growth_spec g flags (fst (growFromPixel isDetection capacity0 regrow fuel g flags vox))
                  newVoxels
  | _ => exists added,
      growth_spec g flags (fst (growFromPixel isDetection capacity0 regrow fuel g flags vox))
                  added
  end.
Proof.
  intros Hf. split; [apply growFromPixel_terminates, Hf|].
  pose proof (growFromPixel_ends_well g fuel flags vox) as H. unfold ends_well in H.
  destruct (snd (growFromPixel isDetection capacity0 regrow fuel g flags vox)).
  - apply Grown_growth_spec, H.
  - destruct H as [a Ha]. exists a. apply Grown_growth_spec, Ha.
  - destruct H as [a Ha]. exists a. apply Grown_growth_spec, Ha.
Qed.

End GrowerProps.

(** A row of seven voxels with one DETECTED and one BLANK, thresholds of
    one voxel, and the test "flux at least 3". *)
Definition row_grower : t Z :=
  mk [AVAILABLE; DETECTED; AVAILABLE; AVAILABLE; AVAILABLE; BLANK; AVAILABLE]
     (7, 1, 1) 1 1 [0; 5; 5; 4; 0; 9; 9].

Definition row_object : Object3D.t := Object3D.addPixel Object3D.empty 1 0 0.

(** A vector that starts without storage and doubles its capacity when it
    is full, as the usual implementations of the library have it. *)
Definition doubling (capacity : nat) : nat := (2 * capacity)%nat.

Example grow_row :
  option_map (fun r => (itsFlagArray (fst (fst r)), map (fun v => getX v) (snd r)))
             (grow (fun f => 3 <=? f) 0 row_grower row_object)
  = Some ([AVAILABLE; DETECTED; DETECTED; DETECTED; AVAILABLE; BLANK; AVAILABLE], [2; 3]).
Proof. reflexivity. Qed.

(** [growFromPixel] on the row, from voxel 1.  The loops around voxel 1 push
    voxel 2, which fills the vector.  The call on voxel 2 returns voxel 3,
    and pushing voxel 3 moves the elements while the iterator [v] still
    points at the old place of voxel 2. *)
Example growFromPixel_row :
  growFromPixel (fun f => 3 <=? f) 0 doubling 6 row_grower (itsFlagArray row_grower)
                (mkVoxel 1 0 0 0)
  = ([AVAILABLE; DETECTED; DETECTED; DETECTED; AVAILABLE; BLANK; AVAILABLE], Undefined).
Proof. reflexivity. Qed.

(** A row of six voxels and a spatial threshold of two voxels.  The loops
    around voxel 2 find voxels 1, 3 and 4, for which the vector takes a
    capacity of four; the call on voxel 3 returns voxel 5, which is pushed
    without moving the elements, and the call returns. *)
Definition wide_grower : t Z :=
  mk [AVAILABLE; AVAILABLE; DETECTED; AVAILABLE; AVAILABLE; AVAILABLE]
     (6, 1, 1) 2 1 [0; 5; 5; 5; 5; 5].

Example growFromPixel_wide :
  growFromPixel (fun f => 3 <=? f) 0 doubling 6 wide_grower (itsFlagArray wide_grower)
                (mkVoxel 2 0 0 5)
  = ([AVAILABLE; DETECTED; DETECTED; DETECTED; DETECTED; DETECTED],
     Returned [mkVoxel 1 0 0 5; mkVoxel 3 0 0 5; mkVoxel 4 0 0 5; mkVoxel 5 0 0 5]).
Proof. reflexivity. Qed.

(** C5.  Every voxel is AVAILABLE, DETECTED or BLANK ([STATE]).  [grow]
    returns, and on return the flags differ from the flags at the call only
    at voxels that were AVAILABLE, had a flux passing the growth test, and
    are now DETECTED; DETECTED and BLANK voxels are as they were, and the
    voxels added to the detection are pairwise distinct voxels that were
    AVAILABLE at the call.  A call of [growFromPixel] ends, and the same
    holds of the flags it leaves and, when it returns, of the voxels it
    returns; but it need not return: on the row [row_grower], with a vector
    that doubles its capacity, the call from voxel 1 takes voxels 2 and 3
    and then stands at an iterator that pushing voxel 3 has invalidated,
    where [grow], which walks its vector by index, returns. *)
Theorem growth_detects_available_only :
  (forall (T : Type) (isDetection : T -> bool) (noFlux : T) (g : t T) (theObject : Object3D.t),
     exists g' obj' added,
       grow isDetection noFlux g theObject = Some (g', obj', added) /\
       growth_spec T isDetection g (itsFlagArray g) (itsFlagArray g') added) /\
  (forall (T : Type) (isDetection : T -> bool) (capacity0 : nat) (regrow : nat -> nat)
          (g : t T) (flags : list STATE) (vox : Voxel T) (fuel : nat),
     (available flags < fuel)%nat ->
     snd (growFromPixel isDetection capacity0 regrow fuel g flags vox) <> OutOfFuel /\
     match snd (growFromPixel isDetection capacity0 regrow fuel g flags vox) with
     | Returned newVoxels =>
         growth_spec T isDetection g flags
           (fst (growFromPixel isDetection capacity0 regrow fuel g flags vox)) newVoxels
     | _ => exists added,
         growth_spec T isDetection g flags
           (fst (growFromPixel isDetection capacity0 regrow fuel g flags vox)) added
     end) /\
  growFromPixel (fun f => 3 <=? f) 0 doubling 6 row_grower (itsFlagArray row_grower)
                (mkVoxel 1 0 0 0)
  = ([AVAILABLE; DETECTED; DETECTED; DETECTED; AVAILABLE; BLANK; AVAILABLE], Undefined) /\
  option_map (fun r => (itsFlagArray (fst (fst r)), map (fun v => getX v) (snd r)))
             (grow (fun f => 3 <=? f) 0 row_grower row_object)
  = Some ([AVAILABLE; DETECTED; DETECTED; DETECTED; AVAILABLE; BLANK; AVAILABLE], [2; 3]).
Proof.
  split; [|split; [|split; reflexivity]].
  - intros T isDetection noFlux g theObject. apply grow_growth_spec.
  - intros T isDetection capacity0 regrow g flags vox fuel Hf.
    apply (growFromPixel_growth_spec T isDetection (getF vox)), Hf.
Qed.

End ObjectGrowerProps.

(** ** Parameter guessing (ParamGuess) *)

Module ParamGuess.

Import PixelInfo.
Local Open Scope R_scope.

(** Comparisons of the floating-point values, as booleans. *)
Definition Rltb (a b : R) : bool := if Rlt_dec a b then true else false.

Definition Rleb (a b : R) : bool := if Rle_dec a b then true else false.

Definition Reqb (a b : R) : bool := if Req_dec_T a b then true else false.

(** The largest integer not above [r]. *)
Definition Rfloor (r : R) : Z := (up r - 1)%Z.

(** [lround]: the nearest integer, halves away from zero. *)
Definition lround (r : R) : Z :=
  if Rle_dec 0 r then Rfloor (r + / 2) else (- Rfloor (- r + / 2))%Z.

(** [ParamGuess::findRings], on the members [Rmax] and [radsep]; the result
    is the new [nrings] and [radsep]. *)
Definition findRings (Rmax radsep : R) : Z * R :=
  let nrings := lround (Rmax / radsep) in
  if (nrings <? 5)%Z then (lround (Rmax / (radsep / 2)), radsep / 2) else (nrings, radsep).

(** The ring width the constructor starts from:
    [radsep = in->Head().Bmaj()*arcsconv(in->Head().Cunit(0))]. *)
Definition initial_radsep (Bmaj arcsconv : R) : R := Bmaj * arcsconv.

(** What a floating-point expression evaluates to where a division by zero
    is within reach: a number, plus infinity, or a NaN. *)
Inductive fpval : Type := Num (r : R) | PlusInf | NaN.

(** [ParamGuess::findRotationVelocity], on [obj->getW50()] and [inclin]:
    [fabs(W50/2.)/sin(inclin*M_PI/180.)].  The sine of a NaN or of an
    infinity is a NaN.  At the inclination 0 the sine is +0, and the
    quotient is plus infinity, or a NaN when the numerator is 0 as well.
    (At the other multiples of 180 the sine of the reals is 0 where the
    computed one is not, [M_PI] not being pi: what is proved of the function
    is stated for inclinations in [0,180).) *)
Definition findRotationVelocity (W50 : R) (inclin : fpval) : fpval :=
  match inclin with
  | Num i =>
      if Reqb (sin (i * PI / 180)) 0
      then (if Reqb (Rabs (W50 / 2)) 0 then NaN else PlusInf)
      else Num (Rabs (W50 / 2) / sin (i * PI / 180))
  | PlusInf => NaN
  | NaN => NaN
  end.

(** What the guesser reads of the cube and of the detection: the velocity
    field ([None] is a NaN pixel), the row length of the maps, the bounding
    box of the detection, and the centre. *)
Record Field : Type := mkField {
  Vemap : Z -> option R;
  DimX : Z;
  Xmin : Z;
  Xmax : Z;
  Ymin : Z;
  Ymax : Z;
  xcentre : R;
  ycentre : R
}.

(** The running maxima of [findAxisLength] and the pixels they were found
    at. *)
Record AxisState : Type := mkAxisState {
  axis_r_l : R;
  axis_r_r : R;
  coords_up : Z * Z;
  coords_low : Z * Z
}.

(** The distance of pixel (x, y) from the centre. *)
Definition radius (F : Field) (x y : Z) : R :=
  sqrt ((IZR x - xcentre F) ^ 2 + (IZR y - ycentre F) ^ 2).

(** The two conditional updates of the loop body; [lower] is the side test
    ([x<=xcentre], or [y<=ycentre] when the angle is 90). *)
Definition axis_update (F : Field) (lower : bool) (st : AxisState) (x y : Z) : AxisState :=
  let r := radius F x y in
  let st1 := if Rltb (axis_r_l st) r && lower
             then mkAxisState r (axis_r_r st) (x, y) (coords_low st) else st in
  if Rltb (axis_r_r st1) r && negb lower
  then mkAxisState (axis_r_l st1) r (coords_up st1) (x, y) else st1.

(** The pixel test [isOK] of the loop over x. *)
Definition okX (F : Field) (x y : Z) : bool :=
  (Ymin F <=? y)%Z && (y <=? Ymax F)%Z &&
  match Vemap F (y * DimX F + x)%Z with Some _ => true | None => false end.

(** The pixel test [isOK] of the loop over y. *)
Definition okY (F : Field) (x y : Z) : bool :=
  (Xmin F <=? x)%Z && (x <=? Xmax F)%Z &&
  match Vemap F (y * DimX F + x)%Z with Some _ => true | None => false end.

Section AxisLength.

(** The angle of a slope in degrees, [atan(lpar[0])*180./M_PI], as the
    machine computes it.  The quotient of the reals is never 90, while the
    computed one can be, and [findAxisLength] tests [p==90]: the function is
    a parameter, of which nothing is assumed, so that both outcomes of the
    test are within reach. *)
Variable atan_deg : R -> R.

(** The angle of the line, as [findAxisLength] computes it. *)
Definition line_angle (lpar : R * R) : R :=
  let p := atan_deg (fst lpar) in
  if Rle_dec 180 p then p - 180 else p.

(** One iteration of the loop over y, and of the loop over x. *)
Definition axis_step_y (F : Field) (lpar : R * R) (st : AxisState) (y : Z) : AxisState :=
  let p := line_angle lpar in
  let x := if Reqb p 90 then lround (xcentre F) else lround ((IZR y - snd lpar) / fst lpar) in
  if okY F x y
  then axis_update F (if Reqb p 90 then Rleb (IZR y) (ycentre F) else Rleb (IZR x) (xcentre F))
                   st x y
  else st.

Definition axis_step_x (F : Field) (lpar : R * R) (st : AxisState) (x : Z) : AxisState :=
  let y := lround (fst lpar * IZR x + snd lpar) in
  if okX F x y then axis_update F (Rleb (IZR x) (xcentre F)) st x y else st.

(** The state after the loop of [findAxisLength]. *)
Definition axis_scan (F : Field) (lpar : R * R) : AxisState :=
  let p := line_angle lpar in
  if Rltb 45 p && Rltb p 135
  then fold_left (axis_step_y F lpar) (zrange (Ymin F) (Ymax F)) (mkAxisState 0 0 (0, 0)%Z (0, 0)%Z)
  else fold_left (axis_step_x F lpar) (zrange (Xmin F) (Xmax F)) (mkAxisState 0 0 (0, 0)%Z (0, 0)%Z).

(** [ParamGuess::findAxisLength]. *)
Definition findAxisLength (F : Field) (lpar : R * R) : R :=
  (axis_r_r (axis_scan F lpar) + axis_r_l (axis_scan F lpar)) / 2.

(** [ParamGuess::findInclination] with [algorithm == 1]: the new [inclin]
    and [Rmax], and whether the warning was printed.  When the longer axis
    has the length 0 the quotient [axmin/axmaj] is 0/0, a NaN, and so is its
    arc cosine. *)
Definition findInclination (F : Field) (pmaj pmin : R * R) (PixScale arcsconv : R)
  : fpval * R * bool :=
  let axmaj := findAxisLength F pmaj in
  let axmin := findAxisLength F pmin in
  let swapped := Rltb axmaj axmin in
  let axmin' := if swapped then axmaj else axmin in
  let axmaj' := if swapped then axmin else axmaj in
  (if Reqb axmaj' 0 then NaN else Num (acos (axmin' / axmaj') * 180 / PI),
   axmaj' * PixScale * arcsconv, swapped).

End AxisLength.

(** The angle of a slope in the real numbers. *)
Definition exact_atan_deg (m : R) : R := atan m * 180 / PI.

(** *** The position angle (algorithm 1) *)

(** What one candidate angle collects: the deviations [vdev] and the two
    sums. *)
Record Samples : Type := mkSamples {
  vdev : list R;
  sumleft : R;
  sumright : R
}.

(** The best candidate so far. *)
Record Best : Type := mkBest {
  maxdev : R;
  bestpa : R;
  vl : R;
  vr : R
}.

Section PositionAngle.

(** [findMedian] is defined with the statistics utilities
    (Utilities/statistics, not among the sources): it is a parameter here. *)
Variable findMedian : list R -> R.

(** The velocity range of the cube, [if (velmin>velmax) std::swap(velmin,velmax)]
    done, and the systemic velocity. *)
Variables (F : Field) (velmin velmax vsystem : R).

(** The part of [isOK] that tests the velocity. *)
Definition inVel (v : R) : bool := Rleb velmin v && Rleb v velmax.

(** The body of the loops for a pixel that passed [isOK]; [left] is the
    side test. *)
Definition collect (left : bool) (v : R) (s : Samples) : Samples :=
  mkSamples (vdev s ++ [Rabs (v - vsystem)])
            (if left then sumleft s + (v - vsystem) else sumleft s)
            (if left then sumright s else sumright s + (v - vsystem)).

(** One iteration of the loop over y, and of the loop over x. *)
Definition pa_step_y (p : R) (s : Samples) (y : Z) : Samples :=
  let x := if Reqb p 90 then lround (xcentre F)
           else lround (1 / tan (p * PI / 180) * (IZR y - ycentre F) + xcentre F) in
  if (Xmin F <=? x)%Z && (x <=? Xmax F)%Z
  then match Vemap F (y * DimX F + x)%Z with
       | Some v =>
           if inVel v
           then collect (if Reqb p 90 then Rltb (ycentre F) (IZR y) else Rltb (IZR x) (xcentre F))
                        v s
           else s
       | None => s
       end
  else s.

Definition pa_step_x (p : R) (s : Samples) (x : Z) : Samples :=
  let y := lround (tan (p * PI / 180) * (IZR x - xcentre F) + ycentre F) in
  if (Ymin F <=? y)%Z && (y <=? Ymax F)%Z
  then match Vemap F (y * DimX F + x)%Z with
       | Some v => if inVel v then collect (Rltb (IZR x) (xcentre F)) v s else s
       | None => s
       end
  else s.

(** The samples along the line at angle [p]. *)
Definition pa_samples (p : R) : Samples :=
  if Rltb 45 p && Rltb p 135
  then fold_left (pa_step_y p) (zrange (Ymin F) (Ymax F)) (mkSamples [] 0 0)
  else fold_left (pa_step_x p) (zrange (Xmin F) (Xmax F)) (mkSamples [] 0 0).

(** The body of the loop over the position angles. *)
Definition pa_step (b : Best) (p : R) : Best :=
  let s := pa_samples p in
  let median := findMedian (vdev s) in
  if Rltb (maxdev b) median && Rltb (Rabs median) 1e16
  then mkBest median p (sumleft s) (sumright s)
  else b.

(** [while (p<180) { ...; p+=0.5; }], cut after [fuel] iterations. *)
Fixpoint pa_loop (fuel : nat) (p : R) (b : Best) : option Best :=
  match fuel with
  | O => None
  | S fuel' => if Rltb p 180 then pa_loop fuel' (p + 0.5) (pa_step b p) else Some b
  end.

(** The rotation to the definition of the position angle in use. *)
Definition rotate (b : Best) : R :=
  if Rltb (vl b) (vr b)
  then (if Rltb (bestpa b) 90 then 270 + bestpa b else 90 + bestpa b)
  else (if Rltb (bestpa b) 90 then 90 + bestpa b else bestpa b - 90).

(** [ParamGuess::findPositionAngle] with [algorithm == 1]: the new
    [posang]. *)
Definition findPositionAngle : option R :=
  match pa_loop 361 0 (mkBest 0 0 0 0) with
  | Some b => Some (rotate b)
  | None => None
  end.

End PositionAngle.

(** Modelled from the spec: the median of an array ([findMedian] of
    Utilities/statistics), the middle value of the sorted array, and the
    mean of the two middle values when their number is even. *)
Fixpoint insert_sorted (v : R) (l : list R) : list R :=
  match l with
  | [] => [v]
  | u :: l' => if Rleb v u then v :: l else u :: insert_sorted v l'
  end.

Definition sort_values (l : list R) : list R := fold_right insert_sorted [] l.

Definition median (l : list R) : R :=
  let s := sort_values l in
  let n := length s in
  if Nat.even n
  then (nth (n / 2 - 1) s 0 + nth (n / 2) s 0) / 2
  else nth (n / 2) s 0.

End ParamGuess.

(** ** Properties of the parameter guesser *)

Module ParamGuessProps.

Import PixelInfo ParamGuess.
Local Open Scope R_scope.

Lemma Rltb_true a b : a < b -> Rltb a b = true.
Proof. unfold Rltb. destruct (Rlt_dec a b); [reflexivity|tauto]. Qed.

Lemma Rltb_false a b : b <= a -> Rltb a b = false.
Proof. unfold Rltb. destruct (Rlt_dec a b); [lra|reflexivity]. Qed.

Lemma Rfloor_spec r n : IZR n <= r < IZR n + 1 -> Rfloor r = n.
Proof.
  intros [H1 H2]. unfold Rfloor.
  assert ((n + 1)%Z = up r) as <-; [|lia].
  apply up_tech; [exact H1|]. rewrite plus_IZR. exact H2.
Qed.

Lemma lround_IZR n : lround (IZR n) = n.
Proof.
  unfold lround. destruct (Rle_dec 0 (IZR n)) as [H|H].
  - apply Rfloor_spec. lra.
  - assert (Rfloor (- IZR n + / 2) = (- n)%Z) as ->; [|lia].
    apply Rfloor_spec. rewrite opp_IZR. lra.
Qed.

Lemma lround_opp r : lround (- r) = (- lround r)%Z.
Proof.
  unfold lround. destruct (Rle_dec 0 r) as [H|H]; destruct (Rle_dec 0 (- r)) as [H'|H'].
  - assert (r = 0) as -> by lra. rewrite Ropp_0, Rplus_0_l.
    rewrite (Rfloor_spec (/ 2) 0); [reflexivity|simpl; lra].
  - rewrite Ropp_involutive. reflexivity.
  - lia.
  - lra.
Qed.

Lemma Rfloor_bounds r : IZR (Rfloor r) <= r < IZR (Rfloor r) + 1.
Proof.
  unfold Rfloor. rewrite minus_IZR. destruct (archimed r) as [H1 H2]. lra.
Qed.

(** [lround] moves a number by at most one half. *)
Lemma lround_near r : Rabs (IZR (lround r) - r) <= / 2.
Proof.
  unfold lround. destruct (Rle_dec 0 r) as [H|H].
  - pose proof (Rfloor_bounds (r + / 2)) as [H1 H2].
    apply Rabs_le. lra.
  - pose proof (Rfloor_bounds (- r + / 2)) as [H1 H2].
    rewrite opp_IZR. apply Rabs_le. lra.
Qed.

(** *** Ring width and number of rings *)

(** C3 (amended).  The ring width starts as the beam major axis in
    arcseconds (the beam in pixels times the pixel scale in arcseconds).
    [findRings] computes N_rings = round(Rmax/dr); if that is at least 5
    nothing changes; if it is below 5, dr is halved once and N_rings is
    recomputed as round(Rmax/dr) with the halved dr, which is smaller than
    the initial one when the initial one is positive.  There is no further
    retry. *)
Theorem findRings_halves_once (Rmax radsep : R) :
  (forall Bmaj PixScale arcsconv : R,
      PixScale <> 0 -> initial_radsep Bmaj arcsconv = Bmaj / PixScale * (PixScale * arcsconv)) /\
  ((5 <= lround (Rmax / radsep))%Z ->
   findRings Rmax radsep = (lround (Rmax / radsep), radsep)) /\
  ((lround (Rmax / radsep) < 5)%Z ->
   findRings Rmax radsep = (lround (Rmax / (radsep / 2)), radsep / 2) /\
   (0 < radsep -> snd (findRings Rmax radsep) < radsep)) /\
  ((5 <= fst (findRings Rmax radsep))%Z \/ snd (findRings Rmax radsep) = radsep / 2) /\
  fst (findRings Rmax radsep) = lround (Rmax / snd (findRings Rmax radsep)).
Proof.
  split; [intros Bmaj PixScale arcsconv H; unfold initial_radsep; field; exact H|].
  unfold findRings. destruct (Z.ltb_spec (lround (Rmax / radsep)) 5) as [H|H]; simpl.
  - split; [intros; lia|]. split; [intros _; split; [reflexivity|intros; lra]|].
    split; [right; reflexivity|reflexivity].
  - split; [intros _; reflexivity|]. split; [intros; lia|].
    split; [left; exact H|reflexivity].
Qed.

(** C3, as stated, fails: with Rmax = 1 and dr = 1 the function returns
    after one halving with N_rings = 2, although two more halvings would
    give 8 rings; and a negative dr is not made smaller by halving. *)
Lemma findRings_does_not_retry :
  findRings 1 1 = (2%Z, 1 / 2) /\ lround (1 / (1 / 2 / 2 / 2)) = 8%Z /\
  findRings 1 (-1) = ((-2)%Z, -1 / 2) /\ -1 < -1 / 2.
Proof.
  split; [|split; [|split]].
  - unfold findRings.
    replace (1 / 1) with (IZR 1) by (simpl; lra). rewrite lround_IZR. simpl.
    replace (1 / (1 / 2)) with (IZR 2) by (simpl; lra). rewrite lround_IZR. reflexivity.
  - replace (1 / (1 / 2 / 2 / 2)) with (IZR 8) by (simpl; lra). apply lround_IZR.
  - unfold findRings.
    replace (1 / -1) with (IZR (-1)) by (simpl; lra). rewrite lround_IZR. simpl.
    replace (1 / (-1 / 2)) with (IZR (-2)) by (simpl; lra). rewrite lround_IZR. reflexivity.
  - lra.
Qed.

(** *** Axis lengths and inclination *)

Lemma Rleb_true a b : a <= b -> Rleb a b = true.
Proof. unfold Rleb. destruct (Rle_dec a b); [reflexivity|tauto]. Qed.

Lemma Rleb_false a b : b < a -> Rleb a b = false.
Proof. unfold Rleb. destruct (Rle_dec a b); [lra|reflexivity]. Qed.

Lemma Rltb_spec a b : reflect (a < b) (Rltb a b).
Proof. unfold Rltb. destruct (Rlt_dec a b); constructor; assumption. Qed.

Lemma Reqb_spec a b : reflect (a = b) (Reqb a b).
Proof. unfold Reqb. destruct (Req_dec_T a b); constructor; assumption. Qed.

Lemma radius_nonneg F x y : 0 <= radius F x y.
Proof. apply sqrt_pos. Qed.

(** [m] is the distance from the centre of the farthest of the pixels on
    the given side (0 when there is none). *)
Definition is_farthest (F : Field) (l : list (Z * Z * bool)) (side : bool) (m : R) : Prop :=
  (forall x y, (x, y, side) ∈ l -> radius F x y <= m) /\
  (m = 0 \/ exists x y, (x, y, side) ∈ l /\ radius F x y = m).

Section AxisProps.

Variable atan_deg : R -> R.

(** The pixels the loop of [findAxisLength] accepts, each with its side
    ([true]: at or below the centre coordinate), in the order of the loop. *)
Definition axis_pixels (F : Field) (lpar : R * R) : list (Z * Z * bool) :=
  let p := line_angle atan_deg lpar in
  if Rltb 45 p && Rltb p 135
  then omap (fun y =>
         let x := if Reqb p 90 then lround (xcentre F)
                  else lround ((IZR y - snd lpar) / fst lpar) in
         if okY F x y
         then Some (x, y, if Reqb p 90 then Rleb (IZR y) (ycentre F) else Rleb (IZR x) (xcentre F))
         else None) (zrange (Ymin F) (Ymax F))
  else omap (fun x =>
         let y := lround (fst lpar * IZR x + snd lpar) in
         if okX F x y then Some (x, y, Rleb (IZR x) (xcentre F)) else None)
       (zrange (Xmin F) (Xmax F)).

(** The running maxima after more pixels. *)
Lemma axis_update_farthest F l st x y lower :
  is_farthest F l true (axis_r_l st) -> is_farthest F l false (axis_r_r st) ->
  is_farthest F (l ++ [(x, y, lower)]) true (axis_r_l (axis_update F lower st x y)) /\
  is_farthest F (l ++ [(x, y, lower)]) false (axis_r_r (axis_update F lower st x y)).
Proof.
  intros [Lb La] [Rb Ra]. unfold axis_update.
  destruct lower; rewrite ?andb_true_r, ?andb_false_r; simpl.
  - destruct (Rltb_spec (axis_r_l st) (radius F x y)) as [H|H]; simpl; split; split.
    + intros x' y' Hin. apply elem_of_app in Hin as [Hin|Hin].
      * specialize (Lb _ _ Hin). lra.
      * apply list_elem_of_singleton in Hin. injection Hin as -> ->. lra.
    + right. exists x, y. split; [|reflexivity]. apply elem_of_app. right. constructor.
    + intros x' y' Hin. apply elem_of_app in Hin as [Hin|Hin]; [exact (Rb _ _ Hin)|].
      apply list_elem_of_singleton in Hin. discriminate.
    + destruct Ra as [Ra|(x' & y' & Hin & E)]; [left; exact Ra|right].
      exists x', y'. split; [apply elem_of_app; left; exact Hin|exact E].
    + intros x' y' Hin. apply elem_of_app in Hin as [Hin|Hin]; [exact (Lb _ _ Hin)|].
      apply list_elem_of_singleton in Hin. injection Hin as -> ->. lra.
    + destruct La as [La|(x' & y' & Hin & E)]; [left; exact La|right].
      exists x', y'. split; [apply elem_of_app; left; exact Hin|exact E].
    + intros x' y' Hin. apply elem_of_app in Hin as [Hin|Hin]; [exact (Rb _ _ Hin)|].
      apply list_elem_of_singleton in Hin. discriminate.
    + destruct Ra as [Ra|(x' & y' & Hin & E)]; [left; exact Ra|right].
      exists x', y'. split; [apply elem_of_app; left; exact Hin|exact E].
  - destruct (Rltb_spec (axis_r_r st) (radius F x y)) as [H|H]; simpl; split; split.
    + intros x' y' Hin. apply elem_of_app in Hin as [Hin|Hin]; [exact (Lb _ _ Hin)|].
      apply list_elem_of_singleton in Hin. discriminate.
    + destruct La as [La|(x' & y' & Hin & E)]; [left; exact La|right].
      exists x', y'. split; [apply elem_of_app; left; exact Hin|exact E].
    + intros x' y' Hin. apply elem_of_app in Hin as [Hin|Hin].
      * specialize (Rb _ _ Hin). lra.
      * apply list_elem_of_singleton in Hin. injection Hin as -> ->. lra.
    + right. exists x, y. split; [|reflexivity]. apply elem_of_app. right. constructor.
    + intros x' y' Hin. apply elem_of_app in Hin as [Hin|Hin]; [exact (Lb _ _ Hin)|].
      apply list_elem_of_singleton in Hin. discriminate.
    + destruct La as [La|(x' & y' & Hin & E)]; [left; exact La|right].
      exists x', y'. split; [apply elem_of_app; left; exact Hin|exact E].
    + intros x' y' Hin. apply elem_of_app in Hin as [Hin|Hin]; [exact (Rb _ _ Hin)|].
      apply list_elem_of_singleton in Hin. injection Hin as -> ->. lra.
    + destruct Ra as [Ra|(x' & y' & Hin & E)]; [left; exact Ra|right].
      exists x', y'. split; [apply elem_of_app; left; exact Hin|exact E].
Qed.

Lemma axis_fold_farthest F (sample : Z -> option (Z * Z * bool)) zs st l :
  is_farthest F l true (axis_r_l st) -> is_farthest F l false (axis_r_r st) ->
  let st' := fold_left (fun st z => match sample z with
                                    | Some (x, y, lower) => axis_update F lower st x y
                                    | None => st
                                    end) zs st in
  is_farthest F (l ++ omap sample zs) true (axis_r_l st') /\
  is_farthest F (l ++ omap sample zs) false (axis_r_r st').
Proof.
  revert st l. induction zs as [|z zs IH]; intros st l HL HR; simpl.
  - rewrite app_nil_r. split; assumption.
  - destruct (sample z) as [[[x y] lower]|]; simpl.
    + destruct (axis_update_farthest F l st x y lower HL HR) as [HL' HR'].
      specialize (IH _ _ HL' HR'). simpl in IH. rewrite <- app_assoc in IH. exact IH.
    + apply IH; assumption.
Qed.

Lemma fold_left_same {A B} (f g : A -> B -> A) l a :
  (forall a b, f a b = g a b) -> fold_left f l a = fold_left g l a.
Proof. intros E. revert a. induction l as [|b l IH]; intros a; simpl; [reflexivity|]. rewrite E. apply IH. Qed.

Lemma axis_scan_farthest F lpar :
  is_farthest F (axis_pixels F lpar) true (axis_r_l (axis_scan atan_deg F lpar)) /\
  is_farthest F (axis_pixels F lpar) false (axis_r_r (axis_scan atan_deg F lpar)).
Proof.
  assert (forall side, is_farthest F [] side 0) as H0.
  { intros side. split; [|left; reflexivity]. intros x y Hin. apply elem_of_nil in Hin. tauto. }
  unfold axis_scan, axis_pixels.
  destruct (Rltb 45 (line_angle atan_deg lpar) && Rltb (line_angle atan_deg lpar) 135).
  - pose proof (axis_fold_farthest F
      (fun y => let x := if Reqb (line_angle atan_deg lpar) 90 then lround (xcentre F)
                         else lround ((IZR y - snd lpar) / fst lpar) in
                if okY F x y
                then Some (x, y, if Reqb (line_angle atan_deg lpar) 90
                                 then Rleb (IZR y) (ycentre F)
                                 else Rleb (IZR x) (xcentre F))
                else None)
      (zrange (Ymin F) (Ymax F)) (mkAxisState 0 0 (0, 0)%Z (0, 0)%Z) [] (H0 true) (H0 false)) as H.
    simpl in H.
    erewrite (fold_left_same (axis_step_y atan_deg F lpar)); [exact H|].
    intros st y. unfold axis_step_y. simpl. destruct (okY F _ y); reflexivity.
  - pose proof (axis_fold_farthest F
      (fun x => let y := lround (fst lpar * IZR x + snd lpar) in
                if okX F x y then Some (x, y, Rleb (IZR x) (xcentre F)) else None)
      (zrange (Xmin F) (Xmax F)) (mkAxisState 0 0 (0, 0)%Z (0, 0)%Z) [] (H0 true) (H0 false)) as H.
    simpl in H.
    erewrite (fold_left_same (axis_step_x F lpar)); [exact H|].
    intros st x. unfold axis_step_x. simpl. destruct (okX F x _); reflexivity.
Qed.

Lemma axis_scan_nonneg F lpar :
  0 <= axis_r_l (axis_scan atan_deg F lpar) /\ 0 <= axis_r_r (axis_scan atan_deg F lpar).
Proof.
  destruct (axis_scan_farthest F lpar) as [[_ HL] [_ HR]]. split.
  - destruct HL as [->|(x & y & _ & <-)]; [lra | apply radius_nonneg].
  - destruct HR as [->|(x & y & _ & <-)]; [lra | apply radius_nonneg].
Qed.

Lemma findAxisLength_nonneg F lpar : 0 <= findAxisLength atan_deg F lpar.
Proof. unfold findAxisLength. destruct (axis_scan_nonneg F lpar). lra. Qed.


End AxisProps.

(** A row of four pixels, none blank, with the centre on the second. *)
Definition lopsided : Field := mkField (fun _ => Some 0) 4 0 3 0 0 1 0.

Lemma radius_on_row F x y : ycentre F = IZR y -> radius F x y = Rabs (IZR x - xcentre F).
Proof.
  intros E. unfold radius. rewrite E.
  replace ((IZR x - xcentre F) ^ 2 + (IZR y - IZR y) ^ 2) with (Rsqr (IZR x - xcentre F))
    by (unfold Rsqr; ring).
  apply sqrt_Rsqr_abs.
Qed.

(** The angle of the slope 0 is 0, in the real numbers as in floating
    point. *)
Lemma line_angle_flat q : line_angle exact_atan_deg (0, q) = 0.
Proof.
  unfold line_angle, exact_atan_deg. simpl. rewrite atan_0.
  replace (0 * 180 / PI) with 0 by (unfold Rdiv; ring).
  destruct (Rle_dec 180 0); [lra|reflexivity].
Qed.

Ltac decide_R :=
  repeat match goal with
         | |- context [Rltb ?a ?b] =>
             first [rewrite (Rltb_true a b) by lra | rewrite (Rltb_false a b) by lra]
         | |- context [Rleb ?a ?b] =>
             first [rewrite (Rleb_true a b) by lra | rewrite (Rleb_false a b) by lra]
         end.

Lemma lopsided_radii :
  radius lopsided 0 0 = 1 /\ radius lopsided 1 0 = 0 /\
  radius lopsided 2 0 = 1 /\ radius lopsided 3 0 = 2.
Proof.
  repeat split; rewrite radius_on_row by reflexivity; simpl.
  - rewrite Rabs_left by lra. lra.
  - rewrite Rabs_right by lra. lra.
  - rewrite Rabs_right by lra. lra.
  - rewrite Rabs_right by lra. lra.
Qed.

Lemma axis_step_x_lopsided st x :
  axis_step_x lopsided (0, 0) st x = axis_update lopsided (Rleb (IZR x) 1) st x 0.
Proof.
  unfold axis_step_x. cbn [fst snd].
  replace (0 * IZR x + 0) with (IZR 0) by (simpl; ring). rewrite lround_IZR. reflexivity.
Qed.

Ltac eval_update r :=
  unfold axis_update; cbn [axis_r_l axis_r_r coords_up coords_low];
  rewrite r; do 3 (decide_R; cbn [andb negb axis_r_l axis_r_r coords_up coords_low]).

Lemma findAxisLength_lopsided : findAxisLength exact_atan_deg lopsided (0, 0) = 3 / 2.
Proof.
  destruct lopsided_radii as (R0 & R1 & R2 & R3).
  unfold findAxisLength, axis_scan. rewrite line_angle_flat.
  rewrite (Rltb_false 45 0) by lra. cbn [andb].
  change (zrange (Xmin lopsided) (Xmax lopsided)) with [0; 1; 2; 3]%Z.
  cbn [fold_left]. rewrite !axis_step_x_lopsided.
  assert (axis_update lopsided (Rleb 0 1) (mkAxisState 0 0 (0, 0)%Z (0, 0)%Z) 0 0
          = mkAxisState 1 0 (0, 0)%Z (0, 0)%Z) as -> by (eval_update R0; reflexivity).
  assert (axis_update lopsided (Rleb 1 1) (mkAxisState 1 0 (0, 0)%Z (0, 0)%Z) 1 0
          = mkAxisState 1 0 (0, 0)%Z (0, 0)%Z) as -> by (eval_update R1; reflexivity).
  assert (axis_update lopsided (Rleb 2 1) (mkAxisState 1 0 (0, 0)%Z (0, 0)%Z) 2 0
          = mkAxisState 1 1 (0, 0)%Z (2, 0)%Z) as -> by (eval_update R2; reflexivity).
  assert (axis_update lopsided (Rleb 3 1) (mkAxisState 1 1 (0, 0)%Z (2, 0)%Z) 3 0
          = mkAxisState 1 2 (0, 0)%Z (3, 0)%Z) as -> by (eval_update R3; reflexivity).
  cbn [axis_r_l axis_r_r]. lra.
Qed.


(** A column of three pixels, none blank, with the centre on the middle
    one, and an angle function that gives 90 degrees, as the machine can for
    the slope of a vertical axis. *)
Definition column3 : Field := mkField (fun _ => Some 0) 1 0 0 0 2 0 1.

Lemma radius_on_column F x y : xcentre F = IZR x -> radius F x y = Rabs (IZR y - ycentre F).
Proof.
  intros E. unfold radius. rewrite E.
  replace ((IZR x - IZR x) ^ 2 + (IZR y - ycentre F) ^ 2) with (Rsqr (IZR y - ycentre F))
    by (unfold Rsqr; ring).
  apply sqrt_Rsqr_abs.
Qed.

(** When the computed angle is 90 the column of the centre is sampled,
    whatever the slope and the intercept stored, and the sides are taken
    along it: the column has the length 1, the mean of 1 and 1. *)
Example findAxisLength_vertical lpar :
  findAxisLength (fun _ => 90) column3 lpar = 1.
Proof.
  assert (radius column3 0 0 = 1 /\ radius column3 0 1 = 0 /\ radius column3 0 2 = 1)
    as (R0 & R1 & R2).
  { repeat split; rewrite radius_on_column by reflexivity; simpl.
    - rewrite Rabs_left by lra. lra.
    - rewrite Rabs_right by lra. lra.
    - rewrite Rabs_right by lra. lra. }
  assert (line_angle (fun _ => 90) lpar = 90) as Ea.
  { unfold line_angle. destruct (Rle_dec 180 90); [lra|reflexivity]. }
  assert (forall st y, (0 <= y <= 2)%Z ->
            axis_step_y (fun _ => 90) column3 lpar st y
            = axis_update column3 (Rleb (IZR y) 1) st 0 y) as Hstep.
  { intros st y Hy. unfold axis_step_y. rewrite Ea.
    destruct (Reqb_spec 90 90) as [_|C]; [|lra].
    change (xcentre column3) with 0. change (ycentre column3) with 1.
    rewrite (lround_IZR 0). unfold okY. cbn [Xmin Xmax column3 Vemap andb].
    reflexivity. }
  unfold findAxisLength, axis_scan. rewrite Ea.
  rewrite (Rltb_true 45 90), (Rltb_true 90 135) by lra. cbn [andb].
  change (zrange (Ymin column3) (Ymax column3)) with [0; 1; 2]%Z.
  cbn [fold_left]. rewrite !Hstep by lia.
  assert (axis_update column3 (Rleb 0 1) (mkAxisState 0 0 (0, 0)%Z (0, 0)%Z) 0 0
          = mkAxisState 1 0 (0, 0)%Z (0, 0)%Z) as -> by (eval_update R0; reflexivity).
  assert (axis_update column3 (Rleb 1 1) (mkAxisState 1 0 (0, 0)%Z (0, 0)%Z) 0 1
          = mkAxisState 1 0 (0, 0)%Z (0, 0)%Z) as -> by (eval_update R1; reflexivity).
  assert (axis_update column3 (Rleb 2 1) (mkAxisState 1 0 (0, 0)%Z (0, 0)%Z) 0 2
          = mkAxisState 1 1 (0, 0)%Z (0, 2)%Z) as -> by (eval_update R2; reflexivity).
  cbn [axis_r_l axis_r_r]. lra.
Qed.

(** A field of one pixel of velocity 3, centred on it. *)
Definition one_pixel : Field :=
  mkField (fun n => if (n =? 0)%Z then Some 3 else None) 1 0 0 0 0 0 0.

(** On the one-pixel field both sides of every line have the length 0. *)
Lemma findAxisLength_one_pixel atan_deg lpar : findAxisLength atan_deg one_pixel lpar = 0.
Proof.
  assert (forall x y side, (x, y, side) ∈ axis_pixels atan_deg one_pixel lpar ->
            radius one_pixel x y = 0) as Hpix.
  { intros x y side. unfold axis_pixels.
    destruct (Rltb 45 (line_angle atan_deg lpar) && Rltb (line_angle atan_deg lpar) 135);
      change (zrange (Ymin one_pixel) (Ymax one_pixel)) with [0%Z];
      change (zrange (Xmin one_pixel) (Xmax one_pixel)) with [0%Z];
      cbn [omap list_omap].
    - set (x0 := if Reqb _ 90 then _ else _). unfold okY.
      change (Xmin one_pixel) with 0%Z. change (Xmax one_pixel) with 0%Z.
      destruct (Z.leb_spec 0 x0); destruct (Z.leb_spec x0 0); cbn [andb];
        try (intros Hin; apply elem_of_nil in Hin; tauto).
      assert (x0 = 0%Z) as -> by lia.
      destruct (Vemap one_pixel _);
        [|intros Hin; apply elem_of_nil in Hin; tauto].
      intros Hin. apply list_elem_of_singleton in Hin. injection Hin as -> -> _.
      unfold radius. simpl. replace ((0 - 0) * ((0 - 0) * 1) + (0 - 0) * ((0 - 0) * 1)) with 0 by ring.
      apply sqrt_0.
    - set (y0 := lround _). unfold okX.
      change (Ymin one_pixel) with 0%Z. change (Ymax one_pixel) with 0%Z.
      destruct (Z.leb_spec 0 y0); destruct (Z.leb_spec y0 0); cbn [andb];
        try (intros Hin; apply elem_of_nil in Hin; tauto).
      assert (y0 = 0%Z) as -> by lia.
      destruct (Vemap one_pixel _);
        [|intros Hin; apply elem_of_nil in Hin; tauto].
      intros Hin. apply list_elem_of_singleton in Hin. injection Hin as -> -> _.
      unfold radius. simpl. replace ((0 - 0) * ((0 - 0) * 1) + (0 - 0) * ((0 - 0) * 1)) with 0 by ring.
      apply sqrt_0. }
  destruct (axis_scan_farthest atan_deg one_pixel lpar) as [[_ HL] [_ HR]].
  assert (axis_r_l (axis_scan atan_deg one_pixel lpar) = 0) as El.
  { destruct HL as [E|(x & y & Hin & <-)]; [exact E|exact (Hpix _ _ _ Hin)]. }
  assert (axis_r_r (axis_scan atan_deg one_pixel lpar) = 0) as Er.
  { destruct HR as [E|(x & y & Hin & <-)]; [exact E|exact (Hpix _ _ _ Hin)]. }
  unfold findAxisLength. rewrite El, Er. lra.
Qed.

(** The inclination of the one-pixel detection is a NaN, whatever the axes. *)
Lemma findInclination_one_pixel atan_deg pmaj pmin PixScale arcsconv :
  fst (fst (findInclination atan_deg one_pixel pmaj pmin PixScale arcsconv)) = NaN.
Proof.
  unfold findInclination.
  fold (findAxisLength atan_deg one_pixel pmaj). fold (findAxisLength atan_deg one_pixel pmin).
  rewrite !findAxisLength_one_pixel. cbn [fst].
  rewrite (Rltb_false 0 0) by lra.
  destruct (Reqb_spec 0 0) as [_|C]; [reflexivity|lra].
Qed.

(** Axes of one positive length give the inclination 0. *)
Lemma findInclination_equal_axes atan_deg F pmaj pmin PixScale arcsconv :
  findAxisLength atan_deg F pmaj = findAxisLength atan_deg F pmin ->
  0 < findAxisLength atan_deg F pmaj ->
  fst (fst (findInclination atan_deg F pmaj pmin PixScale arcsconv)) = Num 0.
Proof.
  intros E Hpos. unfold findInclination.
  fold (findAxisLength atan_deg F pmaj). fold (findAxisLength atan_deg F pmin).
  rewrite <- E. cbn [fst]. rewrite (Rltb_false _ _ (Rle_refl _)).
  destruct (Reqb_spec (findAxisLength atan_deg F pmaj) 0) as [C|_]; [lra|].
  replace (findAxisLength atan_deg F pmaj / findAxisLength atan_deg F pmaj) with 1
    by (field; lra).
  rewrite acos_1. f_equal. unfold Rdiv. ring.
Qed.

(** A block of three by three pixels, none blank, centred on the middle
    one, with the diagonals as axes. *)
Definition block3 : Field := mkField (fun _ => Some 0) 3 0 2 0 2 1 1.

Lemma block3_radii :
  radius block3 0 0 = sqrt 2 /\ radius block3 1 1 = 0 /\ radius block3 2 2 = sqrt 2 /\
  radius block3 0 2 = sqrt 2 /\ radius block3 2 0 = sqrt 2.
Proof.
  unfold radius. cbn [xcentre ycentre block3].
  repeat split; try (f_equal; ring).
  replace ((1 - 1) ^ 2 + (1 - 1) ^ 2) with 0 by ring. apply sqrt_0.
Qed.

Lemma line_angle_diagonal q : line_angle exact_atan_deg (1, q) = 45.
Proof.
  unfold line_angle, exact_atan_deg. cbn [fst]. rewrite atan_1.
  pose proof PI_RGT_0.
  replace (PI / 4 * 180 / PI) with 45 by (field; lra).
  destruct (Rle_dec 180 45); [lra|reflexivity].
Qed.

Lemma line_angle_antidiagonal q : line_angle exact_atan_deg (-1, q) = -45.
Proof.
  unfold line_angle, exact_atan_deg. cbn [fst].
  change (IZR (-1)) with (Ropp (IZR 1)). rewrite atan_opp, atan_1.
  pose proof PI_RGT_0.
  replace (- (PI / 4) * 180 / PI) with (-45) by (field; lra).
  destruct (Rle_dec 180 (-45)); [lra|reflexivity].
Qed.

Lemma findAxisLength_block3 :
  findAxisLength exact_atan_deg block3 (1, 0) = sqrt 2 /\
  findAxisLength exact_atan_deg block3 (-1, 2) = sqrt 2.
Proof.
  destruct block3_radii as (R00 & R11 & R22 & R02 & R20).
  assert (0 < sqrt 2) as Hr by (apply sqrt_lt_R0; lra).
  set (r := sqrt 2) in *.
  split.
  - unfold findAxisLength, axis_scan. rewrite line_angle_diagonal.
    rewrite (Rltb_false 45 45) by lra. cbn [andb].
    change (zrange (Xmin block3) (Xmax block3)) with [0; 1; 2]%Z.
    cbn [fold_left]. unfold axis_step_x. cbn [fst snd].
    replace (1 * 0 + 0) with (IZR 0) by ring.
    replace (1 * 1 + 0) with (IZR 1) by ring.
    replace (1 * 2 + 0) with (IZR 2) by ring.
    rewrite !lround_IZR.
    change (okX block3 0 0) with true. change (okX block3 1 1) with true.
    change (okX block3 2 2) with true. cbv iota. change (xcentre block3) with 1.
    assert (axis_update block3 (Rleb 0 1) (mkAxisState 0 0 (0, 0)%Z (0, 0)%Z) 0 0
            = mkAxisState r 0 (0, 0)%Z (0, 0)%Z) as -> by (eval_update R00; reflexivity).
    assert (axis_update block3 (Rleb 1 1) (mkAxisState r 0 (0, 0)%Z (0, 0)%Z) 1 1
            = mkAxisState r 0 (0, 0)%Z (0, 0)%Z) as -> by (eval_update R11; reflexivity).
    assert (axis_update block3 (Rleb 2 1) (mkAxisState r 0 (0, 0)%Z (0, 0)%Z) 2 2
            = mkAxisState r r (0, 0)%Z (2, 2)%Z) as -> by (eval_update R22; reflexivity).
    cbn [axis_r_l axis_r_r]. lra.
  - unfold findAxisLength, axis_scan. rewrite line_angle_antidiagonal.
    rewrite (Rltb_false 45 (-45)) by lra. cbn [andb].
    change (zrange (Xmin block3) (Xmax block3)) with [0; 1; 2]%Z.
    cbn [fold_left]. unfold axis_step_x. cbn [fst snd].
    replace (-1 * 0 + 2) with (IZR 2) by ring.
    replace (-1 * 1 + 2) with (IZR 1) by ring.
    replace (-1 * 2 + 2) with (IZR 0) by ring.
    rewrite !lround_IZR.
    change (okX block3 0 2) with true. change (okX block3 1 1) with true.
    change (okX block3 2 0) with true. cbv iota. change (xcentre block3) with 1.
    assert (axis_update block3 (Rleb 0 1) (mkAxisState 0 0 (0, 0)%Z (0, 0)%Z) 0 2
            = mkAxisState r 0 (0, 2)%Z (0, 0)%Z) as -> by (eval_update R02; reflexivity).
    assert (axis_update block3 (Rleb 1 1) (mkAxisState r 0 (0, 2)%Z (0, 0)%Z) 1 1
            = mkAxisState r 0 (0, 2)%Z (0, 0)%Z) as -> by (eval_update R11; reflexivity).
    assert (axis_update block3 (Rleb 2 1) (mkAxisState r 0 (0, 2)%Z (0, 0)%Z) 2 0
            = mkAxisState r r (0, 2)%Z (2, 0)%Z) as -> by (eval_update R20; reflexivity).
    cbn [axis_r_l axis_r_r]. lra.
Qed.

(** The block is as long as it is wide: the inclination is 0. *)
Lemma findInclination_block3 :
  fst (fst (findInclination exact_atan_deg block3 (1, 0) (-1, 2) 1 1)) = Num 0.
Proof.
  destruct findAxisLength_block3 as [E1 E2].
  apply findInclination_equal_axes; [congruence|].
  rewrite E1. apply sqrt_lt_R0. lra.
Qed.

(** *** Rotation velocity *)

Lemma Rabs_half w : Rabs (w / 2) = Rabs w / 2.
Proof. unfold Rdiv. rewrite Rabs_mult, (Rabs_right (/ 2)) by lra. reflexivity. Qed.

Lemma sin_deg_pos i : 0 < i < 180 -> 0 < sin (i * PI / 180).
Proof. intros [H0 H1]. pose proof PI_RGT_0. apply sin_gt_0; nra. Qed.

Lemma findRotationVelocity_between W50 inclin :
  0 < inclin < 180 ->
  findRotationVelocity W50 (Num inclin) = Num (Rabs W50 / (2 * sin (inclin * PI / 180))).
Proof.
  intros Hi. pose proof (sin_deg_pos inclin Hi) as Hsin.
  unfold findRotationVelocity.
  destruct (Reqb_spec (sin (inclin * PI / 180)) 0) as [C|_]; [lra|].
  rewrite Rabs_half. f_equal. field. lra.
Qed.

Lemma findRotationVelocity_face_on W50 :
  findRotationVelocity W50 (Num 0) = if Reqb W50 0 then NaN else PlusInf.
Proof.
  unfold findRotationVelocity.
  replace (0 * PI / 180) with 0 by (unfold Rdiv; ring). rewrite sin_0.
  destruct (Reqb_spec 0 0) as [_|C]; [|lra].
  rewrite Rabs_half.
  destruct (Reqb_spec W50 0) as [->|HW].
  - rewrite Rabs_R0. replace (0 / 2) with 0 by (unfold Rdiv; ring).
    destruct (Reqb_spec 0 0) as [_|C]; [reflexivity|lra].
  - destruct (Reqb_spec (Rabs W50 / 2) 0) as [C|_]; [|reflexivity].
    pose proof (Rabs_no_R0 W50 HW). lra.
Qed.

(** C7 (amended).  [findRotationVelocity] sets the rotation velocity to
    |W50/2| / sin(inc), the inclination taken in degrees.  For an
    inclination strictly between 0 and 180 degrees that is the number
    |W50| / (2 sin(inc)), which is not negative, and which is
    W50 / (2 sin(inc)) when W50 >= 0.  At the inclination 0 the division is
    by zero: the result is plus infinity, or a NaN when W50 is 0 as well.
    For a NaN inclination the result is a NaN. *)
Theorem findRotationVelocity_value (W50 : R) :
  (forall inclin, 0 < inclin < 180 ->
     findRotationVelocity W50 (Num inclin) = Num (Rabs W50 / (2 * sin (inclin * PI / 180))) /\
     0 <= Rabs W50 / (2 * sin (inclin * PI / 180)) /\
     (0 <= W50 ->
      findRotationVelocity W50 (Num inclin) = Num (W50 / (2 * sin (inclin * PI / 180))))) /\
  (W50 <> 0 -> findRotationVelocity W50 (Num 0) = PlusInf) /\
  (W50 = 0 -> findRotationVelocity W50 (Num 0) = NaN) /\
  findRotationVelocity W50 NaN = NaN.
Proof.
  split; [|split; [|split; [|reflexivity]]].
  - intros inclin Hi. pose proof (sin_deg_pos inclin Hi) as Hsin.
    pose proof (findRotationVelocity_between W50 inclin Hi) as E.
    split; [exact E|]. split.
    + apply Rle_mult_inv_pos; [apply Rabs_pos|lra].
    + intros HW. rewrite E, (Rabs_right W50) by lra. reflexivity.
  - intros HW. rewrite findRotationVelocity_face_on.
    destruct (Reqb_spec W50 0); [contradiction|reflexivity].
  - intros ->. rewrite findRotationVelocity_face_on.
    destruct (Reqb_spec 0 0) as [_|C]; [reflexivity|lra].
Qed.

(** At W50 = 100 and an inclination of 90 degrees the velocity is 50. *)
Example findRotationVelocity_edge_on : findRotationVelocity 100 (Num 90) = Num 50.
Proof.
  rewrite findRotationVelocity_between by lra.
  replace (90 * PI / 180) with (PI / 2) by field. rewrite sin_PI2.
  rewrite Rabs_right by lra. f_equal. lra.
Qed.

(** C7, as stated, fails: for the detection of one pixel both axis lengths
    are 0, the inclination [findInclination] leaves is a NaN whatever the
    axes, and the rotation velocity is then a NaN, not a number that is not
    negative; and for the block of three by three pixels, whose axes have
    one length, the inclination is 0 and the velocity is infinite. *)
Lemma findRotationVelocity_not_a_number :
  (forall atan_deg pmaj pmin,
     fst (fst (findInclination atan_deg one_pixel pmaj pmin 1 1)) = NaN) /\
  findRotationVelocity 100 NaN = NaN /\
  fst (fst (findInclination exact_atan_deg block3 (1, 0) (-1, 2) 1 1)) = Num 0 /\
  findRotationVelocity 100 (Num 0) = PlusInf.
Proof.
  split; [intros; apply findInclination_one_pixel|]. split; [reflexivity|].
  split; [exact findInclination_block3|].
  rewrite findRotationVelocity_face_on.
  destruct (Reqb_spec 100 0) as [C|_]; [lra|reflexivity].
Qed.

(** *** The position angle *)

Section PositionAngleProps.

Variable findMedian : list R -> R.
Variables (F : Field) (velmin velmax vsystem : R).

(** The candidate angles, and the median of the deviations along each. *)
Definition candidate (k : Z) : R := IZR k / 2.

Definition median_at (p : R) : R :=
  findMedian (vdev (pa_samples F velmin velmax vsystem p)).

(** The medians the loop takes into account: [fabs(median)<1E16]. *)
Definition eligible (k : Z) : Prop := Rabs (median_at (candidate k)) < 1e16.

(** What the loop records when candidate [k] becomes the best. *)
Definition best_at (k : Z) : Best :=
  mkBest (median_at (candidate k)) (candidate k)
         (sumleft (pa_samples F velmin velmax vsystem (candidate k)))
         (sumright (pa_samples F velmin velmax vsystem (candidate k))).

Lemma pa_loop_unfold fuel p b :
  pa_loop findMedian F velmin velmax vsystem (S fuel) p b
  = if Rltb p 180
    then pa_loop findMedian F velmin velmax vsystem fuel (p + 0.5)
                 (pa_step findMedian F velmin velmax vsystem b p)
    else Some b.
Proof. reflexivity. Qed.

(** The loop runs through the 360 candidates and stops. *)
Lemma pa_loop_runs n k b :
  (k + Z.of_nat n = 360)%Z ->
  pa_loop findMedian F velmin velmax vsystem (S n) (candidate k) b
  = Some (fold_left (pa_step findMedian F velmin velmax vsystem) (map candidate (zseq k n)) b).
Proof.
  revert k b. induction n as [|n IH]; intros k b Hk.
  - rewrite pa_loop_unfold. assert (k = 360%Z) as -> by lia.
    rewrite Rltb_false by (unfold candidate; lra). reflexivity.
  - rewrite pa_loop_unfold. rewrite Rltb_true.
    + replace (candidate k + 0.5) with (candidate (k + 1))
        by (unfold candidate; rewrite plus_IZR; lra).
      rewrite IH by lia. reflexivity.
    + unfold candidate. assert (IZR k < IZR 360) by (apply IZR_lt; lia). lra.
Qed.

Lemma pa_step_candidate b k :
  pa_step findMedian F velmin velmax vsystem b (candidate k)
  = if Rltb (maxdev b) (median_at (candidate k)) && Rltb (Rabs (median_at (candidate k))) 1e16
    then best_at k else b.
Proof. reflexivity. Qed.

Lemma pa_step_taken b k :
  maxdev b < median_at (candidate k) -> eligible k ->
  pa_step findMedian F velmin velmax vsystem b (candidate k) = best_at k.
Proof.
  intros H1 H2. rewrite pa_step_candidate, (Rltb_true _ _ H1), (Rltb_true _ _ H2). reflexivity.
Qed.

Lemma pa_step_skipped b k :
  median_at (candidate k) <= maxdev b \/ ~ eligible k ->
  pa_step findMedian F velmin velmax vsystem b (candidate k) = b.
Proof.
  intros H. rewrite pa_step_candidate.
  destruct (Rltb_spec (maxdev b) (median_at (candidate k))) as [H1|H1]; [|reflexivity].
  destruct (Rltb_spec (Rabs (median_at (candidate k))) 1e16) as [H2|H2]; [|reflexivity].
  destruct H as [H|H]; [lra | contradiction].
Qed.

(** The scan over the candidates [a .. a+n-1] keeps the first eligible one
    whose median exceeds the start value and the eligible medians before
    it, and is not exceeded by an eligible median after it. *)
Lemma scan_first_maximum n a b :
  (fold_left (pa_step findMedian F velmin velmax vsystem) (map candidate (zseq a n)) b = b /\
   forall j, (a <= j < a + Z.of_nat n)%Z -> eligible j -> median_at (candidate j) <= maxdev b)
  \/
  (exists k, (a <= k < a + Z.of_nat n)%Z /\ eligible k /\
     fold_left (pa_step findMedian F velmin velmax vsystem) (map candidate (zseq a n)) b = best_at k /\
     maxdev b < median_at (candidate k) /\
     (forall j, (a <= j < k)%Z -> eligible j -> median_at (candidate j) < median_at (candidate k)) /\
     (forall j, (k < j < a + Z.of_nat n)%Z -> eligible j ->
                median_at (candidate j) <= median_at (candidate k))).
Proof.
  revert a b. induction n as [|n IH]; intros a b.
  - left. split; [reflexivity | intros j Hj; lia].
  - cbn [zseq map fold_left].
    destruct (Rlt_dec (maxdev b) (median_at (candidate a))) as [Hup|Hno];
      [destruct (Rlt_dec (Rabs (median_at (candidate a))) 1e16) as [Hok|Hbad]|].
    + rewrite (pa_step_taken b a Hup Hok). right.
      destruct (IH (a + 1)%Z (best_at a)) as [[E Hle]|(k & Hk & Ak & E & Hlt & Hbefore & Hafter)].
      * exists a. split; [lia|]. split; [exact Hok|]. split; [exact E|]. split; [exact Hup|].
        split; [intros j Hj; lia|]. intros j Hj. apply Hle. lia.
      * simpl in Hlt. exists k. split; [lia|]. split; [exact Ak|]. split; [exact E|].
        split; [lra|]. split; [|intros j Hj; apply Hafter; lia].
        intros j Hj Aj. destruct (Z.eq_dec j a) as [->|Hne]; [exact Hlt | apply Hbefore; [lia|exact Aj]].
    + rewrite (pa_step_skipped b a) by (right; exact Hbad).
      destruct (IH (a + 1)%Z b) as [[E Hle]|(k & Hk & Ak & E & Hlt & Hbefore & Hafter)].
      * left. split; [exact E|]. intros j Hj Aj.
        destruct (Z.eq_dec j a) as [->|Hne]; [contradiction | apply Hle; [lia|exact Aj]].
      * right. exists k. split; [lia|]. split; [exact Ak|]. split; [exact E|]. split; [exact Hlt|].
        split; [|intros j Hj; apply Hafter; lia].
        intros j Hj Aj. destruct (Z.eq_dec j a) as [->|Hne]; [contradiction | apply Hbefore; [lia|exact Aj]].
    + rewrite (pa_step_skipped b a) by (left; lra).
      destruct (IH (a + 1)%Z b) as [[E Hle]|(k & Hk & Ak & E & Hlt & Hbefore & Hafter)].
      * left. split; [exact E|]. intros j Hj Aj.
        destruct (Z.eq_dec j a) as [->|Hne]; [lra | apply Hle; [lia|exact Aj]].
      * right. exists k. split; [lia|]. split; [exact Ak|]. split; [exact E|]. split; [exact Hlt|].
        split; [|intros j Hj; apply Hafter; lia].
        intros j Hj Aj. destruct (Z.eq_dec j a) as [->|Hne]; [lra | apply Hbefore; [lia|exact Aj]].
Qed.

Lemma rotate_cases b :
  0 <= bestpa b < 180 ->
  (rotate b = bestpa b + 90 \/ rotate b = bestpa b + 270 \/ rotate b = bestpa b - 90) /\
  (vl b < vr b -> 180 <= rotate b < 360) /\
  (vr b <= vl b -> 0 <= rotate b < 180).
Proof.
  intros Hb. unfold rotate.
  destruct (Rltb_spec (vl b) (vr b)); destruct (Rltb_spec (bestpa b) 90); repeat split; intros; lra.
Qed.

Lemma candidate_range k : (0 <= k < 360)%Z -> 0 <= candidate k < 180.
Proof.
  intros Hk. unfold candidate.
  assert (IZR 0 <= IZR k) by (apply IZR_le; lia).
  assert (IZR k < IZR 360) by (apply IZR_lt; lia). lra.
Qed.

(** *** The line, its two halves and the direction of the angle *)

(** A sample of the loop over y and of the loop over x: the pixel of the
    row, or of the column, that the line at angle [p] goes through, with
    its velocity, when [isOK] holds of it. *)
Definition sample_y (p : R) (y : Z) : option (Z * Z * R) :=
  let x := if Reqb p 90 then lround (xcentre F)
           else lround (1 / tan (p * PI / 180) * (IZR y - ycentre F) + xcentre F) in
  if (Xmin F <=? x)%Z && (x <=? Xmax F)%Z
  then match Vemap F (y * DimX F + x)%Z with
       | Some v => if inVel velmin velmax v then Some (x, y, v) else None
       | None => None
       end
  else None.

Definition sample_x (p : R) (x : Z) : option (Z * Z * R) :=
  let y := lround (tan (p * PI / 180) * (IZR x - xcentre F) + ycentre F) in
  if (Ymin F <=? y)%Z && (y <=? Ymax F)%Z
  then match Vemap F (y * DimX F + x)%Z with
       | Some v => if inVel velmin velmax v then Some (x, y, v) else None
       | None => None
       end
  else None.

(** The samples along the line at angle [p], in the order of the loop. *)
Definition line_pixels (p : R) : list (Z * Z * R) :=
  if Rltb 45 p && Rltb p 135
  then omap (sample_y p) (zrange (Ymin F) (Ymax F))
  else omap (sample_x p) (zrange (Xmin F) (Xmax F)).

(** The half of the line a pixel is counted in: the left half are the
    pixels left of the centre, and for the vertical line those above it. *)
Definition on_left (p : R) (x y : Z) : bool :=
  if Reqb p 90 then Rltb (ycentre F) (IZR y) else Rltb (IZR x) (xcentre F).

Definition sum_R (l : list R) : R := fold_right Rplus 0 l.

(** The sum of V - vsys over the samples of one half of the line. *)
Definition half_sum (p : R) (left : bool) : R :=
  sum_R (map (fun c => snd c - vsystem)
             (List.filter (fun c => Bool.eqb (on_left p (fst (fst c)) (snd (fst c))) left)
                          (line_pixels p))).

(** The median of |V - vsys| over the samples of the line. *)
Definition line_median (p : R) : R :=
  findMedian (map (fun c => Rabs (snd c - vsystem)) (line_pixels p)).

(** A pixel of the velocity field that can be sampled: it lies in the box
    of the detection, it is not a NaN, and its velocity is within the range
    of the cube. *)
Definition usable (x y : Z) (v : R) : Prop :=
  (Xmin F <= x <= Xmax F)%Z /\ (Ymin F <= y <= Ymax F)%Z /\
  Vemap F (y * DimX F + x)%Z = Some v /\ velmin <= v <= velmax.

(** The pixel is within half a pixel of the line through the centre at the
    angle [p], measured from the x axis: along its row for the angles
    between 45 and 135 degrees, along its column for the others. *)
Definition beside_line (p : R) (x y : Z) : Prop :=
  if Rltb 45 p && Rltb p 135
  then (if Reqb p 90 then Rabs (IZR x - xcentre F) <= / 2
        else Rabs (IZR x - (xcentre F + (IZR y - ycentre F) / tan (p * PI / 180))) <= / 2)
  else Rabs (IZR y - (ycentre F + tan (p * PI / 180) * (IZR x - xcentre F))) <= / 2.

(** Modelled from the spec: the position angle is measured east of north,
    0 degrees at the +y axis and increasing through -x; this is the unit
    vector of the angle [pa]. *)
Definition pa_direction (pa : R) : R * R := (- sin (pa * PI / 180), cos (pa * PI / 180)).

Lemma inVel_range v : inVel velmin velmax v = true -> velmin <= v <= velmax.
Proof.
  unfold inVel, Rleb. destruct (Rle_dec velmin v), (Rle_dec v velmax); simpl; intros; try discriminate.
  lra.
Qed.

(** The samples are usable pixels beside the line. *)
Lemma line_pixels_beside p x y v :
  (x, y, v) ∈ line_pixels p -> usable x y v /\ beside_line p x y.
Proof.
  unfold line_pixels, beside_line.
  destruct (Rltb 45 p && Rltb p 135); intros Hin;
    apply list_elem_of_omap in Hin as (z & Hz & E);
    apply PixelInfoProps.elem_of_zrange in Hz.
  - unfold sample_y in E. cbv zeta in E.
    destruct (_ && _) eqn:Eb; [|discriminate].
    destruct (Vemap F _) as [w|] eqn:Ev; [|discriminate].
    destruct (inVel velmin velmax w) eqn:Ei; [|discriminate].
    injection E as E1 E2 E3. subst y w.
    apply andb_true_iff in Eb as [B1 B2]. apply Z.leb_le in B1, B2. rewrite E1 in B1, B2, Ev.
    split; [split; [lia|]; split; [lia|]; split; [exact Ev|apply inVel_range, Ei]|].
    rewrite <- E1. destruct (Reqb p 90).
    + apply lround_near.
    + pose proof (lround_near (1 / tan (p * PI / 180) * (IZR z - ycentre F) + xcentre F)) as H.
      replace (xcentre F + (IZR z - ycentre F) / tan (p * PI / 180))
        with (1 / tan (p * PI / 180) * (IZR z - ycentre F) + xcentre F)
        by (unfold Rdiv; ring).
      exact H.
  - unfold sample_x in E. cbv zeta in E.
    destruct (_ && _) eqn:Eb; [|discriminate].
    destruct (Vemap F _) as [w|] eqn:Ev; [|discriminate].
    destruct (inVel velmin velmax w) eqn:Ei; [|discriminate].
    injection E as E1 E2 E3. subst x w.
    apply andb_true_iff in Eb as [B1 B2]. apply Z.leb_le in B1, B2. rewrite E2 in B1, B2, Ev.
    split; [split; [lia|]; split; [lia|]; split; [exact Ev|apply inVel_range, Ei]|].
    rewrite <- E2.
    pose proof (lround_near (tan (p * PI / 180) * (IZR z - xcentre F) + ycentre F)) as H.
    replace (ycentre F + tan (p * PI / 180) * (IZR z - xcentre F))
      with (tan (p * PI / 180) * (IZR z - xcentre F) + ycentre F) by ring.
    exact H.
Qed.

(** What a loop over the samples collects. *)
Lemma collect_fold (sample : Z -> option (Z * Z * R)) (side : Z -> Z -> bool) zs : forall s,
  fold_left (fun s z => match sample z with
                        | Some (x, y, v) => collect vsystem (side x y) v s
                        | None => s
                        end) zs s
  = mkSamples
      (vdev s ++ map (fun c => Rabs (snd c - vsystem)) (omap sample zs))
      (sumleft s + sum_R (map (fun c => snd c - vsystem)
                              (List.filter (fun c => Bool.eqb (side (fst (fst c)) (snd (fst c))) true)
                                           (omap sample zs))))
      (sumright s + sum_R (map (fun c => snd c - vsystem)
                               (List.filter (fun c => Bool.eqb (side (fst (fst c)) (snd (fst c))) false)
                                            (omap sample zs)))).
Proof.
  induction zs as [|z zs IH]; intros s; cbn [fold_left omap list_omap].
  - cbn [map List.filter sum_R fold_right]. rewrite app_nil_r, !Rplus_0_r. destruct s; reflexivity.
  - rewrite IH. destruct (sample z) as [[[x y] v]|]; [|reflexivity].
    cbn [map List.filter fst snd]. unfold collect. cbn [vdev sumleft sumright].
    rewrite <- app_assoc. cbn [app].
    destruct (side x y); cbn [Bool.eqb map sum_R fold_right fst snd]; f_equal; unfold sum_R; ring.
Qed.

(** The loops of a candidate angle collect the deviations of the samples
    of its line and the sums of its two halves. *)
Lemma pa_samples_line p :
  pa_samples F velmin velmax vsystem p
  = mkSamples (map (fun c => Rabs (snd c - vsystem)) (line_pixels p))
              (half_sum p true) (half_sum p false).
Proof.
  unfold pa_samples, half_sum, line_pixels.
  destruct (Rltb 45 p && Rltb p 135) eqn:Eb.
  - rewrite (fold_left_same (pa_step_y F velmin velmax vsystem p)
               (fun s y => match sample_y p y with
                           | Some (x, y, v) => collect vsystem (on_left p x y) v s
                           | None => s
                           end)).
    + rewrite collect_fold. cbn [vdev sumleft sumright app]. rewrite !Rplus_0_l. reflexivity.
    + intros s y. unfold pa_step_y, sample_y, on_left. cbv zeta.
      set (x := if Reqb p 90 then _ else _).
      destruct ((Xmin F <=? x)%Z && (x <=? Xmax F)%Z); [|reflexivity].
      destruct (Vemap F _) as [v|]; [|reflexivity].
      destruct (inVel velmin velmax v); reflexivity.
  - assert (Reqb p 90 = false) as E90.
    { destruct (Reqb_spec p 90) as [->|_]; [|reflexivity].
      rewrite (Rltb_true 45 90), (Rltb_true 90 135) in Eb by lra. discriminate. }
    rewrite (fold_left_same (pa_step_x F velmin velmax vsystem p)
               (fun s x => match sample_x p x with
                           | Some (x, y, v) => collect vsystem (on_left p x y) v s
                           | None => s
                           end)).
    + rewrite collect_fold. cbn [vdev sumleft sumright app]. rewrite !Rplus_0_l. reflexivity.
    + intros s x. unfold pa_step_x, sample_x, on_left. cbv zeta. rewrite E90.
      set (y := lround _).
      destruct ((Ymin F <=? y)%Z && (y <=? Ymax F)%Z); [|reflexivity].
      destruct (Vemap F _) as [v|]; [|reflexivity].
      destruct (inVel velmin velmax v); reflexivity.
Qed.

Lemma median_at_line p : median_at p = line_median p.
Proof. unfold median_at, line_median. rewrite pa_samples_line. reflexivity. Qed.

Lemma best_at_line k :
  best_at k = mkBest (line_median (candidate k)) (candidate k)
                     (half_sum (candidate k) true) (half_sum (candidate k) false).
Proof. unfold best_at. rewrite median_at_line, pa_samples_line. reflexivity. Qed.

(** The direction of the angle reported, for the four cases of the
    rotation. *)
Lemma rotate_direction b :
  0 <= bestpa b < 180 ->
  pa_direction (rotate b)
  = if Rltb (vl b) (vr b)
    then (if Rltb (bestpa b) 90
          then (cos (bestpa b * PI / 180), sin (bestpa b * PI / 180))
          else (- cos (bestpa b * PI / 180), - sin (bestpa b * PI / 180)))
    else (if Rltb (bestpa b) 90
          then (- cos (bestpa b * PI / 180), - sin (bestpa b * PI / 180))
          else (cos (bestpa b * PI / 180), sin (bestpa b * PI / 180))).
Proof.
  intros Hb. unfold rotate, pa_direction.
  destruct (Rltb (vl b) (vr b)); destruct (Rltb (bestpa b) 90).
  - replace ((270 + bestpa b) * PI / 180) with (3 * (PI / 2) + bestpa b * PI / 180) by field.
    rewrite sin_plus, cos_plus, sin_3PI2, cos_3PI2. f_equal; ring.
  - replace ((90 + bestpa b) * PI / 180) with (PI / 2 + bestpa b * PI / 180) by field.
    rewrite sin_plus, cos_plus, sin_PI2, cos_PI2. f_equal; ring.
  - replace ((90 + bestpa b) * PI / 180) with (PI / 2 + bestpa b * PI / 180) by field.
    rewrite sin_plus, cos_plus, sin_PI2, cos_PI2. f_equal; ring.
  - replace ((bestpa b - 90) * PI / 180) with (bestpa b * PI / 180 - PI / 2) by field.
    rewrite sin_minus, cos_minus, sin_PI2, cos_PI2. f_equal; ring.
Qed.

(** The pixels that lie from the centre in the direction of the angle
    reported are in the right half of the line when the sum of the left
    half is below the sum of the right half, and in the left half
    otherwise. *)
Lemma rotate_heads_for_greater_sum b x y t :
  0 <= bestpa b < 180 -> 0 < t ->
  IZR x = xcentre F + t * fst (pa_direction (rotate b)) ->
  IZR y = ycentre F + t * snd (pa_direction (rotate b)) ->
  on_left (bestpa b) x y = negb (Rltb (vl b) (vr b)).
Proof.
  intros Hb Ht. rewrite (rotate_direction b Hb). pose proof PI_RGT_0 as Hpi.
  set (th := bestpa b * PI / 180).
  assert (bestpa b < 90 -> 0 < cos th) as Hlow.
  { intros H. apply cos_gt_0; subst th; nra. }
  assert (90 < bestpa b -> cos th < 0) as Hhigh.
  { intros H. apply cos_lt_0; subst th; nra. }
  assert (bestpa b = 90 -> sin th = 1) as Hmid.
  { intros H. subst th. rewrite H. replace (90 * PI / 180) with (PI / 2) by field. apply sin_PI2. }
  unfold on_left.
  destruct (Rltb (vl b) (vr b)); destruct (Rltb_spec (bestpa b) 90) as [H90|H90];
    cbn [fst snd negb]; intros Ex Ey.
  - destruct (Reqb_spec (bestpa b) 90) as [C|_]; [lra|].
    specialize (Hlow H90). apply Rltb_false. nra.
  - destruct (Reqb_spec (bestpa b) 90) as [E|Hne].
    + rewrite (Hmid E) in Ey. apply Rltb_false. nra.
    + assert (cos th < 0) by (apply Hhigh; lra). apply Rltb_false. nra.
  - destruct (Reqb_spec (bestpa b) 90) as [C|_]; [lra|].
    specialize (Hlow H90). apply Rltb_true. nra.
  - destruct (Reqb_spec (bestpa b) 90) as [E|Hne].
    + rewrite (Hmid E) in Ey. apply Rltb_true. nra.
    + assert (cos th < 0) by (apply Hhigh; lra). apply Rltb_true. nra.
Qed.

(** C1 (amended).  [findPositionAngle] (algorithm 1) returns, whatever the
    field and the median function.  Each candidate angle k/2 (k = 0 .. 359,
    i.e. [0,180) in steps of 0.5) is given the median of |V - vsys| over the
    samples of its line, which are usable pixels within half a pixel of the
    line through the centre at that angle.  The angle [bestpa] selected is
    the first candidate whose median is largest among the medians that are
    positive and below 1e16 in absolute value, and [vl] and [vr] are the
    sums of V - vsys over the left and the right half of its line; when no
    median is positive and below 1e16, [bestpa], [vl] and [vr] are 0.
    [posang] is [bestpa] turned by 90 degrees, in [180,360) when [vl < vr]
    and in [0,180) otherwise, and the pixels lying from the centre in the
    direction of [posang] are those of the half with the greater sum (the
    left half when the sums are equal). *)
Theorem findPositionAngle_first_eligible_maximum :
  (forall p x y v, (x, y, v) ∈ line_pixels p -> usable x y v /\ beside_line p x y) /\
  exists b,
    pa_loop findMedian F velmin velmax vsystem 361 0 (mkBest 0 0 0 0) = Some b /\
    findPositionAngle findMedian F velmin velmax vsystem = Some (rotate b) /\
    ((b = mkBest 0 0 0 0 /\
      forall j, (0 <= j < 360)%Z -> Rabs (line_median (candidate j)) < 1e16 ->
                line_median (candidate j) <= 0)
     \/
     (exists k, (0 <= k < 360)%Z /\
        b = mkBest (line_median (candidate k)) (candidate k)
                   (half_sum (candidate k) true) (half_sum (candidate k) false) /\
        Rabs (line_median (candidate k)) < 1e16 /\ 0 < line_median (candidate k) /\
        (forall j, (0 <= j < 360)%Z -> Rabs (line_median (candidate j)) < 1e16 ->
                   line_median (candidate j) <= line_median (candidate k)) /\
        (forall j, (0 <= j < k)%Z -> Rabs (line_median (candidate j)) < 1e16 ->
                   line_median (candidate j) < line_median (candidate k)))) /\
    (rotate b = bestpa b + 90 \/ rotate b = bestpa b + 270 \/ rotate b = bestpa b - 90) /\
    (vl b < vr b -> 180 <= rotate b < 360) /\
    (vr b <= vl b -> 0 <= rotate b < 180) /\
    (forall x y t, 0 < t ->
       IZR x = xcentre F + t * fst (pa_direction (rotate b)) ->
       IZR y = ycentre F + t * snd (pa_direction (rotate b)) ->
       on_left (bestpa b) x y = negb (Rltb (vl b) (vr b))).
Proof.
  split; [intros p x y v; apply line_pixels_beside|].
  assert (forall j, eligible j <-> Rabs (line_median (candidate j)) < 1e16) as Hel.
  { intros j. unfold eligible. rewrite median_at_line. tauto. }
  pose proof (pa_loop_runs 360 0 (mkBest 0 0 0 0) eq_refl) as Hrun.
  replace (candidate 0) with 0 in Hrun by (unfold candidate; lra).
  destruct (scan_first_maximum 360 0 (mkBest 0 0 0 0))
    as [[E Hle]|(k & Hk & Ak & E & Hlt & Hbefore & Hafter)];
    rewrite E in Hrun.
  - exists (mkBest 0 0 0 0).
    split; [exact Hrun|].
    split; [unfold findPositionAngle; rewrite Hrun; reflexivity|].
    split.
    { left. split; [reflexivity|]. intros j Hj Aj. rewrite <- median_at_line.
      apply (Hle j); [lia|apply Hel, Aj]. }
    assert (0 <= bestpa (mkBest 0 0 0 0) < 180) as Hb by (simpl; lra).
    destruct (rotate_cases _ Hb) as (H1 & H2 & H3).
    split; [exact H1|]. split; [exact H2|]. split; [exact H3|].
    intros x y t Ht. apply rotate_heads_for_greater_sum; assumption.
  - exists (best_at k).
    split; [exact Hrun|].
    split; [unfold findPositionAngle; rewrite Hrun; reflexivity|].
    split.
    { right. exists k. split; [lia|]. split; [apply best_at_line|].
      rewrite <- !median_at_line. split; [exact Ak|].
      split; [exact Hlt|]. split.
      - intros j Hj Aj. apply Hel in Aj. rewrite <- median_at_line.
        destruct (Z.lt_trichotomy j k) as [H|[->|H]].
        + left. apply Hbefore; [lia|exact Aj].
        + lra.
        + apply Hafter; [lia|exact Aj].
      - intros j Hj Aj. apply Hel in Aj. rewrite <- median_at_line.
        apply Hbefore; [lia|exact Aj]. }
    assert (0 <= bestpa (best_at k) < 180) as Hb by (simpl; apply candidate_range; lia).
    destruct (rotate_cases _ Hb) as (H1 & H2 & H3).
    split; [exact H1|]. split; [exact H2|]. split; [exact H3|].
    intros x y t Ht. apply rotate_heads_for_greater_sum; assumption.
Qed.

(** Values that pass the test [fabs(median)<1E16] of the loop. *)
Definition sane (v : R) : Prop := 0 <= v < 1e16.

(** The median of sane values is sane, and so is the deviation of every
    velocity of the field within the range of the cube. *)
Hypothesis median_sane : forall l, Forall sane l -> sane (findMedian l).

Hypothesis field_sane :
  forall n v, Vemap F n = Some v -> velmin <= v <= velmax -> Rabs (v - vsystem) < 1e16.

Lemma collect_sane side n v s :
  Vemap F n = Some v -> inVel velmin velmax v = true ->
  Forall sane (vdev s) -> Forall sane (vdev (collect vsystem side v s)).
Proof.
  intros Hv Hin Hs. simpl. apply Forall_app. split; [exact Hs|].
  constructor; [|constructor]. split; [apply Rabs_pos|].
  apply (field_sane n v Hv). now apply inVel_range.
Qed.

Lemma vdev_sane p : Forall sane (vdev (pa_samples F velmin velmax vsystem p)).
Proof.
  unfold pa_samples.
  destruct (Rltb 45 p && Rltb p 135).
  - generalize (zrange (Ymin F) (Ymax F)).
    assert (Forall sane (vdev (mkSamples [] 0 0))) as H0 by constructor.
    revert H0. generalize (mkSamples [] 0 0).
    intros s Hs l. revert s Hs. induction l as [|y l IH]; intros s Hs; [exact Hs|].
    cbn [fold_left]. apply IH. unfold pa_step_y.
    destruct (_ && _); [|exact Hs].
    destruct (Vemap F _) as [v|] eqn:Ev; [|exact Hs].
    destruct (inVel velmin velmax v) eqn:Ei; [|exact Hs].
    eapply collect_sane; eauto.
  - generalize (zrange (Xmin F) (Xmax F)).
    assert (Forall sane (vdev (mkSamples [] 0 0))) as H0 by constructor.
    revert H0. generalize (mkSamples [] 0 0).
    intros s Hs l. revert s Hs. induction l as [|x l IH]; intros s Hs; [exact Hs|].
    cbn [fold_left]. apply IH. unfold pa_step_x.
    destruct (_ && _); [|exact Hs].
    destruct (Vemap F _) as [v|] eqn:Ev; [|exact Hs].
    destruct (inVel velmin velmax v) eqn:Ei; [|exact Hs].
    eapply collect_sane; eauto.
Qed.

Lemma median_at_sane p : sane (median_at p).
Proof. apply median_sane, vdev_sane. Qed.

(** When every median is sane, the angle selected is the first candidate
    whose median is largest among all candidates. *)
Lemma findPositionAngle_largest_of_sane_medians :
  exists k b, (0 <= k < 360)%Z /\
    pa_loop findMedian F velmin velmax vsystem 361 0 (mkBest 0 0 0 0) = Some b /\
    bestpa b = candidate k /\
    (forall j, (0 <= j < 360)%Z -> median_at (candidate j) <= median_at (candidate k)) /\
    (forall j, (0 <= j < k)%Z -> median_at (candidate j) < median_at (candidate k)).
Proof.
  assert (forall j, eligible j) as Hadm.
  { intros j. unfold eligible. pose proof (median_at_sane (candidate j)) as [H0 H1].
    rewrite Rabs_right; lra. }
  pose proof (pa_loop_runs 360 0 (mkBest 0 0 0 0) eq_refl) as Hrun.
  replace (candidate 0) with 0 in Hrun by (unfold candidate; lra).
  destruct (scan_first_maximum 360 0 (mkBest 0 0 0 0))
    as [[E Hle]|(k & Hk & Ak & E & Hlt & Hbefore & Hafter)];
    rewrite E in Hrun.
  - assert (forall j, (0 <= j < 360)%Z -> median_at (candidate j) = 0) as Hzero.
    { intros j Hj. pose proof (median_at_sane (candidate j)) as [H0 _].
      pose proof (Hle j ltac:(lia) (Hadm j)) as H1. simpl in H1. lra. }
    exists 0%Z, (mkBest 0 0 0 0).
    split; [lia|]. split; [exact Hrun|].
    split; [unfold candidate; simpl; lra|].
    split; [intros j Hj; rewrite (Hzero j Hj), (Hzero 0%Z) by lia; lra|].
    intros j Hj; lia.
  - exists k, (best_at k).
    split; [lia|]. split; [exact Hrun|]. split; [reflexivity|]. split.
    + intros j Hj. destruct (Z.lt_trichotomy j k) as [H|[->|H]].
      * left. apply Hbefore; [lia|apply Hadm].
      * lra.
      * apply Hafter; [lia|apply Hadm].
    + intros j Hj. apply Hbefore; [lia|apply Hadm].
Qed.

End PositionAngleProps.

(** The median of sane values is sane. *)
Lemma insert_sorted_sane v l : sane v -> Forall sane l -> Forall sane (insert_sorted v l).
Proof.
  intros Hv Hl. induction Hl as [|u l Hu Hl IH]; simpl.
  - constructor; [exact Hv | constructor].
  - destruct (Rleb v u); constructor; auto.
Qed.

Lemma sort_values_sane l : Forall sane l -> Forall sane (sort_values l).
Proof.
  intros Hl. induction Hl as [|u l Hu Hl IH]; simpl; [constructor|].
  now apply insert_sorted_sane.
Qed.

Lemma nth_sane l i : Forall sane l -> sane (nth i l 0).
Proof.
  intros Hl. revert i. induction Hl as [|u l Hu Hl IH]; intros [|i]; simpl; auto;
    unfold sane; lra.
Qed.

Lemma median_is_sane l : Forall sane l -> sane (median l).
Proof.
  intros Hl. apply sort_values_sane in Hl. unfold median.
  destruct (Nat.even _).
  - pose proof (nth_sane _ (length (sort_values l) / 2 - 1) Hl) as H1.
    pose proof (nth_sane _ (length (sort_values l) / 2) Hl) as H2.
    unfold sane in *. lra.
  - now apply nth_sane.
Qed.

Lemma one_pixel_sane n v :
  Vemap one_pixel n = Some v -> -10 <= v <= 10 -> Rabs (v - 1) < 1e16.
Proof.
  simpl. destruct (n =? 0)%Z; [|discriminate]. intros [= <-] _.
  rewrite Rabs_right; lra.
Qed.

(** The hypotheses on sane medians hold of the one-pixel field and the
    median defined above. *)
Lemma one_pixel_largest_median :
  exists k b, (0 <= k < 360)%Z /\
    pa_loop median one_pixel (-10) 10 1 361 0 (mkBest 0 0 0 0) = Some b /\
    bestpa b = candidate k /\
    (forall j, (0 <= j < 360)%Z ->
       median_at median one_pixel (-10) 10 1 (candidate j)
       <= median_at median one_pixel (-10) 10 1 (candidate k)) /\
    (forall j, (0 <= j < k)%Z ->
       median_at median one_pixel (-10) 10 1 (candidate j)
       < median_at median one_pixel (-10) 10 1 (candidate k)).
Proof.
  exact (findPositionAngle_largest_of_sane_medians median one_pixel (-10) 10 1
           median_is_sane one_pixel_sane).
Qed.

(** On the one-pixel field every line samples the pixel, the first
    candidate is kept, and the position angle is 270. *)
Lemma one_pixel_samples p : pa_samples one_pixel (-10) 10 1 p = mkSamples [Rabs (3 - 1)] 0 (0 + (3 - 1)).
Proof.
  assert (forall t, lround (t * (IZR 0 - 0) + 0) = 0%Z) as Hl.
  { intros t. replace (t * (IZR 0 - 0) + 0) with (IZR 0) by lra. apply lround_IZR. }
  assert (inVel (-10) 10 3 = true) as Hv.
  { unfold inVel. rewrite !Rleb_true by lra. reflexivity. }
  unfold pa_samples. destruct (Rltb 45 p && Rltb p 135).
  - change (zrange (Ymin one_pixel) (Ymax one_pixel)) with [0%Z]. cbn [fold_left].
    unfold pa_step_y.
    assert ((if Reqb p 90 then lround (xcentre one_pixel)
             else lround (1 / tan (p * PI / 180) * (IZR 0 - ycentre one_pixel) + xcentre one_pixel))
            = 0%Z) as ->.
    { destruct (Reqb p 90); [apply (lround_IZR 0) | apply Hl]. }
    cbn -[Rabs inVel Rltb Reqb Z.eqb]. change (0 * 1 + 0 =? 0)%Z with true. cbn iota. rewrite Hv.
    assert ((if Reqb p 90 then Rltb 0 0 else Rltb 0 0) = false) as ->.
    { rewrite Rltb_false by lra. now destruct (Reqb p 90). }
    reflexivity.
  - change (zrange (Xmin one_pixel) (Xmax one_pixel)) with [0%Z]. cbn [fold_left].
    unfold pa_step_x.
    change (xcentre one_pixel) with 0. change (ycentre one_pixel) with 0.
    rewrite Hl. cbn -[Rabs inVel Rltb Z.eqb]. change (0 * 1 + 0 =? 0)%Z with true. cbn iota. rewrite Hv.
    rewrite Rltb_false by lra. reflexivity.
Qed.

Example findPositionAngle_one_pixel :
  findPositionAngle median one_pixel (-10) 10 1 = Some 270.
Proof.
  assert (median [Rabs (3 - 1)] = 2) as Hm.
  { unfold median. simpl. rewrite Rabs_right; lra. }
  assert (forall k, pa_step median one_pixel (-10) 10 1 (mkBest 2 0 0 2) (candidate k)
                    = mkBest 2 0 0 2) as Hkeep.
  { intros k. unfold pa_step. rewrite one_pixel_samples. cbn [vdev]. rewrite Hm.
    cbn [maxdev]. rewrite Rltb_false by lra. reflexivity. }
  assert (forall n a, fold_left (pa_step median one_pixel (-10) 10 1)
                                (map candidate (zseq a n)) (mkBest 2 0 0 2)
                      = mkBest 2 0 0 2) as Hrest.
  { induction n as [|n IH]; intros a; [reflexivity|].
    cbn [zseq map fold_left]. rewrite Hkeep. apply IH. }
  assert (forall n, fold_left (pa_step median one_pixel (-10) 10 1)
                              (map candidate (zseq 0 (S n))) (mkBest 0 0 0 0)
                    = mkBest 2 0 0 2) as Hall.
  { intros n. cbn [zseq map fold_left].
    assert (pa_step median one_pixel (-10) 10 1 (mkBest 0 0 0 0) (candidate 0)
            = mkBest 2 0 0 2) as ->; [|apply Hrest].
    unfold pa_step. rewrite one_pixel_samples. cbn [vdev sumleft sumright]. rewrite Hm.
    cbn [maxdev]. rewrite Rltb_true by lra. rewrite Rltb_true by (rewrite Rabs_right; lra).
    cbn [andb]. f_equal; unfold candidate; lra. }
  unfold findPositionAngle.
  replace 0 with (candidate 0) at 1 by (unfold candidate; lra).
  rewrite (pa_loop_runs median one_pixel (-10) 10 1 360 0) by reflexivity.
  rewrite (Hall 359%nat). unfold rotate. cbn [vl vr bestpa].
  rewrite !Rltb_true by lra. f_equal. lra.
Qed.

(** A row of three pixels with velocities 1, 2e16 and 1, centred on the
    middle one, in a cube whose velocity range contains them; the systemic
    velocity is 0. *)
Definition spike : Field :=
  mkField (fun n => if (n =? 0)%Z then Some 1
                    else if (n =? 1)%Z then Some 2e16
                    else if (n =? 2)%Z then Some 1 else None)
          3 0 2 0 0 1 0.

Lemma spike_inVel v : 0 <= v <= 2e16 -> inVel (-1e17) 1e17 v = true.
Proof. intros H. unfold inVel. rewrite !Rleb_true by lra. reflexivity. Qed.

(** A step of the loop over x takes the pixel of column [x] when the line
    crosses row 0 there. *)
Lemma spike_step_x p s x v :
  Vemap spike x = Some v -> 0 <= v <= 2e16 ->
  pa_step_x spike (-1e17) 1e17 0 p s x
  = if (lround (tan (p * PI / 180) * (IZR x - 1) + 0) =? 0)%Z
    then collect 0 (Rltb (IZR x) 1) v s else s.
Proof.
  intros Hv Hin. unfold pa_step_x.
  change (xcentre spike) with 1. change (ycentre spike) with 0.
  destruct (Z.eqb_spec (lround (tan (p * PI / 180) * (IZR x - 1) + 0)) 0) as [->|Hne].
  - change (Ymin spike <=? 0)%Z with true. change (0 <=? Ymax spike)%Z with true.
    cbn [andb]. change (0 * DimX spike + x)%Z with x. rewrite Hv, (spike_inVel v Hin).
    reflexivity.
  - change (Ymin spike) with 0%Z. change (Ymax spike) with 0%Z.
    destruct (Z.leb_spec 0 (lround (tan (p * PI / 180) * (IZR x - 1) + 0)));
      destruct (Z.leb_spec (lround (tan (p * PI / 180) * (IZR x - 1) + 0)) 0);
      try reflexivity; lia.
Qed.

(** Every line samples either the three pixels or the middle one alone. *)
Lemma spike_vdev p :
  vdev (pa_samples spike (-1e17) 1e17 0 p) = [1; 2e16; 1] \/
  vdev (pa_samples spike (-1e17) 1e17 0 p) = [2e16].
Proof.
  assert (Rabs (1 - 0) = 1) as A1 by (rewrite Rabs_right; lra).
  assert (Rabs (2e16 - 0) = 2e16) as A2 by (rewrite Rabs_right; lra).
  unfold pa_samples. destruct (Rltb 45 p && Rltb p 135).
  - right. change (zrange (Ymin spike) (Ymax spike)) with [0%Z]. cbn [fold_left].
    unfold pa_step_y.
    assert ((if Reqb p 90 then lround (xcentre spike)
             else lround (1 / tan (p * PI / 180) * (IZR 0 - ycentre spike) + xcentre spike))
            = 1%Z) as ->.
    { change (xcentre spike) with 1. change (ycentre spike) with 0.
      destruct (Reqb p 90); [apply (lround_IZR 1)|].
      replace (1 / tan (p * PI / 180) * (IZR 0 - 0) + 1) with (IZR 1) by lra.
      apply lround_IZR. }
    change (Xmin spike <=? 1)%Z with true. change (1 <=? Xmax spike)%Z with true.
    cbn [andb]. change (Vemap spike (0 * DimX spike + 1)%Z) with (Some 2e16).
    cbv iota. rewrite spike_inVel by lra. cbn [collect vdev app]. rewrite A2. reflexivity.
  - change (zrange (Xmin spike) (Xmax spike)) with [0%Z; 1%Z; 2%Z]. cbn [fold_left].
    rewrite (spike_step_x p _ 0 1) by (reflexivity || lra).
    rewrite (spike_step_x p _ 1 2e16) by (reflexivity || lra).
    rewrite (spike_step_x p _ 2 1) by (reflexivity || lra).
    replace (tan (p * PI / 180) * (IZR 0 - 1) + 0) with (- tan (p * PI / 180)) by lra.
    replace (tan (p * PI / 180) * (IZR 1 - 1) + 0) with (IZR 0) by lra.
    replace (tan (p * PI / 180) * (IZR 2 - 1) + 0) with (tan (p * PI / 180)) by lra.
    rewrite lround_opp, lround_IZR. change (0 =? 0)%Z with true. cbv iota.
    destruct (Z.eqb_spec (lround (tan (p * PI / 180))) 0) as [->|Hne].
    + left. change (- 0 =? 0)%Z with true. cbv iota. cbn [collect vdev app].
      rewrite A1, A2. reflexivity.
    + right. destruct (Z.eqb_spec (- lround (tan (p * PI / 180))) 0) as [E|_]; [lia|].
      cbn [collect vdev app]. rewrite A2. reflexivity.
Qed.

Lemma median_spike : median [1; 2e16; 1] = 1 /\ median [2e16] = 2e16.
Proof.
  unfold median, sort_values. cbn [fold_right insert_sorted].
  rewrite (Rleb_false 2e16 1) by lra. cbn [insert_sorted].
  rewrite (Rleb_true 1 1) by lra. split; reflexivity.
Qed.

Lemma spike_medians p :
  median_at median spike (-1e17) 1e17 0 p = 1 \/
  median_at median spike (-1e17) 1e17 0 p = 2e16.
Proof.
  unfold median_at. destruct median_spike as [M3 M1].
  destruct (spike_vdev p) as [-> | ->]; [left | right]; assumption.
Qed.

(** C1, as stated, fails: on the row [spike] the line at 0 degrees has the
    median deviation 1 and the line at 90 degrees the larger median 2e16,
    which the loop ignores ([fabs(median)<1E16]); the angle selected is 0. *)
Lemma findPositionAngle_ignores_large_median :
  exists b,
    pa_loop median spike (-1e17) 1e17 0 361 0 (mkBest 0 0 0 0) = Some b /\
    bestpa b = 0 /\ maxdev b = 1 /\
    median_at median spike (-1e17) 1e17 0 0 = 1 /\
    median_at median spike (-1e17) 1e17 0 90 = 2e16 /\
    candidate 0 = 0 /\ candidate 180 = 90.
Proof.
  destruct median_spike as [M3 M1].
  assert (candidate 0 = 0) as C0 by (unfold candidate; lra).
  assert (candidate 180 = 90) as C90 by (unfold candidate; lra).
  assert (median_at median spike (-1e17) 1e17 0 0 = 1) as H0.
  { destruct (spike_vdev 0) as [E|E]; unfold median_at; rewrite E; [exact M3|].
    exfalso. revert E. unfold pa_samples.
    rewrite (Rltb_false 45 0) by lra. cbn [andb].
    change (zrange (Xmin spike) (Xmax spike)) with [0%Z; 1%Z; 2%Z]. cbn [fold_left].
    rewrite (spike_step_x 0 _ 0 1) by (reflexivity || lra).
    rewrite (spike_step_x 0 _ 1 2e16) by (reflexivity || lra).
    rewrite (spike_step_x 0 _ 2 1) by (reflexivity || lra).
    replace (0 * PI / 180) with 0 by lra. rewrite tan_0.
    replace (0 * (IZR 0 - 1) + 0) with (IZR 0) by lra.
    replace (0 * (IZR 1 - 1) + 0) with (IZR 0) by lra.
    replace (0 * (IZR 2 - 1) + 0) with (IZR 0) by lra.
    rewrite lround_IZR. change (0 =? 0)%Z with true. cbv iota.
    cbn [collect vdev app]. discriminate. }
  assert (median_at median spike (-1e17) 1e17 0 90 = 2e16) as H90.
  { destruct (spike_vdev 90) as [E|E]; unfold median_at; rewrite E; [|exact M1].
    exfalso. revert E. unfold pa_samples.
    rewrite (Rltb_true 45 90), (Rltb_true 90 135) by lra. cbn [andb].
    change (zrange (Ymin spike) (Ymax spike)) with [0%Z]. cbn [fold_left].
    unfold pa_step_y.
    destruct (Reqb 90 90);
      match goal with |- context [lround ?e] =>
        replace e with (IZR 1) by (change (xcentre spike) with 1; change (ycentre spike) with 0; lra)
      end; rewrite lround_IZR;
      change (Xmin spike <=? 1)%Z with true; change (1 <=? Xmax spike)%Z with true;
      cbn [andb]; change (Vemap spike (0 * DimX spike + 1)%Z) with (Some 2e16);
      cbv iota; rewrite spike_inVel by lra; cbn [collect vdev app]; discriminate. }
  set (b1 := best_at median spike (-1e17) 1e17 0 0).
  assert (forall k, pa_step median spike (-1e17) 1e17 0 b1 (candidate k) = b1) as Hkeep.
  { intros k. apply pa_step_skipped. unfold eligible.
    destruct (spike_medians (candidate k)) as [E|E]; rewrite E.
    - left. subst b1. cbn [best_at maxdev]. rewrite C0, H0. lra.
    - right. rewrite Rabs_right; lra. }
  assert (forall n a, fold_left (pa_step median spike (-1e17) 1e17 0)
                                (map candidate (zseq a n)) b1 = b1) as Hrest.
  { induction n as [|n IH]; intros a; [reflexivity|].
    cbn [zseq map fold_left]. rewrite Hkeep. apply IH. }
  assert (forall n, fold_left (pa_step median spike (-1e17) 1e17 0)
                              (map candidate (zseq 0 (S n))) (mkBest 0 0 0 0) = b1) as Hall.
  { intros n. cbn [zseq map fold_left]. rewrite pa_step_taken; [apply Hrest| |].
    - cbn [maxdev]. rewrite C0, H0. lra.
    - unfold eligible. rewrite C0, H0, Rabs_right; lra. }
  exists b1. split.
  - replace (pa_loop median spike (-1e17) 1e17 0 361 0 (mkBest 0 0 0 0))
      with (pa_loop median spike (-1e17) 1e17 0 361 (candidate 0) (mkBest 0 0 0 0))
      by (rewrite C0; reflexivity).
    rewrite (pa_loop_runs median spike (-1e17) 1e17 0 360 0) by reflexivity.
    rewrite (Hall 359%nat). reflexivity.
  - subst b1. cbn [best_at bestpa maxdev]. repeat split; try assumption.
    rewrite C0. exact H0.
Qed.

End ParamGuessProps.

(** ** The downhill simplex of the guesser

    [ParamGuess::fitSimplex] (paramguess.cpp), which minimises the member
    function [func] over [ndim] parameters from the [ndim + 1] vertices in
    [p]. *)

Module Simplex.

Local Open Scope Z_scope.

(** The template parameter [T] with the arithmetic and the comparisons the
    routine uses, [ofZ] for the conversion of [ndim] and [ofQ] for the
    floating-point literals.  Nothing is assumed of them, so that what is
    proved of the routine holds for IEEE arithmetic, NaNs included. *)
Class Arith (T : Type) : Type := {
  Tadd : T -> T -> T;
  Tsub : T -> T -> T;
  Tmul : T -> T -> T;
  Tdiv : T -> T -> T;
  Tabs : T -> T;
  Tlt : T -> T -> bool;
  Tle : T -> T -> bool;
  ofZ : Z -> T;
  ofQ : Q -> T
}.

(** The variables that live across the passes of the loop, and [evals], a
    ghost counter of the calls of the objective function. *)
Record State (T : Type) : Type := mkState {
  p : list (list T);
  y : list T;
  psum : list T;
  nfunc : Z;
  evals : Z
}.

Arguments mkState {T} _ _ _ _ _.
Arguments p {T} _.
Arguments y {T} _.
Arguments psum {T} _.
Arguments nfunc {T} _.
Arguments evals {T} _.

Section FitSimplex.

Context {T : Type} {A : Arith T}.

(** The objective function ([this->*func]): its value, and the parameter
    array as the call leaves it ([funcIncfromMap] clips its argument in
    place). *)
Variable func : list T -> T * list T.

Definition NMAX : Z := 5000.
Definition TINY : T := ofQ (1 # 10000000000).
Definition tol : T := ofQ (1 # 1000).

(** [l[i]] and [p[i]]. *)
Definition get (l : list T) (i : nat) : T := nth i l (ofQ 0).

Definition row (p : list (list T)) (i : nat) : list T := nth i p [].

(** The first [ndim] entries of an array. *)
Definition entries (ndim : nat) (l : list T) : list T :=
  map (get l) (seq 0 ndim).

(** [psum[j]]: the sum of column [j] over the [mpts] vertices. *)
Definition column_sums (ndim mpts : nat) (p : list (list T)) : list T :=
  map (fun j => fold_left (fun sum i => Tadd sum (get (row p i) j)) (seq 0 mpts) (ofQ 0))
      (seq 0 ndim).

(** The search for the lowest, the highest and the next-highest vertex. *)
Definition rank_step (y : list T) (st : nat * nat * nat) (i : nat) : nat * nat * nat :=
  let '(ilo, ihi, inhi) := st in
  let ilo' := if Tle (get y i) (get y ilo) then i else ilo in
  if Tlt (get y ihi) (get y i) then (ilo', i, ihi)
  else if Tlt (get y inhi) (get y i) && negb (i =? ihi)%nat then (ilo', ihi, i)
  else (ilo', ihi, inhi).

Definition ranks (mpts : nat) (y : list T) : nat * nat * nat :=
  fold_left (rank_step y) (seq 0 mpts)
            (if Tlt (get y 1) (get y 0) then (O, O, 1%nat) else (O, 1%nat, O)).

(** [rtol < tol]. *)
Definition rtol (mpts : nat) (y : list T) : T :=
  let '(ilo, ihi, _) := ranks mpts y in
  Tdiv (Tmul (ofQ 2) (Tabs (Tsub (get y ihi) (get y ilo))))
       (Tadd (Tadd (Tabs (get y ihi)) (Tabs (get y ilo))) TINY).

Definition converged (mpts : nat) (s : State T) : bool :=
  Tlt (rtol mpts (y s)) tol.

(** The exit on convergence: the best vertex is swapped to the front. *)
Definition swap_best (ndim : nat) (s : State T) : State T :=
  let '(ilo, _, _) := ranks (S ndim) (y s) in
  mkState (<[ilo := entries ndim (row (p s) 0)]> (<[O := entries ndim (row (p s) ilo)]> (p s)))
          (<[ilo := get (y s) 0]> (<[O := get (y s) ilo]> (y s)))
          (psum s) (nfunc s) (evals s).

(** A trial point through the face opposite the highest vertex, by the
    factor [fac]; it replaces that vertex when it is better.  The result is
    the value at the trial point and the new state. *)
Definition try (ndim ihi : nat) (fac : T) (s : State T) : T * State T :=
  let fac1 := Tdiv (Tsub (ofQ 1) fac) (ofZ (Z.of_nat ndim)) in
  let fac2 := Tsub fac1 fac in
  let ptry := map (fun j => Tsub (Tmul (get (psum s) j) fac1)
                                 (Tmul (get (row (p s) ihi) j) fac2))
                  (seq 0 ndim) in
  let '(ytry, ptry) := func ptry in
  if Tlt ytry (get (y s) ihi)
  then (ytry,
        mkState (<[ihi := entries ndim ptry]> (p s))
                (<[ihi := ytry]> (y s))
                (map (fun j => Tadd (get (psum s) j) (Tsub (get ptry j) (get (row (p s) ihi) j)))
                     (seq 0 ndim))
                (nfunc s) (evals s + 1))
  else (ytry, mkState (p s) (y s) (psum s) (nfunc s) (evals s + 1)).

(** The contraction of every vertex but the lowest towards the lowest. *)
Definition shrink_step (ndim ilo : nat) (s : State T) (i : nat) : State T :=
  if (i =? ilo)%nat then s
  else
    let r := map (fun j => Tmul (ofQ (1 # 2)) (Tadd (get (row (p s) i) j) (get (row (p s) ilo) j)))
                 (seq 0 ndim) in
    mkState (<[i := r]> (p s)) (<[i := fst (func r)]> (y s)) (psum s) (nfunc s) (evals s + 1).

Definition shrink (ndim ilo : nat) (s : State T) : State T :=
  let s' := fold_left (shrink_step ndim ilo) (seq 0 (S ndim)) s in
  mkState (p s') (y s') (column_sums ndim (S ndim) (p s')) (nfunc s' + Z.of_nat ndim) (evals s').

(** One pass through the body of the loop, the two exits left out. *)
Definition advance (ndim : nat) (s : State T) : State T :=
  let '(ilo, ihi, inhi) := ranks (S ndim) (y s) in
  let s0 := mkState (p s) (y s) (psum s) (nfunc s + 2) (evals s) in
  let '(ytry, s1) := try ndim ihi (ofQ (-1)) s0 in
  if Tle ytry (get (y s1) ilo)
  then snd (try ndim ihi (ofQ 2) s1)
  else if Tle (get (y s1) inhi) ytry
  then let ysave := get (y s1) ihi in
       let '(ytry, s2) := try ndim ihi (ofQ (1 # 2)) s1 in
       if Tle ysave ytry then shrink ndim ilo s2 else s2
  else mkState (p s1) (y s1) (psum s1) (nfunc s1 - 1) (evals s1).

(** The loop [for (;;)], cut after [fuel] passes. *)
Fixpoint iterate (fuel ndim : nat) (s : State T) : option (bool * State T) :=
  match fuel with
  | O => None
  | S fuel' =>
      if converged (S ndim) s then Some (true, swap_best ndim s)
      else if NMAX <=? nfunc s then Some (false, s)
      else iterate fuel' ndim (advance ndim s)
  end.

(** The state the loop is entered with. *)
Definition initial (ndim : nat) (p0 : list (list T)) : State T :=
  mkState p0
          (map (fun i => fst (func (entries ndim (row p0 i)))) (seq 0 (S ndim)))
          (column_sums ndim (S ndim) p0)
          0
          (Z.of_nat (S ndim)).

(** [ParamGuess::fitSimplex]: the value returned and the state it returns
    in, [None] when the fuel does not suffice. *)
Definition fitSimplex (ndim : nat) (p0 : list (list T)) : option (bool * State T) :=
  iterate (S (Z.to_nat NMAX)) ndim (initial ndim p0).

(** The state after [k] passes. *)
Fixpoint pass (k ndim : nat) (s : State T) : State T :=
  match k with
  | O => s
  | S k' => pass k' ndim (advance ndim s)
  end.

End FitSimplex.

End Simplex.

(** ** Properties of the downhill simplex *)

Module SimplexProps.

Import Simplex.
Local Open Scope Z_scope.

Section Props.

Context {T : Type} {A : Arith T}.
Variable func : list T -> T * list T.

Implicit Types (s : State T) (ndim ilo ihi : nat).

Lemma try_counts ndim ihi fac s :
  nfunc (snd (try func ndim ihi fac s)) = nfunc s /\
  evals (snd (try func ndim ihi fac s)) = evals s + 1.
Proof.
  unfold try.
  destruct (func _) as [ytry ptry].
  destruct (Tlt ytry _); simpl; auto.
Qed.

Lemma rank_step_ilo mpts (yv : list T) st i :
  (i < mpts)%nat -> (fst (fst st) < mpts)%nat ->
  (fst (fst (rank_step yv st i)) < mpts)%nat.
Proof.
  destruct st as [[ilo ihi] inhi]. simpl. intros Hi Hl.
  destruct (Tle _ _); destruct (Tlt _ _); simpl; try lia;
    destruct (Tlt _ _ && _); simpl; lia.
Qed.

(** The lowest vertex is one of the [ndim + 1] vertices. *)
Lemma ranks_ilo ndim (yv : list T) : (fst (fst (ranks (S ndim) yv)) < S ndim)%nat.
Proof.
  unfold ranks.
  set (st := if Tlt _ _ then _ else _).
  assert (fst (fst st) < S ndim)%nat as H0 by (subst st; destruct (Tlt _ _); simpl; lia).
  assert (Forall (fun i => i < S ndim)%nat (seq 0 (S ndim))) as Hall.
  { apply List.Forall_forall. intros i Hi. apply in_seq in Hi. lia. }
  clearbody st. revert st H0.
  induction Hall as [|i l Hi _ IH]; intros st H0; [exact H0|].
  cbn [fold_left]. apply IH. now apply rank_step_ilo.
Qed.

(** The contraction calls the objective once for each vertex but the lowest. *)
Lemma shrink_fold_counts ndim ilo l s :
  nfunc (fold_left (shrink_step func ndim ilo) l s) = nfunc s /\
  evals (fold_left (shrink_step func ndim ilo) l s)
  = evals s + Z.of_nat (length (List.filter (fun i => negb (i =? ilo)%nat) l)).
Proof.
  revert s. induction l as [|i l IH]; intros s; simpl.
  - split; [reflexivity | lia].
  - destruct (IH (shrink_step func ndim ilo s i)) as [-> ->].
    unfold shrink_step. destruct (i =? ilo)%nat; simpl; split; try reflexivity; lia.
Qed.

Lemma others_above ilo n a :
  (ilo < a)%nat ->
  length (List.filter (fun i => negb (i =? ilo)%nat) (seq a n)) = n.
Proof.
  revert a. induction n as [|n IH]; intros a Ha; [reflexivity|].
  cbn [seq List.filter]. destruct (Nat.eqb_spec a ilo); [lia|].
  simpl. rewrite IH by lia. reflexivity.
Qed.

Lemma others_count ilo n a :
  (a <= ilo < a + n)%nat ->
  length (List.filter (fun i => negb (i =? ilo)%nat) (seq a n)) = (n - 1)%nat.
Proof.
  revert a. induction n as [|n IH]; intros a H; [lia|].
  cbn [seq List.filter].
  destruct (Nat.eqb_spec a ilo) as [->|Hne]; simpl.
  - rewrite others_above by lia. lia.
  - rewrite IH by lia. lia.
Qed.

Lemma shrink_counts ndim ilo s :
  (ilo < S ndim)%nat ->
  nfunc (shrink func ndim ilo s) = nfunc s + Z.of_nat ndim /\
  evals (shrink func ndim ilo s) = evals s + Z.of_nat ndim.
Proof.
  intros H. unfold shrink. cbn [nfunc evals].
  destruct (shrink_fold_counts ndim ilo (seq 0 (S ndim)) s) as [-> ->].
  rewrite others_count by lia. split; [reflexivity | lia].
Qed.

(** A pass calls the objective at least once, and [nfunc] grows by the
    number of its calls. *)
Lemma advance_counts ndim s :
  nfunc s + 1 <= nfunc (advance func ndim s) /\
  evals (advance func ndim s) - nfunc (advance func ndim s) = evals s - nfunc s.
Proof.
  unfold advance.
  pose proof (ranks_ilo ndim (y s)) as Hilo.
  destruct (ranks (S ndim) (y s)) as [[ilo ihi] inhi]. simpl in Hilo.
  set (s0 := mkState _ _ _ _ _).
  pose proof (try_counts ndim ihi (ofQ (-1)) s0) as [Hn1 He1].
  destruct (try func ndim ihi (ofQ (-1)) s0) as [ytry s1]. simpl in Hn1, He1.
  subst s0. simpl in Hn1, He1.
  destruct (Tle ytry _).
  - pose proof (try_counts ndim ihi (ofQ 2) s1) as [Hn2 He2]. lia.
  - destruct (Tle _ ytry).
    + pose proof (try_counts ndim ihi (ofQ (1 # 2)) s1) as [Hn2 He2].
      destruct (try func ndim ihi (ofQ (1 # 2)) s1) as [ytry2 s2]. simpl in Hn2, He2.
      destruct (Tle _ ytry2).
      * destruct (shrink_counts ndim ilo s2 Hilo) as [-> ->]. lia.
      * lia.
    + simpl. lia.
Qed.

Lemma pass_evals ndim k s :
  evals (pass func k ndim s) - nfunc (pass func k ndim s) = evals s - nfunc s.
Proof.
  revert s. induction k as [|k IH]; intros s; simpl; [reflexivity|].
  rewrite IH. apply advance_counts.
Qed.

(** With [NMAX - nfunc] passes to spare the loop leaves by one of its two
    exits. *)
Lemma iterate_stops ndim n s :
  NMAX - nfunc s <= Z.of_nat n ->
  exists k, (k <= n)%nat /\
    (forall i, (i < k)%nat ->
       converged (S ndim) (pass func i ndim s) = false /\ nfunc (pass func i ndim s) < NMAX) /\
    (converged (S ndim) (pass func k ndim s) = true /\
       iterate func (S n) ndim s = Some (true, swap_best ndim (pass func k ndim s))
     \/
     converged (S ndim) (pass func k ndim s) = false /\ NMAX <= nfunc (pass func k ndim s) /\
       iterate func (S n) ndim s = Some (false, pass func k ndim s)).
Proof.
  revert s. induction n as [|n IH]; intros s Hn.
  - exists O. split; [lia|]. split; [intros i Hi; lia|].
    cbn [iterate pass].
    destruct (converged (S ndim) s); [left; auto|].
    right. destruct (Z.leb_spec NMAX (nfunc s)); [auto | lia].
  - cbn [iterate].
    destruct (converged (S ndim) s) eqn:Ec.
    { exists O. split; [lia|]. split; [intros i Hi; lia|]. left. simpl. auto. }
    destruct (Z.leb_spec NMAX (nfunc s)) as [Hc|Hc].
    { exists O. split; [lia|]. split; [intros i Hi; lia|]. right. simpl. auto. }
    destruct (IH (advance func ndim s)) as (k & Hk & Hbefore & Hend).
    { pose proof (advance_counts ndim s). lia. }
    exists (S k). split; [lia|]. split.
    + intros [|i] Hi; simpl; [auto | apply Hbefore; lia].
    + exact Hend.
Qed.

End Props.

(** Exact rational arithmetic with a NaN ([None]) that every operation
    propagates and every comparison rejects, to run the routine on examples. *)
Definition lift2 (f : Q -> Q -> Q) (a b : option Q) : option Q :=
  match a, b with
  | Some u, Some v => Some (f u v)
  | _, _ => None
  end.

Definition test2 (f : Q -> Q -> bool) (a b : option Q) : bool :=
  match a, b with
  | Some u, Some v => f u v
  | _, _ => false
  end.

#[local] Instance Q_arith : Arith (option Q) := {|
  Tadd := lift2 Qplus;
  Tsub := lift2 Qminus;
  Tmul := lift2 Qmult;
  Tdiv a b := match b with
              | Some v => if Qeq_bool v 0 then None else lift2 Qdiv a b
              | None => None
              end;
  Tabs := option_map Qabs;
  Tlt := test2 (fun u v => negb (Qle_bool v u));
  Tle := test2 Qle_bool;
  ofZ n := Some (inject_Z n);
  ofQ q := Some q
|}.

(** [(x - 1)^2 + 1], which has a minimum, and an objective that is [x]
    where [x >= 0] and NaN elsewhere. *)
Definition parabola (x : list (option Q)) : option Q * list (option Q) :=
  (option_map (fun u => (u - 1) * (u - 1) + 1)%Q (get x 0), x).

Definition walled (x : list (option Q)) : option Q * list (option Q) :=
  (match get x 0 with
   | Some u => if Qle_bool 0 u then Some u else None
   | None => None
   end, x).

Definition outcome (r : option (bool * State (option Q))) : option (bool * Z * Z) :=
  match r with
  | Some (ok, s) => Some (ok, nfunc s, evals s)
  | None => None
  end.

(** Both exits are taken: the first run converges after 12 evaluations in
    the loop, the second makes no progress and stops at the cap. *)
Example fitSimplex_parabola :
  outcome (fitSimplex parabola 1 [[Some 0%Q]; [Some 3%Q]]) = Some (true, 12, 14).
Proof. vm_compute. reflexivity. Qed.

Example fitSimplex_walled :
  outcome (fitSimplex walled 1 [[Some 0%Q]; [Some 1%Q]]) = Some (false, 5000, 5002).
Proof. vm_compute. reflexivity. Qed.

End SimplexProps.

(** ** The inclination *)

Module GuessProps.

Import PixelInfo ParamGuess ParamGuessProps.
Local Open Scope R_scope.

(** The arc cosine of a ratio between 0 and 1. *)
Lemma acos_quarter q : 0 <= q <= 1 -> 0 <= acos q <= PI / 2 /\ (q < 1 -> 0 < acos q).
Proof.
  intros [H0 H1]. split.
  - split; [apply acos_bound|].
    unfold acos. destruct (Rle_dec q (-1)); [lra|].
    destruct (Rle_dec 1 q); [pose proof PI_RGT_0; lra|].
    assert (0 <= atan (q / sqrt (1 - q²))); [|lra].
    rewrite <- atan_0.
    destruct (Req_dec q 0) as [->|Hq].
    + unfold Rdiv. rewrite Rmult_0_l. lra.
    + left. apply atan_increasing. apply Rdiv_lt_0_compat; [lra|].
      apply sqrt_lt_R0. unfold Rsqr. nra.
  - intros Hlt. apply acos_bound_lt. lra.
Qed.

(** X4.  When one of the two axis lengths is positive, the inclination
    [findInclination] (algorithm 1) sets is a number between 0 and 90
    degrees.  When the two lengths differ it is positive, and the rotation
    velocity [findRotationVelocity] then derives from it is a number that is
    not negative, whatever the width W50. *)
Theorem findInclination_between_0_and_90 (atan_deg : R -> R) (F : Field) (pmaj pmin : R * R)
    (PixScale arcsconv : R) :
  0 < findAxisLength atan_deg F pmaj \/ 0 < findAxisLength atan_deg F pmin ->
  exists inc,
    fst (fst (findInclination atan_deg F pmaj pmin PixScale arcsconv)) = Num inc /\
    0 <= inc <= 90 /\
    (findAxisLength atan_deg F pmaj <> findAxisLength atan_deg F pmin ->
     0 < inc /\
     forall W50, exists v, findRotationVelocity W50 (Num inc) = Num v /\ 0 <= v).
Proof.
  intros Hpos.
  pose proof (findAxisLength_nonneg atan_deg F pmaj) as Ha.
  pose proof (findAxisLength_nonneg atan_deg F pmin) as Hb.
  pose proof PI_RGT_0 as Hpi.
  unfold findInclination. cbn [fst].
  fold (findAxisLength atan_deg F pmaj). fold (findAxisLength atan_deg F pmin).
  set (a := findAxisLength atan_deg F pmaj) in *.
  set (b := findAxisLength atan_deg F pmin) in *.
  set (q := (if Rltb a b then a else b) / (if Rltb a b then b else a)).
  assert ((if Rltb a b then b else a) <> 0) as Hne0.
  { destruct (Rltb_spec a b); lra. }
  assert (0 <= q <= 1 /\ (a <> b -> q < 1)) as [Hq Hq1].
  { subst q. destruct (Rltb_spec a b) as [H|H].
    - split; [split|intros _].
      + apply Rle_mult_inv_pos; lra.
      + apply Rmult_le_reg_r with b; [lra|]. unfold Rdiv. rewrite Rmult_assoc, Rinv_l; lra.
      + apply Rmult_lt_reg_r with b; [lra|]. unfold Rdiv. rewrite Rmult_assoc, Rinv_l; lra.
    - assert (0 < a) by lra. split; [split|intros Hne].
      + apply Rle_mult_inv_pos; lra.
      + apply Rmult_le_reg_r with a; [lra|]. unfold Rdiv. rewrite Rmult_assoc, Rinv_l; lra.
      + apply Rmult_lt_reg_r with a; [lra|]. unfold Rdiv. rewrite Rmult_assoc, Rinv_l; lra. }
  destruct (acos_quarter q Hq) as [[Hc0 Hc1] Hcpos].
  assert (acos q * 180 / PI <= 90) as Hle.
  { apply Rmult_le_reg_r with PI; [lra|].
    unfold Rdiv. rewrite Rmult_assoc, Rinv_l by lra. lra. }
  assert (0 <= acos q * 180 / PI) as Hge.
  { apply Rle_mult_inv_pos; lra. }
  exists (acos q * 180 / PI).
  destruct (Reqb_spec (if Rltb a b then b else a) 0) as [C|_]; [contradiction|].
  split; [reflexivity|]. split; [split; assumption|].
  intros Hne. specialize (Hcpos (Hq1 Hne)).
  assert (0 < acos q * 180 / PI) as Hgt.
  { apply Rdiv_lt_0_compat; lra. }
  split; [exact Hgt|]. intros W50.
  rewrite findRotationVelocity_between by lra.
  eexists. split; [reflexivity|].
  apply Rle_mult_inv_pos; [apply Rabs_pos|].
  pose proof (sin_deg_pos (acos q * 180 / PI) ltac:(lra)). lra.
Qed.

(** On the row [lopsided] the axis along the row has a positive length. *)
Lemma lopsided_axis_positive : 0 < findAxisLength exact_atan_deg lopsided (0, 0).
Proof. rewrite findAxisLength_lopsided. lra. Qed.

(** A line that misses the row has the length 0. *)
Lemma lopsided_axis_missed : findAxisLength exact_atan_deg lopsided (0, 5) = 0.
Proof.
  unfold findAxisLength, axis_scan. rewrite line_angle_flat.
  rewrite (Rltb_false 45 0) by lra. cbn [andb].
  assert (forall st x, axis_step_x lopsided (0, 5) st x = st) as Hstep.
  { intros st x. unfold axis_step_x. cbn [fst snd].
    replace (0 * IZR x + 5) with (IZR 5) by (simpl; ring). rewrite lround_IZR. reflexivity. }
  change (zrange (Xmin lopsided) (Xmax lopsided)) with [0; 1; 2; 3]%Z.
  cbn [fold_left]. rewrite !Hstep. cbn [axis_r_l axis_r_r]. lra.
Qed.

(** On the row [lopsided], with the major axis along the row and a minor
    axis that misses it, the lengths are 3/2 and 0. *)
Lemma findInclination_between_0_and_90_witness :
  (0 < findAxisLength exact_atan_deg lopsided (0, 0) \/
   0 < findAxisLength exact_atan_deg lopsided (0, 5)) /\
  findAxisLength exact_atan_deg lopsided (0, 0) <> findAxisLength exact_atan_deg lopsided (0, 5) /\
  exists inc,
    fst (fst (findInclination exact_atan_deg lopsided (0, 0) (0, 5) 1 1)) = Num inc /\
    0 <= inc <= 90 /\
    (findAxisLength exact_atan_deg lopsided (0, 0) <> findAxisLength exact_atan_deg lopsided (0, 5) ->
     0 < inc /\
     forall W50, exists v, findRotationVelocity W50 (Num inc) = Num v /\ 0 <= v).
Proof.
  split; [left; exact lopsided_axis_positive|].
  split; [rewrite findAxisLength_lopsided, lopsided_axis_missed; lra|].
  apply (findInclination_between_0_and_90 exact_atan_deg lopsided (0, 0) (0, 5) 1 1).
  left. exact lopsided_axis_positive.
Defined.

End GuessProps.

(** ** The cost of the downhill simplex *)

Module SimplexBounds.

Import Simplex SimplexProps.
Local Open Scope Z_scope.

Section Bounds.

Context {T : Type} {A : Arith T}.
Variable func : list T -> T * list T.

Implicit Types (s : State T) (ndim : nat).

(** A pass adds at most [ndim + 2] to [nfunc]. *)
Lemma advance_adds_at_most ndim s :
  nfunc (advance func ndim s) <= nfunc s + 2 + Z.of_nat ndim.
Proof.
  unfold advance.
  pose proof (ranks_ilo ndim (y s)) as Hilo.
  destruct (ranks (S ndim) (y s)) as [[ilo ihi] inhi]. simpl in Hilo.
  set (s0 := mkState _ _ _ _ _).
  pose proof (try_counts func ndim ihi (ofQ (-1)) s0) as [Hn1 _].
  destruct (try func ndim ihi (ofQ (-1)) s0) as [ytry s1]. simpl in Hn1.
  subst s0. simpl in Hn1.
  destruct (Tle ytry _).
  - pose proof (try_counts func ndim ihi (ofQ 2) s1) as [Hn2 _]. lia.
  - destruct (Tle _ ytry).
    + pose proof (try_counts func ndim ihi (ofQ (1 # 2)) s1) as [Hn2 _].
      destruct (try func ndim ihi (ofQ (1 # 2)) s1) as [ytry2 s2]. simpl in Hn2.
      destruct (Tle _ ytry2).
      * destruct (shrink_counts func ndim ilo s2 Hilo) as [-> _]. lia.
      * lia.
    + simpl. lia.
Qed.

(** Whatever the loop returns, [nfunc] has not passed the cap by more than
    one pass. *)
Lemma iterate_bound ndim n s :
  NMAX - nfunc s <= Z.of_nat n ->
  nfunc s <= NMAX + 1 + Z.of_nat ndim ->
  exists ok s', iterate func (S n) ndim s = Some (ok, s') /\
                nfunc s' <= NMAX + 1 + Z.of_nat ndim /\
                evals s' - nfunc s' = evals s - nfunc s.
Proof.
  revert s. induction n as [|n IH]; intros s Hn Hb; cbn [iterate].
  - destruct (converged (S ndim) s).
    + eexists _, _. split; [reflexivity|].
      unfold swap_best. destruct (ranks _ _) as [[ilo ?] ?]. simpl. lia.
    + destruct (Z.leb_spec NMAX (nfunc s)); [|lia].
      eexists _, _. split; [reflexivity|]. lia.
  - destruct (converged (S ndim) s).
    + eexists _, _. split; [reflexivity|].
      unfold swap_best. destruct (ranks _ _) as [[ilo ?] ?]. simpl. lia.
    + destruct (Z.leb_spec NMAX (nfunc s)).
      * eexists _, _. split; [reflexivity|]. lia.
      * pose proof (advance_counts func ndim s) as [Hlow Hev].
        pose proof (advance_adds_at_most ndim s) as Hup.
        destruct (IH (advance func ndim s)) as (ok & s' & E & Hb' & He'); [lia|lia|].
        exists ok, s'. split; [exact E|]. split; [exact Hb'|]. lia.
Qed.

(** X5.  [fitSimplex] returns after at most 5001 + ndim calls of the
    objective function made in its loop, that is at most 5002 + 2 ndim
    calls in all, the [ndim + 1] calls on the initial vertices included. *)
Theorem fitSimplex_evaluation_bound (ndim : nat) (p0 : list (list T)) :
  exists ok s, fitSimplex func ndim p0 = Some (ok, s) /\
    nfunc s <= 5001 + Z.of_nat ndim /\
    evals s = nfunc s + Z.of_nat ndim + 1 /\
    evals s <= 5002 + 2 * Z.of_nat ndim.
Proof.
  destruct (iterate_bound ndim (Z.to_nat NMAX) (initial func ndim p0))
    as (ok & s & E & Hb & He).
  { unfold NMAX. simpl. lia. }
  { unfold NMAX. simpl. lia. }
  exists ok, s. split; [exact E|]. unfold NMAX in Hb. simpl in He.
  split; [lia|]. split; lia.
Qed.

End Bounds.

End SimplexBounds.

(** ** The result of the downhill simplex *)

Module SimplexBest.

Import Simplex SimplexProps.
Local Open Scope nat_scope.

Section Best.

Context {T : Type} {A : Arith T}.
Variable func : list T -> T * list T.

Implicit Types (s : State T) (ndim : nat).

(** *** Arrays *)

Lemma get_insert (l : list T) i j v :
  get (<[i := v]> l) j = if decide (i = j /\ i < length l) then v else get l j.
Proof.
  unfold get. rewrite !nth_lookup. destruct (decide (i = j /\ i < length l)) as [[-> H]|H].
  - rewrite list_lookup_insert_eq by exact H. reflexivity.
  - destruct (decide (i = j)) as [->|Hne].
    + assert (length l <= j) as Hl by lia.
      rewrite (lookup_ge_None_2 (<[j:=v]> l)) by (rewrite length_insert; exact Hl).
      rewrite (lookup_ge_None_2 l) by exact Hl. reflexivity.
    + rewrite list_lookup_insert_ne by exact Hne. reflexivity.
Qed.

Lemma row_insert (p : list (list T)) i j r :
  row (<[i := r]> p) j = if decide (i = j /\ i < length p) then r else row p j.
Proof.
  unfold row. rewrite !nth_lookup. destruct (decide (i = j /\ i < length p)) as [[-> H]|H].
  - rewrite list_lookup_insert_eq by exact H. reflexivity.
  - destruct (decide (i = j)) as [->|Hne].
    + assert (length p <= j) as Hl by lia.
      rewrite (lookup_ge_None_2 (<[j:=r]> p)) by (rewrite length_insert; exact Hl).
      rewrite (lookup_ge_None_2 p) by exact Hl. reflexivity.
    + rewrite list_lookup_insert_ne by exact Hne. reflexivity.
Qed.

Lemma length_entries ndim (l : list T) : length (entries ndim l) = ndim.
Proof. unfold entries. rewrite length_map, length_seq. reflexivity. Qed.

Lemma entries_all (l : list T) : entries (length l) l = l.
Proof.
  unfold entries, get. apply (nth_ext _ _ (ofQ 0) (ofQ 0)).
  - rewrite length_map, length_seq. reflexivity.
  - intros i Hi. rewrite length_map, length_seq in Hi.
    rewrite (nth_indep _ _ (nth 0 l (ofQ 0))) by (rewrite length_map, length_seq; exact Hi).
    rewrite (map_nth (fun i => nth i l (ofQ 0)) (seq 0 (length l)) 0 i).
    rewrite seq_nth by exact Hi. reflexivity.
Qed.

Lemma get_tabulate (f : nat -> T) n i : i < n -> get (map f (seq 0 n)) i = f i.
Proof.
  intros Hi. unfold get.
  rewrite (nth_indep _ _ (f 0)) by (rewrite length_map, length_seq; exact Hi).
  rewrite (map_nth f (seq 0 n) 0 i), seq_nth by exact Hi. reflexivity.
Qed.

(** *** The vertices and their values *)

(** The simplex has [ndim + 1] vertices of [ndim] coordinates, and [y]
    holds the value of the objective at each. *)
Definition valued ndim s : Prop :=
  length (p s) = S ndim /\ length (y s) = S ndim /\
  forall i, i < S ndim ->
    length (row (p s) i) = ndim /\ get (y s) i = fst (func (row (p s) i)).

(** The objective may change the array it is given, as long as it keeps its
    length and takes the same value on what it leaves. *)
Hypothesis func_length : forall x, length (snd (func x)) = length x.
Hypothesis func_stable : forall x, fst (func (snd (func x))) = fst (func x).

Lemma initial_valued ndim (p0 : list (list T)) :
  length p0 = S ndim -> Forall (fun r => length r = ndim) p0 ->
  valued ndim (initial func ndim p0).
Proof.
  intros Hl Hr. unfold valued, initial. cbn [p y].
  split; [exact Hl|]. split; [rewrite length_map, length_seq; reflexivity|].
  intros i Hi.
  assert (length (row p0 i) = ndim) as Hri.
  { unfold row. rewrite List.Forall_forall in Hr. apply Hr. apply nth_In. lia. }
  split; [exact Hri|].
  rewrite (get_tabulate (fun i => fst (func (entries ndim (row p0 i))))) by exact Hi.
  rewrite <- Hri at 1. rewrite entries_all. reflexivity.
Qed.

Lemma try_valued ndim ihi fac s :
  valued ndim s -> valued ndim (snd (try func ndim ihi fac s)).
Proof.
  intros (Hp & Hy & Hv). unfold try.
  set (ptry := map _ (seq 0 ndim)).
  assert (length ptry = ndim) as Hlt by (subst ptry; rewrite length_map, length_seq; reflexivity).
  pose proof (func_length ptry) as Hl'. pose proof (func_stable ptry) as Hs'.
  destruct (func ptry) as [ytry ptry']. cbn [fst snd] in *.
  destruct (Tlt ytry _); cbn [snd]; [|split; [exact Hp|split; [exact Hy|exact Hv]]].
  unfold valued. cbn [p y]. rewrite !length_insert.
  split; [exact Hp|]. split; [exact Hy|].
  intros i Hi. rewrite row_insert, get_insert.
  destruct (decide (ihi = i /\ ihi < length (p s))) as [[-> H1]|H1];
    destruct (decide (i = i /\ i < length (y s))) as [H2|H2]; try lia.
  - rewrite length_entries. split; [reflexivity|].
    rewrite <- Hlt at 1. rewrite <- Hl', entries_all. symmetry. exact Hs'.
  - destruct (decide (ihi = i /\ ihi < length (y s))) as [[-> H3]|H3]; [lia|].
    apply Hv, Hi.
Qed.

Lemma shrink_step_valued ndim ilo s i :
  valued ndim s -> valued ndim (shrink_step func ndim ilo s i).
Proof.
  intros (Hp & Hy & Hv). unfold shrink_step.
  destruct (i =? ilo); [split; [exact Hp|split; [exact Hy|exact Hv]]|].
  unfold valued. cbn [p y]. rewrite !length_insert.
  split; [exact Hp|]. split; [exact Hy|].
  intros j Hj. rewrite row_insert, get_insert.
  destruct (decide (i = j /\ i < length (p s))) as [[-> H1]|H1].
  - destruct (decide (j = j /\ j < length (y s))) as [H2|H2]; [|lia].
    rewrite length_map, length_seq. split; reflexivity.
  - destruct (decide (i = j /\ i < length (y s))) as [[-> H3]|H3]; [lia|].
    apply Hv, Hj.
Qed.

Lemma shrink_valued ndim ilo s : valued ndim s -> valued ndim (shrink func ndim ilo s).
Proof.
  intros H. unfold shrink.
  assert (valued ndim (fold_left (shrink_step func ndim ilo) (seq 0 (S ndim)) s)) as H'.
  { generalize (seq 0 (S ndim)). intros l. revert s H.
    induction l as [|i l IH]; intros s H; [exact H|].
    cbn [fold_left]. apply IH, shrink_step_valued, H. }
  exact H'.
Qed.

Lemma advance_valued ndim s : valued ndim s -> valued ndim (advance func ndim s).
Proof.
  intros H. unfold advance.
  destruct (ranks (S ndim) (y s)) as [[ilo ihi] inhi].
  set (s0 := mkState _ _ _ _ _).
  assert (valued ndim s0) as H0 by exact H.
  pose proof (try_valued ndim ihi (ofQ (-1)) s0 H0) as H1.
  destruct (try func ndim ihi (ofQ (-1)) s0) as [ytry s1]. cbn [snd] in H1.
  destruct (Tle ytry _); [apply try_valued, H1|].
  destruct (Tle _ ytry); [|exact H1].
  pose proof (try_valued ndim ihi (ofQ (1 # 2)) s1 H1) as H2.
  destruct (try func ndim ihi (ofQ (1 # 2)) s1) as [ytry2 s2]. cbn [snd] in H2.
  destruct (Tle _ ytry2); [apply shrink_valued, H2 | exact H2].
Qed.

Lemma pass_valued ndim k s : valued ndim s -> valued ndim (pass func k ndim s).
Proof.
  revert s. induction k as [|k IH]; intros s H; [exact H|].
  cbn [pass]. apply IH, advance_valued, H.
Qed.

(** *** The lowest vertex *)

(** The comparison [<=] of [T] orders the values. *)
Hypothesis Tle_trans : forall a b c : T, Tle a b = true -> Tle b c = true -> Tle a c = true.
Hypothesis Tle_total : forall a b : T, Tle a b = true \/ Tle b a = true.

Lemma rank_step_lowest (yv : list T) st i :
  fst (fst (rank_step yv st i))
  = if Tle (get yv i) (get yv (fst (fst st))) then i else fst (fst st).
Proof.
  destruct st as [[ilo ihi] inhi]. unfold rank_step. cbn [fst].
  destruct (Tlt (get yv ihi) (get yv i)); [reflexivity|].
  destruct (Tlt (get yv inhi) (get yv i) && negb (i =? ihi)); reflexivity.
Qed.

Lemma ranks_lowest mpts (yv : list T) i :
  i < mpts -> Tle (get yv (fst (fst (ranks mpts yv)))) (get yv i) = true.
Proof.
  unfold ranks. set (st0 := if Tlt _ _ then _ else _).
  assert (forall n a st,
            (forall j, j < a -> Tle (get yv (fst (fst st))) (get yv j) = true) ->
            forall j, j < a + n ->
              Tle (get yv (fst (fst (fold_left (rank_step yv) (seq a n) st)))) (get yv j) = true)
    as Hfold.
  { induction n as [|n IH]; intros a st Hst j Hj.
    - cbn [seq fold_left]. apply Hst. lia.
    - cbn [seq fold_left]. apply IH; [|lia].
      intros j' Hj'. rewrite rank_step_lowest.
      destruct (Tle (get yv a) (get yv (fst (fst st)))) eqn:E.
      + destruct (decide (j' = a)) as [->|Hne].
        * destruct (Tle_total (get yv a) (get yv a)); assumption.
        * apply (Tle_trans _ _ _ E). apply Hst. lia.
      + destruct (decide (j' = a)) as [->|Hne].
        * destruct (Tle_total (get yv a) (get yv (fst (fst st)))) as [C|C]; [congruence|exact C].
        * apply Hst. lia. }
  intros Hi. apply (Hfold mpts 0 st0); [intros j Hj; lia | lia].
Qed.

(** After the exit on convergence the first vertex is the lowest. *)
Lemma swap_best_lowest ndim s i :
  valued ndim s -> i < S ndim ->
  Tle (fst (func (row (p (swap_best ndim s)) 0))) (fst (func (row (p (swap_best ndim s)) i)))
  = true.
Proof.
  intros (Hp & Hy & Hv) Hi. unfold swap_best.
  pose proof (ranks_ilo ndim (y s)) as Hilo.
  pose proof (fun j => ranks_lowest (S ndim) (y s) j) as Hlow.
  destruct (ranks (S ndim) (y s)) as [[ilo ihi] inhi]. cbn [fst] in Hilo, Hlow. cbn [p].
  destruct (Hv 0 ltac:(lia)) as [L0 V0]. destruct (Hv ilo Hilo) as [Ll Vl].
  assert (entries ndim (row (p s) 0) = row (p s) 0) as E0
      by (rewrite <- L0 at 1; apply entries_all).
  assert (entries ndim (row (p s) ilo) = row (p s) ilo) as El
      by (rewrite <- Ll at 1; apply entries_all).
  rewrite E0, El, !row_insert, !length_insert.
  assert (forall j, j < S ndim ->
            Tle (fst (func (row (p s) ilo))) (fst (func (row (p s) j))) = true) as Hmin.
  { intros j Hj. destruct (Hv j Hj) as [_ Vj]. rewrite <- Vl, <- Vj. apply Hlow, Hj. }
  destruct (decide (ilo = 0)) as [->|Hne].
  - destruct (decide (0 = 0 /\ 0 < length (p s))) as [_|C]; [|lia].
    destruct (decide (0 = i /\ 0 < length (p s))) as [[<- _]|Hi0]; apply Hmin; lia.
  - destruct (decide (ilo = 0 /\ ilo < length (p s))) as [C|_]; [lia|].
    destruct (decide (0 = 0 /\ 0 < length (p s))) as [_|C]; [|lia].
    destruct (decide (ilo = i /\ ilo < length (p s))) as [_|Hil]; [apply Hmin; lia|].
    destruct (decide (0 = i /\ 0 < length (p s))) as [_|Hi0]; apply Hmin; lia.
Qed.

(** X6.  For an objective whose value does not depend on what it does to
    its argument array, and a comparison that orders the values, a
    successful [fitSimplex] leaves the best vertex first: on a simplex of
    [ndim + 1] vertices of [ndim] coordinates the routine returns, and when
    it returns [true] the objective at [p[0]] is not above the objective at
    any other vertex. *)
Theorem fitSimplex_best_vertex_first (ndim : nat) (p0 : list (list T)) :
  length p0 = S ndim -> Forall (fun r => length r = ndim) p0 ->
  exists ok s, fitSimplex func ndim p0 = Some (ok, s) /\
    (ok = true ->
     forall i, i < S ndim ->
       Tle (fst (func (row (p s) 0))) (fst (func (row (p s) i))) = true).
Proof.
  intros Hl Hr.
  destruct (iterate_stops func ndim (Z.to_nat NMAX) (initial func ndim p0))
    as (k & _ & _ & [[_ E]|(_ & _ & E)]).
  { unfold NMAX. simpl. lia. }
  - eexists _, _. split; [exact E|]. intros _ i Hi.
    apply swap_best_lowest; [|exact Hi].
    apply pass_valued, initial_valued; assumption.
  - eexists _, _. split; [exact E|]. discriminate.
Qed.

End Best.

(** Exact rational arithmetic, whose comparison orders the rationals, and
    the objective [(x - 1)^2 + 1]. *)
Definition Q_exact : Arith Q := {|
  Tadd := Qplus;
  Tsub := Qminus;
  Tmul := Qmult;
  Tdiv := Qdiv;
  Tabs := Qabs;
  Tlt a b := negb (Qle_bool b a);
  Tle := Qle_bool;
  ofZ := inject_Z;
  ofQ q := q
|}.

Definition bowl (x : list Q) : Q * list Q :=
  (((get (A := Q_exact) x 0 - 1) * (get (A := Q_exact) x 0 - 1) + 1)%Q, x).

Lemma Qle_bool_trans a b c : Qle_bool a b = true -> Qle_bool b c = true -> Qle_bool a c = true.
Proof. rewrite !Qle_bool_iff. apply Qle_trans. Qed.

Lemma Qle_bool_total a b : Qle_bool a b = true \/ Qle_bool b a = true.
Proof.
  rewrite !Qle_bool_iff. destruct (Qlt_le_dec a b) as [H|H]; [left; apply Qlt_le_weak, H | right; exact H].
Qed.

Example fitSimplex_bowl :
  option_map fst (fitSimplex (A := Q_exact) bowl 1 [[0%Q]; [3%Q]]) = Some true.
Proof. vm_compute. reflexivity. Qed.

Lemma fitSimplex_best_vertex_first_witness :
  length [[0%Q]; [3%Q]] = 2 /\ Forall (fun r : list Q => length r = 1) [[0%Q]; [3%Q]] /\
  exists ok s, fitSimplex (A := Q_exact) bowl 1 [[0%Q]; [3%Q]] = Some (ok, s) /\
    (ok = true ->
     forall i, i < 2 ->
       Tle (Arith := Q_exact) (fst (bowl (row (p s) 0))) (fst (bowl (row (p s) i))) = true).
Proof.
  split; [reflexivity|]. split; [repeat constructor|].
  apply (fitSimplex_best_vertex_first (A := Q_exact) bowl
           (fun x => eq_refl) (fun x => eq_refl) Qle_bool_trans Qle_bool_total 1 [[0%Q]; [3%Q]]).
  - reflexivity.
  - repeat constructor.
Defined.

End SimplexBest.

(** ** The two exits of the downhill simplex *)

Module SimplexExit.

Import Simplex SimplexProps SimplexBest.
Local Open Scope nat_scope.

Section Exit.

Context {T : Type} {A : Arith T}.
Variable func : list T -> T * list T.

Implicit Types (s : State T) (ndim : nat).

(** The convergence criterion, on the highest and the lowest value of the
    objective at the vertices:
    2 |f_high - f_low| / (|f_high| + |f_low| + 1e-10) < 1e-3. *)
Definition criterion (f_high f_low : T) : bool :=
  Tlt (Tdiv (Tmul (ofQ 2) (Tabs (Tsub f_high f_low)))
            (Tadd (Tadd (Tabs f_high) (Tabs f_low)) (ofQ (1 # 10000000000))))
      (ofQ (1 # 1000)).

(** [y[ihi]] and [y[ilo]] as the search at the top of the loop finds them. *)
Definition f_high ndim s : T := get (y s) (snd (fst (ranks (S ndim) (y s)))).

Definition f_low ndim s : T := get (y s) (fst (fst (ranks (S ndim) (y s)))).

(** The test the loop makes is the criterion on these two values. *)
Lemma converged_criterion ndim s :
  converged (S ndim) s = criterion (f_high ndim s) (f_low ndim s).
Proof.
  unfold converged, rtol, criterion, f_high, f_low, tol, TINY.
  destruct (ranks (S ndim) (y s)) as [[ilo ihi] inhi]. reflexivity.
Qed.

(** The comparisons order the values. *)
Definition ordered : Prop :=
  (forall a b c : T, Tle a b = true -> Tle b c = true -> Tle a c = true) /\
  (forall a b : T, Tle a b = true \/ Tle b a = true) /\
  (forall a b : T, Tlt a b = negb (Tle b a)).

(** [hi] and [lo] are the greatest and the least of the values at the
    [ndim + 1] vertices. *)
Definition extremes ndim (yv : list T) (hi lo : T) : Prop :=
  (exists i, i < S ndim /\ get yv i = hi) /\
  (exists i, i < S ndim /\ get yv i = lo) /\
  forall i, i < S ndim -> Tle lo (get yv i) = true /\ Tle (get yv i) hi = true.

Lemma rank_step_highest (yv : list T) st i :
  snd (fst (rank_step yv st i))
  = if Tlt (get yv (snd (fst st))) (get yv i) then i else snd (fst st).
Proof.
  destruct st as [[ilo ihi] inhi]. unfold rank_step. cbn [fst snd].
  destruct (Tlt (get yv ihi) (get yv i)); [reflexivity|].
  destruct (Tlt (get yv inhi) (get yv i) && negb (i =? ihi)); reflexivity.
Qed.

(** The highest vertex is one of the vertices and no value is above its
    value. *)
Lemma ranks_highest mpts (yv : list T) :
  ordered -> 2 <= mpts ->
  snd (fst (ranks mpts yv)) < mpts /\
  forall i, i < mpts -> Tle (get yv i) (get yv (snd (fst (ranks mpts yv)))) = true.
Proof.
  intros (Htrans & Htotal & Hlt) Hm. unfold ranks. set (st0 := if Tlt _ _ then _ else _).
  assert (snd (fst st0) < mpts) as H0 by (subst st0; destruct (Tlt _ _); cbn [fst snd]; lia).
  assert (forall n a st, a + n <= mpts -> snd (fst st) < mpts ->
            (forall j, j < a -> Tle (get yv j) (get yv (snd (fst st))) = true) ->
            snd (fst (fold_left (rank_step yv) (seq a n) st)) < mpts /\
            forall j, j < a + n ->
              Tle (get yv j) (get yv (snd (fst (fold_left (rank_step yv) (seq a n) st)))) = true)
    as Hfold.
  { induction n as [|n IH]; intros a st Ha Hst Hbelow.
    - cbn [seq fold_left]. split; [exact Hst|]. intros j Hj. apply Hbelow. lia.
    - cbn [seq fold_left].
      assert (snd (fst (rank_step yv st a)) < mpts /\
              forall j, j < S a ->
                Tle (get yv j) (get yv (snd (fst (rank_step yv st a)))) = true) as [H1 H2].
      { rewrite rank_step_highest.
        destruct (Tlt (get yv (snd (fst st))) (get yv a)) eqn:E.
        - split; [lia|]. intros j Hj.
          rewrite Hlt in E. apply negb_true_iff in E.
          assert (Tle (get yv (snd (fst st))) (get yv a) = true) as Hup
              by (destruct (Htotal (get yv (snd (fst st))) (get yv a)); congruence).
          destruct (decide (j = a)) as [->|Hne].
          + destruct (Htotal (get yv a) (get yv a)); assumption.
          + apply (Htrans _ _ _ (Hbelow j ltac:(lia)) Hup).
        - split; [exact Hst|]. intros j Hj.
          rewrite Hlt in E. apply negb_false_iff in E.
          destruct (decide (j = a)) as [->|Hne]; [exact E|apply Hbelow; lia]. }
      destruct (IH (S a) (rank_step yv st a) ltac:(lia) H1 H2) as [H3 H4].
      split; [exact H3|]. intros j Hj. apply H4. lia. }
  destruct (Hfold mpts 0 st0 ltac:(lia) H0 ltac:(intros j Hj; lia)) as [H1 H2].
  split; [exact H1|]. intros i Hi. apply H2. lia.
Qed.

Lemma ranks_extremes ndim s :
  ordered -> 0 < ndim -> extremes ndim (y s) (f_high ndim s) (f_low ndim s).
Proof.
  intros Hord Hn. pose proof Hord as (Htrans & Htotal & _).
  destruct (ranks_highest (S ndim) (y s) Hord ltac:(lia)) as [Hhi Hall].
  pose proof (ranks_ilo ndim (y s)) as Hlo.
  unfold extremes, f_high, f_low.
  split; [eexists; split; [exact Hhi|reflexivity]|].
  split; [eexists; split; [exact Hlo|reflexivity]|].
  intros i Hi. split; [|apply Hall, Hi].
  apply (ranks_lowest Htrans Htotal), Hi.
Qed.

(** C4 (amended).  [fitSimplex] returns, whatever the arithmetic, the
    objective function and the initial simplex, after [k <= 5000] passes of
    its loop.  At the top of each pass it tests the criterion on the highest
    and the lowest value and only then the count [nfunc], which is the
    number of calls of the objective after the [ndim + 1] initial ones.  In
    none of the states before the last the criterion was met or had the
    count reached 5000.  The result is [true] when the criterion is met in
    the last state, whatever the count is by then, and [false] only when it
    is not met there and the count has reached 5000.  Where the comparisons
    order the values the two values tested are the greatest and the least
    value at the vertices. *)
Theorem fitSimplex_stops_by_tolerance_or_cap (ndim : nat) (p0 : list (list T)) :
  exists k, k <= 5000 /\
    (forall i, i <= k ->
       evals (pass func i ndim (initial func ndim p0))
       = (nfunc (pass func i ndim (initial func ndim p0)) + Z.of_nat ndim + 1)%Z) /\
    (forall i, i < k ->
       criterion (f_high ndim (pass func i ndim (initial func ndim p0)))
                 (f_low ndim (pass func i ndim (initial func ndim p0))) = false /\
       (nfunc (pass func i ndim (initial func ndim p0)) < 5000)%Z) /\
    (criterion (f_high ndim (pass func k ndim (initial func ndim p0)))
               (f_low ndim (pass func k ndim (initial func ndim p0))) = true /\
       fitSimplex func ndim p0
       = Some (true, swap_best ndim (pass func k ndim (initial func ndim p0)))
     \/
     criterion (f_high ndim (pass func k ndim (initial func ndim p0)))
               (f_low ndim (pass func k ndim (initial func ndim p0))) = false /\
       (5000 <= nfunc (pass func k ndim (initial func ndim p0)))%Z /\
       fitSimplex func ndim p0 = Some (false, pass func k ndim (initial func ndim p0))) /\
    (ordered -> 0 < ndim ->
     forall i, i <= k ->
       extremes ndim (y (pass func i ndim (initial func ndim p0)))
                (f_high ndim (pass func i ndim (initial func ndim p0)))
                (f_low ndim (pass func i ndim (initial func ndim p0)))).
Proof.
  destruct (iterate_stops func ndim (Z.to_nat NMAX) (initial func ndim p0))
    as (k & Hk & Hbefore & Hend).
  { unfold NMAX. simpl. lia. }
  exists k. split; [unfold NMAX in Hk; lia|]. split; [|split; [|split]].
  - intros i _. pose proof (pass_evals func ndim i (initial func ndim p0)) as H.
    simpl in H. lia.
  - intros i Hi. rewrite <- converged_criterion. apply Hbefore, Hi.
  - rewrite <- converged_criterion. exact Hend.
  - intros Hord Hn i _. apply ranks_extremes; assumption.
Qed.

End Exit.

(** Exact rational arithmetic with every fraction kept in lowest terms. *)
Definition Q_reduced : Arith Q := {|
  Tadd a b := Qred (a + b);
  Tsub a b := Qred (a - b);
  Tmul a b := Qred (a * b);
  Tdiv a b := Qred (a / b);
  Tabs := Qabs;
  Tlt a b := negb (Qle_bool b a);
  Tle := Qle_bool;
  ofZ := inject_Z;
  ofQ q := q
|}.

(** The comparisons of the rationals order them. *)
Lemma Q_reduced_ordered : ordered (A := Q_reduced).
Proof.
  split; [exact Qle_bool_trans|]. split; [exact Qle_bool_total|]. reflexivity.
Qed.

(** An objective of three parameters with two plateaus: 3 where a parameter
    is negative, 1 where none is and their sum is at most 1, and 2
    elsewhere.  The simplex has a vertex at the origin and one at 2^1000 on
    each axis (about 1e301, a double). *)
Definition plateau (x : list Q) : Q * list Q :=
  (if existsb (fun j => negb (Qle_bool 0 (get (A := Q_reduced) x j))) [0; 1; 2] then 3%Q
   else if Qle_bool (get (A := Q_reduced) x 0 + get (A := Q_reduced) x 1
                     + get (A := Q_reduced) x 2) 1
        then 1%Q else 2%Q,
   x).

Definition far : Q := inject_Z (2 ^ 1000).

Definition far_simplex : list (list Q) :=
  [[0%Q; 0%Q; 0%Q]; [far; 0%Q; 0%Q]; [0%Q; far; 0%Q]; [0%Q; 0%Q; far]].

(** C4, as stated, fails: on [plateau] a pass contracts the simplex towards
    the origin, at the cost of five calls of the objective, and leaves the
    values 1, 2, 2, 2 at the vertices as long as these are farther than 1
    from the origin, that is for 999 passes; the thousandth pass makes the
    values equal.  By then 5000 calls are counted: the cap is reached
    first, and the routine still returns success, because it tests the
    criterion before the count. *)
Lemma fitSimplex_succeeds_at_the_cap :
  (let s := initial (A := Q_reduced) plateau 3 far_simplex in
   (y s, nfunc s, converged (A := Q_reduced) 4 s)) = ([1; 2; 2; 2]%Q, 0%Z, false) /\
  (let s := pass (A := Q_reduced) plateau 1 3 (initial (A := Q_reduced) plateau 3 far_simplex) in
   (p s, y s, nfunc s, converged (A := Q_reduced) 4 s))
  = ([[0; 0; 0]; [inject_Z (2 ^ 999); 0; 0]; [0; inject_Z (2 ^ 999); 0];
      [0; 0; inject_Z (2 ^ 999)]]%Q,
     [1; 2; 2; 2]%Q, 5%Z, false) /\
  option_map (fun r => (y (snd r), fst r, nfunc (snd r), evals (snd r)))
             (fitSimplex (A := Q_reduced) plateau 3 far_simplex)
  = Some ([1; 1; 1; 1]%Q, true, 5000%Z, 5004%Z).
Proof. split; [|split]; vm_compute; reflexivity. Qed.

End SimplexExit.

(** ** Sums, translations and counts of two-dimensional objects *)

Module ObjectOps.

Import PixelInfo.
Local Open Scope Z_scope.

(** [operator+ (Object2D lhs, Object2D rhs)]: the scans of [rhs] are added
    to a copy of [lhs]. *)
Definition plus2D (lhs rhs : Object2D.t) : Object2D.t :=
  fold_left Object2D.addScan (Object2D.scanlist rhs) lhs.


(** One scan of [Object2D::calcParams].  The box starts at the first scan
    and is widened by the later ones. *)
Definition calc_box (first : bool) (o : Object2D.t) (s : Scan) : Object2D.t :=
  if first
  then Object2D.mk (Object2D.scanlist o) (Object2D.numPix o) (Object2D.xSum o) (Object2D.ySum o)
         (itsX s) (getXmax s) (itsY s) (itsY s)
  else Object2D.mk (Object2D.scanlist o) (Object2D.numPix o) (Object2D.xSum o) (Object2D.ySum o)
         (if itsX s <? Object2D.xmin o then itsX s else Object2D.xmin o)
         (if Object2D.xmax o <? getXmax s then getXmax s else Object2D.xmax o)
         (if itsY s <? Object2D.ymin o then itsY s else Object2D.ymin o)
         (if Object2D.ymax o <? itsY s then itsY s else Object2D.ymax o).

(** The sums of one scan: [ySum += s->itsY*s->getXlen()] (the length of the
    scan, [itsXLen]) and the loop [for(int x=s->itsX;x<=s->getXmax();x++)
    xSum += x], whose counter is an [int]. *)
Definition calc_sums (o : Object2D.t) (s : Scan) : Object2D.t :=
  Object2D.mk (Object2D.scanlist o) (Object2D.numPix o)
    (fold_left Z.add (zrange (to_int (itsX s)) (getXmax s)) (Object2D.xSum o))
    (Object2D.ySum o + itsY s * itsXLen s)
    (Object2D.xmin o) (Object2D.xmax o) (Object2D.ymin o) (Object2D.ymax o).

(** The loop of [calcParams] from a position of the scan list on. *)
Fixpoint calc_loop (first : bool) (l : list Scan) (o : Object2D.t) : Object2D.t :=
  match l with
  | [] => o
  | s :: r => calc_loop false r (calc_sums (calc_box first o s) s)
  end.

(** [Object2D::calcParams]. *)
Definition calcParams (o : Object2D.t) : Object2D.t :=
  calc_loop true (Object2D.scanlist o)
    (Object2D.mk (Object2D.scanlist o) (Object2D.numPix o) 0 0
       (Object2D.xmin o) (Object2D.xmax o) (Object2D.ymin o) (Object2D.ymax o)).

End ObjectOps.

Module ObjectOpsProps.

Import PixelInfo PixelInfoProps ObjectOps.
Local Open Scope Z_scope.

(** *** Membership after [Object2D::addPixel] *)

(** Whether one of the scans holds the pixel. *)
Definition holds (l : list Scan) (x y : Z) : bool := existsb (fun s => isInScan s x y) l.

Definition here (x y x' y' : Z) : bool := (x' =? x) && (y' =? y).

Lemma holds_app l1 l2 x y : holds (l1 ++ l2) x y = holds l1 x y || holds l2 x y.
Proof. apply existsb_app. Qed.

Lemma isInScan_pixel x y x' y' : isInScan (mkScan y x 1) x' y' = here x y x' y'.
Proof. unfold isInScan, here, getXmax. simpl. bool_cases; try reflexivity; lia. Qed.

(** The hull of two scans that touch holds the pixels of both. *)
Lemma isInScan_hull s t x y :
  wf_scan s -> wf_scan t -> touches s t = true ->
  isInScan (hull s t) x y = isInScan s x y || isInScan t x y.
Proof.
  intros Ws Wt Ht. apply touches_true_iff in Ht.
  unfold isInScan, hull, wf_scan, getXmax in *. simpl.
  bool_cases; try reflexivity; lia.
Qed.

Lemma Scan_addScan_holds s t m x y :
  wf_scan s -> wf_scan t -> Scan_addScan s t = Some m ->
  isInScan m x y = isInScan s x y || isInScan t x y.
Proof.
  intros Ws Wt. unfold Scan_addScan. destruct (touches s t) eqn:E; [|discriminate].
  intros [= <-]. apply (isInScan_hull s t x y Ws Wt E).
Qed.

Lemma combine_into_holds y s1 r s1' r' x' y' :
  wf_scan s1 -> Forall wf_scan r ->
  Object2D.combine_into y s1 r = Some (s1', r') ->
  holds (s1' :: r') x' y' = holds (s1 :: r) x' y'.
Proof.
  intros W1 Wr. revert s1' r'. induction Wr as [|s2 r W2 Wr IH]; simpl; [discriminate|].
  intros s1' r'.
  destruct (if itsY s2 =? y then Scan_addScan s1 s2 else None) as [m|] eqn:E.
  - intros [= <- <-]. destruct (itsY s2 =? y); [|discriminate].
    rewrite (Scan_addScan_holds s1 s2 m x' y' W1 W2 E).
    unfold holds. simpl. rewrite orb_assoc. reflexivity.
  - destruct (Object2D.combine_into y s1 r) as [[m r0]|]; [|discriminate].
    intros [= <- <-]. specialize (IH _ _ eq_refl). unfold holds in *. simpl in *.
    destruct (isInScan m x' y'), (isInScan s1 x' y'), (isInScan s2 x' y'); simpl in *;
      try reflexivity; try exact IH; try (rewrite <- IH; reflexivity); try (rewrite IH; reflexivity).
Qed.

Lemma combine_scans_holds y l x' y' :
  Forall wf_scan l -> holds (Object2D.combine_scans y l) x' y' = holds l x' y'.
Proof.
  induction 1 as [|s1 r W1 Wr IH]; simpl; [reflexivity|].
  destruct (if itsY s1 =? y then Object2D.combine_into y s1 r else None) as [[m r']|] eqn:E.
  - destruct (itsY s1 =? y); [|discriminate].
    apply (combine_into_holds y s1 r m r' x' y' W1 Wr E).
  - unfold holds in *. simpl. rewrite IH. reflexivity.
Qed.

(** The first loop of [addPixel]: a scan that was grown holds the new
    pixel besides its own, and when the loop stops on a scan unchanged the
    pixel was held. *)
Lemma addPixel_find_holds x y l x' y' :
  Forall wf_scan l ->
  match Object2D.addPixel_find x y l with
  | (l', d, c) =>
      Forall wf_scan l' /\
      holds l' x' y' = (if c then holds l x' y' || here x y x' y' else holds l x' y') /\
      (d = true -> c = false -> holds l x y = true)
  end.
Proof.
  induction 1 as [|s r Ws Wr IH]; simpl.
  - split; [constructor|]. split; [reflexivity|discriminate].
  - destruct ((y =? itsY s) && isInScan s x y) eqn:E1.
    { split; [constructor; assumption|]. split; [reflexivity|]. intros _ _.
      apply andb_true_iff in E1 as [_ ->]. reflexivity. }
    destruct ((y =? itsY s) && ((x =? itsX s - 1) || (x =? itsX s + itsXLen s))) eqn:E2.
    { split; [|split; [|discriminate]].
      - constructor; [|assumption]. unfold wf_scan, growLeft, growRight in *.
        destruct (x =? itsX s - 1); simpl; lia.
      - unfold holds. cbn [existsb]. fold (holds r x' y').
        assert (isInScan (if x =? itsX s - 1 then growLeft s else growRight s) x' y'
                = isInScan s x' y' || here x y x' y') as ->.
        { clear -Ws E2. unfold isInScan, here, growLeft, growRight, getXmax, wf_scan in *.
          apply andb_true_iff in E2 as [Ey E2]. apply Z.eqb_eq in Ey. subst y.
          destruct (Z.eqb_spec x (itsX s - 1)) as [->|Hne]; simpl.
          - bool_cases; try reflexivity; lia.
          - apply orb_true_iff in E2 as [E2|E2]; [discriminate|]. apply Z.eqb_eq in E2. subst x.
            bool_cases; try reflexivity; lia. }
        destruct (isInScan s x' y'), (here x y x' y'), (holds r x' y'); reflexivity. }
    destruct (Object2D.addPixel_find x y r) as [[l' d] c].
    destruct IH as (Wl' & Hh & Hd). split; [constructor; assumption|]. split.
    + unfold holds in *. cbn [existsb]. rewrite Hh. destruct c; [|reflexivity].
      fold (holds r x' y').
      destruct (isInScan s x' y'), (holds r x' y'), (here x y x' y'); reflexivity.
    + intros Hd1 Hc. rewrite (Hd Hd1 Hc). apply orb_true_r.
Qed.

Lemma scanlist_addPixel_params o l x y :
  Object2D.scanlist (Object2D.addPixel_params o l x y) = l.
Proof. unfold Object2D.addPixel_params. destruct (_ =? _); reflexivity. Qed.

Lemma here_holds l x y x' y' : holds l x y = true -> holds l x' y' || here x y x' y' = holds l x' y'.
Proof.
  intros H. unfold here. destruct (Z.eqb_spec x' x) as [->|]; [|apply orb_false_r].
  destruct (Z.eqb_spec y' y) as [->|]; [|apply orb_false_r].
  rewrite H. reflexivity.
Qed.

(** The pixels of the object after [addPixel]. *)
Lemma addPixel_holds o x y x' y' :
  Forall wf_scan (Object2D.scanlist o) ->
  Object2D.isInObject (Object2D.addPixel o x y) x' y'
  = Object2D.isInObject o x' y' || here x y x' y'.
Proof.
  intros Hwf. rewrite !isInObject_existsb. fold (holds (Object2D.scanlist o) x' y').
  unfold Object2D.addPixel.
  pose proof (addPixel_find_holds x y _ x' y' Hwf) as Hf.
  destruct (Object2D.addPixel_find x y (Object2D.scanlist o)) as [[l' d] c].
  destruct Hf as (Wl' & Hh & Hd).
  destruct d; simpl; [destruct c|]; rewrite ?scanlist_addPixel_params.
  - fold (holds (Object2D.combine_scans y l') x' y').
    rewrite combine_scans_holds by exact Wl'. exact Hh.
  - fold (holds (Object2D.scanlist o) x' y').
    symmetry. apply here_holds. apply Hd; reflexivity.
  - fold (holds (Object2D.scanlist o ++ [mkScan y x 1]) x' y').
    rewrite holds_app. unfold holds at 2. simpl. rewrite orb_false_r, isInScan_pixel.
    reflexivity.
Qed.


(** *** The pixels after [addPixel], [addScan] and [operator+] *)

Definition built_witness : Object2D.t := Object2D.addPixel (Object2D.addPixel Object2D.empty 4 7) 6 7.

(** X7.  Adding a pixel to an object built by [addPixel] gives an object
    that holds the pixels it held and the new one, and no other; the pixel
    count goes up by one when the pixel is new and stays when it was held. *)
Theorem addPixel_adds_exactly_one_pixel (o : Object2D.t) (x y : Z) :
  built2D o ->
  (forall x' y', Object2D.isInObject (Object2D.addPixel o x y) x' y'
                 = Object2D.isInObject o x' y' || here x y x' y') /\
  Object2D.numPix (Object2D.addPixel o x y)
  = Object2D.numPix o + (if Object2D.isInObject o x y then 0 else 1).
Proof.
  intros Hb. apply built2D_Inv2 in Hb. pose proof Hb as (Hwf & Hsep & Hn).
  split; [intros; apply addPixel_holds; exact Hwf|].
  destruct (Object2D.isInObject o x y) eqn:E.
  - rewrite (addPixel_contained o x y Hb E). lia.
  - rewrite isInObject_existsb in E. unfold Object2D.addPixel.
    pose proof (addPixel_find_spec x y _ Hwf Hsep) as Hf.
    assert (0 <= Object2D.numPix o) as Hpos by (rewrite Hn; apply total_len_nonneg, Hwf).
    destruct (Object2D.addPixel_find x y (Object2D.scanlist o)) as [[l' d] c].
    destruct d; simpl; [destruct c|].
    + rewrite (proj2 (addPixel_params_numPix o _ x y Hpos)). lia.
    + destruct Hf as [_ Hf]. congruence.
    + rewrite (proj2 (addPixel_params_numPix o _ x y Hpos)). lia.
Qed.

Lemma addPixel_adds_exactly_one_pixel_witness :
  built2D built_witness /\
  (forall x' y', Object2D.isInObject (Object2D.addPixel built_witness 5 7) x' y'
                 = Object2D.isInObject built_witness x' y' || here 5 7 x' y') /\
  Object2D.numPix (Object2D.addPixel built_witness 5 7)
  = Object2D.numPix built_witness + (if Object2D.isInObject built_witness 5 7 then 0 else 1).
Proof.
  split; [do 2 apply built2D_addPixel; apply built2D_empty|].
  apply (addPixel_adds_exactly_one_pixel built_witness 5 7).
  do 2 apply built2D_addPixel. apply built2D_empty.
Defined.

Lemma built2D_fold_addPixel y l o :
  built2D o -> built2D (fold_left (fun o' x => Object2D.addPixel o' x y) l o).
Proof.
  revert o. induction l as [|x l IH]; simpl; intros o Hb; [exact Hb|].
  apply IH. apply built2D_addPixel, Hb.
Qed.

Lemma built2D_addScan o s : built2D o -> built2D (Object2D.addScan o s).
Proof. apply built2D_fold_addPixel. Qed.

Lemma built2D_plus2D lhs rhs : built2D lhs -> built2D (plus2D lhs rhs).
Proof.
  unfold plus2D. generalize (Object2D.scanlist rhs) as l. intros l. revert lhs.
  induction l as [|s l IH]; simpl; intros lhs Hb; [exact Hb|].
  apply IH, built2D_addScan, Hb.
Qed.

Lemma fold_addPixel_holds y l o x' y' :
  built2D o ->
  Object2D.isInObject (fold_left (fun o' x => Object2D.addPixel o' x y) l o) x' y'
  = Object2D.isInObject o x' y' || (y' =? y) && existsb (Z.eqb x') l.
Proof.
  revert o. induction l as [|x l IH]; simpl; intros o Hb.
  - rewrite andb_false_r, orb_false_r. reflexivity.
  - rewrite IH by (apply built2D_addPixel, Hb).
    rewrite addPixel_holds by (apply built2D_Inv2, Hb). unfold here.
    destruct (Object2D.isInObject o x' y'), (x' =? x), (y' =? y), (existsb (Z.eqb x') l);
      reflexivity.
Qed.

Lemma existsb_zseq x a n : existsb (Z.eqb x) (zseq a n) = (a <=? x) && (x <? a + Z.of_nat n).
Proof.
  revert a. induction n as [|n IH]; intros a.
  - simpl. bool_cases; try reflexivity; lia.
  - cbn [zseq existsb]. rewrite IH. bool_cases; try reflexivity; lia.
Qed.

Lemma existsb_zrange x a b : existsb (Z.eqb x) (zrange a b) = (a <=? x) && (x <=? b).
Proof.
  unfold zrange. rewrite existsb_zseq. bool_cases; try reflexivity; lia.
Qed.

Lemma addScan_holds o s x' y' :
  built2D o ->
  Object2D.isInObject (Object2D.addScan o s) x' y'
  = Object2D.isInObject o x' y' || isInScan s x' y'.
Proof.
  intros Hb. unfold Object2D.addScan. rewrite fold_addPixel_holds by exact Hb.
  rewrite existsb_zrange. unfold isInScan. rewrite andb_assoc. reflexivity.
Qed.

Definition pair_witness : Object2D.t := Object2D.addPixel Object2D.empty 5 7.

(** X8.  The sum of two objects ([operator+], which adds the scans of the
    second to a copy of the first with [addScan]) holds a pixel exactly
    when one of the two holds it; its pixels are enumerated without
    repetition and its pixel count is their number, whatever the two
    objects share. *)
Theorem plus2D_is_the_union (lhs rhs : Object2D.t) :
  built2D lhs ->
  (forall x y, Object2D.isInObject (plus2D lhs rhs) x y
               = Object2D.isInObject lhs x y || Object2D.isInObject rhs x y) /\
  NoDup (pixels (Object2D.scanlist (plus2D lhs rhs))) /\
  Object2D.numPix (plus2D lhs rhs)
  = Z.of_nat (length (pixels (Object2D.scanlist (plus2D lhs rhs)))).
Proof.
  intros Hb. split.
  - intros x y. unfold plus2D. rewrite (isInObject_existsb rhs).
    generalize (Object2D.scanlist rhs) as l. intros l. revert lhs Hb.
    induction l as [|s l IH]; simpl; intros lhs Hb; [rewrite orb_false_r; reflexivity|].
    rewrite IH by (apply built2D_addScan, Hb). rewrite addScan_holds by exact Hb.
    rewrite orb_assoc. reflexivity.
  - pose proof (built2D_Inv2 _ (built2D_plus2D lhs rhs Hb)) as (Hwf & Hsep & Hn).
    split; [apply NoDup_pixels; assumption|].
    rewrite length_pixels by assumption. exact Hn.
Qed.

Lemma plus2D_is_the_union_witness :
  built2D built_witness /\
  (forall x y, Object2D.isInObject (plus2D built_witness pair_witness) x y
               = Object2D.isInObject built_witness x y || Object2D.isInObject pair_witness x y) /\
  NoDup (pixels (Object2D.scanlist (plus2D built_witness pair_witness))) /\
  Object2D.numPix (plus2D built_witness pair_witness)
  = Z.of_nat (length (pixels (Object2D.scanlist (plus2D built_witness pair_witness)))).
Proof.
  split; [do 2 apply built2D_addPixel; apply built2D_empty|].
  apply (plus2D_is_the_union built_witness pair_witness).
  do 2 apply built2D_addPixel. apply built2D_empty.
Defined.

(** The sum of the two separate pixels and the pixel between them is one
    scan of three pixels. *)
Example plus2D_joins_scans :
  Object2D.scanlist (plus2D built_witness pair_witness) = [mkScan 7 4 3]
  /\ Object2D.numPix (plus2D built_witness pair_witness) = 3.
Proof. split; reflexivity. Qed.

(** *** The cached sums and bounding box *)

Definition sumZ (l : list Z) : Z := fold_right Z.add 0 l.

(** The columns and the rows of the pixels of a scan list, pixel by pixel. *)
Definition columns (l : list Scan) : list Z := map fst (pixels l).

Definition rows (l : list Scan) : list Z := map snd (pixels l).

Definition least (m : Z) (l : list Z) : Prop := m ∈ l /\ forall v, v ∈ l -> m <= v.

Definition greatest (m : Z) (l : list Z) : Prop := m ∈ l /\ forall v, v ∈ l -> v <= m.

(** The sums are those of the pixels, and the box is the smallest one
    around them. *)
Definition Sums (o : Object2D.t) : Prop :=
  Object2D.xSum o = sumZ (columns (Object2D.scanlist o)) /\
  Object2D.ySum o = sumZ (rows (Object2D.scanlist o)).

Definition Box (o : Object2D.t) : Prop :=
  Object2D.scanlist o <> [] ->
  least (Object2D.xmin o) (columns (Object2D.scanlist o)) /\
  greatest (Object2D.xmax o) (columns (Object2D.scanlist o)) /\
  least (Object2D.ymin o) (rows (Object2D.scanlist o)) /\
  greatest (Object2D.ymax o) (rows (Object2D.scanlist o)).

Definition Cache (o : Object2D.t) : Prop := Inv2 o /\ Sums o /\ Box o.

Lemma sumZ_app l1 l2 : sumZ (l1 ++ l2) = sumZ l1 + sumZ l2.
Proof. induction l1 as [|a l1 IH]; simpl; [reflexivity|]. rewrite IH. lia. Qed.

Lemma sumZ_perm l1 l2 : l1 ≡ₚ l2 -> sumZ l1 = sumZ l2.
Proof. induction 1; simpl; lia. Qed.

Lemma least_perm m l1 l2 : l1 ≡ₚ l2 -> least m l1 -> least m l2.
Proof.
  intros Hp [Hin Hle]. split; [rewrite <- Hp; exact Hin|].
  intros v Hv. apply Hle. rewrite Hp. exact Hv.
Qed.

Lemma greatest_perm m l1 l2 : l1 ≡ₚ l2 -> greatest m l1 -> greatest m l2.
Proof.
  intros Hp [Hin Hle]. split; [rewrite <- Hp; exact Hin|].
  intros v Hv. apply Hle. rewrite Hp. exact Hv.
Qed.

Lemma least_unique m m' l : least m l -> least m' l -> m = m'.
Proof. intros [H1 H2] [H3 H4]. specialize (H2 _ H3). specialize (H4 _ H1). lia. Qed.

Lemma greatest_unique m m' l : greatest m l -> greatest m' l -> m = m'.
Proof. intros [H1 H2] [H3 H4]. specialize (H2 _ H3). specialize (H4 _ H1). lia. Qed.

Lemma least_cons x m l :
  least m l -> least (if x <? m then x else m) (x :: l).
Proof.
  intros [Hin Hle]. destruct (Z.ltb_spec x m); split.
  - left.
  - intros v Hv. apply elem_of_cons in Hv as [->|Hv]; [lia|]. specialize (Hle _ Hv). lia.
  - right. exact Hin.
  - intros v Hv. apply elem_of_cons in Hv as [->|Hv]; [lia|]. apply Hle, Hv.
Qed.

Lemma greatest_cons x m l :
  greatest m l -> greatest (if m <? x then x else m) (x :: l).
Proof.
  intros [Hin Hle]. destruct (Z.ltb_spec m x); split.
  - left.
  - intros v Hv. apply elem_of_cons in Hv as [->|Hv]; [lia|]. specialize (Hle _ Hv). lia.
  - right. exact Hin.
  - intros v Hv. apply elem_of_cons in Hv as [->|Hv]; [lia|]. apply Hle, Hv.
Qed.

Lemma least_one x : least x [x].
Proof. split; [left|]. intros v Hv. apply list_elem_of_singleton in Hv. lia. Qed.

Lemma greatest_one x : greatest x [x].
Proof. split; [left|]. intros v Hv. apply list_elem_of_singleton in Hv. lia. Qed.

(** A pixel that is not held is added by way of [addPixel_params]. *)
Lemma addPixel_new o x y :
  Inv2 o -> Object2D.isInObject o x y = false ->
  exists l', Object2D.addPixel o x y = Object2D.addPixel_params o l' x y.
Proof.
  intros (Hwf & Hsep & Hn) E. rewrite isInObject_existsb in E. unfold Object2D.addPixel.
  pose proof (addPixel_find_spec x y _ Hwf Hsep) as Hf.
  destruct (Object2D.addPixel_find x y (Object2D.scanlist o)) as [[l' d] c].
  destruct d; simpl; [destruct c|]; eauto.
  destruct Hf as [_ Hf]. congruence.
Qed.

(** The pixels after a new pixel was added, up to their order. *)
Lemma addPixel_pixels o x y :
  Inv2 o -> Object2D.isInObject o x y = false ->
  pixels (Object2D.scanlist (Object2D.addPixel o x y)) ≡ₚ (x, y) :: pixels (Object2D.scanlist o).
Proof.
  intros Hi E. pose proof (addPixel_Inv2 o x y Hi) as (Hwf' & Hsep' & _).
  pose proof Hi as (Hwf & Hsep & _).
  apply NoDup_Permutation.
  - apply NoDup_pixels; assumption.
  - constructor; [|apply NoDup_pixels; assumption].
    rewrite isInObject_existsb in E. intros Hin. apply elem_of_pixels in Hin. congruence.
  - intros [x' y']. rewrite elem_of_cons, !elem_of_pixels, <- !isInObject_existsb.
    rewrite addPixel_holds by exact Hwf. unfold here.
    rewrite orb_true_iff, andb_true_iff, !Z.eqb_eq. split.
    + intros [H|[-> ->]]; [right; exact H|left; reflexivity].
    + intros [[= -> ->]|H]; [right; split; reflexivity|left; exact H].
Qed.

Lemma pixels_nil_iff l : Forall wf_scan l -> (pixels l = [] <-> l = []).
Proof.
  intros Hwf. split; [|intros ->; reflexivity].
  intros E. apply total_len_zero; [exact Hwf|].
  rewrite <- length_pixels by exact Hwf. rewrite E. reflexivity.
Qed.

Lemma addPixel_Cache o x y : Cache o -> Cache (Object2D.addPixel o x y).
Proof.
  intros (Hi & [Hx Hy] & Hbox). split; [apply addPixel_Inv2, Hi|].
  destruct (Object2D.isInObject o x y) eqn:E.
  { rewrite (addPixel_contained o x y Hi E). split; [split|]; assumption. }
  pose proof (addPixel_pixels o x y Hi E) as Hp.
  assert (columns (Object2D.scanlist (Object2D.addPixel o x y))
          ≡ₚ x :: columns (Object2D.scanlist o)) as Hc
    by (unfold columns; rewrite Hp; reflexivity).
  assert (rows (Object2D.scanlist (Object2D.addPixel o x y))
          ≡ₚ y :: rows (Object2D.scanlist o)) as Hr
    by (unfold rows; rewrite Hp; reflexivity).
  destruct (addPixel_new o x y Hi E) as [l' El'].
  destruct Hi as (Hwf & Hsep & Hn).
  unfold Sums, Box. revert Hc Hr. rewrite El'. unfold Object2D.addPixel_params.
  destruct (Z.eqb_spec (Object2D.numPix o) 0) as [E0|E0]; cbn [Object2D.scanlist
    Object2D.xSum Object2D.ySum Object2D.xmin Object2D.xmax Object2D.ymin Object2D.ymax];
    intros Hc Hr.
  - rewrite Hn in E0. apply total_len_zero in E0; [|exact Hwf].
    rewrite E0 in Hc, Hr. cbn in Hc, Hr.
    split; [split|intros _; split; [|split; [|split]]].
    + rewrite (sumZ_perm _ _ Hc). simpl. lia.
    + rewrite (sumZ_perm _ _ Hr). simpl. lia.
    + apply (least_perm _ _ _ (symmetry Hc)), least_one.
    + apply (greatest_perm _ _ _ (symmetry Hc)), greatest_one.
    + apply (least_perm _ _ _ (symmetry Hr)), least_one.
    + apply (greatest_perm _ _ _ (symmetry Hr)), greatest_one.
  - assert (Object2D.scanlist o <> []) as Hne
      by (intros Hnil; apply E0; rewrite Hn, Hnil; reflexivity).
    destruct (Hbox Hne) as (B1 & B2 & B3 & B4).
    split; [split|intros _; split; [|split; [|split]]].
    + rewrite (sumZ_perm _ _ Hc). simpl. lia.
    + rewrite (sumZ_perm _ _ Hr). simpl. lia.
    + apply (least_perm _ _ _ (symmetry Hc)), least_cons, B1.
    + apply (greatest_perm _ _ _ (symmetry Hc)), greatest_cons, B2.
    + apply (least_perm _ _ _ (symmetry Hr)), least_cons, B3.
    + apply (greatest_perm _ _ _ (symmetry Hr)), greatest_cons, B4.
Qed.

Lemma scan_pixels_addOffsets xoff yoff s :
  scan_pixels (Scan_addOffsets xoff yoff s)
  = map (fun p => (fst p + xoff, snd p + yoff)) (scan_pixels s).
Proof.
  unfold scan_pixels, Scan_addOffsets, zrange, getXmax. simpl.
  replace (itsX s + xoff + itsXLen s - 1 - (itsX s + xoff) + 1)
    with (itsX s + itsXLen s - 1 - itsX s + 1) by lia.
  rewrite <- zseq_map_add, !map_map. reflexivity.
Qed.

Lemma pixels_addOffsets xoff yoff l :
  pixels (map (Scan_addOffsets xoff yoff) l)
  = map (fun p => (fst p + xoff, snd p + yoff)) (pixels l).
Proof.
  unfold pixels. induction l as [|s l IH]; simpl; [reflexivity|].
  rewrite map_app, IH, scan_pixels_addOffsets. reflexivity.
Qed.

Lemma sumZ_shift d l : sumZ (map (fun v => v + d) l) = sumZ l + d * Z.of_nat (length l).
Proof. induction l as [|a l IH]; simpl length; simpl sumZ; [lia|]. rewrite IH. lia. Qed.

Lemma least_shift d m l : least m l -> least (m + d) (map (fun v => v + d) l).
Proof.
  intros [Hin Hle]. split.
  - apply list_elem_of_fmap. exists m. split; [reflexivity|exact Hin].
  - intros v Hv. apply list_elem_of_fmap in Hv as (w & -> & Hw). specialize (Hle _ Hw). lia.
Qed.

Lemma greatest_shift d m l : greatest m l -> greatest (m + d) (map (fun v => v + d) l).
Proof.
  intros [Hin Hle]. split.
  - apply list_elem_of_fmap. exists m. split; [reflexivity|exact Hin].
  - intros v Hv. apply list_elem_of_fmap in Hv as (w & -> & Hw). specialize (Hle _ Hw). lia.
Qed.

Lemma addOffsets_Cache o xoff yoff : Cache o -> Cache (Object2D.addOffsets o xoff yoff).
Proof.
  intros (Hi & [Hx Hy] & Hbox). split; [apply addOffsets_Inv2, Hi|].
  destruct Hi as (Hwf & Hsep & Hn).
  assert (columns (map (Scan_addOffsets xoff yoff) (Object2D.scanlist o))
          = map (fun v => v + xoff) (columns (Object2D.scanlist o))) as Hc
    by (unfold columns; rewrite pixels_addOffsets, !map_map; reflexivity).
  assert (rows (map (Scan_addOffsets xoff yoff) (Object2D.scanlist o))
          = map (fun v => v + yoff) (rows (Object2D.scanlist o))) as Hr
    by (unfold rows; rewrite pixels_addOffsets, !map_map; reflexivity).
  assert (Object2D.numPix o = Z.of_nat (length (pixels (Object2D.scanlist o)))) as Hlen
    by (rewrite length_pixels by exact Hwf; exact Hn).
  unfold Sums, Box, Object2D.addOffsets. simpl. rewrite Hc, Hr. split; [split|].
  - rewrite sumZ_shift. unfold columns. rewrite length_map, <- Hlen, Hx. reflexivity.
  - rewrite sumZ_shift. unfold rows. rewrite length_map, <- Hlen, Hy. reflexivity.
  - intros Hne. assert (Object2D.scanlist o <> []) as Hne'
      by (intros Hnil; apply Hne; rewrite Hnil; reflexivity).
    destruct (Hbox Hne') as (B1 & B2 & B3 & B4).
    split; [|split; [|split]]; try apply least_shift; try apply greatest_shift; assumption.
Qed.

Lemma built2D_Cache o : built2D o -> Cache o.
Proof.
  induction 1 as [|o x y _ IH|o xoff yoff _ IH].
  - split; [|split].
    + apply built2D_Inv2, built2D_empty.
    + split; reflexivity.
    + intros H. destruct H. reflexivity.
  - apply addPixel_Cache, IH.
  - apply addOffsets_Cache, IH.
Qed.

(** *** [calcParams] *)

(** Scans whose columns the [int] counter of the loops holds. *)
Definition fits_int (s : Scan) : Prop := -2147483648 <= itsX s /\ getXmax s < 2147483647.

Lemma fold_add l acc : fold_left Z.add l acc = acc + sumZ l.
Proof. revert acc. induction l as [|a l IH]; simpl; intros acc; [lia|]. rewrite IH. lia. Qed.

Lemma columns_cons s l : columns (s :: l) = zrange (itsX s) (getXmax s) ++ columns l.
Proof.
  unfold columns, pixels. simpl. rewrite map_app. f_equal.
  unfold scan_pixels. rewrite map_map. simpl. apply map_id.
Qed.

Lemma rows_cons s l :
  rows (s :: l) = map (fun _ => itsY s) (zrange (itsX s) (getXmax s)) ++ rows l.
Proof.
  unfold rows, pixels. simpl. rewrite map_app. f_equal.
  unfold scan_pixels. rewrite map_map. reflexivity.
Qed.

Lemma sumZ_const (A : Type) c (l : list A) : sumZ (map (fun _ => c) l) = c * Z.of_nat (length l).
Proof. induction l as [|a l IH]; simpl length; simpl sumZ; [lia|]. rewrite IH. lia. Qed.

Lemma length_zrange s : wf_scan s -> Z.of_nat (length (zrange (itsX s) (getXmax s))) = itsXLen s.
Proof. unfold wf_scan, zrange, getXmax. intros H. rewrite length_zseq. lia. Qed.

Lemma elem_of_columns_cons v s l :
  v ∈ columns (s :: l) <-> itsX s <= v <= getXmax s \/ v ∈ columns l.
Proof. rewrite columns_cons, elem_of_app, elem_of_zrange. reflexivity. Qed.

Lemma elem_of_rows_cons v s l :
  wf_scan s -> v ∈ rows (s :: l) <-> v = itsY s \/ v ∈ rows l.
Proof.
  intros Ws. rewrite rows_cons, elem_of_app, list_elem_of_fmap. split.
  - intros [(x & -> & _)|H]; [left; reflexivity|right; exact H].
  - intros [->|H]; [left|right; exact H].
    exists (itsX s). split; [reflexivity|]. apply elem_of_zrange.
    unfold wf_scan, getXmax in *. lia.
Qed.

Lemma least_weaken m l1 l2 :
  least m l1 -> (forall v, v ∈ l1 -> v ∈ l2) ->
  (forall v, v ∈ l2 -> exists w, w ∈ l1 /\ w <= v) -> least m l2.
Proof.
  intros [Hin Hle] H12 H21. split; [apply H12, Hin|].
  intros v Hv. destruct (H21 v Hv) as (w & Hw & Hwv). specialize (Hle _ Hw). lia.
Qed.

Lemma greatest_weaken m l1 l2 :
  greatest m l1 -> (forall v, v ∈ l1 -> v ∈ l2) ->
  (forall v, v ∈ l2 -> exists w, w ∈ l1 /\ v <= w) -> greatest m l2.
Proof.
  intros [Hin Hle] H12 H21. split; [apply H12, Hin|].
  intros v Hv. destruct (H21 v Hv) as (w & Hw & Hwv). specialize (Hle _ Hw). lia.
Qed.

(** The loop of [calcParams] after its first scan: the sums grow by those
    of the scans, and each bound becomes the least or greatest of itself
    and what the scans hold. *)
Lemma calc_loop_false l o :
  Forall wf_scan l -> Forall fits_int l ->
  Object2D.scanlist (calc_loop false l o) = Object2D.scanlist o /\
  Object2D.numPix (calc_loop false l o) = Object2D.numPix o /\
  Object2D.xSum (calc_loop false l o) = Object2D.xSum o + sumZ (columns l) /\
  Object2D.ySum (calc_loop false l o) = Object2D.ySum o + sumZ (rows l) /\
  least (Object2D.xmin (calc_loop false l o)) (Object2D.xmin o :: columns l) /\
  greatest (Object2D.xmax (calc_loop false l o)) (Object2D.xmax o :: columns l) /\
  least (Object2D.ymin (calc_loop false l o)) (Object2D.ymin o :: rows l) /\
  greatest (Object2D.ymax (calc_loop false l o)) (Object2D.ymax o :: rows l).
Proof.
  intros Hwf. revert o. induction Hwf as [|s r Ws Wr IH]; intros o Hfit.
  - simpl. unfold columns, rows. simpl.
    repeat (split; [first [reflexivity | lia | apply least_one | apply greatest_one]|]).
    apply greatest_one.
  - apply Forall_cons in Hfit as [Fs Fr]. cbn [calc_loop].
    destruct (IH (calc_sums (calc_box false o s) s) Fr) as (I1 & I2 & I3 & I4 & I5 & I6 & I7 & I8).
    cbn [calc_sums calc_box Object2D.scanlist Object2D.numPix Object2D.xSum Object2D.ySum
         Object2D.xmin Object2D.xmax Object2D.ymin Object2D.ymax] in *.
    assert (itsX s <= getXmax s) as Hx by (unfold wf_scan, getXmax in *; lia).
    split; [exact I1|]. split; [exact I2|]. split; [|split]; [| |split; [|split; [|split]]].
    + rewrite I3, fold_add, columns_cons, sumZ_app.
      rewrite to_int_id by (unfold fits_int, int_range, getXmax, wf_scan in *; lia). lia.
    + rewrite I4, rows_cons, sumZ_app, sumZ_const, length_zrange by exact Ws. lia.
    + apply (least_weaken _ _ _ I5).
      * intros v Hv. apply elem_of_cons in Hv as [->|Hv].
        -- destruct (itsX s <? Object2D.xmin o); [right|left].
           apply elem_of_columns_cons. left. lia.
        -- right. apply elem_of_columns_cons. right. exact Hv.
      * intros v Hv. apply elem_of_cons in Hv as [->|Hv].
        -- exists (if itsX s <? Object2D.xmin o then itsX s else Object2D.xmin o).
           split; [left|]. destruct (Z.ltb_spec (itsX s) (Object2D.xmin o)); lia.
        -- apply elem_of_columns_cons in Hv as [Hv|Hv].
           ++ exists (if itsX s <? Object2D.xmin o then itsX s else Object2D.xmin o).
              split; [left|]. destruct (Z.ltb_spec (itsX s) (Object2D.xmin o)); lia.
           ++ exists v. split; [right; exact Hv|lia].
    + apply (greatest_weaken _ _ _ I6).
      * intros v Hv. apply elem_of_cons in Hv as [->|Hv].
        -- destruct (Object2D.xmax o <? getXmax s); [right|left].
           apply elem_of_columns_cons. left. lia.
        -- right. apply elem_of_columns_cons. right. exact Hv.
      * intros v Hv. apply elem_of_cons in Hv as [->|Hv].
        -- exists (if Object2D.xmax o <? getXmax s then getXmax s else Object2D.xmax o).
           split; [left|]. destruct (Z.ltb_spec (Object2D.xmax o) (getXmax s)); lia.
        -- apply elem_of_columns_cons in Hv as [Hv|Hv].
           ++ exists (if Object2D.xmax o <? getXmax s then getXmax s else Object2D.xmax o).
              split; [left|]. destruct (Z.ltb_spec (Object2D.xmax o) (getXmax s)); lia.
           ++ exists v. split; [right; exact Hv|lia].
    + apply (least_weaken _ _ _ I7).
      * intros v Hv. apply elem_of_cons in Hv as [->|Hv].
        -- destruct (itsY s <? Object2D.ymin o); [right|left].
           apply elem_of_rows_cons; [exact Ws|]. left. reflexivity.
        -- right. apply elem_of_rows_cons; [exact Ws|]. right. exact Hv.
      * intros v Hv. apply elem_of_cons in Hv as [->|Hv].
        -- exists (if itsY s <? Object2D.ymin o then itsY s else Object2D.ymin o).
           split; [left|]. destruct (Z.ltb_spec (itsY s) (Object2D.ymin o)); lia.
        -- apply (proj1 (elem_of_rows_cons _ s r Ws)) in Hv as [->|Hv].
           ++ exists (if itsY s <? Object2D.ymin o then itsY s else Object2D.ymin o).
              split; [left|]. destruct (Z.ltb_spec (itsY s) (Object2D.ymin o)); lia.
           ++ exists v. split; [right; exact Hv|lia].
    + apply (greatest_weaken _ _ _ I8).
      * intros v Hv. apply elem_of_cons in Hv as [->|Hv].
        -- destruct (Object2D.ymax o <? itsY s); [right|left].
           apply elem_of_rows_cons; [exact Ws|]. left. reflexivity.
        -- right. apply elem_of_rows_cons; [exact Ws|]. right. exact Hv.
      * intros v Hv. apply elem_of_cons in Hv as [->|Hv].
        -- exists (if Object2D.ymax o <? itsY s then itsY s else Object2D.ymax o).
           split; [left|]. destruct (Z.ltb_spec (Object2D.ymax o) (itsY s)); lia.
        -- apply (proj1 (elem_of_rows_cons _ s r Ws)) in Hv as [->|Hv].
           ++ exists (if Object2D.ymax o <? itsY s then itsY s else Object2D.ymax o).
              split; [left|]. destruct (Z.ltb_spec (Object2D.ymax o) (itsY s)); lia.
           ++ exists v. split; [right; exact Hv|lia].
Qed.

Lemma calcParams_Cache o :
  Cache o -> Forall fits_int (Object2D.scanlist o) -> calcParams o = o.
Proof.
  intros ((Hwf & _ & _) & [Hx Hy] & Hbox) Hfit. unfold calcParams.
  destruct o as [l n xs ys x0 x1 y0 y1]. unfold Box in Hbox.
  cbn [Object2D.scanlist Object2D.numPix Object2D.xSum Object2D.ySum
       Object2D.xmin Object2D.xmax Object2D.ymin Object2D.ymax] in *.
  destruct l as [|s r].
  - simpl. unfold columns, rows in *. simpl in *. subst. reflexivity.
  - assert (s :: r <> []) as Hne by discriminate.
    destruct (Hbox Hne) as (B1 & B2 & B3 & B4).
    apply Forall_cons in Hwf as [Ws Wr]. apply Forall_cons in Hfit as [Fs Fr].
    cbn [calc_loop].
    destruct (calc_loop_false r (calc_sums (calc_box true
                (Object2D.mk (s :: r) n 0 0 x0 x1 y0 y1) s) s) Wr Fr)
      as (I1 & I2 & I3 & I4 & I5 & I6 & I7 & I8).
    destruct (calc_loop false r _) as [l' n' xs' ys' x0' x1' y0' y1'].
    cbn [calc_sums calc_box Object2D.scanlist Object2D.numPix Object2D.xSum Object2D.ySum
         Object2D.xmin Object2D.xmax Object2D.ymin Object2D.ymax] in *.
    assert (itsX s <= getXmax s) as Hle by (unfold wf_scan, getXmax in *; lia).
    f_equal.
    + exact I1.
    + exact I2.
    + rewrite I3, fold_add, Hx, columns_cons, sumZ_app.
      rewrite to_int_id by (unfold fits_int, int_range, getXmax, wf_scan in *; lia). lia.
    + rewrite I4, Hy, rows_cons, sumZ_app, sumZ_const, length_zrange by exact Ws. lia.
    + apply (least_unique _ _ (columns (s :: r))); [|exact B1].
      apply (least_weaken _ _ _ I5).
      * intros v Hv. apply elem_of_columns_cons.
        apply elem_of_cons in Hv as [->|Hv]; [left; lia|right; exact Hv].
      * intros v Hv. apply elem_of_columns_cons in Hv as [Hv|Hv].
        -- exists (itsX s). split; [left|lia].
        -- exists v. split; [right; exact Hv|lia].
    + apply (greatest_unique _ _ (columns (s :: r))); [|exact B2].
      apply (greatest_weaken _ _ _ I6).
      * intros v Hv. apply elem_of_columns_cons.
        apply elem_of_cons in Hv as [->|Hv]; [left; lia|right; exact Hv].
      * intros v Hv. apply elem_of_columns_cons in Hv as [Hv|Hv].
        -- exists (getXmax s). split; [left|lia].
        -- exists v. split; [right; exact Hv|lia].
    + apply (least_unique _ _ (rows (s :: r))); [|exact B3].
      apply (least_weaken _ _ _ I7).
      * intros v Hv. apply (elem_of_rows_cons _ s r Ws).
        apply elem_of_cons in Hv as [->|Hv]; [left; reflexivity|right; exact Hv].
      * intros v Hv. apply (proj1 (elem_of_rows_cons _ s r Ws)) in Hv as [->|Hv].
        -- exists (itsY s). split; [left|lia].
        -- exists v. split; [right; exact Hv|lia].
    + apply (greatest_unique _ _ (rows (s :: r))); [|exact B4].
      apply (greatest_weaken _ _ _ I8).
      * intros v Hv. apply (elem_of_rows_cons _ s r Ws).
        apply elem_of_cons in Hv as [->|Hv]; [left; reflexivity|right; exact Hv].
      * intros v Hv. apply (proj1 (elem_of_rows_cons _ s r Ws)) in Hv as [->|Hv].
        -- exists (itsY s). split; [left|lia].
        -- exists v. split; [right; exact Hv|lia].
Qed.

(** Two rows, the second one reaching further left and right. *)
Definition two_rows : Object2D.t :=
  Object2D.addOffsets
    (Object2D.addPixel (Object2D.addPixel (Object2D.addPixel (Object2D.addPixel
       Object2D.empty 4 7) 3 8) 5 8) 4 8) 10 (-20).

Lemma built2D_two_rows : built2D two_rows.
Proof. apply built2D_addOffsets. do 4 apply built2D_addPixel. apply built2D_empty. Qed.

(** X9.  [calcParams] recomputes the sums and the bounding box from the
    scans.  On an object built by [addPixel] and [addOffsets], whose columns
    the [int] counter of its loop holds, it changes nothing: the cached
    sums and box are always those of the scan list.  On an object without
    pixels it leaves the box as it is. *)
Theorem calcParams_changes_nothing (o : Object2D.t) :
  built2D o -> Forall fits_int (Object2D.scanlist o) -> calcParams o = o.
Proof. intros Hb. apply calcParams_Cache, built2D_Cache, Hb. Qed.

Lemma calcParams_changes_nothing_witness :
  built2D two_rows /\ Forall fits_int (Object2D.scanlist two_rows) /\
  calcParams two_rows = two_rows.
Proof.
  assert (Forall fits_int (Object2D.scanlist two_rows)) as Hfit
    by (repeat constructor; simpl; lia).
  split; [exact built2D_two_rows|]. split; [exact Hfit|].
  apply (calcParams_changes_nothing two_rows built2D_two_rows Hfit).
Defined.

(** [calcParams] on scans put together by hand, with a cache that is off. *)
Example calcParams_recomputes :
  calcParams (Object2D.mk [mkScan 7 4 1; mkScan 8 3 3] 4 0 0 0 0 0 0)
  = Object2D.mk [mkScan 7 4 1; mkScan 8 3 3] 4 16 31 3 5 7 8.
Proof. reflexivity. Qed.

Lemma isInObject_elem o x y :
  Object2D.isInObject o x y = true <-> (x, y) ∈ pixels (Object2D.scanlist o).
Proof. rewrite isInObject_existsb, elem_of_pixels. reflexivity. Qed.

Lemma column_held o x :
  x ∈ columns (Object2D.scanlist o) <-> exists y, Object2D.isInObject o x y = true.
Proof.
  unfold columns. rewrite list_elem_of_fmap. split.
  - intros ([x' y] & -> & Hp). exists y. apply isInObject_elem, Hp.
  - intros [y Hy]. exists (x, y). split; [reflexivity|apply isInObject_elem, Hy].
Qed.

Lemma row_held o y :
  y ∈ rows (Object2D.scanlist o) <-> exists x, Object2D.isInObject o x y = true.
Proof.
  unfold rows. rewrite list_elem_of_fmap. split.
  - intros ([x y'] & -> & Hp). exists x. apply isInObject_elem, Hp.
  - intros [x Hx]. exists (x, y). split; [reflexivity|apply isInObject_elem, Hx].
Qed.

(** X10.  For an object built by [addPixel] and [addOffsets], [xSum] and
    [ySum] are the sums of the columns and of the rows of its pixels, every
    pixel it holds lies in the box [xmin..xmax] x [ymin..ymax], and the box
    is the smallest such: each of its four sides holds a pixel of the
    object. *)
Theorem cached_box_is_smallest (o : Object2D.t) (x y : Z) :
  built2D o -> Object2D.isInObject o x y = true ->
  Object2D.xSum o = sumZ (columns (Object2D.scanlist o)) /\
  Object2D.ySum o = sumZ (rows (Object2D.scanlist o)) /\
  (Object2D.xmin o <= x <= Object2D.xmax o /\ Object2D.ymin o <= y <= Object2D.ymax o) /\
  (exists y', Object2D.isInObject o (Object2D.xmin o) y' = true) /\
  (exists y', Object2D.isInObject o (Object2D.xmax o) y' = true) /\
  (exists x', Object2D.isInObject o x' (Object2D.ymin o) = true) /\
  (exists x', Object2D.isInObject o x' (Object2D.ymax o) = true).
Proof.
  intros Hb Hin. destruct (built2D_Cache o Hb) as (_ & [Hx Hy] & Hbox).
  assert (Object2D.scanlist o <> []) as Hne.
  { intros Hnil. rewrite isInObject_existsb, Hnil in Hin. discriminate. }
  destruct (Hbox Hne) as ([A1 A2] & [B1 B2] & [C1 C2] & [D1 D2]).
  assert (x ∈ columns (Object2D.scanlist o)) as Hxc by (apply column_held; eauto).
  assert (y ∈ rows (Object2D.scanlist o)) as Hyr by (apply row_held; eauto).
  specialize (A2 _ Hxc). specialize (B2 _ Hxc). specialize (C2 _ Hyr). specialize (D2 _ Hyr).
  split; [exact Hx|]. split; [exact Hy|]. split; [lia|].
  split; [apply column_held, A1|]. split; [apply column_held, B1|].
  split; [apply row_held, C1|apply row_held, D1].
Qed.

Lemma cached_box_is_smallest_witness :
  built2D two_rows /\ Object2D.isInObject two_rows 14 (-12) = true /\
  Object2D.xSum two_rows = sumZ (columns (Object2D.scanlist two_rows)) /\
  Object2D.ySum two_rows = sumZ (rows (Object2D.scanlist two_rows)) /\
  (Object2D.xmin two_rows <= 14 <= Object2D.xmax two_rows /\
   Object2D.ymin two_rows <= -12 <= Object2D.ymax two_rows) /\
  (exists y', Object2D.isInObject two_rows (Object2D.xmin two_rows) y' = true) /\
  (exists y', Object2D.isInObject two_rows (Object2D.xmax two_rows) y' = true) /\
  (exists x', Object2D.isInObject two_rows x' (Object2D.ymin two_rows) = true) /\
  (exists x', Object2D.isInObject two_rows x' (Object2D.ymax two_rows) = true).
Proof.
  split; [exact built2D_two_rows|]. split; [reflexivity|].
  apply (cached_box_is_smallest two_rows 14 (-12) built2D_two_rows). reflexivity.
Defined.

(** *** [canMerge] does not depend on the order of the two objects *)

Lemma minSepSq_sym s t : wf_scan s -> wf_scan t -> minSepSq s t = minSepSq t s.
Proof.
  unfold minSepSq, wf_scan, getXmax. intros Hs Ht. bool_cases; lia.
Qed.

Lemma mergeable_sym s t threshS flagAdj :
  wf_scan s -> wf_scan t -> mergeable s t threshS flagAdj -> mergeable t s threshS flagAdj.
Proof.
  intros Hs Ht. unfold mergeable, within_gap, sep_below. destruct flagAdj.
  - intros (H1 & H2 & H3). repeat split; try assumption. lia.
  - rewrite (minSepSq_sym s t Hs Ht). tauto.
Qed.

Lemma encloses_wf o s : encloses o = true -> s ∈ Object2D.scanlist o -> wf_scan s.
Proof.
  intros E Hs. apply encloses_iff in E as [Hwf _].
  rewrite List.Forall_forall in Hwf. apply Hwf, list_elem_of_In, Hs.
Qed.

(** [canMerge] finds a mergeable pair of scans when there is one. *)
Lemma canMerge_pair o other threshS flagAdj :
  encloses o = true -> encloses other = true ->
  Object2D.canMerge o other threshS flagAdj = true <->
  exists s1 s2, s1 ∈ Object2D.scanlist o /\ s2 ∈ Object2D.scanlist other /\
                mergeable s1 s2 threshS flagAdj.
Proof.
  intros E1 E2. unfold Object2D.canMerge. split.
  - destruct (Object2D.isNear _ _ _); [|discriminate]. apply isClose_iff; assumption.
  - intros (s1 & s2 & H1 & H2 & Hm).
    pose proof (isNear_of_pair o other _ s1 s2 E1 E2 H1 H2
                  (mergeable_within _ _ _ _ (encloses_wf _ _ E1 H1) (encloses_wf _ _ E2 H2) Hm))
      as Hn.
    unfold merge_gap in Hn. rewrite Hn. apply isClose_iff; [assumption..|]. exists s1, s2. auto.
Qed.

Lemma canMerge_pair_sym o other threshS flagAdj :
  encloses o = true -> encloses other = true ->
  Object2D.canMerge o other threshS flagAdj = true ->
  Object2D.canMerge other o threshS flagAdj = true.
Proof.
  intros E1 E2 H. apply (canMerge_pair o other threshS flagAdj E1 E2) in H
    as (s1 & s2 & H1 & H2 & Hm).
  apply (canMerge_pair other o threshS flagAdj E2 E1). exists s2, s1.
  split; [exact H2|]. split; [exact H1|].
  apply mergeable_sym; [exact (encloses_wf _ _ E1 H1)|exact (encloses_wf _ _ E2 H2)|exact Hm].
Qed.

(** X11.  For two objects built by [addPixel] and [addOffsets], [canMerge]
    gives the same answer whichever of the two it is called on, with and
    without [flagAdj]. *)
Theorem canMerge_symmetric (o other : Object2D.t) (threshS : Q) (flagAdj : bool) :
  built2D o -> built2D other ->
  Object2D.canMerge o other threshS flagAdj = Object2D.canMerge other o threshS flagAdj.
Proof.
  intros H1 H2. apply built2D_encloses in H1. apply built2D_encloses in H2.
  destruct (Object2D.canMerge o other threshS flagAdj) eqn:E1;
    destruct (Object2D.canMerge other o threshS flagAdj) eqn:E2; try reflexivity.
  - rewrite (canMerge_pair_sym o other threshS flagAdj H1 H2 E1) in E2. discriminate.
  - rewrite (canMerge_pair_sym other o threshS flagAdj H2 H1 E2) in E1. discriminate.
Qed.

Lemma canMerge_symmetric_witness :
  built2D two_rows /\ built2D built_witness /\
  Object2D.canMerge two_rows built_witness (5 # 2) false
  = Object2D.canMerge built_witness two_rows (5 # 2) false.
Proof.
  assert (built2D built_witness) as Hb by (do 2 apply built2D_addPixel; apply built2D_empty).
  split; [exact built2D_two_rows|]. split; [exact Hb|].
  apply (canMerge_symmetric two_rows built_witness (5 # 2) false built2D_two_rows Hb).
Defined.

(** *** [getNumDistinctY] and [getNumDistinctX] *)

Lemma fold_push_values (vals acc : list Z) :
  NoDup acc ->
  NoDup (fold_left Object2D.push_distinct vals acc) /\
  forall w, w ∈ fold_left Object2D.push_distinct vals acc <-> w ∈ acc \/ w ∈ vals.
Proof.
  revert acc. induction vals as [|v vals IH]; intros acc Hacc; simpl.
  - split; [exact Hacc|]. intros w. rewrite elem_of_nil. tauto.
  - destruct (IH _ (push_distinct_NoDup v acc Hacc)) as [Hn He].
    split; [exact Hn|]. intros w. rewrite He, push_distinct_elem, elem_of_cons. tauto.
Qed.

(** The columns [getNumDistinctX] collects are columns of pixels. *)
Lemma fold_push_columns (l : list Scan) (acc : list Z) :
  Forall wf_scan l -> Forall fits_int l -> NoDup acc ->
  NoDup (fold_left (fun xlist s =>
           fold_left Object2D.push_distinct (zrange (to_int (itsX s)) (getXmax s - 1)) xlist)
           l acc) /\
  forall w, w ∈ fold_left (fun xlist s =>
              fold_left Object2D.push_distinct (zrange (to_int (itsX s)) (getXmax s - 1)) xlist)
              l acc -> w ∈ acc \/ w ∈ columns l.
Proof.
  intros Hwf. revert acc. induction Hwf as [|s l Ws Wl IH]; intros acc Hfit Hacc; simpl.
  - split; [exact Hacc|]. intros w Hw. left. exact Hw.
  - apply Forall_cons in Hfit as [Fs Fl].
    destruct (fold_push_values (zrange (to_int (itsX s)) (getXmax s - 1)) acc Hacc) as [Hn He].
    destruct (IH _ Fl Hn) as [Hn' He']. split; [exact Hn'|].
    intros w Hw. apply He' in Hw as [Hw|Hw].
    + apply He in Hw as [Hw|Hw]; [left; exact Hw|right].
      rewrite to_int_id in Hw by (unfold fits_int, int_range, getXmax, wf_scan in *; lia).
      apply elem_of_zrange in Hw. apply elem_of_columns_cons. left. lia.
    + right. apply elem_of_columns_cons. right. exact Hw.
Qed.

Lemma NoDup_length_le (l k : list Z) :
  NoDup l -> (forall w, w ∈ l -> w ∈ k) -> (length l <= length k)%nat.
Proof. intros Hn Hsub. apply submseteq_length, NoDup_submseteq; assumption. Qed.

Lemma elem_of_nodup (l : list Z) w : w ∈ nodup Z.eq_dec l <-> w ∈ l.
Proof. rewrite !list_elem_of_In. apply nodup_In. Qed.

(** X12.  For an object built by [addPixel] and [addOffsets] (columns
    within the range of the [int] loop counter), [getNumDistinctY] is the
    number of distinct rows its pixels lie on, which is at most the height
    [ymax - ymin + 1] of the bounding box, and [getNumDistinctX] is never
    more than the number of distinct columns. *)
Theorem distinct_counts_within_extent (o : Object2D.t) :
  built2D o -> Forall fits_int (Object2D.scanlist o) ->
  Object2D.getNumDistinctY o = distinct_rows o /\
  (Object2D.scanlist o <> [] ->
   1 <= Object2D.getNumDistinctY o <= Object2D.ymax o - Object2D.ymin o + 1) /\
  Object2D.getNumDistinctX o <= distinct_columns o.
Proof.
  intros Hb Hfit. destruct (built2D_Cache o Hb) as ((Hwf & Hsep & Hn) & _ & Hbox).
  pose proof (getNumDistinctY_counts_rows o Hwf) as HY. split; [exact HY|]. split.
  - intros Hne. rewrite HY. unfold distinct_rows.
    destruct (Hbox Hne) as (_ & _ & [C1 C2] & [D1 D2]). fold (rows (Object2D.scanlist o)). split.
    + assert (Object2D.ymin o ∈ nodup Z.eq_dec (rows (Object2D.scanlist o))) as Hin
        by (apply elem_of_nodup, C1).
      destruct (nodup Z.eq_dec (rows (Object2D.scanlist o))); [|simpl; lia].
      apply elem_of_nil in Hin. destruct Hin.
    + assert (length (nodup Z.eq_dec (rows (Object2D.scanlist o)))
              <= length (zrange (Object2D.ymin o) (Object2D.ymax o)))%nat as Hle.
      { apply NoDup_length_le; [apply NoDup_ListNoDup, NoDup_nodup|].
        intros w Hw. apply (proj1 (elem_of_nodup _ _)) in Hw. apply elem_of_zrange.
        specialize (C2 _ Hw). specialize (D2 _ Hw). lia. }
      unfold zrange in Hle. rewrite length_zseq in Hle.
      specialize (C2 _ D1). lia.
  - unfold Object2D.getNumDistinctX, distinct_columns. fold (columns (Object2D.scanlist o)).
    destruct (Object2D.scanlist o) as [|s [|s' l]] eqn:El.
    + simpl. lia.
    + apply Forall_cons in Hwf as [Ws _].
      assert (itsX s ∈ nodup Z.eq_dec (columns [s])) as Hin.
      { apply elem_of_nodup, elem_of_columns_cons. left. unfold wf_scan, getXmax in *. lia. }
      destruct (nodup Z.eq_dec (columns [s])); [|simpl length; lia].
      apply elem_of_nil in Hin. destruct Hin.
    + apply inj_le. rewrite <- El in *.
      destruct (fold_push_columns (Object2D.scanlist o) [] Hwf Hfit (NoDup_nil_2 (A:=Z)))
        as [Hnd Hsub].
      apply NoDup_length_le; [exact Hnd|].
      intros w Hw. apply elem_of_nodup. destruct (Hsub w Hw) as [H|H]; [|exact H].
      apply elem_of_nil in H. destruct H.
Qed.

Lemma distinct_counts_within_extent_witness :
  built2D two_rows /\ Forall fits_int (Object2D.scanlist two_rows) /\
  Object2D.getNumDistinctY two_rows = distinct_rows two_rows /\
  (Object2D.scanlist two_rows <> [] ->
   1 <= Object2D.getNumDistinctY two_rows <= Object2D.ymax two_rows - Object2D.ymin two_rows + 1) /\
  Object2D.getNumDistinctX two_rows <= distinct_columns two_rows.
Proof.
  assert (Forall fits_int (Object2D.scanlist two_rows)) as Hfit
    by (repeat constructor; simpl; lia).
  split; [exact built2D_two_rows|]. split; [exact Hfit|].
  apply (distinct_counts_within_extent two_rows built2D_two_rows Hfit).
Defined.

End ObjectOpsProps.

(** ** Channels, sums and enumerations of three-dimensional objects *)

Module ChannelOps.

Import PixelInfo ObjectOps.
Local Open Scope Z_scope.

(** Modelled from the spec: Object2D::getSize is declared in
    Map/object2D.hh; the number of pixels of the object. *)
Definition getSize (c : Object2D.t) : Z := Object2D.numPix c.

(** [Object3D::addScan]; the loop is [for(int x=s.getX(); x<=s.getXmax(); x++)]. *)
Definition addScan (o : Object3D.t) (s : Scan) (z : Z) : Object3D.t :=
  fold_left (fun o' x => Object3D.addPixel o' x (itsY s) z)
    (zrange (to_int (itsX s)) (getXmax s)) o.

(** [Object3D::addChannel]: a channel that is not in the object is
    inserted as it is; one that is present is replaced by its sum with
    [obj]. *)
Definition addChannel (o : Object3D.t) (z : Z) (obj : Object2D.t) : Object3D.t :=
  match Object3D.find_chan z (Object3D.chanlist o) with
  | None =>
      let cl := Object3D.map_insert z obj (Object3D.chanlist o) in
      if Object3D.numVox o =? 0
      then Object3D.mk cl (Object3D.numVox o + getSize obj)
             (Object2D.xSum obj) (Object2D.ySum obj) (z * getSize obj)
             (Object2D.xmin obj) (Object2D.xmax obj)
             (Object2D.ymin obj) (Object2D.ymax obj) z z
      else Object3D.mk cl (Object3D.numVox o + getSize obj)
             (Object3D.xSum o + Object2D.xSum obj)
             (Object3D.ySum o + Object2D.ySum obj)
             (Object3D.zSum o + z * getSize obj)
             (if Object2D.xmin obj <? Object3D.xmin o then Object2D.xmin obj else Object3D.xmin o)
             (if Object3D.xmax o <? Object2D.xmax obj then Object2D.xmax obj else Object3D.xmax o)
             (if Object2D.ymin obj <? Object3D.ymin o then Object2D.ymin obj else Object3D.ymin o)
             (if Object3D.ymax o <? Object2D.ymax obj then Object2D.ymax obj else Object3D.ymax o)
             (if z <? Object3D.zmin o then z else Object3D.zmin o)
             (if Object3D.zmax o <? z then z else Object3D.zmax o)
  | Some c =>
      let c' := plus2D c obj in
      Object3D.mk (Object3D.set_chan z c' (Object3D.chanlist o))
        (Object3D.numVox o - getSize c + getSize c')
        (Object3D.xSum o - Object2D.xSum c + Object2D.xSum c')
        (Object3D.ySum o - Object2D.ySum c + Object2D.ySum c')
        (Object3D.zSum o - z * getSize c + z * getSize c')
        (if Object2D.xmin obj <? Object3D.xmin o then Object2D.xmin obj else Object3D.xmin o)
        (if Object3D.xmax o <? Object2D.xmax obj then Object2D.xmax obj else Object3D.xmax o)
        (if Object2D.ymin obj <? Object3D.ymin o then Object2D.ymin obj else Object3D.ymin o)
        (if Object3D.ymax o <? Object2D.ymax obj then Object2D.ymax obj else Object3D.ymax o)
        (Object3D.zmin o) (Object3D.zmax o)
  end.

(** [operator+ (Object3D lhs, Object3D rhs)]: the channels of [rhs] are
    added to a copy of [lhs]. *)
Definition plus3D (lhs rhs : Object3D.t) : Object3D.t :=
  fold_left (fun o kv => addChannel o (fst kv) (snd kv)) (Object3D.chanlist rhs) lhs.

(** [Object3D::getSpatialMap]: the sum of the channels, from an object
    without pixels. *)
Definition getSpatialMap (o : Object3D.t) : Object2D.t :=
  fold_left (fun spatialMap kv => plus2D spatialMap (snd kv)) (Object3D.chanlist o) Object2D.empty.

(** [Object3D::getSpatialSize]. *)
Definition getSpatialSize (o : Object3D.t) : Z := getSize (getSpatialMap o).

(** [Object3D::getChannelList]. *)
Definition getChannelList (o : Object3D.t) : list Z := map fst (Object3D.chanlist o).

(** [Object3D::getChanMap]. *)
Definition getChanMap (o : Object3D.t) (z : Z) : Object2D.t :=
  match Object3D.find_chan z (Object3D.chanlist o) with
  | None => Object2D.empty
  | Some c => c
  end.

(** The loop of [Object3D::getMaxAdjacentChannels].  [zcurrent] and
    [zprevious] are [int]s that take the [long] channel numbers; their
    difference is written without wrap-around, which is what the code
    computes whenever the difference fits an [int]. *)
Fixpoint adjacent_loop (first : bool) (l : list (Z * Object2D.t))
    (maxnumchan zcurrent zcount : Z) : Z :=
  match l with
  | [] => Z.max maxnumchan zcount
  | kv :: r =>
      if first then adjacent_loop false r maxnumchan (to_int (fst kv)) (zcount + 1)
      else if 1 <? to_int (fst kv) - zcurrent
           then adjacent_loop false r (Z.max maxnumchan zcount) (to_int (fst kv)) 1
           else adjacent_loop false r maxnumchan (to_int (fst kv)) (zcount + 1)
  end.

(** [Object3D::getMaxAdjacentChannels]. *)
Definition getMaxAdjacentChannels (o : Object3D.t) : Z :=
  adjacent_loop true (Object3D.chanlist o) 0 0 0.

(** One channel of the loop of [Object3D::calcParams], after the channel
    itself was recomputed: the box starts at the first channel and is
    widened by the later ones, the sums and the count grow. *)
Definition calc3_step (first : bool) (o : Object3D.t) (kv : Z * Object2D.t) : Object3D.t :=
  let c := snd kv in
  Object3D.mk (Object3D.chanlist o)
    (Object3D.numVox o + getSize c)
    (Object3D.xSum o + Object2D.xSum c)
    (Object3D.ySum o + Object2D.ySum c)
    (Object3D.zSum o + fst kv * getSize c)
    (if first then Object2D.xmin c
     else if Object2D.xmin c <? Object3D.xmin o then Object2D.xmin c else Object3D.xmin o)
    (if first then Object2D.xmax c
     else if Object3D.xmax o <? Object2D.xmax c then Object2D.xmax c else Object3D.xmax o)
    (if first then Object2D.ymin c
     else if Object2D.ymin c <? Object3D.ymin o then Object2D.ymin c else Object3D.ymin o)
    (if first then Object2D.ymax c
     else if Object3D.ymax o <? Object2D.ymax c then Object2D.ymax c else Object3D.ymax o)
    (Object3D.zmin o) (Object3D.zmax o).

Fixpoint calc3_loop (first : bool) (l : list (Z * Object2D.t)) (o : Object3D.t) : Object3D.t :=
  match l with
  | [] => o
  | kv :: r => calc3_loop false r (calc3_step first o kv)
  end.

(** [Object3D::calcParams]: every channel is recomputed by
    [Object2D::calcParams], and the count, the sums and the box are put
    together from the channels.  [zmin] and [zmax] are read from the first
    and the last channel; the code does so without checking that there is
    one, so the definition stands for objects with a channel. *)
Definition calcParams (o : Object3D.t) : Object3D.t :=
  let cl := map (fun kv => (fst kv, ObjectOps.calcParams (snd kv))) (Object3D.chanlist o) in
  calc3_loop true cl
    (Object3D.mk cl 0 0 0 0
       (Object3D.xmin o) (Object3D.xmax o) (Object3D.ymin o) (Object3D.ymax o)
       (Object3D.first_key cl) (Object3D.last_key cl)).

End ChannelOps.

Module ChannelOpsProps.

Import PixelInfo PixelInfoProps ObjectOps ObjectOpsProps ChannelOps.
Local Open Scope Z_scope.

(** *** What holds of every Object3D built by [addPixel] and [addOffsets] *)

(** The channels are in increasing order, as in a [std::map], and each one
    was itself built by [Object2D::addPixel] and [addOffsets]. *)
Definition channels_built (cl : list (Z * Object2D.t)) : Prop :=
  Forall (fun kv => built2D (snd kv)) cl.

Lemma map_insert_built k v m :
  built2D v -> channels_built m -> channels_built (Object3D.map_insert k v m).
Proof.
  intros Hv. induction 1 as [|[k' v'] m Hk Hm IH]; simpl.
  - repeat constructor. exact Hv.
  - destruct (k <? k'); [|destruct (k =? k')].
    + constructor; [exact Hv|]. constructor; assumption.
    + constructor; assumption.
    + constructor; [exact Hk|exact IH].
Qed.

Lemma set_chan_keys z v m : map fst (Object3D.set_chan z v m) = map fst m.
Proof.
  induction m as [|[k v'] m IH]; simpl; [reflexivity|].
  destruct (k =? z); simpl; [reflexivity|]. rewrite IH. reflexivity.
Qed.

Lemma sorted_keys_fst m1 m2 : map fst m1 = map fst m2 -> sorted_keys m1 -> sorted_keys m2.
Proof.
  revert m2. induction m1 as [|[k v] m1 IH]; intros [|[k' v'] m2] E; simpl in *;
    try discriminate; [tauto|].
  injection E as -> E. intros [Hall Hs]. split; [|apply (IH _ E Hs)].
  rewrite List.Forall_forall in *. intros [k2 v2] Hin.
  assert (In k2 (map fst m2)) as H2 by (apply in_map_iff; exists (k2, v2); auto).
  rewrite <- E in H2. apply in_map_iff in H2 as ([k3 v3] & <- & H3). apply (Hall _ H3).
Qed.

Lemma set_chan_sorted z v m : sorted_keys m -> sorted_keys (Object3D.set_chan z v m).
Proof. apply sorted_keys_fst. symmetry. apply set_chan_keys. Qed.

Lemma set_chan_built z v m :
  built2D v -> channels_built m -> channels_built (Object3D.set_chan z v m).
Proof.
  intros Hv. induction 1 as [|[k' v'] m Hk Hm IH]; simpl; [constructor|].
  destruct (k' =? z); constructor; assumption.
Qed.

Lemma find_chan_built z c m : channels_built m -> Object3D.find_chan z m = Some c -> built2D c.
Proof.
  induction 1 as [|[k v] m Hk Hm IH]; simpl; [discriminate|].
  destruct (k =? z); [intros [= <-]; exact Hk|exact IH].
Qed.

Lemma fold_insert_built xoff yoff zoff l acc :
  channels_built l -> channels_built acc ->
  channels_built (fold_left (fun nm kv => Object3D.map_insert (fst kv + zoff)
                               (Object2D.addOffsets (snd kv) xoff yoff) nm) l acc).
Proof.
  intros Hl. revert acc. induction Hl as [|[k v] l Hk Hl IH]; simpl; intros acc Hacc;
    [exact Hacc|].
  apply IH, map_insert_built; [apply built2D_addOffsets, Hk|exact Hacc].
Qed.

Definition Good3 (o : Object3D.t) : Prop :=
  Inv3 o /\ sorted_keys (Object3D.chanlist o) /\ channels_built (Object3D.chanlist o).

Lemma built3D_Good3 o : built3D o -> Good3 o.
Proof.
  intros Hb. split; [apply built3D_Inv3, Hb|].
  induction Hb as [|o x y z Hz Hb [IHs IHb]|o xoff yoff zoff Hb [IHs IHb]].
  - split; [exact I|constructor].
  - unfold Object3D.addPixel.
    destruct (Object3D.find_chan z (Object3D.chanlist o)) as [c|] eqn:Ef.
    + simpl. split; [apply set_chan_sorted, IHs|].
      apply set_chan_built; [|exact IHb].
      apply built2D_addPixel, (find_chan_built z c _ IHb Ef).
    + assert (built2D (Object2D.addPixel Object2D.empty x y)) as Hnew
        by (apply built2D_addPixel, built2D_empty).
      destruct (Object3D.numVox o =? 0); simpl;
        (split; [apply map_insert_sorted, IHs|apply map_insert_built; assumption]).
  - unfold Object3D.addOffsets.
    destruct (0 <? Object3D.numVox o); simpl;
      (split; [apply fold_insert_sorted; exact I|apply fold_insert_built; [exact IHb|constructor]]).
Qed.

(** *** Translations compose *)

Lemma addOffsets2D_compose o a b a' b' :
  Object2D.addOffsets (Object2D.addOffsets o a b) a' b' = Object2D.addOffsets o (a + a') (b + b').
Proof.
  unfold Object2D.addOffsets. simpl. f_equal; try lia.
  rewrite map_map. apply map_ext. intros s. unfold Scan_addOffsets. simpl. f_equal; lia.
Qed.

Lemma addOffsets2D_zero o : Object2D.addOffsets o 0 0 = o.
Proof.
  destruct o as [l n xs ys x0 x1 y0 y1]. unfold Object2D.addOffsets. simpl. f_equal; try lia.
  rewrite <- (map_id l) at 2. apply map_ext. intros [y x len].
  unfold Scan_addOffsets. simpl. f_equal; lia.
Qed.

Lemma sorted_keys_app m1 m2 :
  sorted_keys (m1 ++ m2) <->
  sorted_keys m1 /\ sorted_keys m2 /\
  Forall (fun kv => Forall (fun kv' => fst kv < fst kv') m2) m1.
Proof.
  induction m1 as [|kv m1 IH]; simpl.
  - split; [intros H; repeat split; [exact H|constructor]|tauto].
  - rewrite IH, Forall_app, Forall_cons. tauto.
Qed.

(** Inserting a key above all the others puts it at the end. *)
Lemma map_insert_last k v m :
  Forall (fun kv => fst kv < k) m -> Object3D.map_insert k v m = m ++ [(k, v)].
Proof.
  induction 1 as [|[k' v'] m Hk Hm IH]; simpl; [reflexivity|]. simpl in Hk.
  destruct (Z.ltb_spec k k'); [lia|]. destruct (Z.eqb_spec k k'); [lia|].
  rewrite IH. reflexivity.
Qed.

Lemma fold_insert_sorted_eq xoff yoff zoff l acc :
  sorted_keys (acc ++ map (shift_chan xoff yoff zoff) l) ->
  fold_left (fun nm kv => Object3D.map_insert (fst kv + zoff)
                            (Object2D.addOffsets (snd kv) xoff yoff) nm) l acc
  = acc ++ map (shift_chan xoff yoff zoff) l.
Proof.
  revert acc. induction l as [|[k v] l IH]; simpl; intros acc Hs; [rewrite app_nil_r; reflexivity|].
  rewrite map_insert_last.
  - rewrite IH; rewrite <- app_assoc; [reflexivity|exact Hs].
  - apply sorted_keys_app in Hs as (_ & _ & Hall).
    eapply Forall_impl; [exact Hall|]. intros kv Hkv.
    apply Forall_cons in Hkv as [Hkv _]. exact Hkv.
Qed.

Lemma sorted_keys_shift xoff yoff zoff l :
  sorted_keys l -> sorted_keys (map (shift_chan xoff yoff zoff) l).
Proof.
  induction l as [|[k v] l IH]; simpl; [tauto|]. intros [Hall Hs]. split; [|apply IH, Hs].
  apply Forall_fmap. eapply Forall_impl; [exact Hall|]. intros [k' v']. simpl. lia.
Qed.

(** On channels in increasing order the new map of [addOffsets] is the old
    one with every channel shifted. *)
Lemma addOffsets_sorted o xoff yoff zoff :
  sorted_keys (Object3D.chanlist o) ->
  Object3D.addOffsets o xoff yoff zoff
  = let newmap := map (shift_chan xoff yoff zoff) (Object3D.chanlist o) in
    if 0 <? Object3D.numVox o
    then Object3D.mk newmap (Object3D.numVox o)
           (Object3D.xSum o + xoff * Object3D.numVox o)
           (Object3D.ySum o + yoff * Object3D.numVox o)
           (Object3D.zSum o + zoff * Object3D.numVox o)
           (Object3D.xmin o + xoff) (Object3D.xmax o + xoff)
           (Object3D.ymin o + yoff) (Object3D.ymax o + yoff)
           (Object3D.zmin o + zoff) (Object3D.zmax o + zoff)
    else Object3D.mk newmap (Object3D.numVox o) (Object3D.xSum o) (Object3D.ySum o)
           (Object3D.zSum o) (Object3D.xmin o) (Object3D.xmax o) (Object3D.ymin o)
           (Object3D.ymax o) (Object3D.zmin o) (Object3D.zmax o).
Proof.
  intros Hs. unfold Object3D.addOffsets.
  rewrite (fold_insert_sorted_eq xoff yoff zoff (Object3D.chanlist o) [])
    by (apply sorted_keys_shift, Hs).
  reflexivity.
Qed.

Lemma shift_chan_compose a b c a' b' c' l :
  map (shift_chan a' b' c') (map (shift_chan a b c) l)
  = map (shift_chan (a + a') (b + b') (c + c')) l.
Proof.
  rewrite map_map. apply map_ext. intros [k v]. unfold shift_chan. simpl.
  rewrite addOffsets2D_compose. f_equal. lia.
Qed.

Lemma shift_chan_zero l : map (shift_chan 0 0 0) l = l.
Proof.
  rewrite <- (map_id l) at 2. apply map_ext. intros [k v].
  unfold shift_chan. simpl. rewrite addOffsets2D_zero. f_equal. lia.
Qed.

Lemma addOffsets3D_compose o a b c a' b' c' :
  sorted_keys (Object3D.chanlist o) ->
  Object3D.addOffsets (Object3D.addOffsets o a b c) a' b' c'
  = Object3D.addOffsets o (a + a') (b + b') (c + c').
Proof.
  intros Hs.
  rewrite (addOffsets_sorted o a b c Hs), (addOffsets_sorted o (a + a') (b + b') (c + c') Hs).
  cbv zeta. destruct (0 <? Object3D.numVox o) eqn:E0.
  - rewrite addOffsets_sorted by (apply sorted_keys_shift, Hs).
    cbn [Object3D.chanlist Object3D.numVox Object3D.xSum Object3D.ySum Object3D.zSum
         Object3D.xmin Object3D.xmax Object3D.ymin Object3D.ymax Object3D.zmin Object3D.zmax].
    rewrite E0, shift_chan_compose. f_equal; ring.
  - rewrite addOffsets_sorted by (apply sorted_keys_shift, Hs).
    cbn [Object3D.chanlist Object3D.numVox Object3D.xSum Object3D.ySum Object3D.zSum
         Object3D.xmin Object3D.xmax Object3D.ymin Object3D.ymax Object3D.zmin Object3D.zmax].
    rewrite E0, shift_chan_compose. reflexivity.
Qed.

Lemma addOffsets3D_zero o :
  sorted_keys (Object3D.chanlist o) -> Object3D.addOffsets o 0 0 0 = o.
Proof.
  intros Hs. rewrite (addOffsets_sorted o 0 0 0 Hs). cbv zeta. rewrite shift_chan_zero.
  destruct o; simpl. destruct (0 <? _); f_equal; ring.
Qed.

(** X13.  Translations compose and can be undone: two calls of
    [addOffsets] in a row give the object one call with the summed offsets
    gives, and a translation followed by the opposite one gives the object
    back, cached sums and box included.  This holds for every Object2D,
    and for every Object3D built by [addPixel] and [addOffsets], whose
    channel map is rebuilt by each call. *)
Theorem addOffsets_compose_and_undo (o2 : Object2D.t) (o3 : Object3D.t)
    (a b c a' b' c' : Z) :
  built3D o3 ->
  Object2D.addOffsets (Object2D.addOffsets o2 a b) a' b'
  = Object2D.addOffsets o2 (a + a') (b + b') /\
  Object2D.addOffsets (Object2D.addOffsets o2 a b) (- a) (- b) = o2 /\
  Object3D.addOffsets (Object3D.addOffsets o3 a b c) a' b' c'
  = Object3D.addOffsets o3 (a + a') (b + b') (c + c') /\
  Object3D.addOffsets (Object3D.addOffsets o3 a b c) (- a) (- b) (- c) = o3.
Proof.
  intros Hb. destruct (built3D_Good3 o3 Hb) as (_ & Hs & _).
  split; [apply addOffsets2D_compose|]. split; [|split].
  - rewrite addOffsets2D_compose, !Z.add_opp_diag_r. apply addOffsets2D_zero.
  - apply addOffsets3D_compose, Hs.
  - rewrite addOffsets3D_compose by exact Hs. rewrite !Z.add_opp_diag_r.
    apply addOffsets3D_zero, Hs.
Qed.

(** Three voxels in two channels, the higher channel first. *)
Definition three_voxels : Object3D.t :=
  Object3D.addPixel (Object3D.addPixel (Object3D.addPixel Object3D.empty 4 7 9) 5 7 2) 3 8 9.

Lemma built3D_three_voxels : built3D three_voxels.
Proof.
  unfold three_voxels.
  repeat (apply built3D_addPixel; [unfold int_range; lia|]). apply built3D_empty.
Qed.

Lemma addOffsets_compose_and_undo_witness :
  built3D three_voxels /\
  Object2D.addOffsets (Object2D.addOffsets two_rows 3 (-4)) 10 20
  = Object2D.addOffsets two_rows (3 + 10) (-4 + 20) /\
  Object2D.addOffsets (Object2D.addOffsets two_rows 3 (-4)) (- 3) (- -4) = two_rows /\
  Object3D.addOffsets (Object3D.addOffsets three_voxels 3 (-4) 5) 10 20 (-30)
  = Object3D.addOffsets three_voxels (3 + 10) (-4 + 20) (5 + -30) /\
  Object3D.addOffsets (Object3D.addOffsets three_voxels 3 (-4) 5) (- 3) (- -4) (- 5)
  = three_voxels.
Proof.
  split; [exact built3D_three_voxels|].
  apply (addOffsets_compose_and_undo two_rows three_voxels 3 (-4) 5 10 20 (-30)
           built3D_three_voxels).
Defined.

(** *** The voxels after [Object3D::addPixel] *)

Definition here3 (x y z x' y' z' : Z) : bool := (x' =? x) && (y' =? y) && (z' =? z).

Lemma find_chan_set_chan z' z v m :
  Object3D.find_chan z' (Object3D.set_chan z v m)
  = if z' =? z then match Object3D.find_chan z m with Some _ => Some v | None => None end
    else Object3D.find_chan z' m.
Proof.
  induction m as [|[k w] m IH]; simpl; [destruct (z' =? z); reflexivity|].
  destruct (Z.eqb_spec k z) as [->|Hk]; simpl.
  - rewrite (Z.eqb_sym z z'). destruct (Z.eqb_spec z' z); reflexivity.
  - rewrite IH. destruct (Z.eqb_spec z' z) as [->|Hz].
    + destruct (Z.eqb_spec k z); [contradiction|reflexivity].
    + reflexivity.
Qed.

(** The count of [Object2D::addPixel]. *)
Lemma addPixel_count o x y :
  Inv2 o ->
  Object2D.numPix (Object2D.addPixel o x y)
  = Object2D.numPix o + (if Object2D.isInObject o x y then 0 else 1).
Proof.
  intros Hi. destruct (Object2D.isInObject o x y) eqn:E.
  - rewrite (addPixel_contained o x y Hi E). lia.
  - destruct (addPixel_new o x y Hi E) as [l' ->]. destruct Hi as (Hwf & _ & Hn).
    rewrite (proj2 (addPixel_params_numPix o l' x y
                      ltac:(rewrite Hn; apply total_len_nonneg, Hwf))). reflexivity.
Qed.

Lemma find_chan_ok P z c m :
  Forall (chan_ok P) m -> Object3D.find_chan z m = Some c -> chan_ok P (z, c).
Proof.
  induction 1 as [|[k v] m Hk Hm IH]; simpl; [discriminate|].
  destruct (Z.eqb_spec k z) as [->|]; [intros [= <-]; exact Hk|exact IH].
Qed.

Lemma chanlist_addPixel_new o x y z :
  Object3D.find_chan z (Object3D.chanlist o) = None ->
  Object3D.chanlist (Object3D.addPixel o x y z)
  = Object3D.map_insert (to_int z) (Object2D.addPixel Object2D.empty x y) (Object3D.chanlist o)
  /\ Object3D.numVox (Object3D.addPixel o x y z) = Object3D.numVox o + 1.
Proof.
  intros Ef. unfold Object3D.addPixel. rewrite Ef.
  destruct (Z.eqb_spec (Object3D.numVox o) 0) as [E|E]; simpl; [rewrite E|]; auto.
Qed.

Lemma addPixel3D_holds o x y z x' y' z' :
  Good3 o -> int_range z ->
  Object3D.isInObject (Object3D.addPixel o x y z) x' y' z'
  = Object3D.isInObject o x' y' z' || here3 x y z x' y' z'.
Proof.
  intros ((_ & Hall & _) & Hs & _) Hz. unfold Object3D.isInObject at 1 2.
  destruct (Object3D.find_chan z (Object3D.chanlist o)) as [c|] eqn:Ef.
  - unfold Object3D.addPixel. rewrite Ef. cbn [Object3D.chanlist].
    rewrite find_chan_set_chan, Ef. unfold here3.
    destruct (Z.eqb_spec z' z) as [->|Hne].
    + rewrite Ef, andb_true_r.
      destruct (find_chan_ok _ _ _ _ Hall Ef) as ((Hwf & _) & _). simpl in Hwf.
      apply addPixel_holds, Hwf.
    + rewrite andb_false_r, orb_false_r. reflexivity.
  - rewrite (proj1 (chanlist_addPixel_new o x y z Ef)), (to_int_id z Hz).
    rewrite find_chan_map_insert by exact Hs. rewrite Ef. unfold here3.
    destruct (Z.eqb_spec z' z) as [->|Hne].
    + rewrite Ef, andb_true_r. rewrite addPixel_empty, isInObject_existsb.
      cbn [Object2D.scanlist existsb]. rewrite orb_false_r, isInScan_pixel. reflexivity.
    + rewrite andb_false_r, orb_false_r. reflexivity.
Qed.

Lemma addPixel3D_count o x y z :
  Good3 o ->
  Object3D.numVox (Object3D.addPixel o x y z)
  = Object3D.numVox o + (if Object3D.isInObject o x y z then 0 else 1).
Proof.
  intros ((_ & Hall & _) & _ & _). unfold Object3D.isInObject.
  destruct (Object3D.find_chan z (Object3D.chanlist o)) as [c|] eqn:Ef.
  - unfold Object3D.addPixel. rewrite Ef. cbn [Object3D.numVox].
    destruct (find_chan_ok _ _ _ _ Hall Ef) as (Hi & _). simpl in Hi.
    rewrite (addPixel_count c x y Hi). lia.
  - apply (chanlist_addPixel_new o x y z Ef).
Qed.

(** X14.  Adding a voxel (in a channel an [int] holds) to an Object3D
    built by [addPixel] and [addOffsets] gives an object that holds exactly
    the voxels it held plus the new one; numVox goes up by one when the
    voxel was not held and stays the same when it was. *)
Theorem addPixel3D_adds_exactly_one_voxel (o : Object3D.t) (x y z : Z) :
  built3D o -> int_range z ->
  (forall x' y' z', Object3D.isInObject (Object3D.addPixel o x y z) x' y' z'
                    = Object3D.isInObject o x' y' z' || here3 x y z x' y' z') /\
  Object3D.numVox (Object3D.addPixel o x y z)
  = Object3D.numVox o + (if Object3D.isInObject o x y z then 0 else 1).
Proof.
  intros Hb Hz. apply built3D_Good3 in Hb. split.
  - intros x' y' z'. apply addPixel3D_holds; assumption.
  - apply addPixel3D_count, Hb.
Qed.

Lemma addPixel3D_adds_exactly_one_voxel_witness :
  built3D three_voxels /\ int_range 2 /\
  (forall x' y' z', Object3D.isInObject (Object3D.addPixel three_voxels 6 7 2) x' y' z'
                    = Object3D.isInObject three_voxels x' y' z' || here3 6 7 2 x' y' z') /\
  Object3D.numVox (Object3D.addPixel three_voxels 6 7 2)
  = Object3D.numVox three_voxels + (if Object3D.isInObject three_voxels 6 7 2 then 0 else 1).
Proof.
  assert (int_range 2) as Hz by (unfold int_range; lia).
  split; [exact built3D_three_voxels|]. split; [exact Hz|].
  apply (addPixel3D_adds_exactly_one_voxel three_voxels 6 7 2 built3D_three_voxels Hz).
Defined.

(** *** [getPixelSet], [getChannelList] and [getChanMap] *)

Lemma find_chan_elem z c m :
  NoDup (map fst m) -> (z, c) ∈ m <-> Object3D.find_chan z m = Some c.
Proof.
  induction m as [|[k v] m IH]; simpl; intros Hnd.
  - rewrite elem_of_nil. split; [tauto|discriminate].
  - apply NoDup_cons in Hnd as [Hk Hnd]. rewrite elem_of_cons, (IH Hnd).
    destruct (Z.eqb_spec k z) as [->|Hne].
    + split.
      * intros [[= ->]|H]; [reflexivity|].
        exfalso. apply Hk. apply (proj2 (IH Hnd)) in H.
        apply list_elem_of_fmap. exists (z, c). split; [reflexivity|exact H].
      * intros [= ->]. left. reflexivity.
    + split; [intros [[= -> ->]|H]; [contradiction|exact H]|intros H; right; exact H].
Qed.

Lemma elem_of_voxels o x y z :
  Inv3 o -> (x, y, z) ∈ Object3D.voxels o <-> Object3D.isInObject o x y z = true.
Proof.
  intros (Hnd & _ & _). unfold Object3D.voxels, Object3D.isInObject.
  rewrite list_elem_of_In, in_flat_map. split.
  - intros ([k c] & Hin & Hp). apply list_elem_of_In, list_elem_of_fmap in Hp
      as ([x0 y0] & E & Hp). simpl in E. injection E as -> -> ->.
    apply list_elem_of_In, (find_chan_elem _ _ _ Hnd) in Hin. rewrite Hin.
    apply isInObject_elem, Hp.
  - destruct (Object3D.find_chan z (Object3D.chanlist o)) as [c|] eqn:Ef; [|discriminate].
    intros Hin. exists (z, c). split.
    + apply list_elem_of_In, (find_chan_elem _ _ _ Hnd), Ef.
    + apply list_elem_of_In, list_elem_of_fmap. exists (x, y). split; [reflexivity|].
      apply isInObject_elem, Hin.
Qed.

Lemma sorted_keys_strongly m : sorted_keys m -> StronglySorted Z.lt (map fst m).
Proof.
  induction m as [|[k v] m IH]; simpl; [constructor|]. intros [Hall Hs].
  constructor; [apply IH, Hs|]. apply List.Forall_forall. intros k' Hk'.
  apply in_map_iff in Hk' as ([k2 v2] & <- & H2).
  rewrite List.Forall_forall in Hall. apply (Hall _ H2).
Qed.

(** A channel of the object holds a pixel. *)
Lemma channel_inhabited P z c :
  chan_ok P (z, c) -> exists x y, Object2D.isInObject c x y = true.
Proof.
  intros ((Hwf & _ & Hn) & H1 & _). simpl in *.
  destruct (pixels (Object2D.scanlist c)) as [|[x y] ps] eqn:Ep.
  - apply pixels_nil_iff in Ep; [|exact Hwf]. rewrite Hn, Ep in H1. simpl in H1. lia.
  - exists x, y. apply isInObject_elem. rewrite Ep. left.
Qed.

(** X15.  On an Object3D built by [addPixel] and [addOffsets],
    [getPixelSet] lists exactly the voxels [isInObject] accepts,
    [getChannelList] lists in increasing order exactly the channels in
    which the object has a voxel, and [getChanMap] of a channel holds
    exactly the pixels the object holds in that channel (none for a
    channel that is not in the object). *)
Theorem enumerations_agree_with_isInObject (o : Object3D.t) :
  built3D o ->
  (forall x y z, (x, y, z) ∈ Object3D.voxels o <-> Object3D.isInObject o x y z = true) /\
  StronglySorted Z.lt (getChannelList o) /\
  (forall z, z ∈ getChannelList o <-> exists x y, Object3D.isInObject o x y z = true) /\
  (forall x y z, Object2D.isInObject (getChanMap o z) x y = Object3D.isInObject o x y z).
Proof.
  intros Hb. destruct (built3D_Good3 o Hb) as (Hi & Hs & _).
  split; [intros; apply elem_of_voxels, Hi|].
  split; [apply sorted_keys_strongly, Hs|]. split.
  - intros z. unfold getChannelList, Object3D.isInObject. destruct Hi as (Hnd & Hall & _).
    rewrite list_elem_of_fmap. split.
    + intros ([k c] & -> & Hin). simpl.
      apply (find_chan_elem _ _ _ Hnd) in Hin. rewrite Hin.
      apply (channel_inhabited (inbox o) k c), (find_chan_ok _ _ _ _ Hall Hin).
    + intros (x & y & H).
      destruct (Object3D.find_chan z (Object3D.chanlist o)) as [c|] eqn:Ef; [|discriminate].
      exists (z, c). split; [reflexivity|]. apply (find_chan_elem _ _ _ Hnd), Ef.
  - intros x y z. unfold getChanMap, Object3D.isInObject.
    destruct (Object3D.find_chan z (Object3D.chanlist o)); reflexivity.
Qed.

Lemma enumerations_agree_with_isInObject_witness :
  built3D three_voxels /\
  (forall x y z, (x, y, z) ∈ Object3D.voxels three_voxels
                 <-> Object3D.isInObject three_voxels x y z = true) /\
  StronglySorted Z.lt (getChannelList three_voxels) /\
  (forall z, z ∈ getChannelList three_voxels
             <-> exists x y, Object3D.isInObject three_voxels x y z = true) /\
  (forall x y z, Object2D.isInObject (getChanMap three_voxels z) x y
                 = Object3D.isInObject three_voxels x y z).
Proof.
  split; [exact built3D_three_voxels|].
  apply (enumerations_agree_with_isInObject three_voxels built3D_three_voxels).
Defined.

Example three_voxels_enumerated :
  Object3D.voxels three_voxels = [(5, 7, 2); (4, 7, 9); (3, 8, 9)]
  /\ getChannelList three_voxels = [2; 9].
Proof. split; reflexivity. Qed.

(** *** The cached sums and bounding box of an Object3D *)

(** The coordinates of the voxels, voxel by voxel. *)
Definition xs3 (o : Object3D.t) : list Z := map (fun v => fst (fst v)) (Object3D.voxels o).

Definition ys3 (o : Object3D.t) : list Z := map (fun v => snd (fst v)) (Object3D.voxels o).

Definition zs3 (o : Object3D.t) : list Z := map snd (Object3D.voxels o).

Definition Sums3 (o : Object3D.t) : Prop :=
  Object3D.xSum o = sumZ (xs3 o) /\ Object3D.ySum o = sumZ (ys3 o) /\
  Object3D.zSum o = sumZ (zs3 o).

Definition Box3 (o : Object3D.t) : Prop :=
  Object3D.voxels o <> [] ->
  least (Object3D.xmin o) (xs3 o) /\ greatest (Object3D.xmax o) (xs3 o) /\
  least (Object3D.ymin o) (ys3 o) /\ greatest (Object3D.ymax o) (ys3 o) /\
  least (Object3D.zmin o) (zs3 o) /\ greatest (Object3D.zmax o) (zs3 o).

Lemma least_more m l v : least m l -> v ∈ l -> least m (v :: l).
Proof.
  intros [Hin Hle] Hv. split; [right; exact Hin|].
  intros w Hw. apply elem_of_cons in Hw as [->|Hw]; apply Hle; assumption.
Qed.

Lemma greatest_more m l v : greatest m l -> v ∈ l -> greatest m (v :: l).
Proof.
  intros [Hin Hle] Hv. split; [right; exact Hin|].
  intros w Hw. apply elem_of_cons in Hw as [->|Hw]; apply Hle; assumption.
Qed.

Lemma least_same m l1 l2 : (forall v, v ∈ l1 <-> v ∈ l2) -> least m l1 -> least m l2.
Proof.
  intros H [Hin Hle]. split; [apply H, Hin|]. intros v Hv. apply Hle, H, Hv.
Qed.

Lemma greatest_same m l1 l2 : (forall v, v ∈ l1 <-> v ∈ l2) -> greatest m l1 -> greatest m l2.
Proof.
  intros H [Hin Hle]. split; [apply H, Hin|]. intros v Hv. apply Hle, H, Hv.
Qed.

(** The channels of the voxels are the keys of the channel map. *)
Lemma zs3_keys o z :
  Inv3 o -> z ∈ zs3 o <-> z ∈ map fst (Object3D.chanlist o).
Proof.
  intros Hi. pose proof Hi as (Hnd & Hall & _). unfold zs3.
  rewrite !list_elem_of_fmap. split.
  - intros ([[x y] z'] & -> & Hv). simpl.
    apply (elem_of_voxels o x y z' Hi) in Hv. unfold Object3D.isInObject in Hv.
    destruct (Object3D.find_chan z' (Object3D.chanlist o)) as [c|] eqn:Ef; [|discriminate].
    exists (z', c). split; [reflexivity|]. apply (find_chan_elem _ _ _ Hnd), Ef.
  - intros ([k c] & -> & Hin). simpl.
    apply (find_chan_elem _ _ _ Hnd) in Hin.
    destruct (channel_inhabited (inbox o) k c (find_chan_ok _ _ _ _ Hall Hin)) as (x & y & Hxy).
    exists (x, y, k). split; [reflexivity|].
    apply (elem_of_voxels o x y k Hi). unfold Object3D.isInObject. rewrite Hin. exact Hxy.
Qed.

Lemma first_key_least m :
  sorted_keys m -> m <> [] -> least (Object3D.first_key m) (map fst m).
Proof.
  destruct m as [|[k v] m]; [intros _ H; destruct H; reflexivity|].
  intros [Hall _] _. simpl. split; [left|].
  intros w Hw. apply elem_of_cons in Hw as [->|Hw]; [lia|].
  apply list_elem_of_fmap in Hw as ([k' v'] & -> & Hin).
  rewrite List.Forall_forall in Hall. specialize (Hall _ (proj1 (list_elem_of_In _ _) Hin)).
  simpl in *. lia.
Qed.

Lemma last_key_greatest m :
  sorted_keys m -> m <> [] -> greatest (Object3D.last_key m) (map fst m).
Proof.
  destruct m as [|[k v] m _] using rev_ind; [intros _ H; destruct H; reflexivity|].
  intros Hs _. unfold Object3D.last_key. rewrite rev_app_distr. simpl.
  apply sorted_keys_app in Hs as (_ & _ & Hall). rewrite map_app. simpl. split.
  - apply elem_of_app. right. left.
  - intros w Hw. apply elem_of_app in Hw as [Hw|Hw].
    + apply list_elem_of_fmap in Hw as ([k' v'] & -> & Hin).
      rewrite List.Forall_forall in Hall. specialize (Hall _ (proj1 (list_elem_of_In _ _) Hin)).
      apply Forall_cons in Hall as [Hall _]. simpl in *. lia.
    + apply list_elem_of_singleton in Hw. lia.
Qed.

Lemma voxels_nil_iff o : Inv3 o -> Object3D.voxels o = [] <-> Object3D.numVox o = 0.
Proof.
  intros Hi. rewrite (length_voxels o Hi). split; [intros ->; reflexivity|].
  destruct (Object3D.voxels o); [reflexivity|simpl; lia].
Qed.

(** The voxels after a new voxel was added, up to their order. *)
Lemma addPixel3D_voxels o x y z :
  Good3 o -> int_range z -> Object3D.isInObject o x y z = false ->
  Object3D.voxels (Object3D.addPixel o x y z) ≡ₚ (x, y, z) :: Object3D.voxels o.
Proof.
  intros Hg Hz E. pose proof Hg as (Hi & _ & _).
  pose proof (addPixel_Inv3 o x y z Hz Hi) as Hi'.
  apply NoDup_Permutation.
  - apply NoDup_voxels, Hi'.
  - constructor; [|apply NoDup_voxels, Hi].
    intros Hin. apply (elem_of_voxels o x y z Hi) in Hin. congruence.
  - intros [[x' y'] z']. rewrite elem_of_cons, !elem_of_voxels by assumption.
    rewrite addPixel3D_holds by assumption. unfold here3.
    rewrite orb_true_iff, !andb_true_iff, !Z.eqb_eq. split.
    + intros [H|[[-> ->] ->]]; [right; exact H|left; reflexivity].
    + intros [[= -> -> ->]|H]; [right; repeat split; reflexivity|left; exact H].
Qed.

(** The sums of a channel after a new pixel was added to it. *)
Lemma addPixel_new_sums c x y :
  Inv2 c -> 1 <= Object2D.numPix c -> Object2D.isInObject c x y = false ->
  Object2D.xSum (Object2D.addPixel c x y) = Object2D.xSum c + x /\
  Object2D.ySum (Object2D.addPixel c x y) = Object2D.ySum c + y /\
  Object2D.numPix (Object2D.addPixel c x y) = Object2D.numPix c + 1.
Proof.
  intros Hi H1 E. destruct (addPixel_new c x y Hi E) as [l' ->].
  unfold Object2D.addPixel_params.
  destruct (Z.eqb_spec (Object2D.numPix c) 0); [lia|]. simpl. auto.
Qed.

Definition Cache3 (o : Object3D.t) : Prop := Sums3 o /\ Box3 o.

Lemma addPixel3D_Cache3 o x y z :
  Good3 o -> int_range z -> Cache3 o -> Cache3 (Object3D.addPixel o x y z).
Proof.
  intros Hg Hz [(Sx & Sy & Sz) Hbox].
  destruct (Object3D.isInObject o x y z) eqn:E.
  { rewrite (addPixel3D_contained o x y z (proj1 Hg) E). split; [repeat split|]; assumption. }
  pose proof (addPixel3D_voxels o x y z Hg Hz E) as Hp.
  assert (xs3 (Object3D.addPixel o x y z) ≡ₚ x :: xs3 o) as Hx
    by (unfold xs3; rewrite Hp; reflexivity).
  assert (ys3 (Object3D.addPixel o x y z) ≡ₚ y :: ys3 o) as Hy
    by (unfold ys3; rewrite Hp; reflexivity).
  assert (zs3 (Object3D.addPixel o x y z) ≡ₚ z :: zs3 o) as Hzs
    by (unfold zs3; rewrite Hp; reflexivity).
  pose proof Hg as (Hi & Hs & Hcb).
  pose proof (addPixel_Inv3 o x y z Hz Hi) as Hi'.
  assert (Good3 (Object3D.addPixel o x y z)) as Hg'.
  { split; [exact Hi'|]. unfold Object3D.addPixel.
    destruct (Object3D.find_chan z (Object3D.chanlist o)) as [c|] eqn:Ef.
    - simpl. split; [apply set_chan_sorted, Hs|].
      apply set_chan_built; [|exact Hcb].
      apply built2D_addPixel, (find_chan_built z c _ Hcb Ef).
    - assert (built2D (Object2D.addPixel Object2D.empty x y)) as Hnew
        by (apply built2D_addPixel, built2D_empty).
      destruct (Object3D.numVox o =? 0); simpl;
        (split; [apply map_insert_sorted, Hs|apply map_insert_built; assumption]). }
  assert (Object3D.voxels (Object3D.addPixel o x y z) <> []) as Hne'.
  { intros Hnil. rewrite Hnil in Hp. apply Permutation_nil_cons in Hp. exact Hp. }
  assert (Object3D.chanlist (Object3D.addPixel o x y z) <> []) as Hcl'.
  { intros Hnil. apply Hne'. unfold Object3D.voxels. rewrite Hnil. reflexivity. }
  pose proof (least_same _ _ _ (fun v => iff_sym (zs3_keys _ v Hi'))
                (first_key_least _ (proj1 (proj2 Hg')) Hcl')) as Lz.
  pose proof (greatest_same _ _ _ (fun v => iff_sym (zs3_keys _ v Hi'))
                (last_key_greatest _ (proj1 (proj2 Hg')) Hcl')) as Gz.
  revert Hx Hy Hzs Lz Gz. unfold Cache3, Sums3, Box3.
  generalize (xs3 (Object3D.addPixel o x y z)) (ys3 (Object3D.addPixel o x y z))
             (zs3 (Object3D.addPixel o x y z)).
  intros lx ly lz Hx Hy Hzs.
  rewrite (sumZ_perm _ _ Hx), (sumZ_perm _ _ Hy), (sumZ_perm _ _ Hzs). simpl sumZ.
  unfold Object3D.isInObject in E. unfold Object3D.addPixel.
  destruct (Object3D.find_chan z (Object3D.chanlist o)) as [c|] eqn:Ef.
  - intros _ _.
    destruct (find_chan_ok _ _ _ _ (proj1 (proj2 Hi)) Ef) as (Hic & H1 & _). simpl in Hic, H1.
    destruct (addPixel_new_sums c x y Hic H1 E) as (Ex & Ey & En).
    assert (Object3D.voxels o <> []) as Hne.
    { intros Hnil. assert (z ∈ zs3 o) as Hin.
      { apply (zs3_keys o z Hi). apply list_elem_of_fmap. exists (z, c).
        split; [reflexivity|]. apply (find_chan_elem _ _ _ (proj1 Hi)), Ef. }
      unfold zs3 in Hin. rewrite Hnil in Hin. apply elem_of_nil in Hin. exact Hin. }
    destruct (Hbox Hne) as (B1 & B2 & B3 & B4 & B5 & B6).
    assert (z ∈ zs3 o) as Hzin.
    { apply (zs3_keys o z Hi). apply list_elem_of_fmap. exists (z, c).
      split; [reflexivity|]. apply (find_chan_elem _ _ _ (proj1 Hi)), Ef. }
    cbn [Object3D.xSum Object3D.ySum Object3D.zSum Object3D.xmin Object3D.xmax
         Object3D.ymin Object3D.ymax Object3D.zmin Object3D.zmax].
    split; [split; [|split]|intros _; split; [|split; [|split; [|split; [|split]]]]].
    + rewrite Ex. lia.
    + rewrite Ey. lia.
    + rewrite En. lia.
    + apply (least_perm _ _ _ (symmetry Hx)), least_cons, B1.
    + apply (greatest_perm _ _ _ (symmetry Hx)), greatest_cons, B2.
    + apply (least_perm _ _ _ (symmetry Hy)), least_cons, B3.
    + apply (greatest_perm _ _ _ (symmetry Hy)), greatest_cons, B4.
    + apply (least_perm _ _ _ (symmetry Hzs)), least_more; assumption.
    + apply (greatest_perm _ _ _ (symmetry Hzs)), greatest_more; assumption.
  - destruct (Z.eqb_spec (Object3D.numVox o) 0) as [E0|E0].
    + intros _ _. apply (voxels_nil_iff o Hi) in E0.
      unfold xs3, ys3, zs3 in *. rewrite E0 in *. simpl in *.
      cbn [Object3D.xSum Object3D.ySum Object3D.zSum Object3D.xmin Object3D.xmax
           Object3D.ymin Object3D.ymax Object3D.zmin Object3D.zmax].
      split; [repeat split; lia|intros _; split; [|split; [|split; [|split; [|split]]]]].
      * apply (least_perm _ _ _ (symmetry Hx)), least_one.
      * apply (greatest_perm _ _ _ (symmetry Hx)), greatest_one.
      * apply (least_perm _ _ _ (symmetry Hy)), least_one.
      * apply (greatest_perm _ _ _ (symmetry Hy)), greatest_one.
      * apply (least_perm _ _ _ (symmetry Hzs)), least_one.
      * apply (greatest_perm _ _ _ (symmetry Hzs)), greatest_one.
    + assert (Object3D.voxels o <> []) as Hne
        by (intros Hnil; apply E0, (voxels_nil_iff o Hi), Hnil).
      destruct (Hbox Hne) as (B1 & B2 & B3 & B4 & B5 & B6).
      cbn [Object3D.chanlist Object3D.xSum Object3D.ySum Object3D.zSum Object3D.xmin
           Object3D.xmax Object3D.ymin Object3D.ymax Object3D.zmin Object3D.zmax].
      intros Lz Gz.
      split; [repeat split; lia|intros _; split; [|split; [|split; [|split; [|split]]]]].
      * apply (least_perm _ _ _ (symmetry Hx)), least_cons, B1.
      * apply (greatest_perm _ _ _ (symmetry Hx)), greatest_cons, B2.
      * apply (least_perm _ _ _ (symmetry Hy)), least_cons, B3.
      * apply (greatest_perm _ _ _ (symmetry Hy)), greatest_cons, B4.
      * exact Lz.
      * exact Gz.
Qed.

Definition shift3 (a b c : Z) (v : Z * Z * Z) : Z * Z * Z :=
  (fst (fst v) + a, snd (fst v) + b, snd v + c).

Lemma voxels_addOffsets o a b c :
  sorted_keys (Object3D.chanlist o) ->
  Object3D.voxels (Object3D.addOffsets o a b c) = map (shift3 a b c) (Object3D.voxels o).
Proof.
  intros Hs. unfold Object3D.voxels.
  assert (Object3D.chanlist (Object3D.addOffsets o a b c)
          = map (shift_chan a b c) (Object3D.chanlist o)) as ->.
  { rewrite (addOffsets_sorted o a b c Hs). cbv zeta.
    destruct (0 <? Object3D.numVox o); reflexivity. }
  clear Hs. induction (Object3D.chanlist o) as [|[k v] l IH]; simpl; [reflexivity|].
  rewrite map_app, IH. f_equal.
  rewrite pixels_addOffsets, !map_map. apply map_ext. intros [x y]. reflexivity.
Qed.

Lemma addOffsets3D_Cache3 o a b c :
  Good3 o -> Cache3 o -> Cache3 (Object3D.addOffsets o a b c).
Proof.
  intros (Hi & Hs & _) [(Sx & Sy & Sz) Hbox].
  pose proof (voxels_addOffsets o a b c Hs) as Hv.
  assert (xs3 (Object3D.addOffsets o a b c) = map (fun v => v + a) (xs3 o)) as Hx
    by (unfold xs3; rewrite Hv, !map_map; reflexivity).
  assert (ys3 (Object3D.addOffsets o a b c) = map (fun v => v + b) (ys3 o)) as Hy
    by (unfold ys3; rewrite Hv, !map_map; reflexivity).
  assert (zs3 (Object3D.addOffsets o a b c) = map (fun v => v + c) (zs3 o)) as Hz
    by (unfold zs3; rewrite Hv, !map_map; reflexivity).
  pose proof (length_voxels o Hi) as Hn.
  unfold Cache3, Sums3, Box3. rewrite Hx, Hy, Hz, Hv, !sumZ_shift.
  unfold xs3, ys3, zs3. rewrite !length_map, <- Hn.
  unfold Object3D.addOffsets. destruct (Z.ltb_spec 0 (Object3D.numVox o)) as [E0|E0];
    cbn [Object3D.xSum Object3D.ySum Object3D.zSum Object3D.xmin Object3D.xmax
         Object3D.ymin Object3D.ymax Object3D.zmin Object3D.zmax].
  - split; [unfold xs3, ys3, zs3 in *; repeat split; lia|].
    intros Hne. assert (Object3D.voxels o <> []) as Hne'
      by (intros Hnil; apply Hne; rewrite Hnil; reflexivity).
    destruct (Hbox Hne') as (B1 & B2 & B3 & B4 & B5 & B6).
    split; [|split; [|split; [|split; [|split]]]];
      first [apply least_shift | apply greatest_shift]; assumption.
  - assert (Object3D.voxels o = []) as Hnil.
    { destruct (Object3D.voxels o); [reflexivity|simpl in Hn; lia]. }
    unfold xs3, ys3, zs3 in *. rewrite Hnil in *. simpl in *.
    split; [repeat split; lia|]. intros Hne. destruct Hne. reflexivity.
Qed.

Lemma built3D_Cache3 o : built3D o -> Cache3 o.
Proof.
  induction 1 as [|o x y z Hz Hb IH|o xoff yoff zoff Hb IH].
  - split; [repeat split|]. intros H. destruct H. reflexivity.
  - apply addPixel3D_Cache3; [apply built3D_Good3, Hb|exact Hz|exact IH].
  - apply addOffsets3D_Cache3; [apply built3D_Good3, Hb|exact IH].
Qed.

(** X16.  For an Object3D built by [addPixel] and [addOffsets], xSum, ySum
    and zSum are the sums of the coordinates of its voxels (so that the
    averages are those of the voxels), every voxel it holds lies in the box
    [xmin..xmax] x [ymin..ymax] x [zmin..zmax], and the box is the smallest
    such: each of its six bounds is the coordinate of a voxel of the
    object. *)
Theorem cached_box3D_is_smallest (o : Object3D.t) (x y z : Z) :
  built3D o -> Object3D.isInObject o x y z = true ->
  (Object3D.xSum o = sumZ (xs3 o) /\ Object3D.ySum o = sumZ (ys3 o) /\
   Object3D.zSum o = sumZ (zs3 o)) /\
  (Object3D.xmin o <= x <= Object3D.xmax o /\ Object3D.ymin o <= y <= Object3D.ymax o /\
   Object3D.zmin o <= z <= Object3D.zmax o) /\
  (exists y' z', Object3D.isInObject o (Object3D.xmin o) y' z' = true) /\
  (exists y' z', Object3D.isInObject o (Object3D.xmax o) y' z' = true) /\
  (exists x' z', Object3D.isInObject o x' (Object3D.ymin o) z' = true) /\
  (exists x' z', Object3D.isInObject o x' (Object3D.ymax o) z' = true) /\
  (exists x' y', Object3D.isInObject o x' y' (Object3D.zmin o) = true) /\
  (exists x' y', Object3D.isInObject o x' y' (Object3D.zmax o) = true).
Proof.
  intros Hb Hin. destruct (built3D_Cache3 o Hb) as [HS Hbox].
  pose proof (built3D_Inv3 o Hb) as Hi.
  pose proof (proj2 (elem_of_voxels o x y z Hi) Hin) as Hv.
  assert (Object3D.voxels o <> []) as Hne.
  { intros Hnil. rewrite Hnil in Hv. apply elem_of_nil in Hv. exact Hv. }
  destruct (Hbox Hne) as ([A1 A2] & [B1 B2] & [C1 C2] & [D1 D2] & [E1 E2] & [F1 F2]).
  assert (x ∈ xs3 o) as Hx
    by (apply list_elem_of_fmap; exists (x, y, z); split; [reflexivity|exact Hv]).
  assert (y ∈ ys3 o) as Hy
    by (apply list_elem_of_fmap; exists (x, y, z); split; [reflexivity|exact Hv]).
  assert (z ∈ zs3 o) as Hz
    by (apply list_elem_of_fmap; exists (x, y, z); split; [reflexivity|exact Hv]).
  specialize (A2 _ Hx). specialize (B2 _ Hx). specialize (C2 _ Hy). specialize (D2 _ Hy).
  specialize (E2 _ Hz). specialize (F2 _ Hz).
  split; [exact HS|]. split; [lia|].
  repeat split.
  - apply list_elem_of_fmap in A1 as ([[x' y'] z'] & E & H). simpl in E. rewrite E.
    exists y', z'. apply (elem_of_voxels o x' y' z' Hi), H.
  - apply list_elem_of_fmap in B1 as ([[x' y'] z'] & E & H). simpl in E. rewrite E.
    exists y', z'. apply (elem_of_voxels o x' y' z' Hi), H.
  - apply list_elem_of_fmap in C1 as ([[x' y'] z'] & E & H). simpl in E. rewrite E.
    exists x', z'. apply (elem_of_voxels o x' y' z' Hi), H.
  - apply list_elem_of_fmap in D1 as ([[x' y'] z'] & E & H). simpl in E. rewrite E.
    exists x', z'. apply (elem_of_voxels o x' y' z' Hi), H.
  - apply list_elem_of_fmap in E1 as ([[x' y'] z'] & E & H). simpl in E. rewrite E.
    exists x', y'. apply (elem_of_voxels o x' y' z' Hi), H.
  - apply list_elem_of_fmap in F1 as ([[x' y'] z'] & E & H). simpl in E. rewrite E.
    exists x', y'. apply (elem_of_voxels o x' y' z' Hi), H.
Qed.

(** Three voxels, translated. *)
Definition moved_voxels : Object3D.t := Object3D.addOffsets three_voxels 10 (-20) 100.

Lemma built3D_moved_voxels : built3D moved_voxels.
Proof. apply built3D_addOffsets, built3D_three_voxels. Qed.

Lemma cached_box3D_is_smallest_witness :
  built3D moved_voxels /\ Object3D.isInObject moved_voxels 15 (-13) 102 = true /\
  (Object3D.xSum moved_voxels = sumZ (xs3 moved_voxels) /\
   Object3D.ySum moved_voxels = sumZ (ys3 moved_voxels) /\
   Object3D.zSum moved_voxels = sumZ (zs3 moved_voxels)) /\
  (Object3D.xmin moved_voxels <= 15 <= Object3D.xmax moved_voxels /\
   Object3D.ymin moved_voxels <= -13 <= Object3D.ymax moved_voxels /\
   Object3D.zmin moved_voxels <= 102 <= Object3D.zmax moved_voxels) /\
  (exists y' z', Object3D.isInObject moved_voxels (Object3D.xmin moved_voxels) y' z' = true) /\
  (exists y' z', Object3D.isInObject moved_voxels (Object3D.xmax moved_voxels) y' z' = true) /\
  (exists x' z', Object3D.isInObject moved_voxels x' (Object3D.ymin moved_voxels) z' = true) /\
  (exists x' z', Object3D.isInObject moved_voxels x' (Object3D.ymax moved_voxels) z' = true) /\
  (exists x' y', Object3D.isInObject moved_voxels x' y' (Object3D.zmin moved_voxels) = true) /\
  (exists x' y', Object3D.isInObject moved_voxels x' y' (Object3D.zmax moved_voxels) = true).
Proof.
  split; [exact built3D_moved_voxels|]. split; [reflexivity|].
  apply (cached_box3D_is_smallest moved_voxels 15 (-13) 102 built3D_moved_voxels).
  reflexivity.
Defined.

(** *** Sums of objects: [getSpatialMap], [addChannel], [operator+] *)

Lemma plus2D_holds lhs rhs x y :
  built2D lhs ->
  Object2D.isInObject (plus2D lhs rhs) x y
  = Object2D.isInObject lhs x y || Object2D.isInObject rhs x y.
Proof.
  unfold plus2D. rewrite (isInObject_existsb rhs).
  generalize (Object2D.scanlist rhs) as l. intros l. revert lhs.
  induction l as [|s l IH]; simpl; intros lhs Hb; [rewrite orb_false_r; reflexivity|].
  rewrite IH by (apply built2D_addScan, Hb). rewrite addScan_holds by exact Hb.
  rewrite orb_assoc. reflexivity.
Qed.

Lemma fold_addPixel_mono y l o :
  built2D o ->
  Object2D.numPix o <= Object2D.numPix (fold_left (fun o' x => Object2D.addPixel o' x y) l o).
Proof.
  revert o. induction l as [|x l IH]; simpl; intros o Hb; [lia|].
  pose proof (addPixel_numPix_mono o x y (built2D_Inv2 o Hb)).
  specialize (IH _ (built2D_addPixel o x y Hb)). lia.
Qed.

Lemma plus2D_numPix_mono lhs rhs :
  built2D lhs -> Object2D.numPix lhs <= Object2D.numPix (plus2D lhs rhs).
Proof.
  unfold plus2D. generalize (Object2D.scanlist rhs) as l. intros l. revert lhs.
  induction l as [|s l IH]; simpl; intros lhs Hb; [lia|].
  assert (Object2D.numPix lhs <= Object2D.numPix (Object2D.addScan lhs s)) as H1
    by exact (fold_addPixel_mono (itsY s) (zrange (itsX s) (getXmax s)) lhs Hb).
  specialize (IH _ (built2D_addScan lhs s Hb)). lia.
Qed.

Lemma fold_addPixel_in_box x0 x1 y0 y1 y l o :
  Forall (fun x => x0 <= x <= x1) l -> y0 <= y <= y1 ->
  Forall (in_box x0 x1 y0 y1) (Object2D.scanlist o) ->
  Forall (in_box x0 x1 y0 y1)
    (Object2D.scanlist (fold_left (fun o' x => Object2D.addPixel o' x y) l o)).
Proof.
  intros Hl Hy. revert o. induction Hl as [|x l Hx Hl IH]; simpl; intros o Ho; [exact Ho|].
  apply IH, addPixel_in_box; assumption.
Qed.

(** The scans of a sum lie in every box that holds the scans of both. *)
Lemma plus2D_in_box x0 x1 y0 y1 lhs rhs :
  Forall (in_box x0 x1 y0 y1) (Object2D.scanlist lhs) ->
  Forall (in_box x0 x1 y0 y1) (Object2D.scanlist rhs) ->
  Forall (in_box x0 x1 y0 y1) (Object2D.scanlist (plus2D lhs rhs)).
Proof.
  unfold plus2D. intros Hl Hr. revert lhs Hl.
  induction Hr as [|s l Hs Hr IH]; simpl; intros lhs Hl; [exact Hl|].
  apply IH. unfold Object2D.addScan. apply fold_addPixel_in_box; [| |exact Hl].
  - apply List.Forall_forall. intros x Hx.
    apply list_elem_of_In, elem_of_zrange in Hx. unfold in_box in Hs. lia.
  - unfold in_box in Hs. lia.
Qed.

Lemma getSpatialMap_fold (l : list (Z * Object2D.t)) m x y :
  built2D m ->
  built2D (fold_left (fun spatialMap kv => plus2D spatialMap (snd kv)) l m) /\
  Object2D.isInObject (fold_left (fun spatialMap kv => plus2D spatialMap (snd kv)) l m) x y
  = Object2D.isInObject m x y || existsb (fun kv => Object2D.isInObject (snd kv) x y) l.
Proof.
  revert m. induction l as [|[k c] l IH]; simpl; intros m Hb.
  - split; [exact Hb|]. rewrite orb_false_r. reflexivity.
  - destruct (IH _ (built2D_plus2D m c Hb)) as [H1 H2]. split; [exact H1|].
    rewrite H2, plus2D_holds by exact Hb. rewrite orb_assoc. reflexivity.
Qed.

(** X17.  [getSpatialMap] is the projection of the object along the
    channels: for an Object3D built by [addPixel] and [addOffsets] it holds
    the pixel (x,y) exactly when the object holds a voxel (x,y,z) in some
    channel.  Its pixels are enumerated without repetition, and
    [getSpatialSize] is their number, which is at most numVox. *)
Theorem getSpatialMap_is_the_projection (o : Object3D.t) :
  built3D o ->
  (forall x y, Object2D.isInObject (getSpatialMap o) x y = true
               <-> exists z, Object3D.isInObject o x y z = true) /\
  NoDup (pixels (Object2D.scanlist (getSpatialMap o))) /\
  getSpatialSize o = Z.of_nat (length (pixels (Object2D.scanlist (getSpatialMap o)))) /\
  getSpatialSize o <= Object3D.numVox o.
Proof.
  intros Hb. pose proof (built3D_Inv3 o Hb) as Hi. pose proof Hi as (Hnd & _ & _).
  assert (forall x y, Object2D.isInObject (getSpatialMap o) x y = true
                      <-> exists z, Object3D.isInObject o x y z = true) as Hproj.
  { intros x y. unfold getSpatialMap.
    rewrite (proj2 (getSpatialMap_fold (Object3D.chanlist o) Object2D.empty x y built2D_empty)).
    simpl. rewrite existsb_exists. unfold Object3D.isInObject. split.
    - intros ([k c] & Hin & Hxy). exists k.
      apply list_elem_of_In, (find_chan_elem _ _ _ Hnd) in Hin. rewrite Hin. exact Hxy.
    - intros [z Hz].
      destruct (Object3D.find_chan z (Object3D.chanlist o)) as [c|] eqn:Ef; [|discriminate].
      exists (z, c). split; [|exact Hz].
      apply list_elem_of_In, (find_chan_elem _ _ _ Hnd), Ef. }
  split; [exact Hproj|].
  destruct (built2D_Inv2 _ (proj1 (getSpatialMap_fold (Object3D.chanlist o) Object2D.empty 0 0
                                     built2D_empty))) as (Hwf & Hsep & Hn).
  fold (getSpatialMap o) in Hwf, Hsep, Hn.
  assert (getSpatialSize o = Z.of_nat (length (pixels (Object2D.scanlist (getSpatialMap o)))))
    as Hsize by (unfold getSpatialSize, getSize; rewrite length_pixels by exact Hwf; exact Hn).
  split; [apply NoDup_pixels; assumption|]. split; [exact Hsize|].
  rewrite Hsize, (length_voxels o Hi). apply inj_le.
  rewrite <- (length_map fst (Object3D.voxels o)).
  apply submseteq_length, NoDup_submseteq; [apply NoDup_pixels; assumption|].
  intros [x y] Hp. apply isInObject_elem, Hproj in Hp as [z Hz].
  apply list_elem_of_fmap. exists (x, y, z). split; [reflexivity|].
  apply (elem_of_voxels o x y z Hi), Hz.
Qed.

Lemma getSpatialMap_is_the_projection_witness :
  built3D three_voxels /\
  (forall x y, Object2D.isInObject (getSpatialMap three_voxels) x y = true
               <-> exists z, Object3D.isInObject three_voxels x y z = true) /\
  NoDup (pixels (Object2D.scanlist (getSpatialMap three_voxels))) /\
  getSpatialSize three_voxels
  = Z.of_nat (length (pixels (Object2D.scanlist (getSpatialMap three_voxels)))) /\
  getSpatialSize three_voxels <= Object3D.numVox three_voxels.
Proof.
  split; [exact built3D_three_voxels|].
  apply (getSpatialMap_is_the_projection three_voxels built3D_three_voxels).
Defined.

(** Two voxels over one pixel count once in the spatial map. *)
Example getSpatialSize_of_a_column :
  getSpatialSize (Object3D.addPixel (Object3D.addPixel Object3D.empty 4 7 1) 4 7 2) = 1.
Proof. reflexivity. Qed.

(** A channel that can be added: built by [Object2D::addPixel] and
    [addOffsets], with at least one pixel. *)
Definition addable (obj : Object2D.t) : Prop := built2D obj /\ 1 <= Object2D.numPix obj.

Lemma addable_in_box obj :
  built2D obj ->
  Forall (in_box (Object2D.xmin obj) (Object2D.xmax obj) (Object2D.ymin obj) (Object2D.ymax obj))
    (Object2D.scanlist obj).
Proof. intros Hb. apply (encloses_iff obj), built2D_encloses, Hb. Qed.

Lemma addChannel_Good3 o z obj :
  Good3 o -> addable obj -> Good3 (addChannel o z obj).
Proof.
  intros ((Hnd & Hall & Hn) & Hs & Hcb) [Hobj H1]. unfold addChannel, getSize.
  pose proof (addable_in_box obj Hobj) as Hbox.
  assert (forall s, inbox o s ->
            in_box (if Object2D.xmin obj <? Object3D.xmin o then Object2D.xmin obj
                    else Object3D.xmin o)
                   (if Object3D.xmax o <? Object2D.xmax obj then Object2D.xmax obj
                    else Object3D.xmax o)
                   (if Object2D.ymin obj <? Object3D.ymin o then Object2D.ymin obj
                    else Object3D.ymin o)
                   (if Object3D.ymax o <? Object2D.ymax obj then Object2D.ymax obj
                    else Object3D.ymax o) s) as Hmono.
  { intros s. apply in_box_mono; bool_cases; lia. }
  assert (forall s, in_box (Object2D.xmin obj) (Object2D.xmax obj) (Object2D.ymin obj)
                      (Object2D.ymax obj) s ->
            in_box (if Object2D.xmin obj <? Object3D.xmin o then Object2D.xmin obj
                    else Object3D.xmin o)
                   (if Object3D.xmax o <? Object2D.xmax obj then Object2D.xmax obj
                    else Object3D.xmax o)
                   (if Object2D.ymin obj <? Object3D.ymin o then Object2D.ymin obj
                    else Object3D.ymin o)
                   (if Object3D.ymax o <? Object2D.ymax obj then Object2D.ymax obj
                    else Object3D.ymax o) s) as Hmono'.
  { intros s. apply in_box_mono; bool_cases; lia. }
  destruct (Object3D.find_chan z (Object3D.chanlist o)) as [c|] eqn:Ef.
  - (* the channel is present *)
    pose proof (find_chan_built z c _ Hcb Ef) as Hc.
    split; [|split; [apply set_chan_sorted, Hs|apply set_chan_built;
                                                [apply built2D_plus2D, Hc|exact Hcb]]].
    destruct (find_chan_Some_split _ _ _ Ef) as (m1 & m2 & Em & Hset).
    unfold Inv3. cbn [Object3D.chanlist Object3D.numVox]. rewrite Hset.
    rewrite Em in Hnd, Hall, Hn. split; [|split].
    + rewrite map_app in *. exact Hnd.
    + apply Forall_app in Hall as [Hm1 Hm2]. apply Forall_cons in Hm2 as [Hok Hm2].
      unfold inbox. cbn [Object3D.xmin Object3D.xmax Object3D.ymin Object3D.ymax].
      apply Forall_app. split; [|constructor].
      * eapply Forall_impl; [exact Hm1|]. intros kv. apply chan_ok_mono, Hmono.
      * destruct Hok as (_ & Hp & Hb). simpl in *. split; [|split].
        -- apply built2D_Inv2, built2D_plus2D, Hc.
        -- pose proof (plus2D_numPix_mono c obj Hc). simpl. lia.
        -- simpl. apply plus2D_in_box.
           ++ eapply Forall_impl; [exact Hb|exact Hmono].
           ++ eapply Forall_impl; [exact Hbox|exact Hmono'].
      * eapply Forall_impl; [exact Hm2|]. intros kv. apply chan_ok_mono, Hmono.
    + rewrite Hn, !total_vox_app. simpl. lia.
  - (* a new channel *)
    pose proof (map_insert_perm z obj _ Ef) as Hperm.
    assert (sorted_keys (Object3D.map_insert z obj (Object3D.chanlist o)) /\
            channels_built (Object3D.map_insert z obj (Object3D.chanlist o))) as [Hs' Hcb']
      by (split; [apply map_insert_sorted, Hs|apply map_insert_built; assumption]).
    destruct (Z.eqb_spec (Object3D.numVox o) 0) as [E0|E0].
    + split; [|split; assumption].
      assert (Object3D.chanlist o = []) as Enil by (apply (total_vox_zero _ _ Hall); lia).
      unfold Inv3, inbox. cbn [Object3D.chanlist Object3D.numVox Object3D.xmin Object3D.xmax
                                 Object3D.ymin Object3D.ymax].
      rewrite Enil in *. simpl. split; [|split].
      * repeat constructor. apply not_elem_of_nil.
      * constructor; [|constructor]. split; [apply built2D_Inv2, Hobj|]. split; [exact H1|].
        exact Hbox.
      * lia.
    + split; [|split; assumption].
      unfold Inv3, inbox. cbn [Object3D.chanlist Object3D.numVox Object3D.xmin Object3D.xmax
                                 Object3D.ymin Object3D.ymax].
      split; [|split].
      * rewrite Hperm. simpl. constructor; [|assumption]. apply find_chan_None, Ef.
      * rewrite Hperm. constructor.
        -- split; [apply built2D_Inv2, Hobj|]. split; [exact H1|].
           eapply Forall_impl; [exact Hbox|exact Hmono'].
        -- eapply Forall_impl; [exact Hall|]. intros kv. apply chan_ok_mono, Hmono.
      * rewrite (total_vox_perm _ _ Hperm). simpl. lia.
Qed.

Lemma chanlist_addChannel_new o z obj :
  Object3D.find_chan z (Object3D.chanlist o) = None ->
  Object3D.chanlist (addChannel o z obj) = Object3D.map_insert z obj (Object3D.chanlist o).
Proof.
  intros Ef. unfold addChannel. rewrite Ef. destruct (Object3D.numVox o =? 0); reflexivity.
Qed.

(** The voxels after [addChannel]. *)
Lemma addChannel_holds o z obj x y z' :
  Good3 o ->
  Object3D.isInObject (addChannel o z obj) x y z'
  = Object3D.isInObject o x y z' || (z' =? z) && Object2D.isInObject obj x y.
Proof.
  intros (_ & Hs & Hcb). unfold Object3D.isInObject at 1 2.
  destruct (Object3D.find_chan z (Object3D.chanlist o)) as [c|] eqn:Ef.
  - unfold addChannel. rewrite Ef. cbn [Object3D.chanlist].
    rewrite find_chan_set_chan, Ef.
    destruct (Z.eqb_spec z' z) as [->|Hne]; [|rewrite orb_false_r; reflexivity].
    rewrite Ef. simpl. apply plus2D_holds, (find_chan_built z c _ Hcb Ef).
  - rewrite (chanlist_addChannel_new o z obj Ef), find_chan_map_insert by exact Hs.
    rewrite Ef.
    destruct (Z.eqb_spec z' z) as [->|Hne]; [|rewrite orb_false_r; reflexivity].
    rewrite Ef. reflexivity.
Qed.

Lemma plus3D_fold l o x y z :
  Good3 o -> Forall (fun kv => addable (snd kv)) l ->
  Good3 (fold_left (fun o' kv => addChannel o' (fst kv) (snd kv)) l o) /\
  Object3D.isInObject (fold_left (fun o' kv => addChannel o' (fst kv) (snd kv)) l o) x y z
  = Object3D.isInObject o x y z
    || existsb (fun kv => (z =? fst kv) && Object2D.isInObject (snd kv) x y) l.
Proof.
  intros Hg Hl. revert o Hg. induction Hl as [|[k c] l Hc Hl IH]; simpl; intros o Hg.
  - split; [exact Hg|]. rewrite orb_false_r. reflexivity.
  - destruct (IH _ (addChannel_Good3 o k c Hg Hc)) as [H1 H2]. split; [exact H1|].
    rewrite H2, addChannel_holds by exact Hg. rewrite orb_assoc. reflexivity.
Qed.

Lemma existsb_find_chan (f : Object2D.t -> bool) z m :
  NoDup (map fst m) ->
  existsb (fun kv => (z =? fst kv) && f (snd kv)) m
  = match Object3D.find_chan z m with Some c => f c | None => false end.
Proof.
  induction m as [|[k c] m IH]; simpl; intros Hnd; [reflexivity|].
  apply NoDup_cons in Hnd as [Hk Hnd]. rewrite (IH Hnd), (Z.eqb_sym z k).
  destruct (Z.eqb_spec k z) as [->|Hne]; simpl; [|reflexivity].
  apply find_chan_None in Hk. rewrite Hk. apply orb_false_r.
Qed.

Lemma channels_addable o : Good3 o -> Forall (fun kv => addable (snd kv)) (Object3D.chanlist o).
Proof.
  intros ((_ & Hall & _) & _ & Hcb). unfold channels_built in Hcb.
  rewrite List.Forall_forall in *. intros kv Hin. split; [apply Hcb, Hin|].
  destruct (Hall kv Hin) as (_ & H1 & _). exact H1.
Qed.

(** X18.  The sum of two Object3D built by [addPixel] and [addOffsets]
    ([operator+], which calls [addChannel] for every channel of the second
    on a copy of the first) is their union: it holds a voxel exactly when
    one of the two holds it, [getPixelSet] lists no voxel twice, and numVox
    is the number of its voxels even when the two objects overlap. *)
Theorem plus3D_is_the_union (lhs rhs : Object3D.t) :
  built3D lhs -> built3D rhs ->
  (forall x y z, Object3D.isInObject (plus3D lhs rhs) x y z
                 = Object3D.isInObject lhs x y z || Object3D.isInObject rhs x y z) /\
  NoDup (Object3D.voxels (plus3D lhs rhs)) /\
  Object3D.numVox (plus3D lhs rhs) = Z.of_nat (length (Object3D.voxels (plus3D lhs rhs))).
Proof.
  intros Hl Hr. apply built3D_Good3 in Hl. apply built3D_Good3 in Hr.
  pose proof (channels_addable rhs Hr) as Hadd. split.
  - intros x y z. unfold plus3D.
    rewrite (proj2 (plus3D_fold (Object3D.chanlist rhs) lhs x y z Hl Hadd)).
    rewrite (existsb_find_chan (fun c => Object2D.isInObject c x y) z _ (proj1 (proj1 Hr))).
    reflexivity.
  - destruct (proj1 (plus3D_fold (Object3D.chanlist rhs) lhs 0 0 0 Hl Hadd)) as (Hi & _).
    fold (plus3D lhs rhs) in Hi. split; [apply NoDup_voxels, Hi|apply length_voxels, Hi].
Qed.

(** Two voxels, one of them a voxel of [three_voxels], the other in a
    channel of its own. *)
Definition other_voxels : Object3D.t :=
  Object3D.addPixel (Object3D.addPixel Object3D.empty 4 7 9) 4 7 5.

Lemma built3D_other_voxels : built3D other_voxels.
Proof.
  unfold other_voxels.
  repeat (apply built3D_addPixel; [unfold int_range; lia|]). apply built3D_empty.
Qed.

Lemma plus3D_is_the_union_witness :
  built3D three_voxels /\ built3D other_voxels /\
  (forall x y z, Object3D.isInObject (plus3D three_voxels other_voxels) x y z
                 = Object3D.isInObject three_voxels x y z
                   || Object3D.isInObject other_voxels x y z) /\
  NoDup (Object3D.voxels (plus3D three_voxels other_voxels)) /\
  Object3D.numVox (plus3D three_voxels other_voxels)
  = Z.of_nat (length (Object3D.voxels (plus3D three_voxels other_voxels))).
Proof.
  split; [exact built3D_three_voxels|]. split; [exact built3D_other_voxels|].
  apply (plus3D_is_the_union three_voxels other_voxels built3D_three_voxels
           built3D_other_voxels).
Defined.

Example plus3D_counts_shared_voxels_once :
  Object3D.numVox (plus3D three_voxels other_voxels) = 4
  /\ getChannelList (plus3D three_voxels other_voxels) = [2; 5; 9].
Proof. split; reflexivity. Qed.

(** *** [getMaxAdjacentChannels] *)

(** Channel numbers that are array indices an [int] holds. *)
Definition channel_index (z : Z) : Prop := 0 <= z < 2147483648.

(** The channels [z, z+1, ..., z+n-1] are all among [keys]. *)
Definition run (keys : list Z) (z n : Z) : Prop :=
  forall i, 0 <= i < n -> z + i ∈ keys.

(** The loop after its first channel, on channels in increasing order
    above [zcurrent]: [zcount] channels up to [zcurrent] are the run in
    progress.  [S] is that run together with the channels to come. *)
Lemma adjacent_loop_spec (l : list (Z * Object2D.t)) :
  forall mx zc cnt,
  sorted_keys l -> Forall (fun kv => zc < fst kv) l ->
  Forall (fun kv => channel_index (fst kv)) l -> 1 <= cnt ->
  let S := fun v => zc - cnt < v <= zc \/ v ∈ map fst l in
  let R := adjacent_loop false l mx zc cnt in
  mx <= R /\
  (R = mx \/ exists z, forall i, 0 <= i < R -> S (z + i)) /\
  (forall z n, (forall i, 0 <= i < n -> S (z + i)) -> n <= R).
Proof.
  induction l as [|[k c] l IH]; intros mx zc cnt Hs Habove Hfit Hcnt; cbv zeta.
  - simpl. split; [lia|]. split.
    + destruct (Z.max_spec mx cnt) as [[_ E]|[_ E]]; [|left; exact E].
      right. exists (zc - cnt + 1). intros i Hi. left. lia.
    + intros z n Hrun. destruct (Z.le_gt_cases n 0) as [Hn|Hn]; [lia|].
      pose proof (Hrun 0 ltac:(lia)) as [H0|H0]; [|apply elem_of_nil in H0; destruct H0].
      pose proof (Hrun (n - 1) ltac:(lia)) as [H1|H1]; [|apply elem_of_nil in H1; destruct H1].
      lia.
  - destruct Hs as [Hk Hs]. apply Forall_cons in Habove as [Hzk Habove].
    apply Forall_cons in Hfit as [Fk Fl]. simpl in Hzk, Fk.
    assert (to_int k = k) as Ek by (apply to_int_id; unfold channel_index, int_range in *; lia).
    cbn [adjacent_loop fst]. rewrite Ek.
    assert (forall v, v ∈ map fst l -> k < v) as Hlater.
    { intros v Hv. apply list_elem_of_fmap in Hv as ([k' c'] & -> & Hin).
      rewrite List.Forall_forall in Hk. apply (Hk _ (proj1 (list_elem_of_In _ _) Hin)). }
    destruct (Z.ltb_spec 1 (k - zc)) as [Hgap|Hnext].
    + destruct (IH (Z.max mx cnt) k 1 Hs Hk Fl ltac:(lia)) as (A & B & C).
      cbv zeta in A, B, C. split; [lia|]. split.
      * destruct B as [B|[z B]].
        -- destruct (Z.max_spec mx cnt) as [[_ E]|[_ E]]; [|left; lia].
           right. exists (zc - cnt + 1). intros i Hi. left. lia.
        -- right. exists z. intros i Hi. right. simpl. apply elem_of_cons.
           destruct (B i Hi) as [H|H]; [left; lia|right; exact H].
      * intros z n Hrun. destruct (Z.le_gt_cases n 0) as [Hn|Hn]; [lia|].
        destruct (Z.le_gt_cases z zc) as [Hz|Hz].
        -- destruct (Z.le_gt_cases (z + n - 1) zc) as [Hend|Hend].
           ++ pose proof (Hrun 0 ltac:(lia)) as [H0|H0]; [lia|].
              simpl in H0. apply elem_of_cons in H0 as [H0|H0]; [lia|].
              specialize (Hlater _ H0). lia.
           ++ exfalso. pose proof (Hrun (zc + 1 - z) ltac:(lia)) as [H0|H0]; [lia|].
              simpl in H0. apply elem_of_cons in H0 as [H0|H0]; [lia|].
              specialize (Hlater _ H0). lia.
        -- apply (C z n). intros i Hi. destruct (Hrun i Hi) as [H|H]; [lia|].
           simpl in H. apply elem_of_cons in H as [H|H]; [left; lia|right; exact H].
    + assert (k = zc + 1) as -> by lia.
      destruct (IH mx (zc + 1) (cnt + 1) Hs Hk Fl ltac:(lia)) as (A & B & C).
      cbv zeta in A, B, C. split; [exact A|]. split.
      * destruct B as [B|[z B]]; [left; exact B|right]. exists z. intros i Hi.
        destruct (B i Hi) as [H|H].
        -- destruct (Z.eq_dec (z + i) (zc + 1)) as [E|E]; [right; rewrite E; left|left; lia].
        -- right. right. exact H.
      * intros z n Hrun. apply (C z n). intros i Hi. destruct (Hrun i Hi) as [H|H]; [left; lia|].
        simpl in H. apply elem_of_cons in H as [H|H]; [left; lia|right; exact H].
Qed.

(** X19.  [getMaxAdjacentChannels] is the length of the longest run of
    consecutive channels of the object: on an Object3D built by [addPixel]
    and [addOffsets] whose channel numbers are indices an [int] holds, the
    object has all the channels of some run of that length, and no run of
    consecutive channels of the object is longer.  An object without
    channels gives 0. *)
Theorem getMaxAdjacentChannels_longest_run (o : Object3D.t) :
  built3D o -> Forall channel_index (getChannelList o) ->
  (exists z, run (getChannelList o) z (getMaxAdjacentChannels o)) /\
  (forall z n, run (getChannelList o) z n -> n <= getMaxAdjacentChannels o) /\
  (getChannelList o = [] -> getMaxAdjacentChannels o = 0).
Proof.
  intros Hb Hfit. destruct (built3D_Good3 o Hb) as (_ & Hs & _).
  unfold getMaxAdjacentChannels, getChannelList, run in *.
  destruct (Object3D.chanlist o) as [|[k c] l]; simpl in *.
  - split; [exists 0; intros i Hi; lia|]. split; [|reflexivity].
    intros z n Hrun. destruct (Z.le_gt_cases n 0) as [Hn|Hn]; [exact Hn|].
    pose proof (Hrun 0 ltac:(lia)) as H0. apply elem_of_nil in H0. destruct H0.
  - destruct Hs as [Hk Hs]. apply Forall_cons in Hfit as [Fk Fl].
    assert (to_int k = k) as -> by (apply to_int_id; unfold channel_index, int_range in *; lia).
    assert (Forall (fun kv : Z * Object2D.t => channel_index (fst kv)) l) as Fl'.
    { rewrite List.Forall_forall in *. intros kv Hin. apply Fl, in_map, Hin. }
    destruct (adjacent_loop_spec l 0 k 1 Hs Hk Fl' ltac:(lia)) as (A & B & C).
    cbv zeta in A, B, C.
    assert (forall v, (k - 1 < v <= k \/ v ∈ map fst l) <-> v ∈ k :: map fst l) as HS.
    { intros v. rewrite elem_of_cons. split; (intros [H|H]; [left; lia|right; exact H]). }
    assert (1 <= adjacent_loop false l 0 k 1) as H1.
    { apply (C k 1). intros i Hi. left. lia. }
    split; [|split; [|discriminate]].
    + destruct B as [B|[z B]]; [lia|]. exists z. intros i Hi. apply HS, B, Hi.
    + intros z n Hrun. apply (C z n). intros i Hi. apply HS, Hrun, Hi.
Qed.

(** Channels 3, 4, 5 and 8, 9: the longest run has three channels. *)
Definition five_channels : Object3D.t :=
  Object3D.addPixel (Object3D.addPixel (Object3D.addPixel (Object3D.addPixel
    (Object3D.addPixel Object3D.empty 0 0 8) 0 0 4) 0 0 3) 0 0 9) 0 0 5.

Lemma built3D_five_channels : built3D five_channels.
Proof.
  unfold five_channels.
  repeat (apply built3D_addPixel; [unfold int_range; lia|]). apply built3D_empty.
Qed.

Lemma getMaxAdjacentChannels_longest_run_witness :
  built3D five_channels /\ Forall channel_index (getChannelList five_channels) /\
  (exists z, run (getChannelList five_channels) z (getMaxAdjacentChannels five_channels)) /\
  (forall z n, run (getChannelList five_channels) z n
               -> n <= getMaxAdjacentChannels five_channels) /\
  (getChannelList five_channels = [] -> getMaxAdjacentChannels five_channels = 0).
Proof.
  assert (Forall channel_index (getChannelList five_channels)) as Hfit.
  { change (getChannelList five_channels) with [3; 4; 5; 8; 9].
    repeat (constructor; [unfold channel_index; lia|]). constructor. }
  split; [exact built3D_five_channels|]. split; [exact Hfit|].
  apply (getMaxAdjacentChannels_longest_run five_channels built3D_five_channels Hfit).
Defined.

Example getMaxAdjacentChannels_five_channels :
  getChannelList five_channels = [3; 4; 5; 8; 9] /\ getMaxAdjacentChannels five_channels = 3.
Proof. split; reflexivity. Qed.

(** *** [Object3D::addScan] *)

Lemma fold_addPixel3D y z l o x' y' z' :
  built3D o -> int_range z ->
  built3D (fold_left (fun o' x => Object3D.addPixel o' x y z) l o) /\
  Object3D.isInObject (fold_left (fun o' x => Object3D.addPixel o' x y z) l o) x' y' z'
  = Object3D.isInObject o x' y' z' || (z' =? z) && (y' =? y) && existsb (Z.eqb x') l.
Proof.
  intros Hb Hz. revert o Hb. induction l as [|x l IH]; simpl; intros o Hb.
  - split; [exact Hb|]. rewrite andb_false_r, orb_false_r. reflexivity.
  - destruct (IH _ (built3D_addPixel o x y z Hz Hb)) as [H1 H2]. split; [exact H1|].
    rewrite H2, addPixel3D_holds by (try apply built3D_Good3; assumption). unfold here3.
    destruct (Object3D.isInObject o x' y' z'), (x' =? x), (y' =? y), (z' =? z),
      (existsb (Z.eqb x') l); reflexivity.
Qed.

(** X20.  [Object3D::addScan] adds exactly the pixels of a (non-empty)
    scan, in channel z, to an Object3D built by [addPixel] and [addOffsets]
    (channel and columns within the range of an [int]): the object then
    holds the voxels it held and those of the scan, its voxels are
    enumerated once each and numVox is their number. *)
Theorem addScan3D_adds_the_scan (o : Object3D.t) (s : Scan) (z : Z) :
  built3D o -> int_range z -> wf_scan s -> fits_int s ->
  (forall x' y' z', Object3D.isInObject (addScan o s z) x' y' z'
                    = Object3D.isInObject o x' y' z' || (z' =? z) && isInScan s x' y') /\
  NoDup (Object3D.voxels (addScan o s z)) /\
  Object3D.numVox (addScan o s z) = Z.of_nat (length (Object3D.voxels (addScan o s z))).
Proof.
  intros Hb Hz Hw Hs. unfold addScan.
  assert (to_int (itsX s) = itsX s) as ->
    by (apply to_int_id; unfold fits_int, int_range, wf_scan, getXmax in *; lia).
  split.
  - intros x' y' z'.
    rewrite (proj2 (fold_addPixel3D (itsY s) z _ o x' y' z' Hb Hz)), existsb_zrange.
    unfold isInScan. rewrite <- !andb_assoc. reflexivity.
  - pose proof (built3D_Inv3 _ (proj1 (fold_addPixel3D (itsY s) z
                  (zrange (itsX s) (getXmax s)) o 0 0 0 Hb Hz))) as Hi.
    split; [apply NoDup_voxels, Hi|apply length_voxels, Hi].
Qed.

Lemma addScan3D_adds_the_scan_witness :
  built3D three_voxels /\ int_range 9 /\ wf_scan (mkScan 7 3 4) /\ fits_int (mkScan 7 3 4) /\
  (forall x' y' z', Object3D.isInObject (addScan three_voxels (mkScan 7 3 4) 9) x' y' z'
                    = Object3D.isInObject three_voxels x' y' z'
                      || (z' =? 9) && isInScan (mkScan 7 3 4) x' y') /\
  NoDup (Object3D.voxels (addScan three_voxels (mkScan 7 3 4) 9)) /\
  Object3D.numVox (addScan three_voxels (mkScan 7 3 4) 9)
  = Z.of_nat (length (Object3D.voxels (addScan three_voxels (mkScan 7 3 4) 9))).
Proof.
  assert (int_range 9) as Hz by (unfold int_range; lia).
  assert (wf_scan (mkScan 7 3 4)) as Hw by (unfold wf_scan; simpl; lia).
  assert (fits_int (mkScan 7 3 4)) as Hs by (unfold fits_int, getXmax; simpl; lia).
  split; [exact built3D_three_voxels|]. split; [exact Hz|]. split; [exact Hw|].
  split; [exact Hs|].
  apply (addScan3D_adds_the_scan three_voxels (mkScan 7 3 4) 9 built3D_three_voxels Hz Hw Hs).
Defined.

(** The scan over columns 3 to 6 of row 7 joins the voxel (4,7,9). *)
Example addScan3D_joins :
  Object3D.voxels (addScan three_voxels (mkScan 7 3 4) 9)
  = [(5, 7, 2); (3, 7, 9); (4, 7, 9); (5, 7, 9); (6, 7, 9); (3, 8, 9)].
Proof. reflexivity. Qed.

(** *** [Object3D::calcParams] *)

Lemma least_step m a b la l :
  least m ((if b <? a then b else a) :: l) -> least b la -> least m (a :: la ++ l).
Proof.
  intros Hm [Hb1 Hb2]. apply (least_weaken _ _ _ Hm).
  - intros v Hv. apply elem_of_cons in Hv as [->|Hv].
    + destruct (b <? a); [right; apply elem_of_app; left; exact Hb1|left].
    + right. apply elem_of_app. right. exact Hv.
  - intros v Hv. apply elem_of_cons in Hv as [->|Hv].
    + exists (if b <? a then b else a). split; [left|]. destruct (Z.ltb_spec b a); lia.
    + apply elem_of_app in Hv as [Hv|Hv].
      * exists (if b <? a then b else a). split; [left|].
        specialize (Hb2 _ Hv). destruct (Z.ltb_spec b a); lia.
      * exists v. split; [right; exact Hv|lia].
Qed.

Lemma greatest_step m a b la l :
  greatest m ((if a <? b then b else a) :: l) -> greatest b la -> greatest m (a :: la ++ l).
Proof.
  intros Hm [Hb1 Hb2]. apply (greatest_weaken _ _ _ Hm).
  - intros v Hv. apply elem_of_cons in Hv as [->|Hv].
    + destruct (a <? b); [right; apply elem_of_app; left; exact Hb1|left].
    + right. apply elem_of_app. right. exact Hv.
  - intros v Hv. apply elem_of_cons in Hv as [->|Hv].
    + exists (if a <? b then b else a). split; [left|]. destruct (Z.ltb_spec a b); lia.
    + apply elem_of_app in Hv as [Hv|Hv].
      * exists (if a <? b then b else a). split; [left|].
        specialize (Hb2 _ Hv). destruct (Z.ltb_spec a b); lia.
      * exists v. split; [right; exact Hv|lia].
Qed.

Lemma least_first m b la l : least m (b :: l) -> least b la -> least m (la ++ l).
Proof.
  intros Hm [Hb1 Hb2]. apply (least_weaken _ _ _ Hm).
  - intros v Hv. apply elem_of_app. apply elem_of_cons in Hv as [->|Hv]; [left|right]; assumption.
  - intros v Hv. apply elem_of_app in Hv as [Hv|Hv].
    + exists b. split; [left|apply Hb2, Hv].
    + exists v. split; [right; exact Hv|lia].
Qed.

Lemma greatest_first m b la l : greatest m (b :: l) -> greatest b la -> greatest m (la ++ l).
Proof.
  intros Hm [Hb1 Hb2]. apply (greatest_weaken _ _ _ Hm).
  - intros v Hv. apply elem_of_app. apply elem_of_cons in Hv as [->|Hv]; [left|right]; assumption.
  - intros v Hv. apply elem_of_app in Hv as [Hv|Hv].
    + exists b. split; [left|apply Hb2, Hv].
    + exists v. split; [right; exact Hv|lia].
Qed.

(** The voxels of a list of channels. *)
Definition voxl (l : list (Z * Object2D.t)) : list (Z * Z * Z) :=
  flat_map (fun kv => map (fun p => (fst p, snd p, fst kv)) (pixels (Object2D.scanlist (snd kv)))) l.

Definition xsl (l : list (Z * Object2D.t)) : list Z := map (fun v => fst (fst v)) (voxl l).

Definition ysl (l : list (Z * Object2D.t)) : list Z := map (fun v => snd (fst v)) (voxl l).

Definition zsl (l : list (Z * Object2D.t)) : list Z := map snd (voxl l).

Lemma xsl_cons k c l : xsl ((k, c) :: l) = columns (Object2D.scanlist c) ++ xsl l.
Proof. unfold xsl, voxl, columns. simpl. rewrite map_app, map_map. reflexivity. Qed.

Lemma ysl_cons k c l : ysl ((k, c) :: l) = rows (Object2D.scanlist c) ++ ysl l.
Proof. unfold ysl, voxl, rows. simpl. rewrite map_app, map_map. reflexivity. Qed.

Lemma zsl_cons k c l :
  zsl ((k, c) :: l) = map (fun _ => k) (pixels (Object2D.scanlist c)) ++ zsl l.
Proof. unfold zsl, voxl. simpl. rewrite map_app, map_map. reflexivity. Qed.

(** What the loop needs of a channel: its own cache is right and it has a
    pixel. *)
Definition chan_cached (kv : Z * Object2D.t) : Prop :=
  Cache (snd kv) /\ 1 <= Object2D.numPix (snd kv).

Lemma chan_cached_facts k c :
  chan_cached (k, c) ->
  Object2D.xSum c = sumZ (columns (Object2D.scanlist c)) /\
  Object2D.ySum c = sumZ (rows (Object2D.scanlist c)) /\
  Object2D.numPix c = Z.of_nat (length (pixels (Object2D.scanlist c))) /\
  least (Object2D.xmin c) (columns (Object2D.scanlist c)) /\
  greatest (Object2D.xmax c) (columns (Object2D.scanlist c)) /\
  least (Object2D.ymin c) (rows (Object2D.scanlist c)) /\
  greatest (Object2D.ymax c) (rows (Object2D.scanlist c)).
Proof.
  intros [((Hwf & Hsep & Hn) & [Hx Hy] & Hbox) H1]. simpl in *.
  assert (Object2D.scanlist c <> []) as Hne.
  { intros Hnil. rewrite Hn, Hnil in H1. simpl in H1. lia. }
  destruct (Hbox Hne) as (B1 & B2 & B3 & B4).
  repeat (split; [assumption|]).
  split; [rewrite length_pixels by exact Hwf; exact Hn|]. auto.
Qed.

Lemma calc3_loop_false l o :
  Forall chan_cached l ->
  Object3D.chanlist (calc3_loop false l o) = Object3D.chanlist o /\
  Object3D.numVox (calc3_loop false l o) = Object3D.numVox o + total_vox l /\
  Object3D.xSum (calc3_loop false l o) = Object3D.xSum o + sumZ (xsl l) /\
  Object3D.ySum (calc3_loop false l o) = Object3D.ySum o + sumZ (ysl l) /\
  Object3D.zSum (calc3_loop false l o) = Object3D.zSum o + sumZ (zsl l) /\
  least (Object3D.xmin (calc3_loop false l o)) (Object3D.xmin o :: xsl l) /\
  greatest (Object3D.xmax (calc3_loop false l o)) (Object3D.xmax o :: xsl l) /\
  least (Object3D.ymin (calc3_loop false l o)) (Object3D.ymin o :: ysl l) /\
  greatest (Object3D.ymax (calc3_loop false l o)) (Object3D.ymax o :: ysl l) /\
  Object3D.zmin (calc3_loop false l o) = Object3D.zmin o /\
  Object3D.zmax (calc3_loop false l o) = Object3D.zmax o.
Proof.
  intros Hl. revert o. induction Hl as [|[k c] l Hc Hl IH]; intros o.
  - simpl. unfold xsl, ysl, zsl. simpl.
    repeat (split; [first [reflexivity | lia | apply least_one | apply greatest_one]|]).
    reflexivity.
  - cbn [calc3_loop].
    destruct (IH (calc3_step false o (k, c))) as (I1 & I2 & I3 & I4 & I5 & I6 & I7 & I8 & I9 & I10 & I11).
    destruct (chan_cached_facts k c Hc) as (Cx & Cy & Cn & L1 & L2 & L3 & L4).
    cbn [calc3_step Object3D.chanlist Object3D.numVox Object3D.xSum Object3D.ySum
         Object3D.zSum Object3D.xmin Object3D.xmax Object3D.ymin Object3D.ymax
         Object3D.zmin Object3D.zmax fst snd] in *.
    unfold getSize in *.
    rewrite xsl_cons, ysl_cons, zsl_cons, !sumZ_app, sumZ_const.
    split; [exact I1|]. split; [rewrite I2; simpl; lia|].
    split; [rewrite I3, Cx; lia|]. split; [rewrite I4, Cy; lia|].
    split; [rewrite I5, Cn; lia|].
    split; [exact (least_step _ _ _ _ _ I6 L1)|].
    split; [exact (greatest_step _ _ _ _ _ I7 L2)|].
    split; [exact (least_step _ _ _ _ _ I8 L3)|].
    split; [exact (greatest_step _ _ _ _ _ I9 L4)|].
    split; assumption.
Qed.

Lemma calcParams3D_Cache o :
  Good3 o -> Cache3 o -> Object3D.chanlist o <> [] ->
  Forall (fun kv => Forall fits_int (Object2D.scanlist (snd kv))) (Object3D.chanlist o) ->
  ChannelOps.calcParams o = o.
Proof.
  intros (Hi & Hs & Hcb) [(Sx & Sy & Sz) Hbox] Hne Hfit.
  pose proof Hi as (Hnd & Hall & Hn).
  assert (map (fun kv : Z * Object2D.t => (fst kv, ObjectOps.calcParams (snd kv)))
            (Object3D.chanlist o) = Object3D.chanlist o) as Ecl.
  { rewrite <- (map_id (Object3D.chanlist o)) at 2. apply map_ext_in. intros [k c] Hin.
    simpl. f_equal. unfold channels_built in Hcb. rewrite List.Forall_forall in Hcb, Hfit.
    apply calcParams_Cache; [apply built2D_Cache, (Hcb _ Hin)|apply (Hfit _ Hin)]. }
  assert (Forall chan_cached (Object3D.chanlist o)) as Hcc.
  { unfold channels_built in Hcb. rewrite List.Forall_forall in *. intros kv Hin.
    split; [apply built2D_Cache, Hcb, Hin|]. destruct (Hall kv Hin) as (_ & H1 & _). exact H1. }
  assert (Object3D.voxels o <> []) as Hvne.
  { intros Hnil. apply Hne. apply (total_vox_zero _ _ Hall).
    rewrite <- Hn. apply (voxels_nil_iff o Hi), Hnil. }
  destruct (Hbox Hvne) as (B1 & B2 & B3 & B4 & B5 & B6).
  pose proof (least_same _ _ _ (fun v => iff_sym (zs3_keys _ v Hi))
                (first_key_least _ Hs Hne)) as Lz.
  pose proof (greatest_same _ _ _ (fun v => iff_sym (zs3_keys _ v Hi))
                (last_key_greatest _ Hs Hne)) as Gz.
  unfold ChannelOps.calcParams. cbv zeta. rewrite Ecl.
  change (xs3 o) with (xsl (Object3D.chanlist o)) in *.
  change (ys3 o) with (ysl (Object3D.chanlist o)) in *.
  change (zs3 o) with (zsl (Object3D.chanlist o)) in *.
  destruct o as [cl n xs ys zs x0 x1 y0 y1 z0 z1].
  cbn [Object3D.chanlist Object3D.numVox Object3D.xSum Object3D.ySum Object3D.zSum
       Object3D.xmin Object3D.xmax Object3D.ymin Object3D.ymax Object3D.zmin
       Object3D.zmax] in *.
  destruct cl as [|[k c] l]; [destruct Hne; reflexivity|].
  apply Forall_cons in Hcc as [Hc Hcc]. cbn [calc3_loop].
  destruct (calc3_loop_false l (calc3_step true
              (Object3D.mk ((k, c) :: l) 0 0 0 0 x0 x1 y0 y1
                 (Object3D.first_key ((k, c) :: l)) (Object3D.last_key ((k, c) :: l)))
              (k, c)) Hcc)
    as (I1 & I2 & I3 & I4 & I5 & I6 & I7 & I8 & I9 & I10 & I11).
  destruct (chan_cached_facts k c Hc) as (Cx & Cy & Cn & L1 & L2 & L3 & L4).
  destruct (calc3_loop false l _) as [cl' n' xs' ys' zs' x0' x1' y0' y1' z0' z1'].
  cbn [calc3_step Object3D.chanlist Object3D.numVox Object3D.xSum Object3D.ySum
       Object3D.zSum Object3D.xmin Object3D.xmax Object3D.ymin Object3D.ymax
       Object3D.zmin Object3D.zmax fst snd] in *.
  unfold getSize in *.
  rewrite xsl_cons in *. rewrite ysl_cons in *. rewrite zsl_cons in *.
  rewrite !sumZ_app, ?sumZ_const in *.
  f_equal.
  - exact I1.
  - rewrite I2, Hn. simpl. lia.
  - rewrite I3, Sx, Cx. lia.
  - rewrite I4, Sy, Cy. lia.
  - rewrite I5, Sz, Cn. lia.
  - apply (least_unique _ _ _ (least_first _ _ _ _ I6 L1) B1).
  - apply (greatest_unique _ _ _ (greatest_first _ _ _ _ I7 L2) B2).
  - apply (least_unique _ _ _ (least_first _ _ _ _ I8 L3) B3).
  - apply (greatest_unique _ _ _ (greatest_first _ _ _ _ I9 L4) B4).
  - rewrite I10. apply (least_unique _ _ _ Lz B5).
  - rewrite I11. apply (greatest_unique _ _ _ Gz B6).
Qed.

(** X21.  [Object3D::calcParams] recomputes every channel and puts the
    count, the sums and the box together from the channels.  On an
    Object3D with at least one voxel that was built by [addPixel] and
    [addOffsets] (columns within the range of the [int] loop counter) it
    changes nothing: the cached numVox, sums and box of the object and of
    every channel are already the ones it computes. *)
Theorem calcParams3D_changes_nothing (o : Object3D.t) :
  built3D o -> Object3D.numVox o <> 0 ->
  Forall (fun kv => Forall fits_int (Object2D.scanlist (snd kv))) (Object3D.chanlist o) ->
  ChannelOps.calcParams o = o.
Proof.
  intros Hb Hn Hfit. pose proof (built3D_Good3 o Hb) as Hg.
  apply calcParams3D_Cache; [exact Hg|apply built3D_Cache3, Hb| |exact Hfit].
  intros Hnil. apply Hn. destruct Hg as ((_ & _ & ->) & _). rewrite Hnil. reflexivity.
Qed.

Lemma calcParams3D_changes_nothing_witness :
  built3D moved_voxels /\ Object3D.numVox moved_voxels <> 0 /\
  Forall (fun kv => Forall fits_int (Object2D.scanlist (snd kv)))
    (Object3D.chanlist moved_voxels) /\
  ChannelOps.calcParams moved_voxels = moved_voxels.
Proof.
  assert (Object3D.numVox moved_voxels <> 0) as Hn by (simpl; lia).
  assert (Forall (fun kv => Forall fits_int (Object2D.scanlist (snd kv)))
            (Object3D.chanlist moved_voxels)) as Hfit
    by (repeat constructor; simpl; lia).
  split; [exact built3D_moved_voxels|]. split; [exact Hn|]. split; [exact Hfit|].
  apply (calcParams3D_changes_nothing moved_voxels built3D_moved_voxels Hn Hfit).
Defined.

End ChannelOpsProps.

(** ** Completeness and connectedness of the growth *)

Module GrowthReach.

Import PixelInfo PixelInfoProps ObjectGrower ObjectGrowerProps ChannelOpsProps.
Local Open Scope Z_scope.

Section Reach.

Variable T : Type.
Variable isDetection : T -> bool.
Variable noFlux : T.

Implicit Types (g : t T) (v u : Voxel T) (c : Z * Z * Z).

Definition coords v : Z * Z * Z := (getX v, getY v, getZ v).

Definition place g c : nat := position g (fst (fst c)) (snd (fst c)) (snd c).

(** [c] is one of the voxels the loops around [u] look at. *)
Definition neighbour g u c : Prop :=
  c ∈ surrounding g (getX u) (getY u) (getZ u) /\ c <> coords u.

(** The growth has nothing to take at [p]: the voxel there is not
    AVAILABLE, or its flux does not pass the growth test. *)
Definition settled g (flags : list STATE) (p : nat) : Prop :=
  forall f, flags !! p = Some AVAILABLE -> itsFluxArray g !! p = Some f -> isDetection f = false.

(** Nothing is left to take around the voxels of [vs]. *)
Definition closed g (flags : list STATE) (vs : list (Voxel T)) : Prop :=
  forall u c, u ∈ vs -> neighbour g u c -> settled g flags (place g c).

Lemma settled_Grown g f0 f1 added p :
  Grown T isDetection g f0 f1 added -> settled g f0 p -> settled g f1 p.
Proof.
  intros (_ & _ & _ & HD & HU & _) Hs f Hav Hf.
  destruct (decide (p ∈ map (pos T g) added)) as [Hin|Hout].
  - rewrite (HD _ Hin) in Hav. discriminate.
  - rewrite (HU _ Hout) in Hav. exact (Hs f Hav Hf).
Qed.

(** After the body of the innermost loop the voxel it looked at is
    settled, unless it is the centre. *)
Lemma visit_settles g mkV xpt ypt zpt st c :
  c <> (xpt, ypt, zpt) ->
  settled g (fst (visit isDetection g mkV xpt ypt zpt st c)) (place g c).
Proof.
  intros Hne. unfold visit, place. destruct c as [[x y] z]. simpl.
  assert (negb (x =? xpt) || negb (y =? ypt) || negb (z =? zpt) = true) as ->.
  { destruct (Z.eqb_spec x xpt) as [->|]; [|reflexivity].
    destruct (Z.eqb_spec y ypt) as [->|]; [|reflexivity].
    destruct (Z.eqb_spec z zpt) as [->|]; [|reflexivity]. destruct Hne. reflexivity. }
  destruct (fst st !! position g x y z) as [s|] eqn:E1.
  - destruct s.
    + destruct (itsFluxArray g !! position g x y z) as [f|] eqn:E2.
      * destruct (isDetection f) eqn:E3.
        -- simpl. intros f' Hav _.
           rewrite list_lookup_insert_eq in Hav by (eapply lookup_lt_Some; eauto). discriminate.
        -- intros f' _ Hf. rewrite E2 in Hf. injection Hf as <-. exact E3.
      * intros f' _ Hf. rewrite E2 in Hf. discriminate.
    + intros f' Hav _. rewrite E1 in Hav. discriminate.
    + intros f' Hav _. rewrite E1 in Hav. discriminate.
  - intros f' Hav _. rewrite E1 in Hav. discriminate.
Qed.

Lemma visit_keeps_settled g mkV xpt ypt zpt st c p :
  settled g (fst st) p -> settled g (fst (visit isDetection g mkV xpt ypt zpt st c)) p.
Proof.
  intros Hs. unfold visit. destruct c as [[x y] z].
  destruct (negb (x =? xpt) || negb (y =? ypt) || negb (z =? zpt)); [|exact Hs].
  destruct (fst st !! position g x y z) as [[| |]|] eqn:E1; try exact Hs.
  destruct (itsFluxArray g !! position g x y z) as [f|] eqn:E2; [|exact Hs].
  destruct (isDetection f) eqn:E3; [|exact Hs]. simpl.
  intros f' Hav Hf. destruct (decide (p = position g x y z)) as [->|Hne].
  - rewrite list_lookup_insert_eq in Hav by (eapply lookup_lt_Some; eauto). discriminate.
  - rewrite list_lookup_insert_ne in Hav by congruence. exact (Hs f' Hav Hf).
Qed.

Lemma fold_visit_keeps_settled g mkV xpt ypt zpt l st p :
  settled g (fst st) p ->
  settled g (fst (fold_left (visit isDetection g mkV xpt ypt zpt) l st)) p.
Proof.
  revert st. induction l as [|c l IH]; simpl; intros st Hs; [exact Hs|].
  apply IH, visit_keeps_settled, Hs.
Qed.

Lemma fold_visit_settles g mkV xpt ypt zpt l st c :
  c ∈ l -> c <> (xpt, ypt, zpt) ->
  settled g (fst (fold_left (visit isDetection g mkV xpt ypt zpt) l st)) (place g c).
Proof.
  revert st. induction l as [|c' l IH]; intros st Hin Hne.
  - apply elem_of_nil in Hin. destruct Hin.
  - simpl. apply elem_of_cons in Hin as [->|Hin]; [|apply IH; assumption].
    apply fold_visit_keeps_settled, visit_settles, Hne.
Qed.

(** After the loops around a voxel nothing is left to take around it. *)
Lemma visit_all_settles g mkV flags u c :
  neighbour g u c ->
  settled g (fst (visit_all isDetection g mkV flags (getX u) (getY u) (getZ u))) (place g c).
Proof. intros [Hin Hne]. apply fold_visit_settles; assumption. Qed.

(** The body of the innermost loop pushes nothing, or the voxel it looked
    at, which is then not the centre. *)
Lemma visit_pushes g mkV xpt ypt zpt st c :
  at_position T mkV ->
  exists new, snd (visit isDetection g mkV xpt ypt zpt st c) = snd st ++ new /\
              forall w, w ∈ new -> coords w = c /\ c <> (xpt, ypt, zpt).
Proof.
  intros Hmk.
  assert (exists new : list (Voxel T), snd st = snd st ++ new /\
            forall w, w ∈ new -> coords w = c /\ c <> (xpt, ypt, zpt)) as Hsame.
  { exists []. split; [rewrite app_nil_r; reflexivity|]. intros w Hw.
    apply elem_of_nil in Hw. destruct Hw. }
  unfold visit. destruct c as [[x y] z].
  destruct (negb (x =? xpt) || negb (y =? ypt) || negb (z =? zpt)) eqn:Ec; [|exact Hsame].
  destruct (fst st !! position g x y z) as [[| |]|]; try exact Hsame.
  destruct (itsFluxArray g !! position g x y z) as [f|]; [|exact Hsame].
  destruct (isDetection f); [|exact Hsame].
  simpl. exists [mkV x y z f]. split; [reflexivity|].
  intros w Hw. apply list_elem_of_singleton in Hw. subst w.
  unfold coords. destruct (Hmk x y z f) as (-> & -> & ->). split; [reflexivity|].
  intros [= -> -> ->]. rewrite !Z.eqb_refl in Ec. discriminate.
Qed.

(** The voxels the loops around a voxel push are neighbours of it. *)
Lemma visit_pushes_neighbours g mkV xpt ypt zpt l st :
  at_position T mkV ->
  exists new, snd (fold_left (visit isDetection g mkV xpt ypt zpt) l st) = snd st ++ new /\
              forall w, w ∈ new -> coords w ∈ l /\ coords w <> (xpt, ypt, zpt).
Proof.
  intros Hmk. revert st. induction l as [|c l IH]; simpl; intros st.
  - exists []. split; [rewrite app_nil_r; reflexivity|]. intros w Hw.
    apply elem_of_nil in Hw. destruct Hw.
  - destruct (IH (visit isDetection g mkV xpt ypt zpt st c)) as (new & E & Hnew).
    destruct (visit_pushes g mkV xpt ypt zpt st c Hmk) as (new0 & E0 & Hnew0).
    exists (new0 ++ new). split; [rewrite E, E0, <- app_assoc; reflexivity|].
    intros w Hw. apply elem_of_app in Hw as [Hw|Hw].
    + destruct (Hnew0 w Hw) as [-> Hne]. split; [left|exact Hne].
    + destruct (Hnew w Hw) as [H1 H2]. split; [right; exact H1|exact H2].
Qed.

Lemma visit_all_neighbours g mkV flags u w :
  at_position T mkV ->
  w ∈ snd (visit_all isDetection g mkV flags (getX u) (getY u) (getZ u)) ->
  neighbour g u (coords w).
Proof.
  intros Hmk Hw. unfold visit_all in Hw.
  destruct (visit_pushes_neighbours g mkV (getX u) (getY u) (getZ u)
              (surrounding g (getX u) (getY u) (getZ u)) (flags, []) Hmk) as (new & E & Hnew).
  rewrite E in Hw. simpl in Hw. exact (Hnew w Hw).
Qed.

(** Every voxel of [added] has, among [orig] and the voxels added before
    it, one it is a neighbour of. *)
Inductive linked g (orig : list (Voxel T)) : list (Voxel T) -> Prop :=
| linked_nil : linked g orig []
| linked_snoc added w u :
    linked g orig added -> u ∈ orig ++ added -> neighbour g u (coords w) ->
    linked g orig (added ++ [w]).

Lemma linked_app g orig added new :
  linked g orig added ->
  (forall w, w ∈ new -> exists u, u ∈ orig ++ added /\ neighbour g u (coords w)) ->
  linked g orig (added ++ new).
Proof.
  revert added. induction new as [|w new IH]; intros added Hl Hnew.
  - rewrite app_nil_r. exact Hl.
  - replace (added ++ w :: new) with ((added ++ [w]) ++ new)
      by (rewrite <- app_assoc; reflexivity).
    apply IH.
    + destruct (Hnew w ltac:(left)) as (u & Hu & Hn). exact (linked_snoc g orig added w u Hl Hu Hn).
    + intros w' Hw'. destruct (Hnew w' ltac:(right; exact Hw')) as (u & Hu & Hn).
      exists u. split; [|exact Hn]. rewrite app_assoc. apply elem_of_app. left. exact Hu.
Qed.

(** The loop of [grow]: when it ends, nothing is left to take around the
    voxels it went through, and every voxel pushed is linked to them. *)
Lemma grow_loop_reach g orig fuel flags pending pushed done flags' pushed' :
  grow_loop isDetection noFlux fuel g flags pending pushed = Some (flags', pushed') ->
  closed g flags done -> linked g orig pushed ->
  (forall u, u ∈ pending -> u ∈ orig ++ pushed) ->
  exists new, pushed' = pushed ++ new /\ closed g flags' (done ++ pending ++ new) /\
              linked g orig pushed'.
Proof.
  revert flags pending pushed done. induction fuel as [|fuel IH];
    intros flags pending pushed done; destruct pending as [|v rest]; simpl; try discriminate.
  - intros [= <- <-] Hc Hl _. exists []. rewrite !app_nil_r. auto.
  - intros [= <- <-] Hc Hl _. exists []. rewrite !app_nil_r. auto.
  - intros E Hc Hl Hp.
    pose proof (visit_all_Grown T isDetection noFlux g _ flags (getX v) (getY v) (getZ v)
                  (at_position_noFlux T noFlux)) as HG.
    pose proof (fun c => visit_all_settles g (fun x y z _ => mkVoxel x y z noFlux) flags v c)
      as Hset.
    pose proof (fun w => visit_all_neighbours g (fun x y z _ => mkVoxel x y z noFlux) flags v w
                           (at_position_noFlux T noFlux)) as Hnb.
    destruct (visit_all isDetection g _ flags (getX v) (getY v) (getZ v)) as [fl nw].
    simpl in HG, Hset, Hnb.
    destruct (IH fl (rest ++ nw) (pushed ++ nw) (done ++ [v]) E) as (new & E' & Hc' & Hl').
    + intros u c Hu Hn. apply elem_of_app in Hu as [Hu|Hu].
      * exact (settled_Grown g flags fl nw _ HG (Hc u c Hu Hn)).
      * apply list_elem_of_singleton in Hu. subst u. exact (Hset c Hn).
    + apply linked_app; [exact Hl|]. intros w Hw. exists v.
      split; [apply Hp; left|exact (Hnb w Hw)].
    + intros u Hu. rewrite app_assoc. apply elem_of_app.
      apply elem_of_app in Hu as [Hu|Hu]; [left; apply Hp; right; exact Hu|right; exact Hu].
    + exists (nw ++ new). split; [rewrite E', <- app_assoc; reflexivity|]. split; [|exact Hl'].
      intros u c Hu. apply Hc'. revert Hu. rewrite !elem_of_app, elem_of_cons, !elem_of_app,
        list_elem_of_singleton. tauto.
Qed.

(** The voxels of the object, as [grow] lists them at its start. *)
Definition voxlist (theObject : Object3D.t) : list (Voxel T) :=
  map (fun p => mkVoxel (fst (fst p)) (snd (fst p)) (snd p) noFlux) (Object3D.voxels theObject).

(** X22.  [grow] always returns, and the growth it does is complete and
    connected: afterwards, among the voxels the loops look at around any
    voxel of the grown object (those within the spatial and velocity
    thresholds, inside the cube), none is still AVAILABLE with a flux that
    passes the growth test; and every voxel added lies within the
    thresholds of a voxel of the object or of a voxel added before it. *)
Theorem grow_is_complete_and_connected (g : t T) (theObject : Object3D.t) :
  exists g' obj' added,
    grow isDetection noFlux g theObject = Some (g', obj', added) /\
    closed g (itsFlagArray g') (voxlist theObject ++ added) /\
    linked g (voxlist theObject) added.
Proof.
  unfold grow. fold (voxlist theObject).
  destruct (grow_loop_terminates T isDetection noFlux g
              (length (voxlist theObject) + available (itsFlagArray g))
              (itsFlagArray g) (voxlist theObject) []) as [[flags' pushed] E]; [lia|].
  rewrite E. eexists _, _, _. split; [reflexivity|]. simpl.
  destruct (grow_loop_reach g (voxlist theObject) _ _ _ _ [] _ _ E) as (new & E' & Hc & Hl).
  - intros u c Hu. apply elem_of_nil in Hu. destruct Hu.
  - constructor.
  - intros u Hu. rewrite app_nil_r. exact Hu.
  - simpl in E', Hc. subst new. split; assumption.
Qed.

(** The voxels the loops look at lie in the cube. *)
Lemma surrounding_in_cube g xpt ypt zpt c :
  c ∈ surrounding g xpt ypt zpt ->
  0 <= fst (fst c) < dimX g /\ 0 <= snd (fst c) < dimY g /\ 0 <= snd c < dimZ g.
Proof.
  unfold surrounding. intros Hin.
  apply list_elem_of_In, in_flat_map in Hin as (x & Hx & Hin).
  apply in_flat_map in Hin as (y & Hy & Hin).
  apply in_map_iff in Hin as (z & <- & Hz).
  apply list_elem_of_In, elem_of_zrange in Hx. apply list_elem_of_In, elem_of_zrange in Hy.
  apply list_elem_of_In, elem_of_zrange in Hz. simpl. lia.
Qed.

Lemma linked_neighbour g orig added w :
  linked g orig added -> w ∈ added -> exists u, neighbour g u (coords w).
Proof.
  induction 1 as [|added w' u Hl IH Hu Hn]; intros Hw.
  - apply elem_of_nil in Hw. destruct Hw.
  - apply elem_of_app in Hw as [Hw|Hw]; [exact (IH Hw)|].
    apply list_elem_of_singleton in Hw. subst w'. exists u. exact Hn.
Qed.

(** The loop that adds the new voxels to the object. *)
Lemma fold_addPixel_voxels (l : list (Voxel T)) o x y z :
  built3D o -> Forall (fun v => int_range (getZ v)) l ->
  built3D (fold_left (fun o' v => Object3D.addPixel o' (getX v) (getY v) (getZ v)) l o) /\
  (Object3D.isInObject
     (fold_left (fun o' v => Object3D.addPixel o' (getX v) (getY v) (getZ v)) l o) x y z = true
   <-> Object3D.isInObject o x y z = true \/ (x, y, z) ∈ map coords l).
Proof.
  intros Hb Hl. revert o Hb. induction Hl as [|v l Hv Hl IH]; simpl; intros o Hb.
  - split; [exact Hb|]. rewrite elem_of_nil. tauto.
  - destruct (IH _ (built3D_addPixel o (getX v) (getY v) (getZ v) Hv Hb)) as [H1 H2].
    split; [exact H1|]. rewrite H2, elem_of_cons.
    rewrite addPixel3D_holds by (try apply built3D_Good3; assumption).
    unfold here3, coords. rewrite orb_true_iff, !andb_true_iff, !Z.eqb_eq. split.
    + intros [[H|[[-> ->] ->]]|H]; auto.
    + intros [H|[[= -> -> ->]|H]]; auto.
Qed.

(** X23.  [grow], on an object built by [addPixel] and [addOffsets] in a
    cube whose number of channels an [int] holds, returns with the voxels
    it found added to the object: the object then holds exactly the voxels
    it held and the voxels added, each once, with numVox their number.
    The voxels added lie inside the cube, and the dimensions, thresholds
    and fluxes of the grower are as they were. *)
Theorem grow_adds_the_voxels_found (g : t T) (theObject : Object3D.t) :
  built3D theObject -> dimZ g <= 2147483648 ->
  exists g' obj' added,
    grow isDetection noFlux g theObject = Some (g', obj', added) /\
    (forall x y z, Object3D.isInObject obj' x y z = true
                   <-> Object3D.isInObject theObject x y z = true
                       \/ (x, y, z) ∈ map coords added) /\
    NoDup (Object3D.voxels obj') /\
    Object3D.numVox obj' = Z.of_nat (length (Object3D.voxels obj')) /\
    (forall v, v ∈ added ->
       0 <= getX v < dimX g /\ 0 <= getY v < dimY g /\ 0 <= getZ v < dimZ g) /\
    itsArrayDim g' = itsArrayDim g /\ itsSpatialThresh g' = itsSpatialThresh g /\
    itsVelocityThresh g' = itsVelocityThresh g /\ itsFluxArray g' = itsFluxArray g.
Proof.
  intros Hb Hdim. unfold grow. fold (voxlist theObject).
  destruct (grow_loop_terminates T isDetection noFlux g
              (length (voxlist theObject) + available (itsFlagArray g))
              (itsFlagArray g) (voxlist theObject) []) as [[flags' pushed] E]; [lia|].
  rewrite E. eexists _, _, _. split; [reflexivity|].
  destruct (grow_loop_reach g (voxlist theObject) _ _ _ _ [] _ _ E) as (new & E' & _ & Hl).
  { intros u c Hu. apply elem_of_nil in Hu. destruct Hu. }
  { constructor. }
  { intros u Hu. rewrite app_nil_r. exact Hu. }
  assert (forall v, v ∈ pushed ->
            0 <= getX v < dimX g /\ 0 <= getY v < dimY g /\ 0 <= getZ v < dimZ g) as Hin.
  { intros v Hv. destruct (linked_neighbour g _ _ v Hl Hv) as (u & Hu & _).
    exact (surrounding_in_cube g _ _ _ _ Hu). }
  assert (Forall (fun v => int_range (getZ v)) pushed) as Hz.
  { apply List.Forall_forall. intros v Hv.
    destruct (Hin v (proj2 (list_elem_of_In _ _) Hv)) as (_ & _ & H). unfold int_range. lia. }
  split; [|split; [|split; [|split; [exact Hin|simpl; auto]]]].
  - intros x y z. apply (proj2 (fold_addPixel_voxels pushed theObject x y z Hb Hz)).
  - apply NoDup_voxels, built3D_Inv3, (proj1 (fold_addPixel_voxels pushed theObject 0 0 0 Hb Hz)).
  - apply length_voxels, built3D_Inv3,
      (proj1 (fold_addPixel_voxels pushed theObject 0 0 0 Hb Hz)).
Qed.

Lemma linked_extend g orig o2 a b :
  linked g o2 b -> (forall u, u ∈ o2 -> u ∈ orig ++ a) -> linked g orig a ->
  linked g orig (a ++ b).
Proof.
  intros Hb Ho Ha. induction Hb as [|b w u Hb IH Hu Hn].
  - rewrite app_nil_r. exact Ha.
  - rewrite app_assoc. apply (linked_snoc g orig (a ++ b) w u IH); [|exact Hn].
    apply elem_of_app in Hu as [Hu|Hu].
    + rewrite app_assoc. apply elem_of_app. left. apply Ho, Hu.
    + rewrite app_assoc. apply elem_of_app. right. exact Hu.
Qed.

(** *** The defined runs of [growFromPixel] *)

Variable capacity0 : nat.
Variable regrow : nat -> nat.

Lemma settled_Grown_all g fl fl' added l :
  Grown T isDetection g fl fl' added -> closed g fl l -> closed g fl' l.
Proof. intros HG Hc u c Hu Hn. exact (settled_Grown g fl fl' added _ HG (Hc u c Hu Hn)). Qed.

(** The loop of [growFromPixel] over its growing vector, when the calls it
    makes do what the function is to do and the loop comes to its end. *)
Lemma expand_reach g rec vox n : forall fl vec i fl' out,
  (forall fl v fl' more, rec fl v = (fl', Returned more) ->
     Grown T isDetection g fl fl' more /\ closed g fl' [v] /\ linked g [v] more) ->
  expand regrow rec n fl vec i = (fl', Returned out) ->
  closed g fl (vox :: take i (fst vec)) -> linked g [vox] (fst vec) ->
  closed g fl' (vox :: out) /\ linked g [vox] out.
Proof.
  induction n as [|n IH]; intros fl vec i fl' out Hrec; cbn [expand];
    destruct (fst vec !! i) as [v|] eqn:Ev; try discriminate.
  - intros [= <- <-] Hc Hl. rewrite take_ge in Hc by (apply lookup_ge_None_1, Ev). auto.
  - destruct (rec fl v) as [fl1 [more| |]] eqn:E; try discriminate.
    destruct (Hrec _ _ _ _ E) as (HG & Hcv & Hlv).
    destruct (snd (push_all regrow vec more)) eqn:Em; [discriminate|].
    intros E' Hc Hl. apply (IH fl1 (fst (push_all regrow vec more)) (S i) fl' out Hrec E').
    + rewrite (push_all_elements T regrow).
      rewrite take_app_le by (apply lookup_lt_Some in Ev; lia).
      rewrite (take_S_r _ _ _ Ev).
      intros u c Hu Hn. rewrite app_comm_cons in Hu. apply elem_of_app in Hu as [Hu|Hu].
      * exact (settled_Grown g fl fl1 more _ HG (Hc u c Hu Hn)).
      * exact (Hcv u c Hu Hn).
    + rewrite (push_all_elements T regrow).
      apply (linked_extend g [vox] [v]); [exact Hlv| |exact Hl].
      intros u Hu. apply list_elem_of_singleton in Hu. subst u.
      right. apply (list_elem_of_lookup_2 _ i), Ev.
  - intros [= <- <-] Hc Hl. rewrite take_ge in Hc by (apply lookup_ge_None_1, Ev). auto.
Qed.

Lemma growFromPixel_reach g fuel : forall flags vox flags' out,
  growFromPixel isDetection capacity0 regrow fuel g flags vox = (flags', Returned out) ->
  closed g flags' (vox :: out) /\ linked g [vox] out.
Proof.
  induction fuel as [|fuel IH]; intros flags vox flags' out; cbn [growFromPixel];
    [discriminate|].
  pose proof (fun c => visit_all_settles g mkVoxel flags vox c) as Hset.
  pose proof (fun w => visit_all_neighbours g mkVoxel flags vox w (at_position_mkVoxel T))
    as Hnb.
  destruct (visit_all isDetection g mkVoxel flags (getX vox) (getY vox) (getZ vox)) as [fl found].
  simpl in Hset, Hnb. intros E.
  apply (expand_reach g (growFromPixel isDetection capacity0 regrow fuel g) vox fuel fl
           (fst (push_all regrow ([], capacity0) found)) 0 flags' out).
  - intros fl0 v fl1 more E1. split.
    + pose proof (growFromPixel_ends_well T isDetection noFlux capacity0 regrow g fuel fl0 v) as H.
      unfold ends_well in H. rewrite E1 in H. exact H.
    + destruct (IH _ _ _ _ E1) as [Hc Hl]. split; [|exact Hl].
      intros u c Hu. apply Hc. apply list_elem_of_singleton in Hu. subst u. left.
  - exact E.
  - rewrite take_0. intros u c Hu Hn. apply list_elem_of_singleton in Hu. subst u.
    exact (Hset c Hn).
  - rewrite (push_all_elements T regrow). cbn [fst app].
    apply (linked_app g [vox] [] found); [constructor|].
    intros w Hw. exists vox. split; [left|exact (Hnb w Hw)].
Qed.

(** X24.  A call of [growFromPixel] that is given the depth a growth can
    need in the array ends, by a return or at the iterator that a
    [push_back] has invalidated.  When it returns, what it returns is
    complete and connected: around the start voxel and every voxel
    returned, no voxel the loops look at is still AVAILABLE with a flux
    that passes the growth test, and every voxel returned lies within the
    thresholds of the start voxel or of a voxel returned before it. *)
Theorem growFromPixel_is_complete_and_connected (g : t T) (flags : list STATE)
    (vox : Voxel T) (fuel : nat) :
  (available flags < fuel)%nat ->
  snd (growFromPixel isDetection capacity0 regrow fuel g flags vox) <> OutOfFuel /\
  forall newVoxels,
    snd (growFromPixel isDetection capacity0 regrow fuel g flags vox) = Returned newVoxels ->
    closed g (fst (growFromPixel isDetection capacity0 regrow fuel g flags vox))
           (vox :: newVoxels) /\
    linked g [vox] newVoxels.
Proof.
  intros Hf. split; [apply (growFromPixel_terminates T isDetection noFlux), Hf|].
  intros newVoxels E. apply (growFromPixel_reach g fuel flags vox).
  rewrite <- E. apply surjective_pairing.
Qed.

End Reach.

(** The row of seven voxels of [row_grower]: the growth from voxel 1. *)
Lemma grow_adds_the_voxels_found_witness :
  built3D row_object /\ dimZ row_grower <= 2147483648 /\
  exists g' obj' added,
    grow (fun f => 3 <=? f) 0 row_grower row_object = Some (g', obj', added) /\
    (forall x y z, Object3D.isInObject obj' x y z = true
                   <-> Object3D.isInObject row_object x y z = true
                       \/ (x, y, z) ∈ map (coords Z) added) /\
    NoDup (Object3D.voxels obj') /\
    Object3D.numVox obj' = Z.of_nat (length (Object3D.voxels obj')) /\
    (forall v, v ∈ added ->
       0 <= getX v < dimX row_grower /\ 0 <= getY v < dimY row_grower /\
       0 <= getZ v < dimZ row_grower) /\
    itsArrayDim g' = itsArrayDim row_grower /\
    itsSpatialThresh g' = itsSpatialThresh row_grower /\
    itsVelocityThresh g' = itsVelocityThresh row_grower /\
    itsFluxArray g' = itsFluxArray row_grower.
Proof.
  assert (built3D row_object) as Hb
    by (apply built3D_addPixel; [unfold int_range; lia|apply built3D_empty]).
  assert (dimZ row_grower <= 2147483648) as Hd by (unfold dimZ; simpl; lia).
  split; [exact Hb|]. split; [exact Hd|].
  apply (grow_adds_the_voxels_found Z (fun f => 3 <=? f) 0 row_grower row_object Hb Hd).
Defined.

(** The row of [wide_grower]: the loops around voxel 2 find voxels 1, 3 and
    4, the call on voxel 3 returns voxel 5, for which the vector has room,
    and the call returns the four voxels. *)
Lemma growFromPixel_is_complete_and_connected_witness :
  (available (itsFlagArray wide_grower) < 6)%nat /\
  snd (growFromPixel (fun f => 3 <=? f) 0 doubling 6 wide_grower (itsFlagArray wide_grower)
                     (mkVoxel 2 0 0 5)) <> OutOfFuel /\
  forall newVoxels,
    snd (growFromPixel (fun f => 3 <=? f) 0 doubling 6 wide_grower (itsFlagArray wide_grower)
                       (mkVoxel 2 0 0 5)) = Returned newVoxels ->
    closed Z (fun f => 3 <=? f) wide_grower
           (fst (growFromPixel (fun f => 3 <=? f) 0 doubling 6 wide_grower
                               (itsFlagArray wide_grower) (mkVoxel 2 0 0 5)))
           (mkVoxel 2 0 0 5 :: newVoxels) /\
    linked Z wide_grower [mkVoxel 2 0 0 5] newVoxels.
Proof.
  split; [simpl; lia|].
  apply (growFromPixel_is_complete_and_connected Z (fun f => 3 <=? f) 0 0%nat doubling wide_grower
           (itsFlagArray wide_grower) (mkVoxel 2 0 0 5) 6).
  simpl; lia.
Defined.

End GrowthReach.

(** ** Setting up the grower and the detection map *)

Module GrowerSetup.

Import PixelInfo ObjectGrower.
Local Open Scope Z_scope.

(** Modelled from the spec: SEARCH_PAR is declared in Arrays/param.hh,
    which is not among the sources; these are the members [define] reads
    for the thresholds. *)
Record SEARCH_PAR : Type := mkPar {
  flagAdjacent : bool;
  threshSpatial : Q;
  threshVelocity : Q
}.

(** The conversion [int(f)] of a floating-point value: the fractional part
    is dropped. *)
Definition to_int_trunc (q : Q) : Z := Z.quot (Qnum q) (Z.pos (Qden q)).

Section Setup.

Variable T : Type.

(** The flags after the loops of [define] over the voxels of the objects:
    [itsFlagArray[pos] = DETECTED] at every voxel of every object. *)
Definition flag_objects (g : t T) (objectList : list Object3D.t) (flags : list STATE)
  : list STATE :=
  fold_left (fun fl o =>
               fold_left (fun fl' v => <[position g (fst (fst v)) (snd (fst v)) (snd v) := DETECTED]> fl')
                         (Object3D.voxels o) fl)
            objectList flags.

(** [ObjectGrower::define] (both overloads set the same members): the
    array, the dimensions and the thresholds are taken over, all flags are
    set to AVAILABLE and then to DETECTED at the voxels of the objects.
    The growth statistics are set up with the Stats class, which stands
    behind the growth test. *)
Definition define (array : list T) (xsize ysize zsize : Z) (objectList : list Object3D.t)
    (p : SEARCH_PAR) : t T :=
  let g0 := mk (replicate (Z.to_nat (xsize * ysize * zsize)) AVAILABLE)
               (xsize, ysize, zsize)
               (if flagAdjacent p then 1 else to_int_trunc (threshSpatial p))
               (to_int_trunc (threshVelocity p))
               array in
  mk (flag_objects g0 objectList (itsFlagArray g0))
     (itsArrayDim g0) (itsSpatialThresh g0) (itsVelocityThresh g0) (itsFluxArray g0).

(** The conversion to the [short] counter of [updateDetectMap]. *)
Definition to_short (z : Z) : Z := (z + 32768) mod 65536 - 32768.

(** [short ct=0; for(z...) if(itsFlagArray[xy+z*spatsize]==DETECTED) ct++;] *)
Definition count_detected (g : t T) (xy : Z) : Z :=
  fold_left (fun ct z =>
               match itsFlagArray g !! Z.to_nat (xy + z * (dimX g * dimY g)) with
               | Some DETECTED => to_short (ct + 1)
               | _ => ct
               end)
            (zrange 0 (dimZ g - 1)) 0.

(** [ObjectGrower::updateDetectMap]. *)
Definition updateDetectMap (g : t T) (map : list Z) : list Z :=
  let numNondegDim :=
    (if 1 <? dimX g then 1 else 0) + (if 1 <? dimY g then 1 else 0)
    + (if 1 <? dimZ g then 1 else 0) in
  if 1 <? numNondegDim
  then fold_left (fun m xy => <[Z.to_nat xy := count_detected g xy]> m)
                 (zrange 0 (dimX g * dimY g - 1)) map
  else fold_left (fun m z =>
                    <[Z.to_nat z := match itsFlagArray g !! Z.to_nat z with
                                    | Some DETECTED => 1
                                    | _ => 0
                                    end]> m)
                 (zrange 0 (dimZ g - 1)) map.

End Setup.

Arguments flag_objects {T} _ _ _.
Arguments define {T} _ _ _ _ _ _.
Arguments count_detected {T} _ _.
Arguments updateDetectMap {T} _ _.

End GrowerSetup.

Module GrowerSetupProps.

Import PixelInfo PixelInfoProps ObjectGrower ObjectGrowerProps GrowerSetup.
Local Open Scope Z_scope.

Section SetupProps.

Variable T : Type.

Implicit Types (g : t T).

(** The voxel lies in the cube of the grower. *)
Definition in_cube g (c : Z * Z * Z) : Prop :=
  0 <= fst (fst c) < dimX g /\ 0 <= snd (fst c) < dimY g /\ 0 <= snd c < dimZ g.

Definition place g (c : Z * Z * Z) : nat := position g (fst (fst c)) (snd (fst c)) (snd c).

(** Two voxels of the cube are at different places of the arrays. *)
Lemma place_inj g c c' : in_cube g c -> in_cube g c' -> place g c = place g c' -> c = c'.
Proof.
  destruct c as [[x y] z], c' as [[x' y'] z']. unfold in_cube, place, position. simpl.
  intros (Hx & Hy & Hz) (Hx' & Hy' & Hz') E.
  assert (0 <= dimX g * dimY g) as HA by (apply Z.mul_nonneg_nonneg; lia).
  assert (0 <= y * dimX g /\ 0 <= y' * dimX g) as [Hy0 Hy0']
    by (split; apply Z.mul_nonneg_nonneg; lia).
  assert (0 <= z * (dimX g * dimY g) /\ 0 <= z' * (dimX g * dimY g)) as [Hz0 Hz0']
    by (split; apply Z.mul_nonneg_nonneg; lia).
  apply Z2Nat.inj in E; [|lia|lia].
  assert (y * dimX g <= (dimY g - 1) * dimX g /\ y' * dimX g <= (dimY g - 1) * dimX g)
    as [Hyb Hyb'] by (split; apply Z.mul_le_mono_nonneg_r; lia).
  assert (0 <= x + y * dimX g < dimX g * dimY g) as H1 by lia.
  assert (0 <= x' + y' * dimX g < dimX g * dimY g) as H2 by lia.
  destruct (Z.div_mod_unique (dimX g * dimY g) z z' (x + y * dimX g) (x' + y' * dimX g))
    as [Ez E']; [left; exact H1|left; exact H2|lia|].
  destruct (Z.div_mod_unique (dimX g) y y' x x') as [Ey Ex]; [left; lia|left; lia|lia|].
  subst. reflexivity.
Qed.

Lemma place_lt g c :
  in_cube g c -> (place g c < Z.to_nat (dimX g * dimY g * dimZ g))%nat.
Proof.
  destruct c as [[x y] z]. unfold in_cube, place, position. simpl.
  intros (Hx & Hy & Hz).
  assert (0 <= dimX g * dimY g) as HA by (apply Z.mul_nonneg_nonneg; lia).
  assert (0 <= y * dimX g) as Hy0 by (apply Z.mul_nonneg_nonneg; lia).
  assert (0 <= z * (dimX g * dimY g)) as Hz0 by (apply Z.mul_nonneg_nonneg; lia).
  assert (y * dimX g <= (dimY g - 1) * dimX g) as Hyb
    by (apply Z.mul_le_mono_nonneg_r; lia).
  assert (z * (dimX g * dimY g) <= (dimZ g - 1) * (dimX g * dimY g)) as Hzb
    by (apply Z.mul_le_mono_nonneg_r; lia).
  apply Z2Nat.inj_lt; lia.
Qed.

(** Flags set to DETECTED at a list of places. *)
Definition flag_places (l : list nat) (flags : list STATE) : list STATE :=
  fold_left (fun fl q => <[q := DETECTED]> fl) l flags.

Lemma flag_places_length l flags : length (flag_places l flags) = length flags.
Proof.
  revert flags. induction l as [|q l IH]; simpl; intros flags; [reflexivity|].
  unfold flag_places in *. simpl. rewrite IH. apply length_insert.
Qed.

Lemma flag_places_out l flags p : p ∉ l -> flag_places l flags !! p = flags !! p.
Proof.
  revert flags. induction l as [|q l IH]; intros flags Hp; [reflexivity|].
  apply not_elem_of_cons in Hp as [Hne Hp]. unfold flag_places in *. simpl.
  rewrite IH by exact Hp. apply list_lookup_insert_ne. congruence.
Qed.

Lemma flag_places_in l flags p :
  p ∈ l -> (p < length flags)%nat -> flag_places l flags !! p = Some DETECTED.
Proof.
  revert flags. induction l as [|q l IH]; intros flags Hp Hlen.
  - apply elem_of_nil in Hp. destruct Hp.
  - unfold flag_places in *. simpl.
    destruct (decide (p ∈ l)) as [Hin|Hout].
    + apply IH; [exact Hin|]. rewrite length_insert. exact Hlen.
    + apply elem_of_cons in Hp as [->|Hp]; [|contradiction].
      fold (flag_places l (<[q := DETECTED]> flags)).
      rewrite flag_places_out by exact Hout. apply list_lookup_insert_eq, Hlen.
Qed.

Lemma flag_objects_places g objectList flags :
  flag_objects g objectList flags
  = flag_places (map (place g) (flat_map Object3D.voxels objectList)) flags.
Proof.
  unfold flag_objects, flag_places. revert flags.
  induction objectList as [|o l IH]; simpl; intros flags; [reflexivity|].
  rewrite IH, map_app, fold_left_app. f_equal.
  generalize (Object3D.voxels o) as vs. intros vs. revert flags.
  induction vs as [|v vs IHv]; simpl; intros flags; [reflexivity|]. apply IHv.
Qed.

End SetupProps.

(** A cube of 3 x 2 x 2 voxels and an object with two of them. *)
Definition small_object : Object3D.t :=
  Object3D.addPixel (Object3D.addPixel Object3D.empty 1 0 0) 2 1 1.

(** X25.  [define] leaves a flag array of xsize*ysize*zsize flags in which
    a voxel of the cube is DETECTED exactly when it is a voxel of one of
    the objects, and AVAILABLE otherwise, provided the voxels of the objects
    lie in the cube.  No flag is BLANK, whatever the fluxes are. *)
Theorem define_flags_objects_only (T : Type) (array : list T) (xsize ysize zsize : Z)
    (objectList : list Object3D.t) (p : SEARCH_PAR) :
  (forall o c, o ∈ objectList -> c ∈ Object3D.voxels o ->
               in_cube T (define array xsize ysize zsize objectList p) c) ->
  length (itsFlagArray (define array xsize ysize zsize objectList p))
  = Z.to_nat (xsize * ysize * zsize) /\
  (forall c, in_cube T (define array xsize ysize zsize objectList p) c ->
     (itsFlagArray (define array xsize ysize zsize objectList p)
        !! place T (define array xsize ysize zsize objectList p) c = Some DETECTED
      <-> exists o, o ∈ objectList /\ c ∈ Object3D.voxels o) /\
     (itsFlagArray (define array xsize ysize zsize objectList p)
        !! place T (define array xsize ysize zsize objectList p) c = Some DETECTED \/
      itsFlagArray (define array xsize ysize zsize objectList p)
        !! place T (define array xsize ysize zsize objectList p) c = Some AVAILABLE)) /\
  (forall q, itsFlagArray (define array xsize ysize zsize objectList p) !! q <> Some BLANK).
Proof.
  intros Hin. set (g := define array xsize ysize zsize objectList p) in *.
  set (all := flat_map Object3D.voxels objectList).
  assert (forall c, c ∈ all <-> exists o, o ∈ objectList /\ c ∈ Object3D.voxels o) as Hall.
  { intros c. unfold all. rewrite list_elem_of_In, in_flat_map. split.
    - intros (o & Ho & Hc). exists o. rewrite !list_elem_of_In. auto.
    - intros (o & Ho & Hc). exists o. rewrite <- !list_elem_of_In. auto. }
  assert (itsFlagArray g
          = flag_places (map (place T g) all)
              (replicate (Z.to_nat (xsize * ysize * zsize)) AVAILABLE)) as Efl.
  { unfold g, define. cbn [itsFlagArray]. rewrite flag_objects_places. reflexivity. }
  assert (length (itsFlagArray g) = Z.to_nat (xsize * ysize * zsize)) as Hlen
    by (rewrite Efl, flag_places_length, length_replicate; reflexivity).
  split; [exact Hlen|]. split.
  - intros c Hc.
    assert (place T g c < Z.to_nat (xsize * ysize * zsize))%nat as Hlt
      by exact (place_lt T g c Hc).
    destruct (decide (place T g c ∈ map (place T g) all)) as [Hp|Hp].
    + assert (itsFlagArray g !! place T g c = Some DETECTED) as E
        by (rewrite Efl; apply flag_places_in; [exact Hp|rewrite length_replicate; exact Hlt]).
      split; [|left; exact E]. split; [intros _|intros _; exact E].
      apply list_elem_of_fmap in Hp as (c' & Ec & Hc'). apply Hall.
      destruct (proj1 (Hall c') Hc') as (o & Ho & Hv).
      rewrite (place_inj T g c c' Hc (Hin o c' Ho Hv) Ec). exact Hc'.
    + assert (itsFlagArray g !! place T g c = Some AVAILABLE) as E.
      { rewrite Efl, flag_places_out by exact Hp. apply lookup_replicate_2, Hlt. }
      split; [|right; exact E]. rewrite E. split; [discriminate|].
      intros Hex. exfalso. apply Hp, list_elem_of_fmap. exists c.
      split; [reflexivity|apply Hall, Hex].
  - intros q Hq. rewrite Efl in Hq.
    destruct (decide (q ∈ map (place T g) all)) as [Hp|Hp].
    + destruct (decide (q < Z.to_nat (xsize * ysize * zsize))%nat) as [Hlt|Hge].
      * rewrite flag_places_in in Hq; [discriminate|exact Hp|rewrite length_replicate; exact Hlt].
      * rewrite lookup_ge_None_2 in Hq; [discriminate|].
        rewrite flag_places_length, length_replicate. lia.
    + rewrite flag_places_out in Hq by exact Hp.
      apply lookup_replicate in Hq as [Hq _]. discriminate.
Qed.

Definition small_grower : t Z :=
  define [0; 1; 2; 3; 4; 5; 6; 7; 8; 9; 10; 11] 3 2 2 [small_object] (mkPar true 0 0).

Lemma define_flags_objects_only_witness :
  (forall o c, o ∈ [small_object] -> c ∈ Object3D.voxels o -> in_cube Z small_grower c) /\
  length (itsFlagArray small_grower) = Z.to_nat (3 * 2 * 2) /\
  (forall c, in_cube Z small_grower c ->
     (itsFlagArray small_grower !! place Z small_grower c = Some DETECTED
      <-> exists o, o ∈ [small_object] /\ c ∈ Object3D.voxels o) /\
     (itsFlagArray small_grower !! place Z small_grower c = Some DETECTED \/
      itsFlagArray small_grower !! place Z small_grower c = Some AVAILABLE)) /\
  (forall q, itsFlagArray small_grower !! q <> Some BLANK).
Proof.
  assert (forall o c, o ∈ [small_object] -> c ∈ Object3D.voxels o ->
            in_cube Z small_grower c) as Hin.
  { intros o c Ho Hc. apply list_elem_of_singleton in Ho. subst o.
    change (Object3D.voxels small_object) with [(1, 0, 0); (2, 1, 1)] in Hc.
    apply elem_of_cons in Hc as [->|Hc];
      [unfold in_cube, dimX, dimY, dimZ, small_grower, define; simpl; lia|].
    apply list_elem_of_singleton in Hc. subst c.
    unfold in_cube, dimX, dimY, dimZ, small_grower, define; simpl; lia. }
  split; [exact Hin|].
  apply (define_flags_objects_only Z [0; 1; 2; 3; 4; 5; 6; 7; 8; 9; 10; 11] 3 2 2
           [small_object] (mkPar true 0 0) Hin).
Defined.

Example define_small_cube :
  itsFlagArray small_grower
  = [AVAILABLE; DETECTED; AVAILABLE; AVAILABLE; AVAILABLE; AVAILABLE;
     AVAILABLE; AVAILABLE; AVAILABLE; AVAILABLE; AVAILABLE; DETECTED].
Proof. reflexivity. Qed.


(** *** [updateDetectMap] *)

(** Writing [f k] at index [k] for the [k] of a range. *)
Lemma fold_insert_seq (f : Z -> Z) (n : nat) : forall (a : Z) (m : list Z) (i : nat),
  0 <= a ->
  fold_left (fun m' k => <[Z.to_nat k := f k]> m') (zseq a n) m !! i
  = if decide (Z.to_nat a <= i < Z.to_nat a + n /\ i < length m)%nat
    then Some (f (Z.of_nat i)) else m !! i.
Proof.
  induction n as [|n IH]; intros a m i Ha; simpl.
  - destruct (decide _) as [H|H]; [lia|reflexivity].
  - rewrite IH by lia. rewrite length_insert.
    replace (Z.to_nat (a + 1)) with (S (Z.to_nat a)) by lia.
    destruct (decide (S (Z.to_nat a) <= i < S (Z.to_nat a) + n /\ i < length m)%nat) as [H|H].
    + destruct (decide _) as [H'|H']; [reflexivity|lia].
    + destruct (decide (i = Z.to_nat a)) as [->|Hne].
      * destruct (decide (Z.to_nat a < length m)%nat) as [Hlt|Hge].
        -- rewrite list_lookup_insert_eq by exact Hlt.
           destruct (decide _) as [H'|H']; [|lia]. rewrite Z2Nat.id by lia. reflexivity.
        -- rewrite list_insert_ge by lia. destruct (decide _) as [H'|H']; [lia|reflexivity].
      * rewrite list_lookup_insert_ne by congruence.
        destruct (decide _) as [H'|H']; [lia|reflexivity].
Qed.

Lemma fold_insert_seq_length (f : Z -> Z) (n : nat) : forall (a : Z) (m : list Z),
  length (fold_left (fun m' k => <[Z.to_nat k := f k]> m') (zseq a n) m) = length m.
Proof.
  induction n as [|n IH]; intros a m; simpl; [reflexivity|].
  rewrite IH. apply length_insert.
Qed.

Section DetectMap.

Variable T : Type.

Implicit Types (g : t T).

(** The flags DETECTED in the spectrum at pixel [xy], among the first
    channels [l]. *)
Definition detected_at g (xy z : Z) : bool :=
  match itsFlagArray g !! Z.to_nat (xy + z * (dimX g * dimY g)) with
  | Some DETECTED => true
  | _ => false
  end.

Definition detected_along g (xy : Z) : Z :=
  Z.of_nat (length (filter (fun z => detected_at g xy z = true) (zrange 0 (dimZ g - 1)))).

Lemma count_fold g xy (l : list Z) (ct : Z) :
  0 <= ct -> ct + Z.of_nat (length l) <= 32767 ->
  fold_left (fun ct z =>
               match itsFlagArray g !! Z.to_nat (xy + z * (dimX g * dimY g)) with
               | Some DETECTED => to_short (ct + 1)
               | _ => ct
               end) l ct
  = ct + Z.of_nat (length (filter (fun z => detected_at g xy z = true) l)).
Proof.
  revert ct. induction l as [|z l IH]; intros ct H0 Hle; [simpl; lia|]. cbn [fold_left].
  cbn [length] in Hle. rewrite Nat2Z.inj_succ in Hle.
  destruct (itsFlagArray g !! Z.to_nat (xy + z * (dimX g * dimY g))) as [[| |]|] eqn:E.
  - rewrite filter_cons_False by (unfold detected_at; rewrite E; discriminate).
    apply IH; lia.
  - rewrite filter_cons_True by (unfold detected_at; rewrite E; reflexivity).
    assert (to_short (ct + 1) = ct + 1) as ->.
    { unfold to_short. rewrite Z.mod_small by lia. lia. }
    rewrite IH by lia. cbn [length]. rewrite Nat2Z.inj_succ. lia.
  - rewrite filter_cons_False by (unfold detected_at; rewrite E; discriminate).
    apply IH; lia.
  - rewrite filter_cons_False by (unfold detected_at; rewrite E; discriminate).
    apply IH; lia.
Qed.

Lemma count_detected_spec g xy :
  dimZ g <= 32767 -> count_detected g xy = detected_along g xy.
Proof.
  intros Hz. unfold count_detected, detected_along. rewrite count_fold; [lia|lia|].
  unfold zrange. rewrite length_zseq. lia.
Qed.

(** The number of axes longer than one voxel. *)
Definition numNondegDim g : Z :=
  (if 1 <? dimX g then 1 else 0) + (if 1 <? dimY g then 1 else 0)
  + (if 1 <? dimZ g then 1 else 0).

(** X26.  [updateDetectMap] on a cube with at least two axes longer than
    one voxel, at most 32767 channels and a map of at least
    dimX*dimY entries: the entry of every pixel becomes the number of
    DETECTED voxels in the spectrum at that pixel, and the map keeps its
    length and its entries beyond the image.  On a cube with at most one
    such axis the entries written are those of the channels: entry z
    becomes 1 when flag z is DETECTED and 0 otherwise. *)
Theorem updateDetectMap_counts_detected (g : t T) (map : list Z) :
  dimZ g <= 32767 ->
  length (updateDetectMap g map) = length map /\
  (1 < numNondegDim g ->
   forall i, updateDetectMap g map !! i
             = if decide (i < Z.to_nat (dimX g * dimY g) /\ i < length map)%nat
               then Some (detected_along g (Z.of_nat i)) else map !! i) /\
  (numNondegDim g <= 1 ->
   forall i, updateDetectMap g map !! i
             = if decide (i < Z.to_nat (dimZ g) /\ i < length map)%nat
               then Some (if detected_at g (Z.of_nat i) 0 then 1 else 0) else map !! i).
Proof.
  intros Hz. unfold updateDetectMap. fold (numNondegDim g). split; [|split].
  - destruct (1 <? numNondegDim g); apply fold_insert_seq_length.
  - intros Hn. destruct (Z.ltb_spec 1 (numNondegDim g)) as [_|]; [|lia]. intros i.
    unfold zrange. rewrite fold_insert_seq by lia.
    replace (Z.to_nat (dimX g * dimY g - 1 - 0 + 1)) with (Z.to_nat (dimX g * dimY g)) by lia.
    destruct (decide _) as [H|H]; destruct (decide _) as [H'|H']; try reflexivity;
      try (simpl in *; lia).
    rewrite count_detected_spec by exact Hz. reflexivity.
  - intros Hn. destruct (Z.ltb_spec 1 (numNondegDim g)) as [|_]; [lia|]. intros i.
    unfold zrange. rewrite fold_insert_seq by lia.
    replace (Z.to_nat (dimZ g - 1 - 0 + 1)) with (Z.to_nat (dimZ g)) by lia.
    destruct (decide _) as [H|H]; destruct (decide _) as [H'|H']; try reflexivity;
      try (simpl in *; lia).
    unfold detected_at. rewrite Z.mul_0_l, Z.add_0_r, Nat2Z.id.
    destruct (itsFlagArray g !! i) as [[| |]|]; reflexivity.
Qed.

End DetectMap.

Lemma updateDetectMap_counts_detected_witness :
  dimZ small_grower <= 32767 /\
  length (updateDetectMap small_grower [7; 7; 7; 7; 7; 7; 7]) = length [7; 7; 7; 7; 7; 7; 7] /\
  (1 < numNondegDim Z small_grower ->
   forall i, updateDetectMap small_grower [7; 7; 7; 7; 7; 7; 7] !! i
             = if decide (i < Z.to_nat (dimX small_grower * dimY small_grower)
                          /\ i < length [7; 7; 7; 7; 7; 7; 7])%nat
               then Some (detected_along Z small_grower (Z.of_nat i))
               else [7; 7; 7; 7; 7; 7; 7] !! i) /\
  (numNondegDim Z small_grower <= 1 ->
   forall i, updateDetectMap small_grower [7; 7; 7; 7; 7; 7; 7] !! i
             = if decide (i < Z.to_nat (dimZ small_grower)
                          /\ i < length [7; 7; 7; 7; 7; 7; 7])%nat
               then Some (if detected_at Z small_grower (Z.of_nat i) 0 then 1 else 0)
               else [7; 7; 7; 7; 7; 7; 7] !! i).
Proof.
  assert (dimZ small_grower <= 32767) as Hz
    by (unfold dimZ, small_grower, define; simpl; lia).
  split; [exact Hz|].
  apply (updateDetectMap_counts_detected Z small_grower [7; 7; 7; 7; 7; 7; 7] Hz).
Defined.

(** The detection map of the small cube: one DETECTED voxel over pixel
    (1,0) and one over pixel (2,1); the entry beyond the image is kept. *)
Example updateDetectMap_small_cube :
  updateDetectMap small_grower [7; 7; 7; 7; 7; 7; 7] = [0; 1; 0; 0; 0; 1; 7].
Proof. reflexivity. Qed.

End GrowerSetupProps.

(** ** The inclination fit on a face-on first guess *)

Module InclinationFit.

Import Simplex.
Local Open Scope nat_scope.

Section Fit.

Context {T : Type} {A : Arith T}.

(** The objective function of the fit: [funcEllipse] for algorithm 2,
    [funcIncfromMap] for algorithm 3. *)
Variable func : list T -> T * list T.

(** The starting simplex of [findInclination] (algorithms 2 and 3) around
    [point]: [dels[i] = 0.1*point[i]; point[i] = point[i]-0.05*point[i]],
    then [p[i][j] = point[j]] and [p[i][i-1] += dels[i-1]] for [i != 0]. *)
Definition dels (ndim : nat) (point : list T) : list T :=
  map (fun i => Tmul (ofQ (1 # 10)) (get point i)) (seq 0 ndim).

Definition lowered (ndim : nat) (point : list T) : list T :=
  map (fun i => Tsub (get point i) (Tmul (ofQ (5 # 100)) (get point i))) (seq 0 ndim).

Definition start_simplex (ndim : nat) (point : list T) : list (list T) :=
  map (fun i =>
         map (fun j => if negb (i =? 0) && (j =? i - 1)
                       then Tadd (get (lowered ndim point) j) (get (dels ndim point) j)
                       else get (lowered ndim point) j)
             (seq 0 ndim))
      (seq 0 (S ndim)).

(** The fit of [findInclination] for algorithms 2 and 3, from the [Rmax]
    and [inclin] of algorithm 1: the new [Rmax] and [inclin] when
    [fitSimplex] returns true, [Some None] when it returns false and the
    program is terminated, [None] when the fuel of the loop does not
    suffice. *)
Definition fit_inclination (Rmax inclin : T) : option (option (T * T)) :=
  match fitSimplex func 2 (start_simplex 2 [Rmax; inclin]) with
  | Some (true, s) => Some (Some (get (row (p s) 0) 0, get (row (p s) 0) 1))
  | Some (false, _) => Some None
  | None => None
  end.

End Fit.

End InclinationFit.

Module InclinationFitProps.

Import Simplex SimplexProps SimplexBest InclinationFit.
Local Open Scope nat_scope.

Section Flat.

Context {T : Type} {A : Arith T}.
Variable func : list T -> T * list T.

(** The values that count as zero, and what exact arithmetic gives for
    them. *)
Variable Z0 : T -> Prop.

Hypothesis zero_lit : Z0 (ofQ 0).
Hypothesis zero_add : forall a b, Z0 a -> Z0 b -> Z0 (Tadd a b).
Hypothesis zero_sub : forall a b, Z0 a -> Z0 b -> Z0 (Tsub a b).
Hypothesis zero_mul_l : forall a x, Z0 a -> Z0 (Tmul a x).
Hypothesis zero_mul_r : forall a x, Z0 a -> Z0 (Tmul x a).

(** The coordinate that is flat, and the objective leaves it at zero
    ([funcEllipse] does not write to its argument; [funcIncfromMap] clips
    negative values and values above 90 only). *)
Variable j : nat.

Hypothesis func_keeps : forall x, Z0 (get x j) -> Z0 (get (snd (func x)) j).

Implicit Types (s : State T) (ndim : nat).

(** Every vertex has coordinate [j] zero, and so has [psum]. *)
Definition flat_rows (rows : list (list T)) : Prop := forall i, Z0 (get (row rows i) j).

Definition flat s : Prop := flat_rows (p s) /\ Z0 (get (psum s) j).

Lemma get_nil k : get (@nil T) k = ofQ 0.
Proof. unfold get. destruct k; reflexivity. Qed.

Lemma flat_rows_insert rows i r : flat_rows rows -> Z0 (get r j) -> flat_rows (<[i := r]> rows).
Proof.
  intros Hr Hz k. rewrite row_insert. destruct (decide _); [exact Hz|apply Hr].
Qed.

Lemma get_entries ndim (l : list T) : j < ndim -> get (entries ndim l) j = get l j.
Proof. intros Hj. unfold entries. apply get_tabulate, Hj. Qed.

Lemma column_sums_flat ndim mpts rows :
  j < ndim -> flat_rows rows -> Z0 (get (column_sums ndim mpts rows) j).
Proof.
  intros Hj Hr. unfold column_sums. rewrite get_tabulate by exact Hj.
  generalize (seq 0 mpts) as l. intros l.
  assert (Z0 (ofQ 0)) as H0 by exact zero_lit. revert H0. generalize (ofQ 0) as acc.
  induction l as [|i l IH]; simpl; intros acc Hacc; [exact Hacc|].
  apply IH, zero_add; [exact Hacc|apply Hr].
Qed.

Lemma try_flat ndim ihi fac s :
  j < ndim -> flat s -> flat (snd (try func ndim ihi fac s)).
Proof.
  intros Hj [Hr Hs]. unfold try.
  set (ptry := map _ (seq 0 ndim)).
  assert (Z0 (get ptry j)) as Hp.
  { unfold ptry. rewrite get_tabulate by exact Hj.
    apply zero_sub; apply zero_mul_l; [exact Hs|apply Hr]. }
  pose proof (func_keeps ptry Hp) as Hk.
  destruct (func ptry) as [ytry ptry']. simpl in Hk.
  destruct (Tlt ytry (get (y s) ihi)); simpl; [|split; assumption].
  split; simpl.
  - apply flat_rows_insert; [exact Hr|]. rewrite get_entries by exact Hj. exact Hk.
  - rewrite get_tabulate by exact Hj. apply zero_add; [exact Hs|].
    apply zero_sub; [exact Hk|apply Hr].
Qed.

Lemma shrink_step_flat ndim ilo s i :
  j < ndim -> flat s -> flat (shrink_step func ndim ilo s i).
Proof.
  intros Hj [Hr Hs]. unfold shrink_step. destruct (i =? ilo); [split; assumption|].
  split; simpl; [|exact Hs].
  apply flat_rows_insert; [exact Hr|]. rewrite get_tabulate by exact Hj.
  apply zero_mul_r, zero_add; apply Hr.
Qed.

Lemma shrink_flat ndim ilo s : j < ndim -> flat s -> flat (shrink func ndim ilo s).
Proof.
  intros Hj Hf. unfold shrink.
  assert (flat (fold_left (shrink_step func ndim ilo) (seq 0 (S ndim)) s)) as [Hr _].
  { revert Hf. generalize (seq 0 (S ndim)) as l. intros l. revert s.
    induction l as [|i l IH]; intros s Hf; [exact Hf|].
    cbn [fold_left]. apply IH, shrink_step_flat; assumption. }
  split; simpl; [exact Hr|]. apply column_sums_flat; assumption.
Qed.

Lemma advance_flat ndim s : j < ndim -> flat s -> flat (advance func ndim s).
Proof.
  intros Hj [Hr Hs]. unfold advance.
  destruct (ranks (S ndim) (y s)) as [[ilo ihi] inhi].
  assert (flat (mkState (p s) (y s) (psum s) (nfunc s + 2)%Z (evals s))) as H0
    by (split; assumption).
  pose proof (try_flat ndim ihi (ofQ (-1)) _ Hj H0) as H1.
  destruct (try func ndim ihi (ofQ (-1)) _) as [ytry s1]. simpl in H1.
  destruct (Tle ytry (get (y s1) ilo)); [apply try_flat; assumption|].
  destruct (Tle (get (y s1) inhi) ytry).
  - pose proof (try_flat ndim ihi (ofQ (1 # 2)) s1 Hj H1) as H2.
    destruct (try func ndim ihi (ofQ (1 # 2)) s1) as [ytry2 s2]. simpl in H2.
    destruct (Tle (get (y s1) ihi) ytry2); [apply shrink_flat; assumption|exact H2].
  - destruct H1 as [H1 H1']. split; assumption.
Qed.

Lemma pass_flat k ndim s : j < ndim -> flat s -> flat (pass func k ndim s).
Proof.
  intros Hj. revert s. induction k as [|k IH]; intros s Hf; [exact Hf|].
  simpl. apply IH, advance_flat; assumption.
Qed.

Lemma swap_best_flat ndim s : j < ndim -> flat s -> flat (swap_best ndim s).
Proof.
  intros Hj [Hr Hs]. unfold swap_best. destruct (ranks (S ndim) (y s)) as [[ilo ihi] inhi].
  split; simpl; [|exact Hs].
  apply flat_rows_insert; [apply flat_rows_insert; [exact Hr|]|];
    rewrite get_entries by exact Hj; apply Hr.
Qed.

Lemma initial_flat ndim p0 : j < ndim -> flat_rows p0 -> flat (initial func ndim p0).
Proof.
  intros Hj Hr. split; simpl; [exact Hr|]. apply column_sums_flat; assumption.
Qed.

Lemma fitSimplex_flat ndim p0 :
  j < ndim -> flat_rows p0 ->
  exists ok s, fitSimplex func ndim p0 = Some (ok, s) /\ flat_rows (p s).
Proof.
  intros Hj Hr. unfold fitSimplex.
  destruct (iterate_stops func ndim (Z.to_nat NMAX) (initial func ndim p0))
    as (k & _ & _ & Hend).
  { simpl. unfold NMAX. lia. }
  pose proof (pass_flat k ndim _ Hj (initial_flat ndim p0 Hj Hr)) as Hk.
  destruct Hend as [(_ & E)|(_ & _ & E)]; rewrite E; eexists _, _; (split; [reflexivity|]).
  - apply (swap_best_flat ndim _ Hj Hk).
  - apply Hk.
Qed.

End Flat.

Lemma start_simplex_flat {T : Type} {A : Arith T} (Z0 : T -> Prop) (Rmax inclin : T) :
  Z0 (ofQ 0) -> (forall a b, Z0 a -> Z0 b -> Z0 (Tadd a b)) ->
  (forall a b, Z0 a -> Z0 b -> Z0 (Tsub a b)) -> (forall a x, Z0 a -> Z0 (Tmul x a)) ->
  Z0 inclin -> flat_rows Z0 1 (start_simplex 2 [Rmax; inclin]).
Proof.
  intros H0 Hadd Hsub Hmul Hi.
  assert (Z0 (Tsub inclin (Tmul (ofQ (5 # 100)) inclin))) as Hlow
    by (apply Hsub; [exact Hi|apply Hmul, Hi]).
  assert (Z0 (Tmul (ofQ (1 # 10)) inclin)) as Hdel by (apply Hmul, Hi).
  intros i. unfold start_simplex, row, get, lowered, dels.
  destruct i as [|[|[|i]]]; simpl; auto.
  destruct i; exact H0.
Qed.

(** X27.  The fit of [findInclination] (algorithms 2 and 3) cannot leave
    a face-on first guess.  In exact arithmetic, with an objective that
    leaves a zero inclination in its argument at zero ([funcEllipse] does
    not write to its argument, [funcIncfromMap] only clips values below 0
    or above 90): when algorithm 1 gives [inclin = 0], every vertex of the
    starting simplex has inclination 0, [fitSimplex] returns, and the
    inclination it leaves in [p[0][1]] is 0 again. *)
Theorem fit_inclination_keeps_face_on {T : Type} {A : Arith T}
    (func : list T -> T * list T) (Z0 : T -> Prop) (Rmax inclin : T) :
  Z0 (ofQ 0) ->
  (forall a b, Z0 a -> Z0 b -> Z0 (Tadd a b)) ->
  (forall a b, Z0 a -> Z0 b -> Z0 (Tsub a b)) ->
  (forall a x, Z0 a -> Z0 (Tmul a x)) ->
  (forall a x, Z0 a -> Z0 (Tmul x a)) ->
  (forall x, Z0 (get x 1) -> Z0 (get (snd (func x)) 1)) ->
  Z0 inclin ->
  exists r, fit_inclination func Rmax inclin = Some r /\
            forall Rmax' inclin', r = Some (Rmax', inclin') -> Z0 inclin'.
Proof.
  intros H0 Hadd Hsub Hml Hmr Hkeep Hi. unfold fit_inclination.
  destruct (fitSimplex_flat func Z0 H0 Hadd Hsub Hml Hmr 1 Hkeep 2
              (start_simplex 2 [Rmax; inclin]) ltac:(lia)
              (start_simplex_flat Z0 Rmax inclin H0 Hadd Hsub Hmr Hi))
    as (ok & s & E & Hflat).
  rewrite E. destruct ok; eexists; (split; [reflexivity|]).
  - intros R' i' [= <- <-]. apply Hflat.
  - intros R' i' [=].
Qed.

(** An objective on exact rationals that looks at the radius only. *)
Definition radius_only (x : list Q) : Q * list Q :=
  (((get (A := Q_exact) x 0 - 2) * (get (A := Q_exact) x 0 - 2))%Q, x).

Lemma fit_inclination_keeps_face_on_witness :
  exists r, fit_inclination (A := Q_exact) radius_only 3%Q 0%Q = Some r /\
            forall Rmax' inclin', r = Some (Rmax', inclin') -> (inclin' == 0)%Q.
Proof.
  apply (fit_inclination_keeps_face_on (A := Q_exact) radius_only (fun q => (q == 0)%Q)
           3%Q 0%Q).
  - reflexivity.
  - intros a b Ha Hb. simpl. rewrite Ha, Hb. reflexivity.
  - intros a b Ha Hb. simpl. rewrite Ha, Hb. reflexivity.
  - intros a x Ha. simpl. rewrite Ha. apply Qmult_0_l.
  - intros a x Ha. simpl. rewrite Ha. apply Qmult_0_r.
  - intros x Hx. exact Hx.
  - reflexivity.
Defined.

End InclinationFitProps.

(** ** The objective of the ellipse fit *)

Module EllipseScore.

Import PixelInfo ParamGuess.
Local Open Scope R_scope.

Section Ellipse.

(** The velocity field with its centre, the second dimension of the image,
    the position angle, and the pixel scale in arcseconds
    ([in->Head().PixScale()*arcsconv(in->Head().Cunit(0))]). *)
Variable F : Field.
Variable DimY : Z.
Variables (posang scale : R).

(** [mypar[i]]. *)
Definition par (mypar : list R) (i : nat) : R := nth i mypar 0.

(** The radius of pixel (x, y) in the plane of the ellipse of inclination
    [inc]: [sqrt(xr*xr+yr*yr)]. *)
Definition ellipse_radius (inc : R) (x y : Z) : R :=
  let f := PI / 180 in
  let xr := - (IZR x - xcentre F) * sin (f * posang) + (IZR y - ycentre F) * cos (f * posang) in
  let yr := (- (IZR x - xcentre F) * cos (f * posang) - (IZR y - ycentre F) * sin (f * posang))
            / cos (f * inc) in
  sqrt (xr * xr + yr * yr).

(** [bool isIn = r<=R].  The division by [cos(F*inc)] gives an infinite
    value or a NaN when the cosine is 0, and the comparison is then
    false. *)
Definition isIn (Rpix inc : R) (x y : Z) : bool :=
  negb (Reqb (cos (PI / 180 * inc)) 0) && Rleb (ellipse_radius inc x y) Rpix.

(** The body of the inner loop: [func++] on a NaN pixel of the ellipse,
    [func--] on any other pixel of it. *)
Definition score_pixel (Rpix inc : R) (x : Z) (func : Z) (y : Z) : Z :=
  if isIn Rpix inc x y
  then match Vemap F (x + y * DimX F)%Z with
       | None => (func + 1)%Z
       | Some _ => (func - 1)%Z
       end
  else func.

(** [ParamGuess::funcEllipse]; the count is returned as a value of [T]. *)
Definition funcEllipse (mypar : list R) : R :=
  let Rpix := par mypar 0 / scale in
  let inc := par mypar 1 in
  IZR (fold_left (fun func x => fold_left (score_pixel Rpix inc x)
                                          (zrange 0%Z (DimY - 1)%Z) func)
                 (zrange 0%Z (DimX F - 1)%Z) 0%Z).

End Ellipse.

End EllipseScore.

Module EllipseScoreProps.

Import PixelInfo PixelInfoProps ParamGuess ParamGuessProps EllipseScore.
Local Open Scope Z_scope.

Section EllipseProps.

Variable F : Field.
Variable DimY : Z.
Variables (posang scale : R).

(** The count of the loops, before its conversion. *)
Definition score (Rpix inc : R) : Z :=
  fold_left (fun func x => fold_left (score_pixel F posang Rpix inc x)
                                     (zrange 0 (DimY - 1)) func)
            (zrange 0 (DimX F - 1)) 0.

(** The loops add, pixel by pixel, a term that depends on the pixel
    only. *)
Definition term (Rpix inc : R) (x y : Z) : Z :=
  if isIn F posang Rpix inc x y
  then match Vemap F (x + y * DimX F) with None => 1 | Some _ => -1 end
  else 0.

Lemma score_pixel_term Rpix inc x func y :
  score_pixel F posang Rpix inc x func y = func + term Rpix inc x y.
Proof.
  unfold score_pixel, term. destruct (isIn _ _ _ _ _ _); [|lia].
  destruct (Vemap F _); lia.
Qed.

Lemma inner_sum Rpix inc x (l : list Z) func :
  fold_left (score_pixel F posang Rpix inc x) l func
  = func + fold_right (fun y acc => term Rpix inc x y + acc) 0 l.
Proof.
  revert func. induction l as [|y l IH]; intros func; simpl; [lia|].
  rewrite IH, score_pixel_term. lia.
Qed.

Definition column (Rpix inc : R) (x : Z) : Z :=
  fold_right (fun y acc => term Rpix inc x y + acc) 0 (zrange 0 (DimY - 1)).

Lemma outer_sum Rpix inc (l : list Z) func :
  fold_left (fun func x => fold_left (score_pixel F posang Rpix inc x)
                                     (zrange 0 (DimY - 1)) func) l func
  = func + fold_right (fun x acc => column Rpix inc x + acc) 0 l.
Proof.
  revert func. induction l as [|x l IH]; intros func; simpl; [lia|].
  rewrite IH, inner_sum. unfold column. lia.
Qed.

(** Sums of terms that are bounded, or compared, term by term. *)
Lemma sum_bounds (f : Z -> Z) (lo hi : Z) (l : list Z) :
  (forall v, lo <= f v <= hi) ->
  lo * Z.of_nat (length l) <= fold_right (fun v acc => f v + acc) 0 l <= hi * Z.of_nat (length l).
Proof.
  intros Hf. induction l as [|v l IH]; [simpl; lia|].
  cbn [fold_right length]. rewrite Nat2Z.inj_succ. specialize (Hf v). nia.
Qed.

Lemma sum_le (f f' : Z -> Z) (l : list Z) :
  (forall v, f v <= f' v) ->
  fold_right (fun v acc => f v + acc) 0 l <= fold_right (fun v acc => f' v + acc) 0 l.
Proof.
  intros Hf. induction l as [|v l IH]; simpl; [lia|]. specialize (Hf v). lia.
Qed.

Lemma sum_zero (f : Z -> Z) (l : list Z) :
  (forall v, f v = 0) -> fold_right (fun v acc => f v + acc) 0 l = 0.
Proof. intros Hf. induction l as [|v l IH]; simpl; [reflexivity|]. rewrite Hf, IH. reflexivity. Qed.

Lemma term_bounds Rpix inc x y : -1 <= term Rpix inc x y <= 1.
Proof. unfold term. destruct (isIn _ _ _ _ _ _); [destruct (Vemap F _)|]; lia. Qed.

Lemma ellipse_radius_nonneg inc x y : (0 <= ellipse_radius F posang inc x y)%R.
Proof. unfold ellipse_radius. apply sqrt_pos. Qed.

Lemma isIn_negative Rpix inc x y : (Rpix < 0)%R -> isIn F posang Rpix inc x y = false.
Proof.
  intros H. unfold isIn. apply andb_false_intro2. unfold Rleb.
  destruct (Rle_dec _ _) as [Hle|]; [|reflexivity].
  pose proof (ellipse_radius_nonneg inc x y). lra.
Qed.

Lemma isIn_mono Rpix Rpix' inc x y :
  (Rpix <= Rpix')%R -> isIn F posang Rpix inc x y = true -> isIn F posang Rpix' inc x y = true.
Proof.
  unfold isIn. intros H. rewrite !andb_true_iff. intros [H1 H2]. split; [exact H1|].
  unfold Rleb in *. destruct (Rle_dec _ Rpix) as [Hle|]; [|discriminate].
  destruct (Rle_dec _ Rpix') as [|Hn]; [reflexivity|]. lra.
Qed.

Lemma length_zrange0 n : Z.of_nat (length (zrange 0 (n - 1))) = Z.max 0 n.
Proof. unfold zrange. rewrite length_zseq. lia. Qed.

Lemma sum_le_in (f f' : Z -> Z) (l : list Z) :
  (forall v, v ∈ l -> f v <= f' v) ->
  fold_right (fun v acc => f v + acc) 0 l <= fold_right (fun v acc => f' v + acc) 0 l.
Proof.
  intros Hf. induction l as [|v l IH]; simpl; [lia|].
  pose proof (Hf v ltac:(left)). pose proof (IH (fun w Hw => Hf w ltac:(right; exact Hw))). lia.
Qed.

Lemma sum_nonpos_in (f : Z -> Z) (l : list Z) :
  (forall v, v ∈ l -> f v <= 0) -> fold_right (fun v acc => f v + acc) 0 l <= 0.
Proof.
  intros Hf. induction l as [|v l IH]; simpl; [lia|].
  pose proof (Hf v ltac:(left)). pose proof (IH (fun w Hw => Hf w ltac:(right; exact Hw))). lia.
Qed.

Lemma score_sum Rpix inc :
  score Rpix inc = fold_right (fun x acc => column Rpix inc x + acc) 0 (zrange 0 (DimX F - 1)).
Proof. unfold score. rewrite outer_sum. lia. Qed.

Lemma score_bounds Rpix inc :
  - (Z.max 0 (DimX F) * Z.max 0 DimY) <= score Rpix inc <= Z.max 0 (DimX F) * Z.max 0 DimY.
Proof.
  rewrite score_sum.
  pose proof (sum_bounds (column Rpix inc) (- Z.max 0 DimY) (Z.max 0 DimY)
                (zrange 0 (DimX F - 1))) as H.
  rewrite length_zrange0 in H.
  assert (forall x, - Z.max 0 DimY <= column Rpix inc x <= Z.max 0 DimY) as Hc.
  { intros x. unfold column.
    pose proof (sum_bounds (term Rpix inc x) (-1) 1 (zrange 0 (DimY - 1))
                  (term_bounds Rpix inc x)) as Hx.
    rewrite length_zrange0 in Hx. lia. }
  specialize (H Hc). lia.
Qed.

Lemma score_negative_radius Rpix inc : (Rpix < 0)%R -> score Rpix inc = 0.
Proof.
  intros H. rewrite score_sum. apply sum_zero. intros x. unfold column. apply sum_zero.
  intros y. unfold term. rewrite isIn_negative by exact H. reflexivity.
Qed.

(** No pixel of the image is a NaN. *)
Definition no_blank : Prop :=
  forall x y, 0 <= x < DimX F -> 0 <= y < DimY -> Vemap F (x + y * DimX F) <> None.

Lemma score_no_blank Rpix Rpix' inc :
  no_blank -> (Rpix <= Rpix')%R -> score Rpix' inc <= score Rpix inc <= 0.
Proof.
  intros Hnb Hle. rewrite !score_sum. split.
  - apply sum_le_in. intros x Hx. apply elem_of_zrange in Hx. unfold column.
    apply sum_le_in. intros y Hy. apply elem_of_zrange in Hy. unfold term.
    specialize (Hnb x y ltac:(lia) ltac:(lia)).
    destruct (Vemap F (x + y * DimX F)); [|contradiction].
    destruct (isIn F posang Rpix inc x y) eqn:E.
    + rewrite (isIn_mono Rpix Rpix' inc x y Hle E). lia.
    + destruct (isIn F posang Rpix' inc x y); lia.
  - apply sum_nonpos_in. intros x Hx. apply elem_of_zrange in Hx. unfold column.
    apply sum_nonpos_in. intros y Hy. apply elem_of_zrange in Hy. unfold term.
    specialize (Hnb x y ltac:(lia) ltac:(lia)).
    destruct (Vemap F (x + y * DimX F)); [|contradiction].
    destruct (isIn F posang Rpix inc x y); lia.
Qed.

(** X28.  [funcEllipse] counts, over the pixels of the image inside the
    ellipse, +1 for a NaN pixel and -1 for any other: its value lies
    between -DimX*DimY and DimX*DimY; an ellipse of negative radius scores
    0; and on a velocity field without NaN pixels the score is never
    positive and a larger radius (at the same inclination) never scores
    higher. *)
Theorem funcEllipse_rewards_valid_pixels (mypar mypar' : list R) :
  (- IZR (Z.max 0 (DimX F) * Z.max 0 DimY) <= funcEllipse F DimY posang scale mypar
   <= IZR (Z.max 0 (DimX F) * Z.max 0 DimY))%R /\
  ((par mypar 0 / scale < 0)%R -> funcEllipse F DimY posang scale mypar = 0%R) /\
  (no_blank -> par mypar' 1 = par mypar 1 ->
   (par mypar 0 / scale <= par mypar' 0 / scale)%R ->
   (funcEllipse F DimY posang scale mypar' <= funcEllipse F DimY posang scale mypar <= 0)%R).
Proof.
  unfold funcEllipse. fold (score (par mypar 0 / scale) (par mypar 1)).
  fold (score (par mypar' 0 / scale) (par mypar' 1)). split; [|split].
  - pose proof (score_bounds (par mypar 0 / scale) (par mypar 1)) as [H1 H2].
    rewrite <- opp_IZR. split; apply IZR_le; assumption.
  - intros H. rewrite (score_negative_radius _ _ H). reflexivity.
  - intros Hnb Ei Hle. rewrite Ei.
    destruct (score_no_blank _ _ (par mypar 1) Hnb Hle) as [H1 H2].
    split; [apply IZR_le, H1|]. change 0%R with (IZR 0). apply IZR_le, H2.
Qed.

End EllipseProps.

End EllipseScoreProps.

(** ** The end points of the axes *)

Module AxisEnds.

Import PixelInfo PixelInfoProps ParamGuess ParamGuessProps.
Local Open Scope R_scope.

(** The end point kept for one side goes with the radius kept for it: both
    are at their start values, or the end point is a pixel of that side
    at which the radius was measured. *)
Definition end_of (F : Field) (l : list (Z * Z * bool)) (side : bool) (m : R) (c : Z * Z)
  : Prop :=
  (m = 0 /\ c = (0, 0)%Z) \/
  (0 < m /\ (fst c, snd c, side) ∈ l /\ radius F (fst c) (snd c) = m).

Lemma end_of_more F l l' side m c :
  end_of F l side m c -> end_of F (l ++ l') side m c.
Proof.
  intros [H|(H1 & H2 & H3)]; [left; exact H|right].
  split; [exact H1|]. split; [apply elem_of_app; left; exact H2|exact H3].
Qed.

Lemma axis_update_ends F l st x y lower :
  0 <= axis_r_l st -> 0 <= axis_r_r st ->
  end_of F l true (axis_r_l st) (coords_up st) ->
  end_of F l false (axis_r_r st) (coords_low st) ->
  0 <= axis_r_l (axis_update F lower st x y) /\
  0 <= axis_r_r (axis_update F lower st x y) /\
  end_of F (l ++ [(x, y, lower)]) true (axis_r_l (axis_update F lower st x y))
         (coords_up (axis_update F lower st x y)) /\
  end_of F (l ++ [(x, y, lower)]) false (axis_r_r (axis_update F lower st x y))
         (coords_low (axis_update F lower st x y)).
Proof.
  intros Hl Hr El Er. unfold axis_update.
  pose proof (end_of_more F l [(x, y, lower)] true _ _ El) as El'.
  pose proof (end_of_more F l [(x, y, lower)] false _ _ Er) as Er'.
  destruct lower; rewrite ?andb_true_r, ?andb_false_r; simpl.
  - destruct (Rltb_spec (axis_r_l st) (radius F x y)) as [H|H]; simpl.
    + split; [lra|]. split; [exact Hr|]. split; [|exact Er'].
      right. simpl. split; [lra|]. split; [|reflexivity]. apply elem_of_app. right. left.
    + split; [exact Hl|]. split; [exact Hr|]. split; assumption.
  - destruct (Rltb_spec (axis_r_r st) (radius F x y)) as [H|H]; simpl.
    + split; [exact Hl|]. split; [lra|]. split; [exact El'|].
      right. simpl. split; [lra|]. split; [|reflexivity]. apply elem_of_app. right. left.
    + split; [exact Hl|]. split; [exact Hr|]. split; assumption.
Qed.

Lemma axis_fold_ends F (sample : Z -> option (Z * Z * bool)) zs st l :
  0 <= axis_r_l st -> 0 <= axis_r_r st ->
  end_of F l true (axis_r_l st) (coords_up st) ->
  end_of F l false (axis_r_r st) (coords_low st) ->
  let st' := fold_left (fun st z => match sample z with
                                    | Some (x, y, lower) => axis_update F lower st x y
                                    | None => st
                                    end) zs st in
  end_of F (l ++ omap sample zs) true (axis_r_l st') (coords_up st') /\
  end_of F (l ++ omap sample zs) false (axis_r_r st') (coords_low st').
Proof.
  revert st l. induction zs as [|z zs IH]; intros st l Hl Hr El Er; simpl.
  - rewrite app_nil_r. split; assumption.
  - destruct (sample z) as [[[x y] lower]|]; simpl.
    + destruct (axis_update_ends F l st x y lower Hl Hr El Er) as (Hl' & Hr' & El' & Er').
      specialize (IH _ _ Hl' Hr' El' Er'). simpl in IH. rewrite <- app_assoc in IH. exact IH.
    + apply IH; assumption.
Qed.

Section Ends.

Variable atan_deg : R -> R.

Lemma axis_scan_ends F lpar :
  end_of F (axis_pixels atan_deg F lpar) true (axis_r_l (axis_scan atan_deg F lpar))
         (coords_up (axis_scan atan_deg F lpar)) /\
  end_of F (axis_pixels atan_deg F lpar) false (axis_r_r (axis_scan atan_deg F lpar))
         (coords_low (axis_scan atan_deg F lpar)).
Proof.
  assert (forall side, end_of F [] side 0 (0, 0)%Z) as H0 by (intros side; left; auto).
  unfold axis_scan, axis_pixels.
  destruct (Rltb 45 (line_angle atan_deg lpar) && Rltb (line_angle atan_deg lpar) 135).
  - pose proof (axis_fold_ends F
      (fun y => let x := if Reqb (line_angle atan_deg lpar) 90 then lround (xcentre F)
                         else lround ((IZR y - snd lpar) / fst lpar) in
                if okY F x y
                then Some (x, y, if Reqb (line_angle atan_deg lpar) 90 then Rleb (IZR y) (ycentre F)
                                 else Rleb (IZR x) (xcentre F))
                else None)
      (zrange (Ymin F) (Ymax F)) (mkAxisState 0 0 (0, 0)%Z (0, 0)%Z) []
      (Rle_refl 0) (Rle_refl 0) (H0 true) (H0 false)) as H.
    simpl in H.
    erewrite (fold_left_same (axis_step_y atan_deg F lpar)); [exact H|].
    intros st y. unfold axis_step_y. simpl. destruct (okY F _ y); reflexivity.
  - pose proof (axis_fold_ends F
      (fun x => let y := lround (fst lpar * IZR x + snd lpar) in
                if okX F x y then Some (x, y, Rleb (IZR x) (xcentre F)) else None)
      (zrange (Xmin F) (Xmax F)) (mkAxisState 0 0 (0, 0)%Z (0, 0)%Z) []
      (Rle_refl 0) (Rle_refl 0) (H0 true) (H0 false)) as H.
    simpl in H.
    erewrite (fold_left_same (axis_step_x F lpar)); [exact H|].
    intros st x. unfold axis_step_x. simpl. destruct (okX F x _); reflexivity.
Qed.

(** The pixels [findAxisLength] accepts lie in the box of the object and
    are not NaN. *)
Lemma axis_pixels_valid F lpar x y side :
  (x, y, side) ∈ axis_pixels atan_deg F lpar ->
  (Xmin F <= x <= Xmax F)%Z /\ (Ymin F <= y <= Ymax F)%Z /\
  Vemap F (y * DimX F + x)%Z <> None.
Proof.
  unfold axis_pixels.
  destruct (Rltb 45 (line_angle atan_deg lpar) && Rltb (line_angle atan_deg lpar) 135); intros Hin;
    apply list_elem_of_omap in Hin as (z & Hz & E); apply elem_of_zrange in Hz.
  - cbv zeta in E.
    destruct (okY F _ z) eqn:Eok; [|discriminate]. injection E as <- <- _.
    unfold okY in Eok. apply andb_true_iff in Eok as [Eok Ev].
    apply andb_true_iff in Eok as [E1 E2]. apply Z.leb_le in E1, E2.
    split; [lia|]. split; [lia|]. intros Hn. rewrite Hn in Ev. discriminate.
  - cbv zeta in E.
    destruct (okX F z _) eqn:Eok; [|discriminate]. injection E as <- <- _.
    unfold okX in Eok. apply andb_true_iff in Eok as [Eok Ev].
    apply andb_true_iff in Eok as [E1 E2]. apply Z.leb_le in E1, E2.
    split; [lia|]. split; [lia|]. intros Hn. rewrite Hn in Ev. discriminate.
Qed.

(** X29.  The end points [findAxisLength] leaves in [coords_up] and
    [coords_low] go with the two radii it averages: on each side, either
    no pixel farther than the centre was found, the radius is 0 and the end
    point is (0,0), or the end point is a pixel of the velocity field that
    is not NaN, inside the box of the object, whose distance from the
    centre is the radius of that side. *)
Theorem findAxisLength_end_points (F : Field) (lpar : R * R) :
  findAxisLength atan_deg F lpar = (axis_r_r (axis_scan atan_deg F lpar) + axis_r_l (axis_scan atan_deg F lpar)) / 2 /\
  ((axis_r_l (axis_scan atan_deg F lpar) = 0 /\ coords_up (axis_scan atan_deg F lpar) = (0, 0)%Z) \/
   (0 < axis_r_l (axis_scan atan_deg F lpar) /\
    radius F (fst (coords_up (axis_scan atan_deg F lpar))) (snd (coords_up (axis_scan atan_deg F lpar)))
    = axis_r_l (axis_scan atan_deg F lpar) /\
    (Xmin F <= fst (coords_up (axis_scan atan_deg F lpar)) <= Xmax F)%Z /\
    (Ymin F <= snd (coords_up (axis_scan atan_deg F lpar)) <= Ymax F)%Z /\
    Vemap F (snd (coords_up (axis_scan atan_deg F lpar)) * DimX F
             + fst (coords_up (axis_scan atan_deg F lpar)))%Z <> None)) /\
  ((axis_r_r (axis_scan atan_deg F lpar) = 0 /\ coords_low (axis_scan atan_deg F lpar) = (0, 0)%Z) \/
   (0 < axis_r_r (axis_scan atan_deg F lpar) /\
    radius F (fst (coords_low (axis_scan atan_deg F lpar))) (snd (coords_low (axis_scan atan_deg F lpar)))
    = axis_r_r (axis_scan atan_deg F lpar) /\
    (Xmin F <= fst (coords_low (axis_scan atan_deg F lpar)) <= Xmax F)%Z /\
    (Ymin F <= snd (coords_low (axis_scan atan_deg F lpar)) <= Ymax F)%Z /\
    Vemap F (snd (coords_low (axis_scan atan_deg F lpar)) * DimX F
             + fst (coords_low (axis_scan atan_deg F lpar)))%Z <> None)).
Proof.
  split; [reflexivity|].
  destruct (axis_scan_ends F lpar) as [[Hu|(Hu1 & Hu2 & Hu3)] [Hl|(Hl1 & Hl2 & Hl3)]].
  - split; left; assumption.
  - split; [left; assumption|right].
    split; [exact Hl1|]. split; [exact Hl3|]. exact (axis_pixels_valid F lpar _ _ _ Hl2).
  - split; [right|left; assumption].
    split; [exact Hu1|]. split; [exact Hu3|]. exact (axis_pixels_valid F lpar _ _ _ Hu2).
  - split; right.
    + split; [exact Hu1|]. split; [exact Hu3|]. exact (axis_pixels_valid F lpar _ _ _ Hu2).
    + split; [exact Hl1|]. split; [exact Hl3|]. exact (axis_pixels_valid F lpar _ _ _ Hl2).
Qed.

End Ends.

End AxisEnds.

